(** * Query-based replication (QRep) orchestrator of peerdb: a shallow embedding

  The development embeds, as executable Rocq functions,
  - [flow/workflows/qrep_flow.go]: the QRep orchestrator workflow
    [QRepFlowWorkflow], its helpers, and [QRepWaitForNewRowsWorkflow];
  - the dynamic setting lookup of package [peerdbenv]
    ([dynLookup], [dynamicConfBool], [dynamicConfSigned],
    [dynamicConfUnsigned]);
  - [RecordItems.toMap] of package [model];
  and then states and proves the properties of the specification about
  them.

  The Temporal runtime is not part of the program.  Every interaction with
  it (an activity, a child workflow, a signal receive, a sleep, a setting
  lookup) is recorded as an [Event] in a trace, and what the runtime
  answers is read from a [World], which may depend on the whole history of
  the run.  Activity options (timeouts, retry policies) and logging have no
  effect on the values computed and are left out. *)

From Stdlib Require Import ZArith Lia Ascii.
From Stdlib Require Import SpecFloat.
From stdpp Require Import base gmap strings list fin_maps.

Local Open Scope Z_scope.

(** ** Go values *)

Module Go.

(** Go's [error] values: a plain message ([errors.New], or an error that
    comes from outside the program), an error wrapped by
    [fmt.Errorf("pre: %w", err)], kept with the text before the verb, and
    the [*strconv.NumError] of a failed conversion. *)
Inductive error :=
| errorString (msg : string)
| wrapError (pre : string) (err : error)
| NumError (Func Num : string) (Err : error).

Definition Errorf (pre : string) (err : error) : error := wrapError pre err.

(** [len] of a slice, as an [int]. *)
Definition len {A} (l : list A) : Z := Z.of_nat (length l).

(** Conversions between integer types wrap around. *)
Definition int32 (z : Z) : Z := (z + 2 ^ 31) mod 2 ^ 32 - 2 ^ 31.
Definition int64 (z : Z) : Z := (z + 2 ^ 63) mod 2 ^ 64 - 2 ^ 63.
Definition uint64 (z : Z) : Z := z mod 2 ^ 64.

(** [time.Second], a [time.Duration]: an [int64] count of nanoseconds. *)
Definition Second : Z := 1000000000.

(** [s[lo:hi]]; out of range the expression panics, here [None]. *)
Definition slice {A} (s : list A) (lo hi : Z) : option (list A) :=
  if bool_decide (0 ≤ lo ∧ lo ≤ hi ∧ hi ≤ len s)
  then Some (take (Z.to_nat (hi - lo)) (drop (Z.to_nat lo) s))
  else None.

(** [strings.TrimSuffix]. *)
Definition HasSuffix (s suffix : string) : bool :=
  bool_decide (String.length suffix ≤ String.length s)%nat &&
  bool_decide (String.substring (String.length s - String.length suffix)
                                (String.length suffix) s = suffix).

Definition TrimSuffix (s suffix : string) : string :=
  if HasSuffix s suffix
  then String.substring 0 (String.length s - String.length suffix) s
  else s.

End Go.

(** ** Package [shared] *)

Module shared.

(** Modelled from the spec: [shared.DivCeil] is not among the sources at
    hand.  The spec reads [DivCeil(len, maxParallelWorkers)] as
    [ceil(len / maxParallelWorkers)]; on integers that is
    [(x + y - 1) / y], with Go's truncating division. *)
Definition DivCeil (x y : Z) : Z := (x + y - 1) ÷ y.

End shared.

(** ** Package [protos]: the messages the workflows read and write

  The generated package is not among the sources; the records carry the
  fields the workflows use, with the types the spec's data model gives. *)

Module protos.

Inductive FlowStatus :=
| STATUS_SETUP
| STATUS_RUNNING
| STATUS_PAUSING
| STATUS_PAUSED
| STATUS_COMPLETED
| STATUS_FAILED.

Inductive QRepWriteType :=
| QREP_WRITE_MODE_APPEND
| QREP_WRITE_MODE_UPSERT
| QREP_WRITE_MODE_OVERWRITE.

Record QRepWriteMode := {
  WriteType : QRepWriteType;
  UpsertKeyColumns : list string
}.

(** A closed interval over the watermark column. *)
Inductive PartitionRange :=
| IntPartitionRange (rstart rend : Z)
| TimestampPartitionRange (rstart rend : Z)
| TIDPartitionRange (bstart ostart bend oend : Z).

Record QRepPartition := {
  PartitionId : string;
  Range : option PartitionRange;
  FullTablePartition : bool
}.

Record QRepPartitionBatch := {
  BatchId : Z;                        (* int32 *)
  Partitions : list QRepPartition
}.

Record QRepFlowState := {
  LastPartition : option QRepPartition;   (* a pointer, possibly nil *)
  NumPartitionsProcessed : Z;             (* uint64 *)
  NeedsResync : bool;
  CurrentFlowStatus : FlowStatus
}.

Record QRepConfig := {
  FlowJobName : string;
  SourceName : string;
  DestinationName : string;
  DestinationTableIdentifier : string;
  WatermarkTable : string;
  SetupWatermarkTableOnDestination : bool;
  SyncedAtColName : string;
  SoftDeleteColName : string;
  Env : gmap string string;
  System : Z;
  Version : Z;
  DstTableFullResync : bool;
  InitialCopyOnly : bool;
  WriteMode : option QRepWriteMode;       (* a pointer, possibly nil *)
  MaxParallelWorkers : Z;                 (* uint32 *)
  WaitBetweenBatchesSeconds : Z           (* uint32 *)
}.

Record TableMapping := {
  SourceTableIdentifier : string;
  tm_DestinationTableIdentifier : string
}.

Record SetupTableSchemaBatchInput := {
  stsb_PeerName : string;
  stsb_TableMappings : list TableMapping;
  stsb_FlowName : string;
  stsb_System : Z;
  stsb_Env : gmap string string;
  stsb_Version : Z
}.

Record SetupNormalizedTableBatchInput := {
  sntb_PeerName : string;
  sntb_TableMappings : list TableMapping;
  sntb_SyncedAtColName : string;
  sntb_SoftDeleteColName : string;
  sntb_FlowName : string;
  sntb_Env : gmap string string;
  sntb_IsResync : bool
}.

Record CreateTablesFromExistingInput := {
  ctfe_FlowJobName : string;
  ctfe_PeerName : string;
  NewToExistingTableMapping : gmap string string
}.

Record RenameTableOption := {
  CurrentName : string;
  NewName : string
}.

Record RenameTablesInput := {
  rti_FlowJobName : string;
  rti_PeerName : string;
  RenameTableOptions : list RenameTableOption
}.

#[global] Instance FlowStatus_eq_dec : EqDecision FlowStatus.
Proof. solve_decision. Defined.
#[global] Instance QRepWriteType_eq_dec : EqDecision QRepWriteType.
Proof. solve_decision. Defined.
#[global] Instance PartitionRange_eq_dec : EqDecision PartitionRange.
Proof. solve_decision. Defined.
#[global] Instance QRepPartition_eq_dec : EqDecision QRepPartition.
Proof. solve_decision. Defined.
#[global] Instance QRepPartitionBatch_eq_dec : EqDecision QRepPartitionBatch.
Proof. solve_decision. Defined.

(** Field updates of the two records the orchestrator mutates in place. *)
Definition with_DestinationTableIdentifier (t : string) (c : QRepConfig) : QRepConfig :=
  {| FlowJobName := FlowJobName c; SourceName := SourceName c;
     DestinationName := DestinationName c; DestinationTableIdentifier := t;
     WatermarkTable := WatermarkTable c;
     SetupWatermarkTableOnDestination := SetupWatermarkTableOnDestination c;
     SyncedAtColName := SyncedAtColName c; SoftDeleteColName := SoftDeleteColName c;
     Env := Env c; System := System c; Version := Version c;
     DstTableFullResync := DstTableFullResync c; InitialCopyOnly := InitialCopyOnly c;
     WriteMode := WriteMode c; MaxParallelWorkers := MaxParallelWorkers c;
     WaitBetweenBatchesSeconds := WaitBetweenBatchesSeconds c |}.

Definition with_LastPartition (p : option QRepPartition) (s : QRepFlowState) : QRepFlowState :=
  {| LastPartition := p; NumPartitionsProcessed := NumPartitionsProcessed s;
     NeedsResync := NeedsResync s; CurrentFlowStatus := CurrentFlowStatus s |}.

Definition with_NumPartitionsProcessed (n : Z) (s : QRepFlowState) : QRepFlowState :=
  {| LastPartition := LastPartition s; NumPartitionsProcessed := n;
     NeedsResync := NeedsResync s; CurrentFlowStatus := CurrentFlowStatus s |}.

Definition with_NeedsResync (b : bool) (s : QRepFlowState) : QRepFlowState :=
  {| LastPartition := LastPartition s; NumPartitionsProcessed := NumPartitionsProcessed s;
     NeedsResync := b; CurrentFlowStatus := CurrentFlowStatus s |}.

Definition with_CurrentFlowStatus (st : FlowStatus) (s : QRepFlowState) : QRepFlowState :=
  {| LastPartition := LastPartition s; NumPartitionsProcessed := NumPartitionsProcessed s;
     NeedsResync := NeedsResync s; CurrentFlowStatus := st |}.

End protos.

(** ** Package [model]: flow signals *)

Module model.

(** Modelled from the spec: the signal type is declared outside the sources
    at hand; the spec lists its values as Noop, Pause and Resume. *)
Inductive CDCFlowSignal :=
| NoopSignal
| PauseSignal
| ResumeSignal.

#[global] Instance CDCFlowSignal_eq_dec : EqDecision CDCFlowSignal.
Proof. solve_decision. Defined.

End model.

(** ** The Temporal runtime: events and the world that answers them *)

Module temporal.
Import Go protos model.

(** One constructor for each kind of call the workflows make to the runtime,
    with the inputs the code passes. *)
Inductive Event :=
| SetQueryHandler (queryType : string)
| syncStatusToCatalog (status : FlowStatus)
| SetupTableSchema (input : SetupTableSchemaBatchInput)
| CreateNormalizedTable (input : SetupNormalizedTableBatchInput)
| SetupQRepMetadataTables (config : QRepConfig)
| CreateTablesFromExisting (input : CreateTablesFromExistingInput)
| getQRepOverwriteFullRefreshMode (env : gmap string string)
| ChildQRepWaitForNewRowsWorkflow (config : QRepConfig) (lastPartition : option QRepPartition)
| GetQRepPartitions (config : QRepConfig) (last : option QRepPartition) (runUUID : string)
| ChildQRepPartitionWorkflow (wid : string) (config : QRepConfig)
    (partitions : QRepPartitionBatch) (runUUID : string)
| ConsolidateQRepPartitions (config : QRepConfig) (runUUID : string)
| CleanupQRepFlow (config : QRepConfig)
| RenameTables (input : RenameTablesInput)
| QRepHasNewRows (config : QRepConfig) (lastPartition : option QRepPartition)
| Sleep (d : Z).

(** What [signalChan.ReceiveWithTimeout] yields in the pause loop: a signal,
    or a timeout, after which [ctx.Err()] is read. *)
Inductive RecvResult :=
| Received (val : CDCFlowSignal)
| TimedOut (ctxErr : option error).

(** What one [Select] of the selector of [waitForNewRows] delivers: a signal,
    the completion of the child workflow with its error, or the cancellation
    of the context. *)
Inductive SelectEvent :=
| SelSignal (val : CDCFlowSignal)
| SelFuture (waitErr : option error)
| SelDone (ctxErr : error).

(** The answers of the runtime.  Whether a call fails is a function of the
    history (the trace before the call) and of the call, so that the same
    call may be answered differently at different times.  A run of either
    workflow calls [GetQRepPartitions], [QRepHasNewRows] and the setting
    oracle at most once each, so what these return is one value each. *)
Record World := {
  OriginalRunID : string;
  (* workflow.GetInfo(ctx).ParentWorkflowExecution == nil *)
  IsRootWorkflow : bool;
  (* the error of a call, of a child workflow's future, or of a sleep *)
  answer : list Event → Event → option error;
  (* the partitions GetQRepPartitions returns when it succeeds *)
  partitionsFound : list QRepPartition;
  (* the boolean QRepHasNewRows returns when it succeeds *)
  hasNewRowsFound : bool;
  (* the setting oracle *)
  fullRefreshMode : bool;
  GetUUID : list Event → string;
  (* successive receives of the pause loop *)
  pauseReceives : list RecvResult;
  (* successive selects of waitForNewRows *)
  waitSelects : list SelectEvent;
  (* the signals buffered when the workflow flushes the channel *)
  pendingSignals : list CDCFlowSignal
}.

(** How a workflow function stops. *)
Inductive halt :=
| Errored (err : error)
| ReturnedNil
| ContinueAsNew (config : QRepConfig) (state : QRepFlowState)
| Panicked
| Stuck.

(** The part of the store the orchestrator reads and writes: [config] and
    [state] are the two objects it holds pointers to and mutates in place,
    [activeSignal] is the field of [QRepFlowExecution]. *)
Record Mach := {
  config : QRepConfig;
  state : QRepFlowState;
  activeSignal : CDCFlowSignal;
  trace : list Event
}.

(** A computation either yields a value or stops the workflow; the store
    survives in both cases (the caller of the workflow still sees the state
    it mutated). *)
Definition W (A : Type) : Type := Mach → (A + halt) * Mach.

#[global] Instance W_ret : MRet W := λ A a m, (inl a, m).

#[global] Instance W_bind : MBind W := λ A B f c m,
  match c m with
  | (inl a, m') => f a m'
  | (inr h, m') => (inr h, m')
  end.

Definition stop {A} (h : halt) : W A := λ m, (inr h, m).

Definition get_config : W QRepConfig := λ m, (inl (config m), m).
Definition get_state : W QRepFlowState := λ m, (inl (state m), m).
Definition get_activeSignal : W CDCFlowSignal := λ m, (inl (activeSignal m), m).
Definition get_trace : W (list Event) := λ m, (inl (trace m), m).

Definition with_config (c : QRepConfig) (m : Mach) : Mach :=
  {| config := c; state := state m; activeSignal := activeSignal m; trace := trace m |}.

Definition with_state (s : QRepFlowState) (m : Mach) : Mach :=
  {| config := config m; state := s; activeSignal := activeSignal m; trace := trace m |}.

Definition with_activeSignal (sig : CDCFlowSignal) (m : Mach) : Mach :=
  {| config := config m; state := state m; activeSignal := sig; trace := trace m |}.

Definition with_trace (t : list Event) (m : Mach) : Mach :=
  {| config := config m; state := state m; activeSignal := activeSignal m; trace := t |}.

Definition set_config (f : QRepConfig → QRepConfig) : W unit := λ m,
  (inl (), with_config (f (config m)) m).

Definition set_state (f : QRepFlowState → QRepFlowState) : W unit := λ m,
  (inl (), with_state (f (state m)) m).

Definition set_activeSignal (sig : CDCFlowSignal) : W unit := λ m,
  (inl (), with_activeSignal sig m).

Definition record (e : Event) : W unit := λ m,
  (inl (), with_trace (trace m ++ [e]) m).

(** [if err := c; err != nil { return state, fmt.Errorf(pre, err) }] *)
Definition wrapErr {A} (pre : string) (c : W A) : W A := λ m,
  match c m with
  | (inr (Errored err), m') => (inr (Errored (Errorf pre err)), m')
  | r => r
  end.

End temporal.

(** ** Package [peerflow]: [flow/workflows/qrep_flow.go] *)

Module peerflow.
Import Go shared protos model temporal.

Definition InitialLastPartition : QRepPartition :=
  {| PartitionId := "not-applicable-partition"; Range := None;
     FullTablePartition := false |}.

Definition newQRepFlowState : QRepFlowState :=
  {| LastPartition := Some InitialLastPartition;
     NumPartitionsProcessed := 0;
     NeedsResync := true;
     CurrentFlowStatus := STATUS_RUNNING |}.

(** Modelled from the spec: the names of the two queries are constants of
    package [shared], outside the sources at hand. *)
Definition QRepFlowStateQuery : string := "qrep-flow-state".
Definition FlowStatusQuery : string := "flow-status".

(** The batching loop of [processPartitions]:
    [for i := 0; i < len(partitions); i += chunkSize].  [fuel] bounds the
    number of iterations; [Stuck] is the answer when it runs out, [Panicked]
    when the slice expression is out of range. *)
Fixpoint batchLoop (fuel : nat) (partitions : list QRepPartition) (chunkSize i : Z)
    (batches : list (list QRepPartition)) : list (list QRepPartition) + halt :=
  if bool_decide (i < len partitions) then
    match fuel with
    | O => inr Stuck
    | S fuel' =>
        let end_ := Z.min (i + chunkSize) (len partitions) in
        match slice partitions i end_ with
        | None => inr Panicked
        | Some parts =>
            batchLoop fuel' partitions chunkSize (i + chunkSize) (batches ++ [parts])
        end
    end
  else inl batches.

Section workflows.
Context (FlowSignalHandler : CDCFlowSignal → CDCFlowSignal → CDCFlowSignal).
Context (w : World).

(** [workflow.ExecuteActivity(ctx, a, ...).Get(ctx, nil)] *)
Definition executeActivity (a : Event) : W unit := λ m,
  match record a m with
  | (_, m') =>
      match answer w (trace m) a with
      | None => (inl (), m')
      | Some err => (inr (Errored err), m')
      end
  end.

Definition SetupMetadataTables : W unit :=
  cfg ← get_config;
  wrapErr "failed to setup metadata tables: " (executeActivity (SetupQRepMetadataTables cfg)).

Definition setupTableSchema (tableName : string) : W unit :=
  cfg ← get_config;
  executeActivity (SetupTableSchema
    {| stsb_PeerName := SourceName cfg;
       stsb_TableMappings :=
         [ {| SourceTableIdentifier := tableName;
              tm_DestinationTableIdentifier := DestinationTableIdentifier cfg |} ];
       stsb_FlowName := FlowJobName cfg;
       stsb_System := System cfg;
       stsb_Env := Env cfg;
       stsb_Version := Version cfg |}).

Definition setupWatermarkTableOnDestination : W unit :=
  cfg ← get_config;
  if SetupWatermarkTableOnDestination cfg then
    wrapErr "failed to fetch schema for watermark table: "
      (setupTableSchema (WatermarkTable cfg));;
    wrapErr "failed to create watermark table: "
      (executeActivity (CreateNormalizedTable
        {| sntb_PeerName := DestinationName cfg;
           sntb_TableMappings :=
             [ {| SourceTableIdentifier := WatermarkTable cfg;
                  tm_DestinationTableIdentifier := DestinationTableIdentifier cfg |} ];
           sntb_SyncedAtColName := SyncedAtColName cfg;
           sntb_SoftDeleteColName := SoftDeleteColName cfg;
           sntb_FlowName := FlowJobName cfg;
           sntb_Env := Env cfg;
           sntb_IsResync := DstTableFullResync cfg |}))
  else mret ().

(** getPartitions returns the partitions to replicate. *)
Definition getPartitions (last : option QRepPartition) : W (list QRepPartition) :=
  cfg ← get_config;
  wrapErr "failed to fetch partitions to replicate: "
    (executeActivity (GetQRepPartitions cfg last (OriginalRunID w)));;
  mret (partitionsFound w).

Definition getPartitionWorkflowID : W string :=
  cfg ← get_config;
  history ← get_trace;
  mret ("qrep-part-" +:+ FlowJobName cfg +:+ "-" +:+ GetUUID w history).

(** startChildWorkflow starts a single child workflow; the future it returns
    is modelled by the error the child will end with. *)
Definition startChildWorkflow (partitions : QRepPartitionBatch) : W (option error) :=
  wid ← getPartitionWorkflowID;
  cfg ← get_config;
  history ← get_trace;
  let child := ChildQRepPartitionWorkflow wid cfg partitions (OriginalRunID w) in
  record child;;
  mret (answer w history child).

(** [for i, parts := range batches { startChildWorkflow(BatchId: int32(i+1)) }] *)
Fixpoint startBatches (i : Z) (batches : list (list QRepPartition)) : W (list (option error)) :=
  match batches with
  | [] => mret []
  | parts :: rest =>
      future ← startChildWorkflow {| Partitions := parts; BatchId := int32 (i + 1) |};
      futures ← startBatches (i + 1) rest;
      mret (future :: futures)
  end.

(** [for _, future := range partitionWorkflows { future.Get(ctx, nil) }] *)
Fixpoint waitFutures (futures : list (option error)) : W unit :=
  match futures with
  | [] => mret ()
  | None :: rest => waitFutures rest
  | Some err :: _ => stop (Errored (Errorf "failed to wait for child workflow: " err))
  end.

(** processPartitions handles the logic for processing the partitions. *)
Definition processPartitions (maxParallelWorkers : Z) (partitions : list QRepPartition) : W unit :=
  if bool_decide (len partitions = 0) then mret ()
  else if bool_decide (maxParallelWorkers = 0) then stop Panicked   (* division by zero *)
  else
    let chunkSize := DivCeil (len partitions) maxParallelWorkers in
    (* make(..., 0, len(partitions)/chunkSize+1) *)
    if bool_decide (chunkSize = 0) then stop Panicked
    else if bool_decide (len partitions ÷ chunkSize + 1 < 0) then stop Panicked
    else
      match batchLoop (length partitions) partitions chunkSize 0 [] with
      | inr h => stop h
      | inl batches =>
          partitionWorkflows ← startBatches 0 batches;
          waitFutures partitionWorkflows
      end.

Definition consolidatePartitions : W unit :=
  cfg ← get_config;
  wrapErr "failed to consolidate partitions: "
    (executeActivity (ConsolidateQRepPartitions cfg (OriginalRunID w)));;
  wrapErr "failed to cleanup qrep flow: " (executeActivity (CleanupQRepFlow cfg)).

(** The loop of [waitForNewRows]:
    [for ctx.Err() == nil && !newRows && q.activeSignal != model.PauseSignal].
    It is entered with [ctx.Err() == nil] and [newRows == false]; a [Select]
    that completes the future or finds the context done ends it. *)
Fixpoint waitSelectLoop (selects : list SelectEvent) : W unit :=
  sig ← get_activeSignal;
  if bool_decide (sig = PauseSignal) then mret ()
  else
    match selects with
    | [] => stop Stuck
    | SelSignal val :: rest =>
        set_activeSignal (FlowSignalHandler sig val);;
        waitSelectLoop rest
    | SelFuture None :: _ => mret ()
    | SelFuture (Some waitErr) :: _ => stop (Errored waitErr)
    | SelDone ctxErr :: _ => stop (Errored ctxErr)
    end.

Definition waitForNewRows (lastPartition : option QRepPartition) : W unit :=
  cfg ← get_config;
  record (ChildQRepWaitForNewRowsWorkflow cfg lastPartition);;
  waitSelectLoop (waitSelects w).

Definition handleTableCreationForResync : W unit :=
  st ← get_state;
  cfg ← get_config;
  if NeedsResync st && DstTableFullResync cfg then
    let renamedTableIdentifier := DestinationTableIdentifier cfg +:+ "_peerdb_resync" in
    wrapErr "failed to create table for mirror resync: "
      (executeActivity (CreateTablesFromExisting
        {| ctfe_FlowJobName := FlowJobName cfg;
           ctfe_PeerName := DestinationName cfg;
           NewToExistingTableMapping :=
             {[ renamedTableIdentifier := DestinationTableIdentifier cfg ]} |}));;
    set_config (with_DestinationTableIdentifier renamedTableIdentifier)
  else mret ().

Definition handleTableRenameForResync : W unit :=
  st ← get_state;
  cfg ← get_config;
  (if NeedsResync st && DstTableFullResync cfg then
     let oldTableIdentifier := TrimSuffix (DestinationTableIdentifier cfg) "_peerdb_resync" in
     wrapErr ("failed to fetch schema for table " +:+ DestinationTableIdentifier cfg +:+ ": ")
       (setupTableSchema (DestinationTableIdentifier cfg));;
     wrapErr "failed to execute rename tables activity: "
       (executeActivity (RenameTables
         {| rti_FlowJobName := FlowJobName cfg;
            rti_PeerName := DestinationName cfg;
            RenameTableOptions :=
              [ {| CurrentName := DestinationTableIdentifier cfg;
                   NewName := oldTableIdentifier |} ] |}));;
     set_config (with_DestinationTableIdentifier oldTableIdentifier)
   else mret ());;
  set_state (with_NeedsResync false).

Definition setWorkflowQueries : W unit :=
  wrapErr ("failed to set `" +:+ QRepFlowStateQuery +:+ "` query handler: ")
    (executeActivity (SetQueryHandler QRepFlowStateQuery));;
  wrapErr ("failed to set `" +:+ FlowStatusQuery +:+ "` query handler: ")
    (executeActivity (SetQueryHandler FlowStatusQuery)).

Definition updateStatus (status : FlowStatus) : W unit :=
  set_state (with_CurrentFlowStatus status);;
  if IsRootWorkflow w then record (syncStatusToCatalog status) else mret ().

(** The pause loop of [QRepFlowWorkflow]:
    [for q.activeSignal == model.PauseSignal { ReceiveWithTimeout ... }] *)
Fixpoint pauseLoop (receives : list RecvResult) : W unit :=
  sig ← get_activeSignal;
  if bool_decide (sig = PauseSignal) then
    match receives with
    | [] => stop Stuck
    | Received val :: rest =>
        set_activeSignal (FlowSignalHandler sig val);;
        pauseLoop rest
    | TimedOut None :: rest => pauseLoop rest
    | TimedOut (Some err) :: _ => stop (Errored err)
    end
  else mret ().

(** [for { val, ok := signalChan.ReceiveAsync(); if !ok { break }; ... }] *)
Fixpoint flushSignals (pending : list CDCFlowSignal) : W unit :=
  match pending with
  | [] => mret ()
  | val :: rest =>
      sig ← get_activeSignal;
      set_activeSignal (FlowSignalHandler sig val);;
      flushSignals rest
  end.

(** [QRepFlowWorkflow] is embedded in three parts, in the order of the
    source, cut at the test [if q.activeSignal != model.PauseSignal].

    First part: from [setWorkflowQueries] to the wait for new rows.  It
    yields the two locals the rest of the function reads,
    [maxParallelWorkers] and [fullRefresh]. *)
Definition setupCycle : W (Z * bool) :=
  setWorkflowQueries;;
  st ← get_state;
  if bool_decide (CurrentFlowStatus st = STATUS_COMPLETED) then stop ReturnedNil
  else
    (if bool_decide (CurrentFlowStatus st = STATUS_PAUSING ∨
                     CurrentFlowStatus st = STATUS_PAUSED) then
       set_activeSignal PauseSignal;;
       updateStatus STATUS_PAUSED;;
       pauseLoop (pauseReceives w);;
       updateStatus STATUS_RUNNING
     else mret ());;
    cfg ← get_config;
    let maxParallelWorkers :=
      if bool_decide (0 < MaxParallelWorkers cfg) then MaxParallelWorkers cfg else 16 in
    wrapErr "failed to setup watermark table: " setupWatermarkTableOnDestination;;
    wrapErr "failed to setup metadata tables: " SetupMetadataTables;;
    handleTableCreationForResync;;
    st ← get_state;
    cfg ← get_config;
    writeMode ← match WriteMode cfg with
                 | Some wm => mret wm
                 | None => stop Panicked
                 end;
    fullRefresh ←
      (if bool_decide (WriteType writeMode = QREP_WRITE_MODE_OVERWRITE) then
         record (getQRepOverwriteFullRefreshMode (Env cfg));;
         mret (fullRefreshMode w)
       else mret false);
    let lastPartition :=
      if fullRefresh : bool then Some InitialLastPartition else LastPartition st in
    (if negb (InitialCopyOnly cfg) && bool_decide (lastPartition ≠ None) then
       waitForNewRows lastPartition
     else mret ());;
    mret (maxParallelWorkers, fullRefresh).

(** Second part: the body of [if q.activeSignal != model.PauseSignal]. *)
Definition replicateCycle (maxParallelWorkers : Z) (fullRefresh : bool) : W unit :=
  st ← get_state;
  partitions ← wrapErr "failed to get partitions: " (getPartitions (LastPartition st));
  processPartitions maxParallelWorkers partitions;;
  consolidatePartitions;;
  cfg ← get_config;
  if InitialCopyOnly cfg then
    updateStatus STATUS_COMPLETED;;
    cfg ← get_config;
    st ← get_state;
    stop (ContinueAsNew cfg st)
  else
    handleTableRenameForResync;;
    set_state (λ st, with_NumPartitionsProcessed
                       (uint64 (NumPartitionsProcessed st + uint64 (len partitions))) st);;
    if bool_decide (0 < len partitions) && negb fullRefresh then
      set_state (with_LastPartition (last partitions))
    else mret ().

(** Third part: the flush of the signal channel and the continuation. *)
Definition finishCycle : W halt :=
  flushSignals (pendingSignals w);;
  sig ← get_activeSignal;
  (if bool_decide (sig = PauseSignal) then updateStatus STATUS_PAUSED else mret ());;
  cfg ← get_config;
  st ← get_state;
  stop (ContinueAsNew cfg st).

(** The body of [QRepFlowWorkflow], from [setWorkflowQueries] on.  It always
    stops the workflow, so its value is never used. *)
Definition runQRepFlow : W halt :=
  locals ← setupCycle;
  sig ← get_activeSignal;
  (if bool_decide (sig ≠ PauseSignal) then replicateCycle locals.1 locals.2
   else mret ());;
  finishCycle.

(** The store on entry: [if state == nil { state = newQRepFlowState() }],
    and [newQRepFlowExecution] sets [activeSignal] to [model.NoopSignal]. *)
Definition enter (config : QRepConfig) (state : option QRepFlowState) : Mach :=
  {| temporal.config := config;
     temporal.state := default newQRepFlowState state;
     activeSignal := NoopSignal;
     trace := [] |}.

(** [QRepFlowWorkflow(ctx, config, state)]: how the workflow stops, and the
    store it leaves; [state] of that store is the state the Go function
    returns next to its error. *)
Definition QRepFlowWorkflow (config : QRepConfig) (state : option QRepFlowState)
  : halt * Mach :=
  match runQRepFlow (enter config state) with
  | (inl h, m) => (h, m)
  | (inr h, m) => (h, m)
  end.

(** How [QRepWaitForNewRowsWorkflow] stops. *)
Inductive WaitResult :=
| WaitReturnedNil
| WaitErrored (err : error)
| WaitContinueAsNew (config : QRepConfig) (lastPartition : option QRepPartition)
| WaitPanicked.

(** One run of [QRepWaitForNewRowsWorkflow]: its result and the calls it
    made.  The setting oracle is consulted only in OVERWRITE mode ([&&] does
    not evaluate its right operand otherwise). *)
Definition QRepWaitForNewRowsWorkflow (config : QRepConfig)
    (lastPartition : option QRepPartition) : WaitResult * list Event :=
  let check := QRepHasNewRows config lastPartition in
  match answer w [] check with
  | Some err => (WaitErrored (Errorf "error checking for new rows: " err), [check])
  | None =>
      let hasNewRows := hasNewRowsFound w in
      match WriteMode config with
      | None => (WaitPanicked, [check])
      | Some writeMode =>
          let optedForOverwrite :=
            bool_decide (WriteType writeMode = QREP_WRITE_MODE_OVERWRITE) in
          let fullRefresh := optedForOverwrite && fullRefreshMode w in
          let history :=
            if optedForOverwrite
            then [check; getQRepOverwriteFullRefreshMode (Env config)]
            else [check] in
          if negb hasNewRows || fullRefresh then
            let waitBetweenBatches :=
              if bool_decide (0 < WaitBetweenBatchesSeconds config)
              then int64 (WaitBetweenBatchesSeconds config * Second)
              else 5 * Second in
            let sleep := Sleep waitBetweenBatches in
            match answer w history sleep with
            | Some sleepErr => (WaitErrored sleepErr, history ++ [sleep])
            | None =>
                if fullRefresh then (WaitReturnedNil, history ++ [sleep])
                else (WaitContinueAsNew config lastPartition, history ++ [sleep])
            end
          else (WaitReturnedNil, history)
      end
  end.

End workflows.
End peerflow.

(** ** Package [strconv] of the Go standard library

    The three conversions the setting lookup calls, in base 10 and for 64
    bits, as the library documents and implements them. *)

Module strconv.
Import Go.

Definition ErrSyntax : error := errorString "invalid syntax".
Definition ErrRange : error := errorString "value out of range".

Definition ParseBool (str : string) : bool + error :=
  if bool_decide (str ∈ ["1"; "t"; "T"; "true"; "TRUE"; "True"]) then inl true
  else if bool_decide (str ∈ ["0"; "f"; "F"; "false"; "FALSE"; "False"]) then inl false
  else inr (NumError "ParseBool" str ErrSyntax).

(** The value of a decimal digit. *)
Definition digit (c : Ascii.ascii) : option Z :=
  let n := Z.of_nat (Ascii.nat_of_ascii c) in
  if bool_decide (48 ≤ n ≤ 57) then Some (n - 48) else None.

(** The loop of [ParseUint] over the bytes of the string: the first byte
    that is no digit is a syntax error, the first step that leaves 64 bits a
    range error. *)
Fixpoint parseUintLoop (s : string) (n : Z) : Z + error :=
  match s with
  | EmptyString => inl n
  | String c rest =>
      match digit c with
      | None => inr ErrSyntax
      | Some d =>
          if bool_decide (2 ^ 64 ÷ 10 + 1 ≤ n) then inr ErrRange
          else if bool_decide (2 ^ 64 ≤ n * 10 + d) then inr ErrRange
          else parseUintLoop rest (n * 10 + d)
      end
  end.

(** [ParseUint(s, 10, 64)] *)
Definition ParseUint (s : string) : Z + error :=
  if bool_decide (s = "") then inr (NumError "ParseUint" s ErrSyntax)
  else match parseUintLoop s 0 with
       | inl n => inl n
       | inr err => inr (NumError "ParseUint" s err)
       end.

(** [ParseInt(s, 10, 64)] *)
Definition ParseInt (s0 : string) : Z + error :=
  match s0 with
  | EmptyString => inr (NumError "ParseInt" s0 ErrSyntax)
  | String c rest =>
      let neg := bool_decide (c = "-"%char) in
      let s := if bool_decide (c = "+"%char) || neg then rest else s0 in
      match ParseUint s with
      | inr (NumError _ _ (errorString "value out of range")) =>
          inr (NumError "ParseInt" s0 ErrRange)
      | inr _ => inr (NumError "ParseInt" s0 ErrSyntax)
      | inl un =>
          if negb neg && bool_decide (2 ^ 63 ≤ un) then inr (NumError "ParseInt" s0 ErrRange)
          else if neg && bool_decide (2 ^ 63 < un) then inr (NumError "ParseInt" s0 ErrRange)
          else inl (if neg then - un else un)
      end
  end.

End strconv.

(** ** Package [peerdbenv]: the dynamic setting lookup *)

Module pgtype.

(** [pgtype.Text]: a nullable text column. *)
Record Text := {
  String : string;
  Valid : bool
}.

End pgtype.

Module peerdbenv.
Import Go strconv.

(** What [conn.QueryRow(ctx, query, key).Scan(&value, &default_value)]
    yields for the query on [dynamic_settings]. *)
Inductive QueryResult :=
| ErrNoRows                                   (* err == pgx.ErrNoRows *)
| QueryError (err : error)                    (* any other error *)
| Row (value default_value : pgtype.Text).

(** What the function reads from outside: the catalog connection pool, the
    [dynamic_settings] table, the process environment. *)
Record Context := {
  (* the error of GetCatalogConnectionPoolFromEnv, if any *)
  poolError : option error;
  QueryRow : string → QueryResult;
  LookupEnv : string → option string
}.

Definition pgxErrNoRows : error := errorString "no rows in result set".

Definition dynLookup (ctx : Context) (key : string) : string + error :=
  match poolError ctx with
  | Some err => inr (Errorf "failed to get catalog connection pool: " err)
  | None =>
      match QueryRow ctx key with
      | ErrNoRows =>
          match LookupEnv ctx key with
          | Some val => inl val
          | None => inr (Errorf "failed to get key: " pgxErrNoRows)
          end
      | QueryError err => inr (Errorf "failed to get key: " err)
      | Row value default_value =>
          if negb (pgtype.Valid value) then
            match LookupEnv ctx key with
            | Some val => inl val
            | None => inl (pgtype.String default_value)
            end
          else inl (pgtype.String value)
      end
  end.

(** The conversions [T(result)] of the generic functions, for a type [T] of
    [bits] bits. *)
Definition toSigned (bits : Z) (z : Z) : Z :=
  (z + 2 ^ (bits - 1)) mod 2 ^ bits - 2 ^ (bits - 1).

Definition toUnsigned (bits : Z) (z : Z) : Z := z mod 2 ^ bits.

Definition dynamicConfSigned (bits : Z) (ctx : Context) (key : string) : Z + error :=
  match dynLookup ctx key with
  | inr err => inr err
  | inl value =>
      match ParseInt value with
      | inr err => inr (Errorf "failed to parse as int64: " err)
      | inl result => inl (toSigned bits result)
      end
  end.

Definition dynamicConfUnsigned (bits : Z) (ctx : Context) (key : string) : Z + error :=
  match dynLookup ctx key with
  | inr err => inr err
  | inl value =>
      match ParseUint value with
      | inr err => inr (Errorf "failed to parse as int64: " err)
      | inl result => inl (toUnsigned bits result)
      end
  end.

Definition dynamicConfBool (ctx : Context) (key : string) : bool + error :=
  match dynLookup ctx key with
  | inr err => inr err
  | inl value =>
      match ParseBool value with
      | inr err => inr (Errorf "failed to parse bool: " err)
      | inl result => inl result
      end
  end.

(** PEERDB_SLOT_LAG_MB_ALERT_THRESHOLD, 0 disables slot lag alerting entirely *)
Definition PeerDBSlotLagMBAlertThreshold (ctx : Context) : Z + error :=
  dynamicConfUnsigned 32 ctx "PEERDB_SLOT_LAG_MB_ALERT_THRESHOLD".

(** PEERDB_BIGQUERY_ENABLE_SYNCED_AT_PARTITIONING_BY_DAYS *)
Definition PeerDBBigQueryEnableSyncedAtPartitioning (ctx : Context) : bool + error :=
  dynamicConfBool ctx "PEERDB_BIGQUERY_ENABLE_SYNCED_AT_PARTITIONING_BY_DAYS".

(** A call fails: it returns a non-nil error. *)
Definition fails {A} (r : A + error) : Prop :=
  match r with
  | inl _ => False
  | inr _ => True
  end.

Definition Minute : Z := 60 * Second.

(** PEERDB_ALERTING_GAP_MINUTES, 0 disables all alerting entirely *)
Definition PeerDBAlertingGapMinutesAsDuration (ctx : Context) : Z + error :=
  match dynamicConfUnsigned 32 ctx "PEERDB_ALERTING_GAP_MINUTES" with
  | inr err => inr err
  | inl why => inl (int64 (int64 why * Minute))
  end.

(** PEERDB_PGPEER_OPEN_CONNECTIONS_ALERT_THRESHOLD, 0 disables open
    connections alerting entirely *)
Definition PeerDBOpenConnectionsAlertThreshold (ctx : Context) : Z + error :=
  dynamicConfUnsigned 32 ctx "PEERDB_PGPEER_OPEN_CONNECTIONS_ALERT_THRESHOLD".

(** The value of a string of decimal digits, read from the left after [n]. *)
Fixpoint decimal (s : string) (n : Z) : option Z :=
  match s with
  | EmptyString => Some n
  | String c rest =>
      match digit c with
      | Some d => decimal rest (n * 10 + d)
      | None => None
      end
  end.

End peerdbenv.

(** ** Package [model]: [RecordItems.toMap]

    The values of package [types] are not among the sources; [QValue] has
    one constructor for each kind [toMap] tells apart, and one for all the
    kinds of its [default] branch.  Instants, durations and decimals are
    carried as integers; how they print is a parameter. *)

Module items.
Import Go.

(** The values [toMap] stores in [map[string]any]. *)
#[local] Unset Elimination Schemes.
Inductive any :=
| nil
| aBool (b : bool)
| aInt (z : Z)
| aString (s : string)
| aFloat64 (f : spec_float)
| aFloat32 (f : spec_float)
| aStrings (l : list string)              (* []string *)
| aSlice (l : list any)                   (* []any *)
| aMap (m : list (string * any)).         (* a nested JSON object *)
#[local] Set Elimination Schemes.

Inductive QValue :=
| QValueUUID (Val : string)
| QValueQChar (Val : Z)                    (* uint8 *)
| QValueString (Val : string)
| QValueJSON (Val : string)
| QValueHStore (Val : string)
| QValueTimestamp (Val : Z)
| QValueTimestampTZ (Val : Z)
| QValueDate (Val : Z)
| QValueTime (Val : Z)
| QValueTimeTZ (Val : Z)
| QValueArrayDate (Val : list Z)
| QValueNumeric (Val : Z * Z)
| QValueArrayNumeric (Val : list (Z * Z))
| QValueFloat64 (Val : spec_float)
| QValueFloat32 (Val : spec_float)
| QValueArrayFloat64 (Val : list spec_float)
| QValueArrayFloat32 (Val : list spec_float)
| QValueOther (Val : any).                 (* v.Value() of every other kind *)

(** encoding/gob cannot encode unexported fields *)
Record RecordItems := {
  (* a nil interface value is [None] *)
  ColToVal : gmap string (option QValue)
}.

Record ToJSONOptions := {
  UnnestColumns : gset string;               (* map[string]struct{} *)
  HStoreAsJSON : bool
}.

(** [math.IsNaN] and [math.IsInf(f, 0)] *)
Definition IsNaN (f : spec_float) : bool :=
  match f with
  | S754_nan => true
  | _ => false
  end.

Definition IsInf (f : spec_float) : bool :=
  match f with
  | S754_infinity _ => true
  | _ => false
  end.

(** [string(c)] for a [uint8]: the UTF-8 encoding of the code point. *)
Definition stringOfUint8 (c : Z) : string :=
  if bool_decide (c < 128) then String (ascii_of_nat (Z.to_nat c)) EmptyString
  else String (ascii_of_nat (Z.to_nat (192 + c / 64)))
         (String (ascii_of_nat (Z.to_nat (128 + c mod 64))) EmptyString).

(** The length [len(s)] of a string, in bytes. *)
Definition strlen (s : string) : Z := Z.of_nat (String.length s).

Definition maxStringLen : Z := 15 * 1024 * 1024.

Section toMap.
(** [time.Time.Format(layout)] for an instant, and for [time.Time{}.Add(d)];
    [decimal.Decimal.String]; [datatypes.ParseHstore]; [json.Unmarshal] into
    a [map[string]any]. *)
Context (Format : string → Z → string).
Context (FormatSinceZero : string → Z → string).
Context (DecimalString : Z * Z → string).
Context (ParseHstore : string → string + error).
Context (Unmarshal : string → gmap string any + error).

Definition nullableFloat64 (val : spec_float) : any :=
  if IsNaN val || IsInf val then nil else aFloat64 val.

Definition nullableFloat32 (val : spec_float) : any :=
  if IsNaN val || IsInf val then nil else aFloat32 val.

(** The body of the loop of [toMap], for the column [col] with value [qv]:
    the map it leaves, or the error [toMap] returns. *)
Definition put (opts : ToJSONOptions) (jsonStruct : gmap string any) (col : string)
    (qv : option QValue) : gmap string any + error :=
  match qv with
  | None => inl (<[col := nil]> jsonStruct)
  | Some (QValueUUID v) => inl (<[col := aString v]> jsonStruct)
  | Some (QValueQChar v) => inl (<[col := aString (stringOfUint8 v)]> jsonStruct)
  | Some (QValueString strVal) =>
      if bool_decide (maxStringLen < strlen strVal)
      then inl (<[col := aString ""]> jsonStruct)
      else inl (<[col := aString strVal]> jsonStruct)
  | Some (QValueJSON v) =>
      if bool_decide (maxStringLen < strlen v)
      then inl (<[col := aString "{}"]> jsonStruct)
      else if bool_decide (col ∈ UnnestColumns opts) then
        match Unmarshal v with
        | inr err => inr err
        | inl unnestStruct => inl (unnestStruct ∪ jsonStruct)
        end
      else inl (<[col := aString v]> jsonStruct)
  | Some (QValueHStore hstoreVal) =>
      if negb (HStoreAsJSON opts) then inl (<[col := aString hstoreVal]> jsonStruct)
      else
        match ParseHstore hstoreVal with
        | inr err =>
            inr (Errorf ("unable to convert hstore column " +:+ col +:+
                         " to json for value types.QValueHStore: ") err)
        | inl jsonVal =>
            if bool_decide (maxStringLen < strlen jsonVal)
            then inl (<[col := aString ""]> jsonStruct)
            else inl (<[col := aString jsonVal]> jsonStruct)
        end
  | Some (QValueTimestamp v) =>
      inl (<[col := aString (Format "2006-01-02 15:04:05.999999" v)]> jsonStruct)
  | Some (QValueTimestampTZ v) =>
      inl (<[col := aString (Format "2006-01-02 15:04:05.999999-0700" v)]> jsonStruct)
  | Some (QValueDate v) => inl (<[col := aString (Format "2006-01-02" v)]> jsonStruct)
  | Some (QValueTime v) =>
      inl (<[col := aString (FormatSinceZero "15:04:05.999999" v)]> jsonStruct)
  | Some (QValueTimeTZ v) =>
      inl (<[col := aString (FormatSinceZero "15:04:05.999999" v)]> jsonStruct)
  | Some (QValueArrayDate dateArr) =>
      inl (<[col := aStrings (Format "2006-01-02" <$> dateArr)]> jsonStruct)
  | Some (QValueNumeric v) => inl (<[col := aString (DecimalString v)]> jsonStruct)
  | Some (QValueArrayNumeric numericArr) =>
      inl (<[col := aSlice ((λ val, aString (DecimalString val)) <$> numericArr)]> jsonStruct)
  | Some (QValueFloat64 v) => inl (<[col := nullableFloat64 v]> jsonStruct)
  | Some (QValueFloat32 v) => inl (<[col := nullableFloat32 v]> jsonStruct)
  | Some (QValueArrayFloat64 floatArr) =>
      inl (<[col := aSlice (nullableFloat64 <$> floatArr)]> jsonStruct)
  | Some (QValueArrayFloat32 floatArr) =>
      inl (<[col := aSlice (nullableFloat32 <$> floatArr)]> jsonStruct)
  | Some (QValueOther v) => inl (<[col := v]> jsonStruct)
  end.

(** The columns whose entry is written under their own name: all but a
    JSON column of [opts.UnnestColumns]. *)
Definition keeps_column (opts : ToJSONOptions) (col : string) (qv : option QValue) : Prop :=
  ∀ s, qv = Some (QValueJSON s) → col ∉ UnnestColumns opts.

(** [for col, qv := range r.ColToVal], over the entries in the order the
    runtime visits them. *)
Fixpoint toMapLoop (opts : ToJSONOptions) (entries : list (string * option QValue))
    (jsonStruct : gmap string any) : gmap string any + error :=
  match entries with
  | [] => inl jsonStruct
  | (col, qv) :: rest =>
      match put opts jsonStruct col qv with
      | inr err => inr err
      | inl jsonStruct' => toMapLoop opts rest jsonStruct'
      end
  end.

(** Go ranges over a map in an unspecified order: [entries] is an order in
    which the runtime may visit [r.ColToVal]. *)
Definition ranges (r : RecordItems) (entries : list (string * option QValue)) : Prop :=
  entries ≡ₚ map_to_list (ColToVal r).

(** [r.toMap(opts)], for the order [entries] of the range. *)
Definition toMap (entries : list (string * option QValue)) (opts : ToJSONOptions)
  : gmap string any + error :=
  toMapLoop opts entries ∅.

End toMap.


(** ** The other methods of [RecordItems]

    A [RecordItems] value holds a Go map, which is a reference: a method
    with a value receiver that assigns to [r.ColToVal[col]] changes the map
    every copy of [r] shares.  The methods that write are given here as the
    record after the call; the map is not nil, as [NewRecordItems] makes
    it. *)

(** A value, or a run-time panic. *)
Inductive outcome (A : Type) :=
| Returned (a : A)
| Panics.
Arguments Returned {A} a.
Arguments Panics {A}.

(** [NewRecordItems(capacity)]: the capacity is a hint to [make]. *)
Definition NewRecordItems (capacity : Z) : RecordItems := {| ColToVal := ∅ |}.

Definition AddColumn (r : RecordItems) (col : string) (val : option QValue) : RecordItems :=
  {| ColToVal := <[col := val]> (ColToVal r) |}.

(** [r.ColToVal[col]]: the zero value, a nil interface, for a missing key. *)
Definition GetColumnValue (r : RecordItems) (col : string) : option QValue :=
  match ColToVal r !! col with
  | Some val => val
  | None => None
  end.

(** The loop of [UpdateIfNotExists] over the entries of [input.ColToVal], in
    the order the runtime visits them. *)
Fixpoint updateLoop (entries : list (string * option QValue))
    (cols : gmap string (option QValue)) (updatedCols : list string)
  : gmap string (option QValue) * list string :=
  match entries with
  | [] => (cols, updatedCols)
  | (col, val) :: rest =>
      match cols !! col with
      | Some _ => updateLoop rest cols updatedCols
      | None => updateLoop rest (<[col := val]> cols) (updatedCols ++ [col])
      end
  end.

(** UpdateIfNotExists takes in a RecordItems as input and updates the values
    of the current RecordItems with the values from the input RecordItems for
    the columns that are present in the input RecordItems but not in the
    current RecordItems.  We return the slice of col names that were updated.
    [entries] is the order of the range over [input.ColToVal]. *)
Definition UpdateIfNotExists (r : RecordItems) (entries : list (string * option QValue))
  : RecordItems * list string :=
  let (cols, updatedCols) := updateLoop entries (ColToVal r) [] in
  ({| ColToVal := cols |}, updatedCols).

Definition GetValueByColName (r : RecordItems) (colName : string) : option QValue + error :=
  match ColToVal r !! colName with
  | Some val => inl val
  | None => inr (errorString ("column name " +:+ colName +:+ " not found"))
  end.

Section GetBytesByColName.
(** [v.Value()] of a [QValue], and [fmt.Sprint] of the result. *)
Context (Value : QValue → any).
Context (Sprint : any → string).

(** [[]byte(fmt.Sprint(val.Value()))]; calling [Value] on a nil interface
    panics. *)
Definition GetBytesByColName (r : RecordItems) (colName : string)
  : outcome (string + error) :=
  match GetValueByColName r colName with
  | inr err => Returned (inr err)
  | inl None => Panics
  | inl (Some val) => Returned (inl (Sprint (Value val)))
  end.

End GetBytesByColName.

Definition Len (r : RecordItems) : Z := Z.of_nat (size (ColToVal r)).

Definition DeleteColName (r : RecordItems) (colName : string) : RecordItems :=
  {| ColToVal := delete colName (ColToVal r) |}.

(** [encoding/json] refuses a float that is NaN or infinite; a value is safe
    when it holds none. *)
Fixpoint jsonSafe (v : any) : bool :=
  match v with
  | aFloat64 f | aFloat32 f => negb (IsNaN f || IsInf f)
  | aSlice l => forallb jsonSafe l
  | aMap m => forallb (λ kv, jsonSafe kv.2) m
  | _ => true
  end.

(** The kinds [toMap] converts itself: all but the values of its [default]
    branch. *)
Definition converted (qv : QValue) : bool :=
  match qv with
  | QValueOther _ => false
  | _ => true
  end.

End items.

(** ** Package [connclickhouse]: [flow/connectors/clickhouse/qrep.go]

    The S3 service is not part of the program.  Every request [dropStage]
    makes is recorded as a [Call], and what the service answers is read from
    an [S3] value. *)

Module connclickhouse.
Import Go.

(** [utils.S3BucketAndPrefix] *)
Record S3BucketAndPrefix := {
  Bucket : string;
  Prefix : string
}.

Inductive Call :=
| ListObjectsV2 (bucket prefix : string)
| DeleteObject (bucket key : string).

Record S3 := {
  NewS3BucketAndPrefix : string → S3BucketAndPrefix + error;
  (* the error of utils.CreateS3Client, if any *)
  clientError : option error;
  (* what the paginator serves: its first page, then the pages that follow
     for as long as the listing is truncated; a page is the keys of its
     Contents, or the error of NextPage *)
  firstPage : list string + error;
  nextPages : list (list string + error);
  (* the error of a DeleteObject, which may depend on the calls before it *)
  deleteError : list Call → string → option error
}.

Definition SetupQRepMetadataTables : option error := None.

Definition ConsolidateQRepPartitions : option error := None.

(** [for _, object := range page.Contents { s3svc.DeleteObject(...) }]: the
    error it returns, and the calls made so far. *)
Fixpoint deleteObjects (s3 : S3) (bucket : string) (contents : list string)
    (calls : list Call) : option error * list Call :=
  match contents with
  | [] => (None, calls)
  | key :: rest =>
      match deleteError s3 calls key with
      | Some err =>
          (Some (Errorf "failed to delete objects from bucket: " err),
           calls ++ [DeleteObject bucket key])
      | None => deleteObjects s3 bucket rest (calls ++ [DeleteObject bucket key])
      end
  end.

(** [for pages.HasMorePages() { page, err := pages.NextPage(ctx) ... }] *)
Fixpoint dropPages (s3 : S3) (bucket prefix : string) (pages : list (list string + error))
    (calls : list Call) : option error * list Call :=
  match pages with
  | [] => (None, calls)
  | page :: rest =>
      match page with
      | inr err =>
          (Some (Errorf "failed to list objects from bucket: " err),
           calls ++ [ListObjectsV2 bucket prefix])
      | inl contents =>
          match deleteObjects s3 bucket contents (calls ++ [ListObjectsV2 bucket prefix]) with
          | (Some err, calls') => (Some err, calls')
          | (None, calls') => dropPages s3 bucket prefix rest calls'
          end
      end
  end.

(** dropStage drops the stage for the given job. *)
Definition dropStage (s3 : S3) (stagingPath job : string) : option error * list Call :=
  (* if s3 we need to delete the contents of the bucket *)
  if String.prefix "s3://" stagingPath then
    match NewS3BucketAndPrefix s3 stagingPath with
    | inr err => (Some (Errorf "failed to create S3 bucket and prefix: " err), [])
    | inl s3o =>
        let prefix := Prefix s3o +:+ "/" +:+ job in
        match clientError s3 with
        | Some err => (Some (Errorf "failed to create S3 client: " err), [])
        | None => dropPages s3 (Bucket s3o) prefix (firstPage s3 :: nextPages s3) []
        end
    end
  else (None, []).

(** CleanupQRepFlow function for clickhouse connector; [stagingPath] is
    [config.StagingPath]. *)
Definition CleanupQRepFlow (s3 : S3) (stagingPath : string) (config : protos.QRepConfig)
  : option error * list Call :=
  dropStage s3 stagingPath (protos.FlowJobName config).

(** The keys deleted, in order, and the listings asked for. *)
Definition deleted (calls : list Call) : list string :=
  omap (λ c, match c with
             | DeleteObject _ key => Some key
             | ListObjectsV2 _ _ => None
             end) calls.

Definition listings (calls : list Call) : list (string * string) :=
  omap (λ c, match c with
             | ListObjectsV2 bucket prefix => Some (bucket, prefix)
             | DeleteObject _ _ => None
             end) calls.

(** The keys of the pages served before the first page that fails. *)
Fixpoint served (pages : list (list string + error)) : list string :=
  match pages with
  | inl contents :: rest => contents ++ served rest
  | _ => []
  end.

(** A call addresses the bucket [bucket], and lists under [prefix] only. *)
Definition within (bucket prefix : string) (c : Call) : Prop :=
  match c with
  | ListObjectsV2 b p => b = bucket ∧ p = prefix
  | DeleteObject b _ => b = bucket
  end.

End connclickhouse.

(** ** Package [peerflow]: the snapshot flow

    The second part of [flow/workflows/qrep_flow.go].  As for the QRep
    orchestrator, every call to the runtime is an [Event] of a trace and
    what the runtime answers is read from a [World]; the bound selector of
    package [shared] is part of the runtime. *)

Module snapshotflow.
Import Go.

Inductive snapshotType :=
| SNAPSHOT_TYPE_UNKNOWN
| SNAPSHOT_TYPE_SLOT
| SNAPSHOT_TYPE_TX.

(** Modelled from the spec: the peer types the spec names; the enumeration
    is part of the generated package. *)
Inductive DBType :=
| DBType_POSTGRES
| DBType_MYSQL
| DBType_CLICKHOUSE
| DBType_BIGQUERY
| DBType_SNOWFLAKE
| DBType_S3
| DBType_ELASTICSEARCH.

#[global] Instance DBType_eq_dec : EqDecision DBType.
Proof. solve_decision. Defined.

(** A column setting is opaque to the workflow. *)
Definition ColumnSetting : Type := string.

Record TableMapping := {
  SourceTableIdentifier : string;
  DestinationTableIdentifier : string;
  PartitionKey : string;
  Exclude : list string;
  Columns : list ColumnSetting
}.

Record FlowConnectionConfigs := {
  FlowJobName : string;
  SourceName : string;
  DestinationName : string;
  TableMappings : list TableMapping;
  DoInitialSnapshot : bool;
  InitialSnapshotOnly : bool;
  PublicationName : string;
  ReplicationSlotName : string;
  Env : gmap string string;
  SnapshotNumTablesInParallel : Z;       (* uint32 *)
  SnapshotMaxParallelWorkers : Z;        (* uint32 *)
  SnapshotNumRowsPerPartition : Z;       (* uint32 *)
  SnapshotStagingPath : string;
  SyncedAtColName : string;
  SoftDeleteColName : string;
  System : Z;
  Script : string;
  Version : Z
}.

Record SetupReplicationInput := {
  sri_PeerName : string;
  sri_FlowJobName : string;
  TableNameMapping : gmap string string;
  sri_DoInitialSnapshot : bool;
  ExistingPublicationName : string;
  ExistingReplicationSlotName : string;
  sri_Env : gmap string string
}.

Record SetupReplicationOutput := {
  SlotName : string;
  sro_SnapshotName : string;
  SupportsTidScans : bool
}.

(** [activities.TxSnapshotState] *)
Record TxSnapshotState := {
  tss_SnapshotName : string;
  SupportsTIDScans : bool
}.

Record FieldDescription := {
  Name : string
}.

Record TableSchema := {
  ts_Columns : list FieldDescription;
  PrimaryKeyColumns : list string
}.

(** The fields of [protos.QRepConfig] that the QRep orchestrator does not
    read, and that [cloneTable] sets. *)
Record QRepConfigRest := {
  Query : string;
  WatermarkColumn : string;
  SnapshotName : string;
  NumRowsPerPartition : Z;               (* uint32 *)
  StagingPath : string;
  qcr_Script : string;
  ParentMirrorName : string;
  qcr_Exclude : list string;
  qcr_Columns : list ColumnSetting
}.

Inductive Event :=
| CreateSession
| CompleteSession
| SetupReplication (input : SetupReplicationInput)
| CloseSlotKeepAlive (flowJobName : string)
| MaintainTx (sessionID sourceName : string) (env : gmap string string)
| WaitForExportSnapshot (sessionID : string)
| NewBoundSelector (limit : Z)
| LoadTableSchema (flowJobName dstName : string)
| getPeerType (name : string)
(* boundSelector.SpawnChild(childCtx, QRepFlowWorkflow, nil, config, nil),
   with the WorkflowID of childCtx *)
| SpawnChild (WorkflowID : string) (config : protos.QRepConfig) (rest : QRepConfigRest)
(* boundSelector.Wait(ctx) *)
| Wait.

(** What the selector of the TX mode delivers: the completion of
    [MaintainTx], that of [WaitForExportSnapshot], or the cancellation of
    the context, whose [Err()] is then not nil. *)
Inductive Selected :=
| SelMaintainTx
| SelExportSnapshot
| SelDone (ctxErr : error).

Record World := {
  OriginalRunID : string;
  SessionID : string;
  (* the error of a call or of a future, given the trace before it *)
  answer : list Event → Event → option error;
  (* what SetupReplication returns when it succeeds *)
  slotInfo : SetupReplicationOutput;
  (* what WaitForExportSnapshot returns when it succeeds: not nil *)
  txnSnapshotState : TxSnapshotState;
  selected : Selected;
  (* what LoadTableSchema returns for a destination table *)
  tableSchema : string → TableSchema;
  peerType : string → DBType
}.

Inductive halt :=
| Errored (err : error)
| Panicked.

(** A computation yields a value or stops the workflow, and extends the
    trace. *)
Definition M (A : Type) : Type := list Event → (A + halt) * list Event.

#[global] Instance M_ret : MRet M := λ A a tr, (inl a, tr).

#[global] Instance M_bind : MBind M := λ A B f c tr,
  match c tr with
  | (inl a, tr') => f a tr'
  | (inr h, tr') => (inr h, tr')
  end.

Definition stop {A} (h : halt) : M A := λ tr, (inr h, tr).

Definition record (e : Event) : M unit := λ tr, (inl (), tr ++ [e]).

(** [if err := c; err != nil { return fmt.Errorf(pre, err) }] *)
Definition wrapErr {A} (pre : string) (c : M A) : M A := λ tr,
  match c tr with
  | (inr (Errored err), tr') => (inr (Errored (Errorf pre err)), tr')
  | r => r
  end.

(** [defer d()]: [d] runs when the function returns or panics, and what it
    returns is dropped. *)
Definition defer {A B} (d : M B) (c : M A) : M A := λ tr,
  match c tr with
  | (r, tr') => (r, (d tr').2)
  end.

(** [defaultPartitionCol] of [cloneTables]: ctid, unless the source is too
    old for TID scans. *)
Definition defaultPartitionCol (supportsTIDScans : bool) : string :=
  if supportsTIDScans then "ctid" else "".

Section workflows.
(** [shared.ReplaceIllegalCharactersWithUnderscores]; [utils.ParseSchemaTable]
    with the [String] and [MySQL] methods of what it returns;
    [utils.QuoteIdentifier]. *)
Context (ReplaceIllegalCharactersWithUnderscores : string → string).
Context (SchemaTable : Type).
Context (ParseSchemaTable : string → SchemaTable + error).
Context (String_ MySQL : SchemaTable → string).
Context (QuoteIdentifier : string → string).
Context (w : World).
Context (config : FlowConnectionConfigs).

(** [workflow.ExecuteActivity(ctx, a, ...).Get(ctx, ...)], and the other
    calls that return an error. *)
Definition call (e : Event) : M unit := λ tr,
  match answer w tr e with
  | None => (inl (), tr ++ [e])
  | Some err => (inr (Errored err), tr ++ [e])
  end.

(** [for _, v := range s.config.TableMappings { tblNameMapping[...] = ... }] *)
Definition tblNameMapping : gmap string string :=
  foldl (λ m v, <[SourceTableIdentifier v := DestinationTableIdentifier v]> m) ∅
        (TableMappings config).

Definition setupReplicationInput : SetupReplicationInput :=
  {| sri_PeerName := SourceName config;
     sri_FlowJobName := FlowJobName config;
     TableNameMapping := tblNameMapping;
     sri_DoInitialSnapshot := DoInitialSnapshot config;
     ExistingPublicationName := PublicationName config;
     ExistingReplicationSlotName := ReplicationSlotName config;
     sri_Env := Env config |}.

Definition setupReplication : M SetupReplicationOutput :=
  wrapErr "failed to setup replication on source peer: "
    (call (SetupReplication setupReplicationInput));;
  mret (slotInfo w).

Definition closeSlotKeepAlive : M unit :=
  wrapErr "failed to close slot keep alive for peer flow: "
    (call (CloseSlotKeepAlive (FlowJobName config))).

(** The closure [initTableSchema] of [cloneTable], with the variable
    [tableSchema] it captures: the schema is loaded once. *)
Definition initTableSchema (dstName : string) (tableSchema_ : option TableSchema)
  : M TableSchema :=
  match tableSchema_ with
  | Some schema => mret schema
  | None =>
      call (LoadTableSchema (FlowJobName config) dstName);;
      mret (tableSchema w dstName)
  end.

(** [getPeerType(ctx, name)] *)
Definition peerTypeOf (name : string) : M DBType :=
  call (getPeerType name);;
  mret (peerType w name).

Definition cloneTable (snapshotName : string) (mapping : TableMapping) : M unit :=
  let flowName := FlowJobName config in
  let srcName := SourceTableIdentifier mapping in
  let dstName := DestinationTableIdentifier mapping in
  let originalRunID := OriginalRunID w in
  let childWorkflowID :=
    ReplaceIllegalCharactersWithUnderscores
      ("clone_" +:+ flowName +:+ "_" +:+ srcName +:+ "_" +:+ originalRunID) in
  match ParseSchemaTable srcName with
  | inr err => stop (Errored (Errorf "unable to parse source table: " err))
  | inl parsedSrcTable =>
      selection ←
        (if bool_decide (len (Exclude mapping) ≠ 0) then
           schema ← initTableSchema dstName None;
           let quotedColumns :=
             QuoteIdentifier <$>
               filter (λ col, col ∉ Exclude mapping) (Name <$> ts_Columns schema) in
           mret (String.concat "," quotedColumns, Some schema)
         else mret ("*", None));
      let from := selection.1 in
      let tableSchema_ := selection.2 in
      (* usually MySQL supports double quotes with ANSI_QUOTES, but Vitess doesn't *)
      dbtype ← peerTypeOf (SourceName config);
      let srcTableEscaped :=
        if bool_decide (dbtype = DBType_MYSQL) then MySQL parsedSrcTable
        else String_ parsedSrcTable in
      let query :=
        if bool_decide (PartitionKey mapping = "") then
          "SELECT " +:+ from +:+ " FROM " +:+ srcTableEscaped
        else
          "SELECT " +:+ from +:+ " FROM " +:+ srcTableEscaped +:+ " WHERE " +:+
          PartitionKey mapping +:+ " BETWEEN {{.start}} AND {{.end}}" in
      let numWorkers :=
        if bool_decide (0 < SnapshotMaxParallelWorkers config)
        then SnapshotMaxParallelWorkers config else 8 in
      let numRowsPerPartition :=
        if bool_decide (0 < SnapshotNumRowsPerPartition config)
        then SnapshotNumRowsPerPartition config else 250000 in
      (* ensure document IDs are synchronized across initial load and CDC *)
      dbtype' ← peerTypeOf (DestinationName config);
      snapshotWriteMode ←
        (if bool_decide (dbtype' = DBType_ELASTICSEARCH) then
           schema ← initTableSchema dstName tableSchema_;
           mret {| protos.WriteType := protos.QREP_WRITE_MODE_UPSERT;
                   protos.UpsertKeyColumns := PrimaryKeyColumns schema |}
         else mret {| protos.WriteType := protos.QREP_WRITE_MODE_APPEND;
                      protos.UpsertKeyColumns := [] |});
      record (SpawnChild childWorkflowID
        {| protos.FlowJobName := childWorkflowID;
           protos.SourceName := SourceName config;
           protos.DestinationName := DestinationName config;
           protos.DestinationTableIdentifier := dstName;
           protos.WatermarkTable := srcName;
           protos.SetupWatermarkTableOnDestination := false;
           protos.SyncedAtColName := SyncedAtColName config;
           protos.SoftDeleteColName := SoftDeleteColName config;
           protos.Env := Env config;
           protos.System := System config;
           protos.Version := Version config;
           protos.DstTableFullResync := false;
           protos.InitialCopyOnly := true;
           protos.WriteMode := Some snapshotWriteMode;
           protos.MaxParallelWorkers := numWorkers;
           protos.WaitBetweenBatchesSeconds := 0 |}
        {| Query := query;
           WatermarkColumn := PartitionKey mapping;
           SnapshotName := snapshotName;
           NumRowsPerPartition := numRowsPerPartition;
           StagingPath := SnapshotStagingPath config;
           qcr_Script := Script config;
           ParentMirrorName := flowName;
           qcr_Exclude := Exclude mapping;
           qcr_Columns := Columns mapping |})
  end.

(** [if v.PartitionKey == "" { v.PartitionKey = defaultPartitionCol }]: [v]
    is a pointer, so the assignment changes the mapping of the
    configuration; the workflow reads the partition key of a mapping
    nowhere else, and [cloneTable] is given the mapping as changed. *)
Definition withDefaultPartitionKey (defaultPartitionCol : string) (v : TableMapping)
  : TableMapping :=
  if bool_decide (PartitionKey v = "") then
    {| SourceTableIdentifier := SourceTableIdentifier v;
       DestinationTableIdentifier := DestinationTableIdentifier v;
       PartitionKey := defaultPartitionCol;
       Exclude := Exclude v;
       Columns := Columns v |}
  else v.

(** The loop of [cloneTables]: a table whose clone cannot be started is
    logged and skipped. *)
Fixpoint cloneLoop (snapshotName defaultPartitionCol : string)
    (mappings : list TableMapping) : M unit :=
  match mappings with
  | [] => mret ()
  | v :: rest => λ tr,
      match cloneTable snapshotName (withDefaultPartitionKey defaultPartitionCol v) tr with
      | (inr Panicked, tr') => (inr Panicked, tr')
      | (_, tr') => cloneLoop snapshotName defaultPartitionCol rest tr'
      end
  end.

Definition cloneTables (snapshotType_ : snapshotType) (slotName snapshotName : string)
    (supportsTIDScans : bool) (maxParallelClones : Z) : M unit :=
  record (NewBoundSelector maxParallelClones);;
  cloneLoop snapshotName (defaultPartitionCol supportsTIDScans) (TableMappings config);;
  call Wait.

Definition cloneTablesWithSlot (numTablesInParallel : Z) : M unit :=
  slotInfo_ ← wrapErr "failed to setup replication: " setupReplication;
  defer closeSlotKeepAlive
    (wrapErr "failed to clone tables: "
       (cloneTables SNAPSHOT_TYPE_SLOT (SlotName slotInfo_) (sro_SnapshotName slotInfo_)
          (SupportsTidScans slotInfo_) numTablesInParallel)).

Definition SnapshotFlowWorkflow : M unit :=
  let numTablesInParallel := Z.max (SnapshotNumTablesInParallel config) 1 in
  wrapErr "failed to create session: " (call CreateSession);;
  defer (record CompleteSession)
    (if negb (DoInitialSnapshot config) then
       wrapErr "failed to setup replication: " setupReplication;;
       wrapErr "failed to close slot keep alive: " closeSlotKeepAlive
     else if InitialSnapshotOnly config then
       let fMaintain := MaintainTx (SessionID w) (SourceName config) (Env config) in
       let fExportSnapshot := WaitForExportSnapshot (SessionID w) in
       λ tr,
         (record fMaintain;;
          record fExportSnapshot;;
          match selected w with
          | SelMaintainTx =>
              (* MaintainTx should never exit without an error before this point *)
              match answer w tr fMaintain with
              | Some sessionError => stop (Errored sessionError)
              | None => stop Panicked        (* txnSnapshotState is nil *)
              end
          | SelExportSnapshot =>
              (* Happy path is waiting for this to return without error *)
              match answer w (tr ++ [fMaintain]) fExportSnapshot with
              | Some sessionError => stop (Errored sessionError)
              | None =>
                  wrapErr "failed to clone tables: "
                    (cloneTables SNAPSHOT_TYPE_TX ""
                       (tss_SnapshotName (txnSnapshotState w))
                       (SupportsTIDScans (txnSnapshotState w)) numTablesInParallel)
              end
          | SelDone ctxErr => stop (Errored ctxErr)
          end) tr
     else
       wrapErr "failed to clone slots and create replication slot: "
         (cloneTablesWithSlot numTablesInParallel)).

End workflows.

(** *** Reading a trace of the snapshot flow *)

Definition isSpawnChild (e : Event) : bool :=
  match e with
  | SpawnChild _ _ _ => true
  | _ => false
  end.

Definition isCloseSlotKeepAlive (e : Event) : bool :=
  match e with
  | CloseSlotKeepAlive _ => true
  | _ => false
  end.

Definition isSetupReplication (e : Event) : bool :=
  match e with
  | SetupReplication _ => true
  | _ => false
  end.

Definition isLoadTableSchema (e : Event) : bool :=
  match e with
  | LoadTableSchema _ _ => true
  | _ => false
  end.

(** The configurations of the children spawned, in order. *)
Definition children (tr : list Event)
  : list (string * protos.QRepConfig * QRepConfigRest) :=
  omap (λ e, match e with
             | SpawnChild wid c rest => Some (wid, c, rest)
             | _ => None
             end) tr.

(** The identifier [cloneTable] gives the child of a mapping. *)
Definition childID (ReplaceIllegalCharactersWithUnderscores : string → string)
    (w : World) (config : FlowConnectionConfigs) (mapping : TableMapping) : string :=
  ReplaceIllegalCharactersWithUnderscores
    ("clone_" +:+ FlowJobName config +:+ "_" +:+ SourceTableIdentifier mapping +:+ "_" +:+
     OriginalRunID w).

(** Whether a run gets as far as [cloneTables]: an initial snapshot is asked
    for, the session is created and, in the transaction mode, the snapshot
    is exported, otherwise replication is set up. *)
Definition reachesCloneTables (w : World) (config : FlowConnectionConfigs) : bool :=
  DoInitialSnapshot config
  && match answer w [] CreateSession with
     | Some _ => false
     | None =>
         if InitialSnapshotOnly config then
           match selected w with
           | SelExportSnapshot =>
               match answer w
                       [CreateSession;
                        MaintainTx (SessionID w) (SourceName config) (Env config)]
                       (WaitForExportSnapshot (SessionID w)) with
               | Some _ => false
               | None => true
               end
           | _ => false
           end
         else
           match answer w [CreateSession]
                   (SetupReplication (setupReplicationInput config)) with
           | Some _ => false
           | None => true
           end
     end.

(** The snapshot the children read, and whether the source supports TID
    scans, as the mode has them. *)
Definition snapshotNameOf (w : World) (config : FlowConnectionConfigs) : string :=
  if InitialSnapshotOnly config then tss_SnapshotName (txnSnapshotState w)
  else sro_SnapshotName (slotInfo w).

Definition supportsTIDScansOf (w : World) (config : FlowConnectionConfigs) : bool :=
  if InitialSnapshotOnly config then SupportsTIDScans (txnSnapshotState w)
  else SupportsTidScans (slotInfo w).

(** What [cloneTable] asks of the child that copies the table of a mapping,
    under the identifier [wid]. *)
Definition clones (w : World) (config : FlowConnectionConfigs) (snapshotName : string)
    (mapping : TableMapping) (wid : string) (c : protos.QRepConfig)
    (rest : QRepConfigRest) : Prop :=
  protos.FlowJobName c = wid
  ∧ protos.WatermarkTable c = SourceTableIdentifier mapping
  ∧ protos.DestinationTableIdentifier c = DestinationTableIdentifier mapping
  ∧ protos.InitialCopyOnly c = true
  ∧ protos.DstTableFullResync c = false
  ∧ protos.WriteMode c
    = Some (if bool_decide (peerType w (DestinationName config) = DBType_ELASTICSEARCH)
            then {| protos.WriteType := protos.QREP_WRITE_MODE_UPSERT;
                    protos.UpsertKeyColumns :=
                      PrimaryKeyColumns
                        (tableSchema w (DestinationTableIdentifier mapping)) |}
            else {| protos.WriteType := protos.QREP_WRITE_MODE_APPEND;
                    protos.UpsertKeyColumns := [] |})
  ∧ 0 < protos.MaxParallelWorkers c
  ∧ 0 < NumRowsPerPartition rest
  ∧ SnapshotName rest = snapshotName
  ∧ WatermarkColumn rest = PartitionKey mapping
  ∧ ParentMirrorName rest = FlowJobName config
  ∧ ∃ from table,
      Query rest
      = "SELECT " +:+ from +:+ " FROM " +:+ table +:+
        (if bool_decide (PartitionKey mapping = "") then ""
         else " WHERE " +:+ PartitionKey mapping +:+ " BETWEEN {{.start}} AND {{.end}}")
      ∧ (Exclude mapping = [] → from = "*").

(** Whatever a computation adds to the trace satisfies [P]. *)
Definition emits (P : Event → Prop) {A} (c : M A) : Prop :=
  ∀ tr r tr', c tr = (r, tr') → ∃ evs, tr' = tr ++ evs ∧ Forall P evs.

(** The calls of [cloneTable]: the table's schema, the peer types and the
    child. *)
Definition ofCloneTable (e : Event) : Prop :=
  match e with
  | LoadTableSchema _ _ | getPeerType _ | SpawnChild _ _ _ => True
  | _ => False
  end.

Definition isSession (e : Event) : bool :=
  match e with
  | CreateSession | CompleteSession => true
  | _ => false
  end.

(** Outside [cloneTables] no child is started and no schema is loaded. *)
Definition apart (e : Event) : Prop :=
  isSpawnChild e = false ∧ isLoadTableSchema e = false.

End snapshotflow.

(** ** Reading a trace *)

Module obs.
Import Go protos model temporal.

(** The batches of the child partition workflows started, in order. *)
Definition childBatches (tr : list Event) : list QRepPartitionBatch :=
  omap (λ e, match e with
             | ChildQRepPartitionWorkflow _ _ partitions _ => Some partitions
             | _ => None
             end) tr.

(** The batches that numbering slices from [i + 1] on gives. *)
Fixpoint numbered (i : Z) (slices : list (list QRepPartition)) : list QRepPartitionBatch :=
  match slices with
  | [] => []
  | parts :: rest =>
      {| BatchId := int32 (i + 1); Partitions := parts |} :: numbered (i + 1) rest
  end.

(** The calls that set a cycle up or report on it: they neither create,
    discover, replicate, consolidate nor rename. *)
Definition isAuxiliary (e : Event) : bool :=
  match e with
  | SetQueryHandler _ | syncStatusToCatalog _ | SetupTableSchema _
  | CreateNormalizedTable _ | SetupQRepMetadataTables _
  | getQRepOverwriteFullRefreshMode _ | ChildQRepWaitForNewRowsWorkflow _ _ => true
  | _ => false
  end.

Definition isChildPartition (e : Event) : bool :=
  match e with
  | ChildQRepPartitionWorkflow _ _ _ _ => true
  | _ => false
  end.

Definition isCreateTables (e : Event) : bool :=
  match e with
  | CreateTablesFromExisting _ => true
  | _ => false
  end.

Definition isRenameTables (e : Event) : bool :=
  match e with
  | RenameTables _ => true
  | _ => false
  end.

Definition isDiscovery (e : Event) : bool :=
  match e with
  | GetQRepPartitions _ _ _ => true
  | _ => false
  end.

(** A workflow function that stops does not continue as new. *)
Definition noContinue {A} (r : A + halt) : Prop :=
  ∀ c s, r ≠ inr (ContinueAsNew c s).

(** Two states with the same progress: they differ at most in the status. *)
Definition sameProgress (s s1 : QRepFlowState) : Prop :=
  LastPartition s1 = LastPartition s
  ∧ NumPartitionsProcessed s1 = NumPartitionsProcessed s
  ∧ NeedsResync s1 = NeedsResync s.

(** From [m] to [m1] the configuration and the progress are kept, and only
    events that satisfy [ok] are recorded. *)
Definition advance (ok : Event → bool) (m m1 : Mach) : Prop :=
  config m1 = config m
  ∧ sameProgress (state m) (state m1)
  ∧ ∃ evs, trace m1 = trace m ++ evs ∧ Forall ok evs.

Definition calm (ok : Event → bool) {A} (c : W A) : Prop :=
  ∀ m r m1, c m = (r, m1) → noContinue r ∧ advance ok m m1.

Definition isSleep (e : Event) : bool :=
  match e with
  | Sleep _ => true
  | _ => false
  end.

(** The cursors passed to partition discovery, and to the wait for new rows. *)
Definition discoveryCursors (tr : list Event) : list (option QRepPartition) :=
  omap (λ e, match e with
             | GetQRepPartitions _ last _ => Some last
             | _ => None
             end) tr.

Definition waitCursors (tr : list Event) : list (option QRepPartition) :=
  omap (λ e, match e with
             | ChildQRepWaitForNewRowsWorkflow _ lastPartition => Some lastPartition
             | _ => None
             end) tr.

(** Partition discovery ran: [GetQRepPartitions] was called, which is to say
    that the cycle was not skipped by a pause signal. *)
Definition discoveryRan (tr : list Event) : bool := existsb isDiscovery tr.

(** Full-refresh mode is in effect: OVERWRITE write mode, and the setting
    oracle says so. *)
Definition fullRefreshInEffect (w : World) (c : QRepConfig) : bool :=
  match WriteMode c with
  | Some wm => bool_decide (WriteType wm = QREP_WRITE_MODE_OVERWRITE) && fullRefreshMode w
  | None => false
  end.

(** The shadow table of a resync. *)
Definition shadow (t : string) : string := t +:+ "_peerdb_resync".

(** The calls of a resync, for the configuration [c] at the time. *)
Definition createShadow (c : QRepConfig) : Event :=
  CreateTablesFromExisting
    {| ctfe_FlowJobName := FlowJobName c;
       ctfe_PeerName := DestinationName c;
       NewToExistingTableMapping :=
         {[ shadow (DestinationTableIdentifier c) := DestinationTableIdentifier c ]} |}.

Definition fetchSchema (c : QRepConfig) (tableName : string) : Event :=
  SetupTableSchema
    {| stsb_PeerName := SourceName c;
       stsb_TableMappings :=
         [ {| SourceTableIdentifier := tableName;
              tm_DestinationTableIdentifier := DestinationTableIdentifier c |} ];
       stsb_FlowName := FlowJobName c;
       stsb_System := System c;
       stsb_Env := Env c;
       stsb_Version := Version c |}.

Definition renameShadow (c : QRepConfig) : Event :=
  RenameTables
    {| rti_FlowJobName := FlowJobName c;
       rti_PeerName := DestinationName c;
       RenameTableOptions :=
         [ {| CurrentName := DestinationTableIdentifier c;
              NewName := TrimSuffix (DestinationTableIdentifier c) "_peerdb_resync" |} ] |}.

(** The calls that close a cycle after the fan-out. *)
Definition isClosing (e : Event) : bool :=
  match e with
  | ConsolidateQRepPartitions _ _ | CleanupQRepFlow _ | SetupTableSchema _
  | RenameTables _ | syncStatusToCatalog _ => true
  | _ => false
  end.

(** An event neither creates nor renames tables. *)
Definition noDDL (e : Event) : Prop :=
  isCreateTables e = false ∧ isRenameTables e = false.

(** An event starts a child partition workflow for the configuration [c] and
    the run [runUUID]. *)
Definition startsChild (c : QRepConfig) (runUUID : string) (e : Event) : Prop :=
  ∃ wid b, e = ChildQRepPartitionWorkflow wid c b runUUID.

(** A triple for the computations of a workflow: run from a store that
    satisfies [P], the computation [c] either yields a value [a] and leaves
    a store that satisfy [R], or stops the workflow in a way [h] and leaves
    a store that satisfy [Q]. *)
Definition hoare {A} (P : Mach → Prop) (c : W A)
    (R : A → Mach → Prop) (Q : halt → Mach → Prop) : Prop :=
  ∀ m r m1, P m → c m = (r, m1) →
    match r with
    | inl a => R a m1
    | inr h => Q h m1
    end.

(** What [wrapErr] makes of the way its argument stops. *)
Definition wrapHalt (pre : string) (h : halt) : halt :=
  match h with
  | Errored err => Errored (Errorf pre err)
  | _ => h
  end.

(** The first error among the outcomes of the child workflows, in the order
    of the batches. *)
Fixpoint firstError (futures : list (option error)) : option error :=
  match futures with
  | [] => None
  | None :: rest => firstError rest
  | Some err :: _ => Some err
  end.

(** The outcome of each child started by [started], after the history
    [history]: what the runtime answers at the moment the child is
    started. *)
Fixpoint outcomes (w : World) (history started : list Event) : list (option error) :=
  match started with
  | [] => []
  | e :: rest => answer w history e :: outcomes w (history ++ [e]) rest
  end.

Definition isWait (e : Event) : bool :=
  match e with
  | ChildQRepWaitForNewRowsWorkflow _ _ => true
  | _ => false
  end.

Definition isSync (e : Event) : bool :=
  match e with
  | syncStatusToCatalog _ => true
  | _ => false
  end.

(** The number of workers a cycle fans out to. *)
Definition workers (c : QRepConfig) : Z :=
  if bool_decide (0 < MaxParallelWorkers c) then MaxParallelWorkers c else 16.

(** The cursor the wait for new rows is started with. *)
Definition waitCursor (w : World) (c : QRepConfig) (s : QRepFlowState)
  : option QRepPartition :=
  if fullRefreshInEffect w c then Some peerflow.InitialLastPartition else LastPartition s.

(** The signals among what the signal channel delivers. *)
Definition received (receives : list RecvResult) : list CDCFlowSignal :=
  omap (λ r, match r with
             | Received val => Some val
             | TimedOut _ => None
             end) receives.

(** The context is not done at any of these receives. *)
Definition alive (receives : list RecvResult) : Prop :=
  Forall (λ r, ∀ err, r ≠ TimedOut (Some err)) receives.

(** Handled one after the other from the pause signal, the signals [vals]
    leave the pause signal active at every step. *)
Definition staysPaused (FSH : CDCFlowSignal → CDCFlowSignal → CDCFlowSignal)
    (vals : list CDCFlowSignal) : Prop :=
  ∀ k : nat, foldl FSH PauseSignal (take k vals) = PauseSignal.

(** A [Select] of the wait for new rows that delivers no signal. *)
Definition noSignal (e : SelectEvent) : Prop :=
  match e with
  | SelSignal _ => False
  | _ => True
  end.

End obs.

(** ** Concrete runs *)

Module scenario.
Import Go protos model temporal.

Definition part (id : string) : QRepPartition :=
  {| PartitionId := id; Range := None; FullTablePartition := false |}.

Definition p0 : QRepPartition := part "p0".
Definition p1 : QRepPartition := part "p1".
Definition p2 : QRepPartition := part "p2".
Definition p3 : QRepPartition := part "p3".
Definition p4 : QRepPartition := part "p4".
Definition p5 : QRepPartition := part "p5".

Definition five : list QRepPartition := [p1; p2; p3; p4; p5].

(** Modelled from the spec: [model.FlowSignalHandler] is outside the sources
    at hand.  The handler folds a new signal into the active one; Pause is
    sticky until an explicit resume.  The workflows are parametric in the
    handler; this one is used to run them on concrete inputs. *)
Definition FlowSignalHandler (activeSignal v : CDCFlowSignal) : CDCFlowSignal :=
  match v, activeSignal with
  | PauseSignal, NoopSignal => PauseSignal
  | NoopSignal, PauseSignal => NoopSignal
  | ResumeSignal, PauseSignal => NoopSignal
  | _, _ => activeSignal
  end.

(** A mirror of table [t] with two parallel workers. *)
Definition mirror (writeType : QRepWriteType) (initialCopyOnly dstTableFullResync : bool)
  : QRepConfig :=
  {| FlowJobName := "mirror"; SourceName := "source"; DestinationName := "destination";
     DestinationTableIdentifier := "t"; WatermarkTable := "s";
     SetupWatermarkTableOnDestination := false;
     SyncedAtColName := "_PEERDB_SYNCED_AT"; SoftDeleteColName := "_PEERDB_IS_DELETED";
     Env := ∅; System := 0; Version := 0;
     DstTableFullResync := dstTableFullResync;
     InitialCopyOnly := initialCopyOnly;
     WriteMode := Some {| WriteType := writeType; UpsertKeyColumns := [] |};
     MaxParallelWorkers := 2;
     WaitBetweenBatchesSeconds := 0 |}.

(** A world in which every call succeeds, discovery returns [found], the
    setting oracle answers [fullRefresh], and the wait for new rows ends
    after the selector has delivered [selects]. *)
Definition world (found : list QRepPartition) (fullRefresh : bool)
    (selects : list SelectEvent) : World :=
  {| OriginalRunID := "run";
     IsRootWorkflow := true;
     answer := λ _ _, None;
     partitionsFound := found;
     hasNewRowsFound := true;
     fullRefreshMode := fullRefresh;
     GetUUID := λ _, "uuid";
     pauseReceives := [];
     waitSelects := selects;
     pendingSignals := [] |}.

Definition running (last : QRepPartition) (needsResync : bool) : QRepFlowState :=
  {| LastPartition := Some last; NumPartitionsProcessed := 7;
     NeedsResync := needsResync; CurrentFlowStatus := STATUS_RUNNING |}.

Definition store (c : QRepConfig) (s : QRepFlowState) : Mach :=
  {| config := c; state := s; activeSignal := NoopSignal; trace := [] |}.

(** The happy path of the spec: append mode, five partitions found, new
    rows at once. *)
Definition quiet : World := world five false [SelFuture None].

Definition appendStore : Mach :=
  store (mirror QREP_WRITE_MODE_APPEND false false) (running p0 false).

Definition appendRun : halt * Mach :=
  peerflow.QRepFlowWorkflow FlowSignalHandler quiet
    (mirror QREP_WRITE_MODE_APPEND false false) (Some (running p0 false)).

(** Overwrite mode with the full-refresh setting on, from a state whose
    cursor is [p5]. *)
Definition fullRefreshRun : halt * Mach :=
  peerflow.QRepFlowWorkflow FlowSignalHandler (world [p1; p2] true [SelFuture None])
    (mirror QREP_WRITE_MODE_OVERWRITE false false) (Some (running p5 false)).

(** An initial copy. *)
Definition initialCopyRun : halt * Mach :=
  peerflow.QRepFlowWorkflow FlowSignalHandler quiet
    (mirror QREP_WRITE_MODE_APPEND true false) (Some (running p0 false)).

(** A resync of table [t], from the state of a first invocation. *)
Definition resyncRun : halt * Mach :=
  peerflow.QRepFlowWorkflow FlowSignalHandler quiet
    (mirror QREP_WRITE_MODE_APPEND false true) None.

(** The same resync, with a pause signal received during the wait for new
    rows. *)
Definition pausedResyncRun : halt * Mach :=
  peerflow.QRepFlowWorkflow FlowSignalHandler (world five false [SelSignal PauseSignal])
    (mirror QREP_WRITE_MODE_APPEND false true) None.

(** No resync of the destination table asked for, from the state of a first
    invocation (which needs a resync). *)
Definition plainRun : halt * Mach :=
  peerflow.QRepFlowWorkflow FlowSignalHandler quiet
    (mirror QREP_WRITE_MODE_APPEND false false) None.

(** A configuration that waits the default time, and a world without new
    rows. *)
Definition idle : World :=
  {| OriginalRunID := "run";
     IsRootWorkflow := false;
     answer := λ _ _, None;
     partitionsFound := [];
     hasNewRowsFound := false;
     fullRefreshMode := false;
     GetUUID := λ _, "uuid";
     pauseReceives := [];
     waitSelects := [];
     pendingSignals := [] |}.

(** A catalog that is reachable, answers [row] for every key, and a process
    environment in which every key reads [env]. *)
Definition settings (row : peerdbenv.QueryResult) (env : option string)
  : peerdbenv.Context :=
  {| peerdbenv.poolError := None;
     peerdbenv.QueryRow := λ _, row;
     peerdbenv.LookupEnv := λ _, env |}.

(** Stand-ins for the library calls of [toMap]: a formatter that prints
    the layout, a decimal printer that prints the unscaled digits of a small
    number, parsers that accept nothing. *)
Definition Format (layout : string) (t : Z) : string := layout.

Definition DecimalString (d : Z * Z) : string :=
  String (ascii_of_nat (48 + Z.to_nat (d.1 `mod` 10))) EmptyString.

Definition ParseHstore (s : string) : string + Go.error :=
  inr (Go.errorString "unexpected end of input").

Definition Unmarshal (s : string) : gmap string items.any + Go.error :=
  inr (Go.errorString "unexpected end of JSON input").

Definition options : items.ToJSONOptions :=
  {| items.UnnestColumns := ∅; items.HStoreAsJSON := true |}.

(** Discovery finds nothing. *)
Definition emptyRun : halt * Mach :=
  peerflow.QRepFlowWorkflow FlowSignalHandler (world [] false [SelFuture None])
    (mirror QREP_WRITE_MODE_APPEND false false) (Some (running p0 false)).

(** Stand-ins for [fmt.Sprint] and the [Value] method of a [QValue]. *)
Definition Sprint (v : items.any) : string :=
  match v with
  | items.aString s => s
  | _ => "<nil>"
  end.

Definition Value (qv : items.QValue) : items.any :=
  match qv with
  | items.QValueString s | items.QValueUUID s | items.QValueJSON s
  | items.QValueHStore s => items.aString s
  | items.QValueFloat64 f => items.aFloat64 f
  | items.QValueFloat32 f => items.aFloat32 f
  | items.QValueOther v => v
  | _ => items.nil
  end.

(** A record of two columns, and the two orders in which a range may
    visit it. *)
Definition row : items.RecordItems :=
  items.AddColumn
    (items.AddColumn (items.NewRecordItems 2) "price"
       (Some (items.QValueFloat64 S754_nan)))
    "id" (Some (items.QValueString "7")).

Definition idFirst : list (string * option items.QValue) :=
  [("id", Some (items.QValueString "7")); ("price", Some (items.QValueFloat64 S754_nan))].

Definition priceFirst : list (string * option items.QValue) :=
  [("price", Some (items.QValueFloat64 S754_nan)); ("id", Some (items.QValueString "7"))].

(** A staging bucket of two pages, in which the deletion of [denied]
    fails. *)
Definition bucket (denied : option string) : connclickhouse.S3 :=
  {| connclickhouse.NewS3BucketAndPrefix := λ _,
       inl {| connclickhouse.Bucket := "bucket"; connclickhouse.Prefix := "stage" |};
     connclickhouse.clientError := None;
     connclickhouse.firstPage := inl ["stage/mirror/a"; "stage/mirror/b"];
     connclickhouse.nextPages := [inl ["stage/mirror/c"]];
     connclickhouse.deleteError := λ _ key,
       if bool_decide (Some key = denied) then Some (errorString "access denied")
       else None |}.

(** A clone: the workflow has a parent. *)
Definition clone : World :=
  {| OriginalRunID := "run";
     IsRootWorkflow := false;
     answer := λ _ _, None;
     partitionsFound := five;
     hasNewRowsFound := true;
     fullRefreshMode := false;
     GetUUID := λ _, "uuid";
     pauseReceives := [];
     waitSelects := [SelFuture None];
     pendingSignals := [] |}.

Definition cloneRun : halt * Mach :=
  peerflow.QRepFlowWorkflow FlowSignalHandler clone
    (mirror QREP_WRITE_MODE_APPEND true false) None.

(** A world in which the consolidation fails. *)
Definition failing : World :=
  {| OriginalRunID := "run";
     IsRootWorkflow := true;
     answer := λ _ e,
       match e with
       | ConsolidateQRepPartitions _ _ => Some (errorString "disk full")
       | _ => None
       end;
     partitionsFound := five;
     hasNewRowsFound := true;
     fullRefreshMode := false;
     GetUUID := λ _, "uuid";
     pauseReceives := [];
     waitSelects := [SelFuture None];
     pendingSignals := [] |}.

Definition failedRun : halt * Mach :=
  peerflow.QRepFlowWorkflow FlowSignalHandler failing
    (mirror QREP_WRITE_MODE_APPEND false false)
    (Some (running p0 false)).

(** A mirror entered paused, which receives a signal to resume. *)
Definition paused : QRepFlowState :=
  {| LastPartition := Some p0; NumPartitionsProcessed := 7;
     NeedsResync := false; CurrentFlowStatus := STATUS_PAUSED |}.

Definition resuming : World :=
  {| OriginalRunID := "run";
     IsRootWorkflow := true;
     answer := λ _ _, None;
     partitionsFound := five;
     hasNewRowsFound := true;
     fullRefreshMode := false;
     GetUUID := λ _, "uuid";
     pauseReceives := [Received NoopSignal];
     waitSelects := [SelFuture None];
     pendingSignals := [] |}.

Definition resumedRun : halt * Mach :=
  peerflow.QRepFlowWorkflow FlowSignalHandler resuming
    (mirror QREP_WRITE_MODE_APPEND false false) (Some paused).

(** Stand-ins for the library calls of [cloneTable]: no character is
    replaced, a table name parses unless it is empty, and quoting adds
    nothing. *)
Definition ReplaceIllegalCharactersWithUnderscores (s : string) : string := s.

Definition ParseSchemaTable (s : string) : string + error :=
  if bool_decide (s = "") then inr (errorString "empty table name") else inl s.

Definition QuoteIdentifier (s : string) : string := s.

(** A mirror of two tables, the second without its column [secret], and a
    world in which every call succeeds. *)
Definition tables : list snapshotflow.TableMapping :=
  [{| snapshotflow.SourceTableIdentifier := "public.users";
      snapshotflow.DestinationTableIdentifier := "users";
      snapshotflow.PartitionKey := "";
      snapshotflow.Exclude := [];
      snapshotflow.Columns := [] |};
   {| snapshotflow.SourceTableIdentifier := "public.orders";
      snapshotflow.DestinationTableIdentifier := "orders";
      snapshotflow.PartitionKey := "id";
      snapshotflow.Exclude := ["secret"];
      snapshotflow.Columns := [] |}].

Definition snapshotConfig (doInitialSnapshot initialSnapshotOnly : bool)
  : snapshotflow.FlowConnectionConfigs :=
  {| snapshotflow.FlowJobName := "mirror";
     snapshotflow.SourceName := "source";
     snapshotflow.DestinationName := "destination";
     snapshotflow.TableMappings := tables;
     snapshotflow.DoInitialSnapshot := doInitialSnapshot;
     snapshotflow.InitialSnapshotOnly := initialSnapshotOnly;
     snapshotflow.PublicationName := "";
     snapshotflow.ReplicationSlotName := "";
     snapshotflow.Env := ∅;
     snapshotflow.SnapshotNumTablesInParallel := 0;
     snapshotflow.SnapshotMaxParallelWorkers := 0;
     snapshotflow.SnapshotNumRowsPerPartition := 0;
     snapshotflow.SnapshotStagingPath := "";
     snapshotflow.SyncedAtColName := "_PEERDB_SYNCED_AT";
     snapshotflow.SoftDeleteColName := "_PEERDB_IS_DELETED";
     snapshotflow.System := 0;
     snapshotflow.Script := "";
     snapshotflow.Version := 0 |}.

Definition snapshotWorld : snapshotflow.World :=
  {| snapshotflow.OriginalRunID := "run";
     snapshotflow.SessionID := "session";
     snapshotflow.answer := λ _ _, None;
     snapshotflow.slotInfo :=
       {| snapshotflow.SlotName := "slot";
          snapshotflow.sro_SnapshotName := "snapshot";
          snapshotflow.SupportsTidScans := true |};
     snapshotflow.txnSnapshotState :=
       {| snapshotflow.tss_SnapshotName := "snapshot";
          snapshotflow.SupportsTIDScans := true |};
     snapshotflow.selected := snapshotflow.SelExportSnapshot;
     snapshotflow.tableSchema := λ _,
       {| snapshotflow.ts_Columns :=
            [{| snapshotflow.Name := "id" |}; {| snapshotflow.Name := "secret" |}];
          snapshotflow.PrimaryKeyColumns := ["id"] |};
     snapshotflow.peerType := λ _, snapshotflow.DBType_POSTGRES |}.

Definition snapshotRun (doInitialSnapshot initialSnapshotOnly : bool)
  : (unit + snapshotflow.halt) * list snapshotflow.Event :=
  snapshotflow.SnapshotFlowWorkflow ReplaceIllegalCharactersWithUnderscores string
    ParseSchemaTable id id QuoteIdentifier snapshotWorld
    (snapshotConfig doInitialSnapshot initialSnapshotOnly) [].

(** The cycle after [pausedResyncRun]: it is entered with the configuration
    and the state that run handed on, and the workflow is resumed at the
    pause gate. *)
Definition resumedResyncRun : halt * Mach :=
  peerflow.QRepFlowWorkflow FlowSignalHandler resuming
    (config pausedResyncRun.2) (Some (state pausedResyncRun.2)).

(** A pause asked for while the cycle replicates: the signal is buffered in
    the channel and read by the flush at the end of the cycle. *)
Definition pausing : World :=
  {| OriginalRunID := "run";
     IsRootWorkflow := true;
     answer := λ _ _, None;
     partitionsFound := five;
     hasNewRowsFound := true;
     fullRefreshMode := false;
     GetUUID := λ _, "uuid";
     pauseReceives := [];
     waitSelects := [SelFuture None];
     pendingSignals := [PauseSignal] |}.

Definition pausingRun : halt * Mach :=
  peerflow.QRepFlowWorkflow FlowSignalHandler pausing
    (mirror QREP_WRITE_MODE_APPEND false false) (Some (running p0 false)).








End scenario.

(** * Properties *)

Import Go shared protos model temporal peerflow obs.

(** ** Integers and slices *)

Lemma int32_small (z : Z) : - 2 ^ 31 ≤ z < 2 ^ 31 → int32 z = z.
Proof. intros Hz. unfold int32. rewrite Z.mod_small; lia. Qed.

Lemma uint64_small (z : Z) : 0 ≤ z < 2 ^ 64 → uint64 z = z.
Proof. intros Hz. unfold uint64. apply Z.mod_small; lia. Qed.

Lemma int64_small (z : Z) : - 2 ^ 63 ≤ z < 2 ^ 63 → int64 z = z.
Proof. intros Hz. unfold int64. rewrite Z.mod_small; lia. Qed.

Lemma len_nonneg {A} (l : list A) : 0 ≤ len l.
Proof. unfold len. lia. Qed.

Lemma len_app {A} (l k : list A) : len (l ++ k) = len l + len k.
Proof. unfold len. rewrite length_app. lia. Qed.

Lemma len_nil_iff {A} (l : list A) : len l = 0 ↔ l = [].
Proof. unfold len. destruct l; simpl; split; intros; try done; lia. Qed.

(** The ceiling of a quotient of a non-negative by a positive integer. *)
Lemma DivCeil_bounds (x y : Z) :
  0 ≤ x → 1 ≤ y → (DivCeil x y - 1) * y < x ≤ DivCeil x y * y.
Proof.
  intros Hx Hy. unfold DivCeil.
  rewrite Z.quot_div_nonneg by lia.
  pose proof (Z.div_mod (x + y - 1) y ltac:(lia)) as Hdm.
  pose proof (Z.mod_pos_bound (x + y - 1) y ltac:(lia)) as Hm.
  nia.
Qed.

Lemma DivCeil_unique (x y q : Z) :
  1 ≤ y → (q - 1) * y < x ≤ q * y → 0 ≤ x → DivCeil x y = q.
Proof.
  intros Hy Hq Hx. pose proof (DivCeil_bounds x y Hx Hy) as Hb. nia.
Qed.

Lemma DivCeil_pos (x y : Z) : 1 ≤ x → 1 ≤ y → 1 ≤ DivCeil x y.
Proof. intros Hx Hy. pose proof (DivCeil_bounds x y ltac:(lia) Hy). nia. Qed.

(** In range, the slice expression is [take] after [drop]. *)
Lemma slice_chunk {A} (s : list A) (i c : Z) :
  0 ≤ i < len s → 1 ≤ c →
  slice s i (Z.min (i + c) (len s)) = Some (take (Z.to_nat c) (drop (Z.to_nat i) s)).
Proof.
  intros Hi Hc. unfold slice. rewrite bool_decide_eq_true_2 by lia. f_equal.
  destruct (Z.le_gt_cases (i + c) (len s)) as [Hle|Hgt].
  - rewrite Z.min_l by lia. f_equal. lia.
  - rewrite Z.min_r by lia.
    rewrite !take_ge; [done | |]; rewrite length_drop; unfold len in *; lia.
Qed.

(** ** The batching loop *)

(** The slices the loop appends from index [i] on, when [chunkSize >= 1]:
    they are non-empty, consecutive, [chunkSize] long but for the last, and
    there are [ceil((len - i) / chunkSize)] of them. *)
Lemma batchLoop_chunks (partitions : list QRepPartition) (c : Z) :
  1 ≤ c →
  ∀ (fuel : nat) (i : Z) (acc : list (list QRepPartition)),
    0 ≤ i ≤ len partitions → len partitions - i ≤ Z.of_nat fuel →
    ∃ bs, batchLoop fuel partitions c i acc = inl (acc ++ bs)
        ∧ concat bs = drop (Z.to_nat i) partitions
        ∧ len bs = DivCeil (len partitions - i) c
        ∧ ∀ (j : nat) b, bs !! j = Some b →
            b = take (Z.to_nat c) (drop (Z.to_nat (i + Z.of_nat j * c)) partitions) ∧ b ≠ [].
Proof.
  intros Hc fuel.
  assert (Hlast : ∀ i acc, i = len partitions →
    ∃ bs, inl (B := halt) acc = inl (acc ++ bs)
        ∧ concat bs = drop (Z.to_nat i) partitions
        ∧ len bs = DivCeil (len partitions - i) c
        ∧ ∀ (j : nat) b, bs !! j = Some b →
            b = take (Z.to_nat c) (drop (Z.to_nat (i + Z.of_nat j * c)) partitions) ∧ b ≠ []).
  { intros i acc ->. exists []. rewrite app_nil_r, Z.sub_diag.
    split; [|split; [|split]].
    - done.
    - rewrite drop_ge; [done | unfold len; lia].
    - symmetry. apply DivCeil_unique; unfold len; simpl; lia.
    - intros j b Hj. done. }
  induction fuel as [|fuel IH]; intros i acc Hi Hfuel.
  - simpl. rewrite bool_decide_eq_false_2 by lia. apply Hlast. lia.
  - simpl. case_bool_decide as Hlt; [|apply Hlast; lia].
    rewrite slice_chunk by lia.
    set (parts := take (Z.to_nat c) (drop (Z.to_nat i) partitions)).
    assert (Hparts : parts ≠ []).
    { subst parts. intros Hnil. apply (f_equal length) in Hnil.
      rewrite length_take, length_drop in Hnil. simpl in Hnil.
      unfold len in *. lia. }
    destruct (Z.le_gt_cases (i + c) (len partitions)) as [Hle|Hgt].
    + destruct (IH (i + c) (acc ++ [parts]) ltac:(lia) ltac:(lia))
        as (bs & Hrun & Hcat & Hlen & Hnth).
      exists (parts :: bs). rewrite Hrun, <- app_assoc.
      split; [|split; [|split]].
      * done.
      * simpl. rewrite Hcat. subst parts.
        replace (Z.to_nat (i + c)) with (Z.to_nat i + Z.to_nat c)%nat by lia.
        rewrite <- drop_drop. apply take_drop.
      * change (len (parts :: bs)) with (Z.of_nat (S (length bs))).
        pose proof (DivCeil_bounds (len partitions - (i + c)) c ltac:(lia) Hc).
        unfold len in *. rewrite Nat2Z.inj_succ, Hlen.
        symmetry. apply DivCeil_unique; lia.
      * intros [|j] b Hj; simpl in Hj.
        -- injection Hj as <-. split; [|done]. subst parts. do 2 f_equal. lia.
        -- destruct (Hnth j b Hj) as [-> Hne]. split; [|done]. do 2 f_equal. lia.
    + exists [parts].
      assert (batchLoop fuel partitions c (i + c) (acc ++ [parts]) = inl (acc ++ [parts]))
        as ->.
      { destruct fuel; simpl; by rewrite bool_decide_eq_false_2 by lia. }
      split; [|split; [|split]].
      * done.
      * simpl. rewrite app_nil_r. subst parts.
        apply take_ge. rewrite length_drop. unfold len in *. lia.
      * change (len [parts]) with 1. symmetry. apply DivCeil_unique; lia.
      * intros [|j] b Hj; simpl in Hj; [|done].
        injection Hj as <-. split; [|done]. subst parts. do 2 f_equal. lia.
Qed.

(** ** The store and the monad *)

Lemma with_trace_trace (m : Mach) : with_trace (trace m) m = m.
Proof. by destruct m. Qed.

Lemma with_trace_app (t1 t2 : list Event) (m : Mach) :
  with_trace (trace (with_trace t1 m) ++ t2) (with_trace t1 m) = with_trace (t1 ++ t2) m.
Proof. done. Qed.

Ltac wsimpl :=
  repeat first
    [ progress cbn [mbind mret W_bind W_ret stop record get_config get_state
                    get_activeSignal get_trace set_config set_state
                    set_activeSignal with_trace with_config with_state
                    with_activeSignal config state activeSignal trace
                    fst snd] in *
    | progress unfold mbind, mret, W_bind, W_ret, stop, record, get_config,
                      get_state, get_activeSignal, get_trace, set_config, set_state,
                      set_activeSignal in * ].

(** ** Fan-out *)

Lemma numbered_lookup (slices : list (list QRepPartition)) :
  ∀ (i : Z) (j : nat) b,
    numbered i slices !! j = Some b ↔
    ∃ parts, slices !! j = Some parts
           ∧ b = {| BatchId := int32 (i + Z.of_nat j + 1); Partitions := parts |}.
Proof.
  induction slices as [|parts rest IH]; intros i j b; simpl.
  - split; [done | by intros (? & ? & _)].
  - destruct j as [|j]; simpl.
    + split.
      * intros [= <-]. eexists. split; [done|]. do 2 f_equal. lia.
      * intros (? & [= <-] & ->). do 3 f_equal. lia.
    + rewrite IH.
      replace (i + 1 + Z.of_nat j + 1) with (i + Z.of_nat (S j) + 1) by lia. done.
Qed.

Lemma numbered_length (slices : list (list QRepPartition)) (i : Z) :
  length (numbered i slices) = length slices.
Proof. revert i. induction slices; intros i; simpl; [done | by rewrite IHslices]. Qed.

Lemma numbered_Partitions (slices : list (list QRepPartition)) (i : Z) :
  Partitions <$> numbered i slices = slices.
Proof. revert i. induction slices; intros i; simpl; [done | by rewrite IHslices]. Qed.

(** The first loop starts one child per slice, in order, numbered from
    [i + 1], and touches nothing but the trace. *)
Lemma startBatches_spec (w : World) (slices : list (list QRepPartition)) :
  ∀ (i : Z) (m : Mach),
    ∃ futures started,
      startBatches w i slices m = (inl futures, with_trace (trace m ++ started) m)
      ∧ Forall2 (λ e b, ∃ wid, e = ChildQRepPartitionWorkflow wid (config m) b (OriginalRunID w))
                started (numbered i slices).
Proof.
  induction slices as [|parts rest IH]; intros i m.
  - exists [], []. simpl. rewrite app_nil_r, with_trace_trace. by split; [|constructor].
  - simpl. unfold startChildWorkflow, getPartitionWorkflowID. wsimpl.
    match goal with |- context [startBatches w (i + 1) rest ?m'] =>
      destruct (IH (i + 1) m') as (futures & started & -> & Hall) end.
    wsimpl. eexists _, (_ :: started). split.
    + rewrite <- app_assoc. reflexivity.
    + constructor; [eauto | exact Hall].
Qed.

(** The second loop returns the first error in the order of the batches, and
    touches nothing. *)
Lemma waitFutures_spec (futures : list (option error)) (m : Mach) :
  waitFutures futures m = (inl (), m) ∨
  ∃ err, waitFutures futures m = (inr (Errored err), m).
Proof.
  induction futures as [|[err|] rest IH]; simpl; [by left | right; eauto | done].
Qed.

(** C1, as the code has it.  For a non-empty partition list and
    [maxParallelWorkers >= 1], [processPartitions] cuts the list into
    consecutive order-preserving slices of [chunkSize = ceil(len / maxParallelWorkers)]
    partitions (the last one possibly shorter): that makes
    [ceil(len / chunkSize)] slices, at most [maxParallelWorkers].  It starts
    exactly one child partition workflow per slice, in order, and nothing
    else; the i-th slice (from 0) carries [BatchId = int32(i + 1)], so the
    ids are 1, 2, ... whenever there are fewer than 2^31 slices.  The call
    ends normally or with the first child error, never by a panic. *)
Theorem processPartitions_fanout (w : World) (maxParallelWorkers : Z)
    (partitions : list QRepPartition) (m : Mach) :
  partitions ≠ [] → 1 ≤ maxParallelWorkers →
  let chunkSize := DivCeil (len partitions) maxParallelWorkers in
  ∃ (batches : list QRepPartitionBatch) (started : list Event) r,
    processPartitions w maxParallelWorkers partitions m
      = (r, with_trace (trace m ++ started) m)
    ∧ (r = inl () ∨ ∃ err, r = inr (Errored err))
    ∧ Forall2 (λ e b, ∃ wid,
         e = ChildQRepPartitionWorkflow wid (config m) b (OriginalRunID w))
       started batches
    ∧ len batches = DivCeil (len partitions) chunkSize
    ∧ len batches ≤ maxParallelWorkers
    ∧ concat (Partitions <$> batches) = partitions
    ∧ (∀ (i : nat) b, batches !! i = Some b →
         Partitions b = take (Z.to_nat chunkSize) (drop (i * Z.to_nat chunkSize) partitions)
         ∧ Partitions b ≠ []
         ∧ BatchId b = int32 (Z.of_nat i + 1))
    ∧ (len batches < 2 ^ 31 → BatchId <$> batches = seqZ 1 (len batches)).
Proof.
  intros Hne HK chunkSize.
  assert (1 ≤ len partitions) as Hlen.
  { destruct partitions; [done | unfold len; simpl; lia]. }
  pose proof (DivCeil_pos _ _ Hlen HK) as Hc. fold chunkSize in Hc.
  pose proof (DivCeil_bounds (len partitions) maxParallelWorkers ltac:(lia) HK) as HcK.
  fold chunkSize in HcK.
  destruct (batchLoop_chunks partitions chunkSize Hc (length partitions) 0 [])
    as (slices & Hloop & Hcat & Hcount & Hnth).
  { lia. } { unfold len. lia. }
  rewrite Z.sub_0_r in Hcount. simpl in Hloop, Hcat.
  unfold processPartitions. fold chunkSize.
  rewrite !bool_decide_eq_false_2; [| | lia | lia | lia].
  2:{ pose proof (Z.quot_pos (len partitions) chunkSize). lia. }
  rewrite Hloop.
  destruct (startBatches_spec w slices 0 m) as (futures & started & Hstart & Hall).
  wsimpl. rewrite Hstart.
  exists (numbered 0 slices), started.
  destruct (waitFutures_spec futures (with_trace (trace m ++ started) m)) as [Hw|[err Hw]];
    rewrite Hw; eexists; (split; [reflexivity|]).
  all: split; [eauto|]; split; [exact Hall|].
  all: assert (len (numbered 0 slices) = len slices) as Hnl
         by (unfold len; by rewrite numbered_length).
  all: rewrite Hnl, numbered_Partitions.
  all: split; [exact Hcount|]; split; [|split; [exact Hcat|split]].
  all: try (pose proof (DivCeil_bounds (len partitions) chunkSize ltac:(lia) Hc); nia).
  all: try (intros i b [parts [Hparts ->]]%numbered_lookup; simpl;
            destruct (Hnth i parts Hparts) as [-> Hnil]; split; [|split; [done|done]];
            do 2 f_equal; lia).
  all: intros Hsmall; apply list_eq; intros i; rewrite list_lookup_fmap;
       destruct (numbered 0 slices !! i) as [b|] eqn:Hb; simpl.
  all: try (apply numbered_lookup in Hb as (parts & Hparts & ->); simpl;
            apply lookup_lt_Some in Hparts;
            rewrite lookup_seqZ_lt by (unfold len in *; lia);
            rewrite int32_small by (unfold len in *; lia); f_equal; lia).
  all: apply lookup_ge_None in Hb; rewrite numbered_length in Hb;
       rewrite lookup_seqZ_ge; [done | unfold len; lia].
Qed.

Lemma processPartitions_fanout_witness :
  scenario.five ≠ [] ∧ 1 ≤ 2 ∧
  ∃ (batches : list QRepPartitionBatch) (started : list Event) r,
    processPartitions scenario.quiet 2 scenario.five scenario.appendStore
      = (r, with_trace (trace scenario.appendStore ++ started) scenario.appendStore)
    ∧ (r = inl () ∨ ∃ err, r = inr (Errored err))
    ∧ Forall2 (λ e b, ∃ wid,
         e = ChildQRepPartitionWorkflow wid (config scenario.appendStore) b
               (OriginalRunID scenario.quiet))
       started batches
    ∧ len batches = DivCeil (len scenario.five) (DivCeil (len scenario.five) 2)
    ∧ len batches ≤ 2
    ∧ concat (Partitions <$> batches) = scenario.five
    ∧ (∀ (i : nat) b, batches !! i = Some b →
         Partitions b = take (Z.to_nat (DivCeil (len scenario.five) 2))
                          (drop (i * Z.to_nat (DivCeil (len scenario.five) 2)) scenario.five)
         ∧ Partitions b ≠ []
         ∧ BatchId b = int32 (Z.of_nat i + 1))
    ∧ (len batches < 2 ^ 31 → BatchId <$> batches = seqZ 1 (len batches)).
Proof.
  split; [done|]. split; [lia|].
  apply (processPartitions_fanout scenario.quiet 2 scenario.five scenario.appendStore);
    [done | lia].
Defined.

(** C1, as the spec words it, fails on the code: with two workers and five
    partitions the code starts two children, with the batches
    [1:[p1,p2,p3]] and [2:[p4,p5]], not the three of the spec, and two is
    not [ceil(5/2)]. *)
Lemma processPartitions_fanout_counterexample :
  childBatches (trace (processPartitions scenario.quiet 2 scenario.five
                         scenario.appendStore).2)
  = [ {| BatchId := 1; Partitions := [scenario.p1; scenario.p2; scenario.p3] |};
      {| BatchId := 2; Partitions := [scenario.p4; scenario.p5] |} ]
  ∧ len (childBatches (trace (processPartitions scenario.quiet 2 scenario.five
                                scenario.appendStore).2))
    ≠ DivCeil (len scenario.five) 2
  ∧ childBatches (trace (processPartitions scenario.quiet 2 scenario.five
                           scenario.appendStore).2)
    ≠ [ {| BatchId := 1; Partitions := [scenario.p1; scenario.p2] |};
        {| BatchId := 2; Partitions := [scenario.p3; scenario.p4] |};
        {| BatchId := 3; Partitions := [scenario.p5] |} ].
Proof. vm_compute. split; [reflexivity|]. split; discriminate. Qed.

(** ** Sequencing *)

Lemma bind_inv {A B} (c : W A) (f : A → W B) (m : Mach) r m' :
  (c ≫= f) m = (r, m') →
  (∃ a m1, c m = (inl a, m1) ∧ f a m1 = (r, m')) ∨
  (∃ h, c m = (inr h, m') ∧ r = inr h).
Proof.
  unfold mbind, W_bind. destruct (c m) as [[a|h] m1]; intros Hrun.
  - left. eauto.
  - right. injection Hrun as <- <-. eauto.
Qed.

Lemma wrapErr_inv {A} (pre : string) (c : W A) (m : Mach) r m' :
  wrapErr pre c m = (r, m') →
  ∃ r0, c m = (r0, m')
      ∧ (∀ a, r = inl a ↔ r0 = inl a)
      ∧ (noContinue r0 → noContinue r).
Proof.
  unfold wrapErr. destruct (c m) as [[a|[err| |cfg st| |]] m1]; intros [= <- <-];
    eexists; (split; [reflexivity|]); by split.
Qed.

Lemma noContinue_inl {A} (a : A) : noContinue (inl a).
Proof. intros c s. done. Qed.

Lemma noContinue_Errored {A} (err : error) : noContinue (A := A) (inr (Errored err)).
Proof. intros c s. done. Qed.

#[local] Hint Resolve noContinue_inl noContinue_Errored : core.

Lemma sameProgress_refl (s : QRepFlowState) : sameProgress s s.
Proof. done. Qed.

Lemma sameProgress_trans (s1 s2 s3 : QRepFlowState) :
  sameProgress s1 s2 → sameProgress s2 s3 → sameProgress s1 s3.
Proof. unfold sameProgress. intros (-> & -> & ->) (-> & -> & ->). done. Qed.

Lemma sameProgress_status (st : FlowStatus) (s : QRepFlowState) :
  sameProgress s (with_CurrentFlowStatus st s).
Proof. done. Qed.

Lemma advance_refl (ok : Event → bool) (m : Mach) : advance ok m m.
Proof.
  split; [done|]. split; [done|]. exists []. by rewrite app_nil_r.
Qed.

Lemma advance_trans (ok : Event → bool) (m1 m2 m3 : Mach) :
  advance ok m1 m2 → advance ok m2 m3 → advance ok m1 m3.
Proof.
  intros (Hc1 & Hs1 & evs1 & Ht1 & Hok1) (Hc2 & Hs2 & evs2 & Ht2 & Hok2).
  split; [congruence|]. split; [by eapply sameProgress_trans|].
  exists (evs1 ++ evs2). rewrite Ht2, Ht1, app_assoc. split; [done|].
  by apply Forall_app.
Qed.

Lemma advance_mono (ok ok' : Event → bool) (m m1 : Mach) :
  (∀ e, ok e → ok' e) → advance ok m m1 → advance ok' m m1.
Proof.
  intros Himp (Hc & Hs & evs & Ht & Hok). split; [done|]. split; [done|].
  exists evs. split; [done|]. eapply Forall_impl; eauto.
Qed.

Lemma calm_ret (ok : Event → bool) {A} (a : A) : calm ok (mret a).
Proof. intros m r m1 [= <- <-]. split; [auto | apply advance_refl]. Qed.

Lemma calm_stop (ok : Event → bool) {A} (h : halt) :
  (∀ c s, h ≠ ContinueAsNew c s) → calm ok (stop (A := A) h).
Proof.
  intros Hh m r m1 [= <- <-]. split; [|apply advance_refl].
  intros c s [= ->]. by eapply Hh.
Qed.

Lemma calm_bind (ok : Event → bool) {A B} (c : W A) (f : A → W B) :
  calm ok c → (∀ a, calm ok (f a)) → calm ok (c ≫= f).
Proof.
  intros Hc Hf m r m' [(a & m1 & H1 & H2) | (h & H1 & ->)]%bind_inv.
  - destruct (Hc _ _ _ H1) as [_ Ha1]. destruct (Hf a _ _ _ H2) as [Hr Ha2].
    split; [done | by eapply advance_trans].
  - destruct (Hc _ _ _ H1) as [Hno Hadv]. split; [|done].
    intros cfg s [= ->]. by eapply Hno.
Qed.

Lemma calm_wrapErr (ok : Event → bool) {A} (pre : string) (c : W A) :
  calm ok c → calm ok (wrapErr pre c).
Proof.
  intros Hc m r m' (r0 & Hrun & _ & Hno)%wrapErr_inv.
  destruct (Hc _ _ _ Hrun). auto.
Qed.

Lemma calm_get_config (ok : Event → bool) : calm ok get_config.
Proof. intros m r m1 [= <- <-]. split; [auto | apply advance_refl]. Qed.

Lemma calm_get_state (ok : Event → bool) : calm ok get_state.
Proof. intros m r m1 [= <- <-]. split; [auto | apply advance_refl]. Qed.

Lemma calm_get_activeSignal (ok : Event → bool) : calm ok get_activeSignal.
Proof. intros m r m1 [= <- <-]. split; [auto | apply advance_refl]. Qed.

Lemma calm_get_trace (ok : Event → bool) : calm ok get_trace.
Proof. intros m r m1 [= <- <-]. split; [auto | apply advance_refl]. Qed.

Lemma calm_set_activeSignal (ok : Event → bool) (sig : CDCFlowSignal) :
  calm ok (set_activeSignal sig).
Proof.
  intros m r m1 [= <- <-]. split; [auto|].
  split; [done|]. split; [done|]. exists []. by rewrite app_nil_r.
Qed.

Lemma calm_record (ok : Event → bool) (e : Event) : ok e → calm ok (record e).
Proof.
  intros He m r m1 [= <- <-]. split; [auto|].
  split; [done|]. split; [done|]. exists [e]. split; [done|]. by constructor.
Qed.

Lemma calm_executeActivity (ok : Event → bool) (w : World) (e : Event) :
  ok e → calm ok (executeActivity w e).
Proof.
  intros He m r m1. unfold executeActivity. simpl.
  assert (advance ok m (with_trace (trace m ++ [e]) m)).
  { split; [done|]. split; [done|]. exists [e]. split; [done|]. by constructor. }
  destruct (answer w (trace m) e); intros [= <- <-]; auto.
Qed.

Lemma calm_set_status (ok : Event → bool) (st : FlowStatus) :
  calm ok (set_state (with_CurrentFlowStatus st)).
Proof.
  intros m r m1 [= <- <-]. split; [auto|].
  split; [done|]. split; [done|]. exists []. by rewrite app_nil_r.
Qed.

Lemma calm_if (ok : Event → bool) {A} (b : bool) (c1 c2 : W A) :
  calm ok c1 → calm ok c2 → calm ok (if b then c1 else c2).
Proof. by destruct b. Qed.

Ltac calm :=
  repeat lazymatch goal with
  | |- calm _ (mret _) => apply calm_ret
  | |- calm _ (mbind _ _) => apply calm_bind; [|intros ?]
  | |- calm _ (wrapErr _ _) => apply calm_wrapErr
  | |- calm _ (if _ then _ else _) => apply calm_if
  | |- calm _ get_config => apply calm_get_config
  | |- calm _ get_state => apply calm_get_state
  | |- calm _ get_activeSignal => apply calm_get_activeSignal
  | |- calm _ get_trace => apply calm_get_trace
  | |- calm _ (set_activeSignal _) => apply calm_set_activeSignal
  | |- calm _ (set_state (with_CurrentFlowStatus _)) => apply calm_set_status
  | |- calm _ (executeActivity _ _) => apply calm_executeActivity; done
  | |- calm _ (record _) => apply calm_record; done
  | |- calm _ (stop _) => apply calm_stop; done
  end.

(** ** The calm helpers of the orchestrator *)

Section calm_helpers.
Context (FSH : CDCFlowSignal → CDCFlowSignal → CDCFlowSignal) (w : World).

Lemma setWorkflowQueries_calm : calm isAuxiliary (setWorkflowQueries w).
Proof. unfold setWorkflowQueries. calm. Qed.

Lemma updateStatus_calm (st : FlowStatus) : calm isAuxiliary (updateStatus w st).
Proof. unfold updateStatus. calm. Qed.

Lemma setupTableSchema_calm (tableName : string) :
  calm isAuxiliary (setupTableSchema w tableName).
Proof. unfold setupTableSchema. calm. Qed.

Lemma setupWatermarkTableOnDestination_calm :
  calm isAuxiliary (setupWatermarkTableOnDestination w).
Proof.
  unfold setupWatermarkTableOnDestination. calm. apply setupTableSchema_calm.
Qed.

Lemma SetupMetadataTables_calm : calm isAuxiliary (SetupMetadataTables w).
Proof. unfold SetupMetadataTables. calm. Qed.

Lemma pauseLoop_calm (receives : list RecvResult) :
  calm isAuxiliary (pauseLoop FSH receives).
Proof.
  induction receives as [|[val|[err|]] rest IH]; simpl; calm; done.
Qed.

Lemma waitSelectLoop_calm (selects : list SelectEvent) :
  calm isAuxiliary (waitSelectLoop FSH selects).
Proof.
  induction selects as [|[val|[err|]|err] rest IH]; simpl; calm; done.
Qed.

Lemma waitForNewRows_calm (lastPartition : option QRepPartition) :
  calm isAuxiliary (waitForNewRows FSH w lastPartition).
Proof. unfold waitForNewRows. calm. apply waitSelectLoop_calm. Qed.

Lemma flushSignals_calm (pending : list CDCFlowSignal) :
  calm isAuxiliary (flushSignals FSH pending).
Proof. induction pending as [|val rest IH]; simpl; calm; done. Qed.

(** The pause loop is left only when the active signal is no longer Pause. *)
Lemma pauseLoop_resumed (receives : list RecvResult) (m m1 : Mach) :
  pauseLoop FSH receives m = (inl (), m1) → activeSignal m1 ≠ PauseSignal.
Proof.
  revert m. induction receives as [|recv rest IH]; intros m Hrun.
  - simpl in Hrun. wsimpl. case_bool_decide; [done|]. by injection Hrun as <-.
  - simpl in Hrun. wsimpl. case_bool_decide; [|by injection Hrun as <-].
    destruct recv as [val|[err|]]; wsimpl; [by eapply IH | done | by eapply IH].
Qed.

End calm_helpers.

(** ** The three parts of a cycle *)

Section cycle.
Context (FSH : CDCFlowSignal → CDCFlowSignal → CDCFlowSignal) (w : World).

(** The shadow table is created, and the configuration switched to it,
    exactly when the state needs a resync and the configuration asks for a
    full resync of the destination table. *)
Lemma handleTableCreationForResync_spec (m : Mach) r m1 :
  handleTableCreationForResync w m = (r, m1) →
  noContinue r ∧ state m1 = state m ∧
  if NeedsResync (state m) && DstTableFullResync (config m)
  then trace m1 = trace m ++ [createShadow (config m)]
       ∧ (r = inl () →
          config m1 = with_DestinationTableIdentifier
                        (shadow (DestinationTableIdentifier (config m))) (config m))
  else r = inl () ∧ m1 = m.
Proof.
  unfold handleTableCreationForResync. wsimpl.
  destruct (NeedsResync (state m) && DstTableFullResync (config m)); wsimpl.
  - unfold wrapErr, executeActivity. wsimpl.
    destruct (answer w (trace m) _); intros [= <- <-]; simpl;
      (split; [auto|]); by repeat split.
  - intros [= <- <-]. auto.
Qed.

(** The first part keeps the progress of the state, creates the shadow
    table at most once and only for a resync, and records nothing else but
    auxiliary calls. *)
Lemma setupCycle_spec (m : Mach) r m1 :
  setupCycle FSH w m = (r, m1) →
  let resync := NeedsResync (state m) && DstTableFullResync (config m) in
  noContinue r ∧ sameProgress (state m) (state m1) ∧
  ∃ evs1 created evs2,
    trace m1 = trace m ++ evs1 ++ created ++ evs2
    ∧ Forall isAuxiliary evs1 ∧ Forall isAuxiliary evs2
    ∧ (created = [] ∨ (resync = true ∧ created = [createShadow (config m)]))
    ∧ ∀ k fr, r = inl (k, fr) →
        k = (if bool_decide (0 < MaxParallelWorkers (config m))
             then MaxParallelWorkers (config m) else 16)
        ∧ fr = fullRefreshInEffect w (config m)
        ∧ config m1 = (if resync
                       then with_DestinationTableIdentifier
                              (shadow (DestinationTableIdentifier (config m))) (config m)
                       else config m)
        ∧ created = (if resync then [createShadow (config m)] else []).
Proof.
  intros Hrun resync.
  (* a stop before the shadow table is created *)
  assert (Hearly : ∀ (h : halt) m', noContinue (A := Z * bool) (inr h) →
            advance isAuxiliary m m' →
            noContinue (A := Z * bool) (inr h) ∧ sameProgress (state m) (state m') ∧
            ∃ evs1 created evs2,
              trace m' = trace m ++ evs1 ++ created ++ evs2
              ∧ Forall isAuxiliary evs1 ∧ Forall isAuxiliary evs2
              ∧ (created = [] ∨ (resync = true ∧ created = [createShadow (config m)]))
              ∧ ∀ k fr, inr h = inl (k, fr) → 
        k = (if bool_decide (0 < MaxParallelWorkers (config m))
             then MaxParallelWorkers (config m) else 16)
        ∧ fr = fullRefreshInEffect w (config m)
        ∧ config m' = (if resync
                       then with_DestinationTableIdentifier
                              (shadow (DestinationTableIdentifier (config m))) (config m)
                       else config m)
        ∧ created = (if resync then [createShadow (config m)] else [])).
  { intros h m' Hno (Hc & Hs & evs & Ht & Hok). split; [done|]. split; [done|].
    exists evs, [], []. rewrite !app_nil_r. split; [done|]. split; [done|].
    split; [constructor|]. split; [by left|]. intros k fr. done. }
  unfold setupCycle in Hrun.
  apply bind_inv in Hrun as [([] & ma & H1 & Hrun) | (h & H1 & ->)]; cycle 1.
  { apply setWorkflowQueries_calm in H1 as [Hno Hadv]. apply Hearly; [|done].
    intros c s [= ->]. by eapply Hno. }
  apply setWorkflowQueries_calm in H1 as [_ Ha].
  apply bind_inv in Hrun as [(? & ? & [= <- <-] & Hrun) | (? & [=] & _)].
  destruct (bool_decide (CurrentFlowStatus (state ma) = STATUS_COMPLETED)).
  { cbv [stop] in Hrun. injection Hrun as <- <-.
    apply Hearly; [by intros ? ? | done]. }
  apply bind_inv in Hrun as [([] & mb & H1 & Hrun) | (h & H1 & ->)].
  all: assert (calm isAuxiliary
         (if bool_decide (CurrentFlowStatus (state ma) = STATUS_PAUSING
                          ∨ CurrentFlowStatus (state ma) = STATUS_PAUSED)
          then set_activeSignal PauseSignal;; updateStatus w STATUS_PAUSED;;
               pauseLoop FSH (pauseReceives w);; updateStatus w STATUS_RUNNING
          else mret ())) as Hgate
    by (calm; auto using updateStatus_calm, pauseLoop_calm).
  all: apply Hgate in H1 as [Hno Hb]; clear Hgate.
  all: pose proof (advance_trans _ _ _ _ Ha Hb) as Hab.
  2:{ apply Hearly; [|done]. intros c s [= ->]. by eapply Hno. }
  assert (config mb = config m) as Hcb by apply Hab.
  clear Hno Ha Hb.
  apply bind_inv in Hrun as [(? & ? & [= <- <-] & Hrun) | (? & [=] & _)].
  apply bind_inv in Hrun as [([] & mc & H1 & Hrun) | (h & H1 & ->)].
  all: apply (calm_wrapErr _ _ _ (setupWatermarkTableOnDestination_calm w)) in H1
         as [Hno Hc];
       pose proof (advance_trans _ _ _ _ Hab Hc) as Hac.
  2:{ apply Hearly; [|done]. intros c s [= ->]. by eapply Hno. }
  clear Hno Hab Hc.
  apply bind_inv in Hrun as [([] & md & H1 & Hrun) | (h & H1 & ->)].
  all: apply (calm_wrapErr _ _ _ (SetupMetadataTables_calm w)) in H1 as [Hno Hd];
       pose proof (advance_trans _ _ _ _ Hac Hd) as Had.
  2:{ apply Hearly; [|done]. intros c s [= ->]. by eapply Hno. }
  clear Hno Hac Hd.
  destruct Had as (Hcfg & Hst & evs1 & Htr & Hok1).
  assert (NeedsResync (state md) && DstTableFullResync (config md) = resync) as Hres.
  { unfold resync. destruct Hst as (_ & _ & ->). by rewrite Hcfg. }
  apply bind_inv in Hrun as [([] & me & H1 & Hrun) | (h & H1 & ->)].
  all: apply handleTableCreationForResync_spec in H1 as (Hno & Hste & Hcreate);
       rewrite Hres in Hcreate.
  2:{ split; [intros c s [= ->]; by eapply Hno|]. split; [by rewrite Hste|].
      destruct resync.
      - destruct Hcreate as [-> _]. exists evs1, [createShadow (config m)], [].
        rewrite Htr, Hcfg, app_nil_r, <- app_assoc. split; [done|].
        split; [done|]. split; [constructor|]. split; [by right|]. done.
      - destruct Hcreate as [[=] _]. }
  clear Hno.
  assert (trace me = trace m ++ evs1 ++ (if resync then [createShadow (config m)] else [])
          ∧ config me = (if resync
                         then with_DestinationTableIdentifier
                                (shadow (DestinationTableIdentifier (config m))) (config m)
                         else config m)) as [Htre Hcfge].
  { destruct resync.
    - destruct Hcreate as [Ht Hc']. specialize (Hc' eq_refl).
      by rewrite Ht, Hc', Htr, Hcfg, <- app_assoc.
    - destruct Hcreate as [_ ->]. by rewrite app_nil_r. }
  clear Hcreate.
  match type of Hrun with ?c me = _ => assert (calm isAuxiliary c) as Htail end.
  { calm; try (destruct (WriteMode _); calm); auto using waitForNewRows_calm. }
  destruct (Htail _ _ _ Hrun) as (Hno & Hcfg1 & Hst1 & evs2 & Htr1 & Hok2).
  clear Htail. split; [done|].
  split. { eapply sameProgress_trans; [exact Hst|]. by rewrite <- Hste. }
  exists evs1, (if resync then [createShadow (config m)] else []), evs2.
  split. { by rewrite Htr1, Htre, <- !app_assoc. }
  split; [done|]. split; [done|].
  split. { destruct resync; [by right | by left]. }
  intros k fr ->.
  apply bind_inv in Hrun as [(? & ? & [= <- <-] & Hrun) | (? & _ & [=])].
  apply bind_inv in Hrun as [(? & ? & [= <- <-] & Hrun) | (? & _ & [=])].
  assert (WriteMode (config me) = WriteMode (config m)) as Hwm.
  { rewrite Hcfge. by destruct resync. }
  assert (InitialCopyOnly (config me) = InitialCopyOnly (config m)) as Hico.
  { rewrite Hcfge. by destruct resync. }
  unfold fullRefreshInEffect. rewrite <- Hwm.
  apply bind_inv in Hrun as [(wm & ? & Hwm' & Hrun) | (? & _ & [=])].
  destruct (WriteMode (config me)) as [wm'|]; [|done]. injection Hwm' as <- <-.
  apply bind_inv in Hrun as [(fr' & mf & Hfr & Hrun) | (? & _ & [=])].
  apply bind_inv in Hrun as [([] & mg & _ & Hrun) | (? & _ & [=])].
  injection Hrun as <- <- <-. rewrite Hcb, Hcfg1, Hcfge. split; [done|].
  split; [|done].
  destruct (bool_decide (WriteType wm' = QREP_WRITE_MODE_OVERWRITE)); simpl.
  - apply bind_inv in Hfr as [(? & ? & _ & Hfr) | (? & _ & [=])].
    by injection Hfr as <- <-.
  - by injection Hfr as <- <-.
Qed.

(** When the batching loop stops the workflow, it is by a panic or for want
    of fuel. *)
Lemma batchLoop_halt (fuel : nat) (partitions : list QRepPartition) (c i : Z)
    (acc : list (list QRepPartition)) (h : halt) :
  batchLoop fuel partitions c i acc = inr h → ∀ cfg s, h ≠ ContinueAsNew cfg s.
Proof.
  revert i acc. induction fuel as [|fuel IH]; intros i acc; simpl;
    case_bool_decide; try done.
  - by intros [= <-].
  - destruct (slice partitions i _); [apply IH | by intros [= <-]].
Qed.

(** In every case [processPartitions] touches nothing but the trace, to
    which it adds the starts of child partition workflows only; with no
    partition it adds nothing and returns nil. *)
Lemma processPartitions_effect (k : Z) (partitions : list QRepPartition) (m : Mach) r m1 :
  processPartitions w k partitions m = (r, m1) →
  noContinue r ∧
  ∃ started, m1 = with_trace (trace m ++ started) m
           ∧ Forall (startsChild (config m) (OriginalRunID w)) started
           ∧ (partitions = [] → started = [] ∧ r = inl ()).
Proof.
  assert (Hnone : ∀ r', noContinue r' → (partitions = [] → r' = inl ()) →
            (r', m) = (r, m1) →
            noContinue r ∧
            ∃ started, m1 = with_trace (trace m ++ started) m
                     ∧ Forall (startsChild (config m) (OriginalRunID w)) started
                     ∧ (partitions = [] → started = [] ∧ r = inl ())).
  { intros r' Hno Hnil [= <- <-]. split; [done|]. exists [].
    rewrite app_nil_r, with_trace_trace. split; [done|]. split; [constructor|].
    auto. }
  unfold processPartitions.
  case_bool_decide as Hlen; [by apply Hnone|].
  assert (partitions ≠ []) as Hne by (intros ->; done).
  case_bool_decide; [by apply Hnone|].
  case_bool_decide; [by apply Hnone|].
  case_bool_decide; [by apply Hnone|].
  destruct (batchLoop _ _ _ _ _) as [batches|h] eqn:Hloop.
  2:{ apply Hnone; [|done]. intros cfg s [= ->]. by eapply batchLoop_halt. }
  intros [(futs & m2 & Hs & Hrun) | (h & Hs & ->)]%bind_inv.
  all: destruct (startBatches_spec w batches 0 m) as (futures & started & Hstart & Hall).
  all: rewrite Hstart in Hs.
  2: done.
  injection Hs as <- <-.
  assert (noContinue r ∧ m1 = with_trace (trace m ++ started) m) as [Hno ->].
  { destruct (waitFutures_spec futures (with_trace (trace m ++ started) m))
      as [Hw|[err Hw]]; rewrite Hw in Hrun; by injection Hrun as <- <-. }
  split; [done|]. exists started. split; [done|]. split; [|done].
  clear -Hall. induction Hall as [|e b es bs [wid ->] _ IH]; constructor; [|done].
  by exists wid, b.
Qed.

Lemma getPartitions_spec (last : option QRepPartition) (m : Mach) r m1 :
  getPartitions w last m = (r, m1) →
  let get := GetQRepPartitions (config m) last (OriginalRunID w) in
  m1 = with_trace (trace m ++ [get]) m
  ∧ match answer w (trace m) get with
    | None => r = inl (partitionsFound w)
    | Some err => ∃ err', r = inr (Errored err')
    end.
Proof.
  unfold getPartitions, wrapErr, executeActivity. wsimpl.
  destruct (answer w (trace m) _); intros H; injection H as <- <-; eauto.
Qed.

Lemma consolidatePartitions_spec (m : Mach) r m1 :
  consolidatePartitions w m = (r, m1) →
  let consolidate := ConsolidateQRepPartitions (config m) (OriginalRunID w) in
  let cleanup := CleanupQRepFlow (config m) in
  match answer w (trace m) consolidate with
  | Some err => m1 = with_trace (trace m ++ [consolidate]) m ∧ ∃ err', r = inr (Errored err')
  | None =>
      m1 = with_trace (trace m ++ [consolidate; cleanup]) m
      ∧ match answer w (trace m ++ [consolidate]) cleanup with
        | Some err => ∃ err', r = inr (Errored err')
        | None => r = inl ()
        end
  end.
Proof.
  unfold consolidatePartitions, wrapErr, executeActivity. wsimpl.
  destruct (answer w (trace m) _).
  { intros H. injection H as <- <-. eauto. }
  simpl.
  destruct (answer w (trace m ++ _) _); intros H; injection H as <- <-;
    rewrite <- app_assoc; eauto.
Qed.

(** The rename step clears [NeedsResync] in every case in which it returns
    nil; it renames the shadow table back, and switches the configuration
    back, exactly when it was a resync. *)
Lemma handleTableRenameForResync_spec (m : Mach) r m1 :
  handleTableRenameForResync w m = (r, m1) →
  let resync := NeedsResync (state m) && DstTableFullResync (config m) in
  let c := config m in
  noContinue r
  ∧ activeSignal m1 = activeSignal m
  ∧ (∃ evs, trace m1 = trace m ++ evs ∧ Forall isClosing evs
          ∧ (resync = false → evs = [])
          ∧ (r = inl () → resync = true →
               evs = [fetchSchema c (DestinationTableIdentifier c); renameShadow c]))
  ∧ (r = inl () →
       state m1 = with_NeedsResync false (state m)
       ∧ config m1 = (if resync
                      then with_DestinationTableIdentifier
                             (TrimSuffix (DestinationTableIdentifier c) "_peerdb_resync") c
                      else c)).
Proof.
  unfold handleTableRenameForResync, setupTableSchema, wrapErr, executeActivity.
  wsimpl.
  destruct (NeedsResync (state m) && DstTableFullResync (config m)); wsimpl.
  - destruct (answer w (trace m) _).
    { intros H. injection H as <- <-. split; [auto|]. split; [done|]. split; [|done].
      eexists [_]. split; [done|]. split; [by repeat constructor|]. done. }
    simpl.
    destruct (answer w (trace m ++ _) _); intros H; injection H as <- <-.
    all: split; [auto|]; split; [done|]; split; [|done].
    all: eexists [_; _]; rewrite <- app_assoc; split; [done|].
    all: split; [by repeat constructor|]; done.
  - intros H. injection H as <- <-. split; [auto|]. split; [done|]. split; [|done].
    exists []. rewrite app_nil_r. split; [done|]. split; [constructor|]. done.
Qed.

(** The second part, in every outcome: discovery with the cursor of the
    state, then the fan-out, then the closing calls; and what it leaves when
    it returns nil, or continues as new after an initial copy. *)
Lemma replicateCycle_spec (k : Z) (fr : bool) (m : Mach) r m1 :
  replicateCycle w k fr m = (r, m1) →
  let found := partitionsFound w in
  let run := OriginalRunID w in
  let c := config m in
  let get := GetQRepPartitions c (LastPartition (state m)) run in
  let consolidate := ConsolidateQRepPartitions c run in
  let resync := NeedsResync (state m) && DstTableFullResync c in
  ∃ started tail,
    trace m1 = trace m ++ get :: started ++ tail
    ∧ Forall (startsChild c run) started
    ∧ (found = [] → started = [])
    ∧ Forall isClosing tail
    ∧ (resync = false → Forall (λ e, isRenameTables e = false) tail)
    ∧ (answer w (trace m) get = None → found = [] →
         ∃ tl, tail = consolidate :: tl
             ∧ (answer w (trace m ++ [get]) consolidate = None →
                ∃ tl', tl = CleanupQRepFlow c :: tl'))
    ∧ (r = inl () →
         InitialCopyOnly c = false
         ∧ state m1 =
             {| LastPartition :=
                  if bool_decide (0 < len found) && negb fr
                  then last found else LastPartition (state m);
                NumPartitionsProcessed :=
                  uint64 (NumPartitionsProcessed (state m) + uint64 (len found));
                NeedsResync := false;
                CurrentFlowStatus := CurrentFlowStatus (state m) |}
         ∧ config m1 =
             (if resync
              then with_DestinationTableIdentifier
                     (TrimSuffix (DestinationTableIdentifier c) "_peerdb_resync") c
              else c)
         ∧ tail = consolidate :: CleanupQRepFlow c ::
                  (if resync
                   then [fetchSchema c (DestinationTableIdentifier c); renameShadow c]
                   else []))
    ∧ (∀ c' s, r = inr (ContinueAsNew c' s) →
         InitialCopyOnly c = true ∧ c' = c ∧ config m1 = c ∧ s = state m1
         ∧ state m1 = with_CurrentFlowStatus STATUS_COMPLETED (state m)).
Proof.
  intros Hrun found run c get consolidate resync.
  unfold replicateCycle in Hrun.
  apply bind_inv in Hrun as [(? & ? & [= <- <-] & Hrun) | (? & [=] & _)].
  apply bind_inv in Hrun as [(parts & ma & Hget & Hrun) | (h & Hget & ->)].
  all: apply wrapErr_inv in Hget as (r0 & Hget & Hval & Hno);
       apply getPartitions_spec in Hget as [-> Hans]; fold c run get in Hans.
  2:{ exists [], []. simpl. split; [done|]. split; [constructor|]. split; [done|].
      split; [constructor|]. split; [by constructor|].
      destruct (answer w (trace m) get) as [err|].
      - destruct Hans as [err' ->]. split; [done|]. split; [done|].
        intros c' s [= ->]. exfalso. by eapply Hno.
      - subst r0. destruct (Hval (partitionsFound w)) as [_ Hc].
        by specialize (Hc eq_refl). }
  assert (answer w (trace m) get = None ∧ parts = found) as [Hgot ->].
  { destruct (answer w (trace m) get) as [err|].
    - destruct Hans as [err' ->]. destruct (Hval parts) as [Hc _].
      by specialize (Hc eq_refl).
    - subst r0. split; [done|]. destruct (Hval parts) as [Hc _].
      specialize (Hc eq_refl). by injection Hc. }
  clear Hans Hval Hno r0.
  apply bind_inv in Hrun as [([] & mb & Hpp & Hrun) | (h & Hpp & ->)].
  all: apply processPartitions_effect in Hpp
         as (Hno & started & -> & Hstarted & Hnil); simpl in Hstarted.
  2:{ exists started, []. simpl. rewrite app_nil_r, <- app_assoc.
      split; [done|]. split; [done|]. split; [by intros [? _]%Hnil|].
      split; [constructor|]. split; [by constructor|].
      split; [by intros _ [_ [=]]%Hnil|]. split; [done|].
      intros c' s [= ->]. exfalso. by eapply Hno. }
  clear Hno.
  apply bind_inv in Hrun as [([] & mc & Hcons & Hrun) | (h & Hcons & ->)].
  all: apply consolidatePartitions_spec in Hcons; simpl in Hcons;
       fold c run consolidate in Hcons.
  all: rewrite <- ?app_assoc in Hcons; simpl in Hcons.
  all: assert (Hhist : found = [] →
                trace m ++ get :: started = trace m ++ [get])
         by (by intros [-> _]%Hnil).
  all: assert (Hstarted' : found = [] → started = []) by (by intros [? _]%Hnil).
  all: clear Hnil.
  2:{ (* the consolidation or the cleanup fails *)
    match type of Hcons with match ?x with _ => _ end =>
      destruct x as [err|] eqn:Hc1 end.
    - destruct Hcons as [-> [err' [= ->]]].
      exists started, [consolidate]. simpl. rewrite <- ?app_assoc. simpl.
      split; [done|]. split; [done|]. split; [done|].
      split; [by repeat constructor|]. split; [by repeat constructor|].
      split. { intros _ Hf. eexists. split; [done|]. rewrite (Hstarted' Hf) in Hc1.
               intros Hn. unfold get in Hn. congruence. }
      done.
    - destruct Hcons as [-> Hcons].
      match type of Hcons with match ?x with _ => _ end =>
        destruct x as [err|] eqn:Hc2 end; [|done].
      destruct Hcons as [err' [= ->]].
      exists started, [consolidate; CleanupQRepFlow c]. simpl.
      rewrite <- ?app_assoc. simpl.
      split; [done|]. split; [done|]. split; [done|].
      split; [by repeat constructor|]. split; [by repeat constructor|].
      split. { intros _ Hf. eexists. split; [done|]. eauto. }
      done. }
  match type of Hcons with match ?x with _ => _ end =>
    destruct x as [err|] eqn:Hc1 end.
  { by destruct Hcons as [_ [? ?]]. }
  destruct Hcons as [-> Hcons].
  match type of Hcons with match ?x with _ => _ end =>
    destruct x as [err|] eqn:Hc2 end.
  { by destruct Hcons as [? ?]. }
  clear Hcons.
  apply bind_inv in Hrun as [(? & ? & [= <- <-] & Hrun) | (? & [=] & _)].
  simpl in Hrun. fold c in Hrun.
  destruct (InitialCopyOnly c) eqn:Hico.
  { (* an initial copy *)
    unfold updateStatus in Hrun. wsimpl.
    exists started,
      (consolidate :: CleanupQRepFlow c ::
       if IsRootWorkflow w then [syncStatusToCatalog STATUS_COMPLETED] else []).
    destruct (IsRootWorkflow w); wsimpl; injection Hrun as <- <-; simpl;
      repeat (rewrite <- app_assoc; simpl).
    all: split; [done|]; split; [done|]; split; [done|].
    all: split; [by repeat constructor|]; split; [by repeat constructor|].
    all: split; [intros _ Hf; eexists; split; [done|]; eauto|].
    all: split; [done|].
    all: by intros c' s [= <- <-]. }
  apply bind_inv in Hrun as [([] & md & Hren & Hrun) | (h & Hren & ->)].
  all: apply handleTableRenameForResync_spec in Hren
         as (Hno & _ & (evs & Htr & Hclosing & Hnoren & Hevs) & Hok);
       simpl in Htr, Hnoren, Hevs, Hok; fold c resync in Hnoren, Hevs, Hok.
  2:{ (* the rename fails *)
    exists started, (consolidate :: CleanupQRepFlow c :: evs).
    split; [rewrite Htr; by repeat (rewrite <- app_assoc; simpl)|].
    split; [done|]. split; [done|].
    split; [by repeat constructor|].
    split; [intros ->%Hnoren; by repeat constructor|].
    split; [intros _ Hf; eexists; split; [done|]; eauto|].
    split; [done|]. intros c' s [= ->]. exfalso. by eapply Hno. }
  destruct (Hok eq_refl) as [Hst Hcfg]. clear Hok Hno.
  assert (r = inl () ∧ config m1 = config md ∧ trace m1 = trace md ∧
          state m1 = with_LastPartition
                       (if bool_decide (0 < len found) && negb fr
                        then last found else LastPartition (state md))
                       (with_NumPartitionsProcessed
                          (uint64 (NumPartitionsProcessed (state md) + uint64 (len found)))
                          (state md))) as (-> & Hc1' & Ht1' & Hs1').
  { wsimpl. destruct (bool_decide (0 < len found) && negb fr); wsimpl;
      injection Hrun as <- <-; by destruct (state md). }
  exists started, (consolidate :: CleanupQRepFlow c :: evs).
  split; [rewrite Ht1', Htr; by repeat (rewrite <- app_assoc; simpl)|].
  split; [done|]. split; [done|].
  split; [by repeat constructor|].
  split; [intros ->%Hnoren; by repeat constructor|].
  split; [intros _ Hf; eexists; split; [done|]; eauto|].
  split; [|done]. intros _. split; [done|].
  split. { rewrite Hs1', Hst. done. }
  split. { by rewrite Hc1', Hcfg. }
  f_equal. f_equal. destruct resync; [by apply Hevs | by apply Hnoren].
Qed.

Lemma flushSignals_spec (pending : list CDCFlowSignal) (m : Mach) :
  ∃ sig, flushSignals FSH pending m = (inl (), with_activeSignal sig m).
Proof.
  revert m. induction pending as [|val rest IH]; intros m; simpl.
  - exists (activeSignal m). by destruct m.
  - wsimpl. destruct (IH (with_activeSignal (FSH (activeSignal m) val) m)) as [sig ->].
    by exists sig.
Qed.

(** The third part always continues as new, with the configuration and the
    state of the store; it keeps the progress and may only report the
    status. *)
Lemma finishCycle_spec (m : Mach) r m1 :
  finishCycle FSH w m = (r, m1) →
  r = inr (ContinueAsNew (config m1) (state m1)) ∧ advance isAuxiliary m m1.
Proof.
  unfold finishCycle, updateStatus.
  intros [([] & ma & Hflush & Hrun) | (h & Hflush & ->)]%bind_inv;
    destruct (flushSignals_spec (pendingSignals w) m) as [sig Hsig];
    rewrite Hsig in Hflush; [|done].
  injection Hflush as <-. wsimpl.
  destruct (bool_decide (sig = PauseSignal)); wsimpl; [destruct (IsRootWorkflow w)|];
    wsimpl; injection Hrun as <- <-; simpl; (split; [done|]).
  - split; [done|]. split; [done|]. eexists [_]. split; [done|]. by repeat constructor.
  - split; [done|]. split; [done|]. exists []. by rewrite app_nil_r.
  - split; [done|]. split; [done|]. exists []. by rewrite app_nil_r.
Qed.

(** The ways a run of the workflow goes through its three parts. *)
Lemma QRepFlowWorkflow_inv (cfg : QRepConfig) (st : option QRepFlowState) h m' :
  QRepFlowWorkflow FSH w cfg st = (h, m') →
  setupCycle FSH w (enter cfg st) = (inr h, m')
  ∨ ∃ k fr m1,
      setupCycle FSH w (enter cfg st) = (inl (k, fr), m1)
      ∧ ((activeSignal m1 = PauseSignal ∧ finishCycle FSH w m1 = (inr h, m'))
         ∨ (activeSignal m1 ≠ PauseSignal
            ∧ (replicateCycle w k fr m1 = (inr h, m')
               ∨ ∃ m2, replicateCycle w k fr m1 = (inl (), m2)
                     ∧ finishCycle FSH w m2 = (inr h, m')))).
Proof.
  unfold QRepFlowWorkflow.
  destruct (runQRepFlow FSH w (enter cfg st)) as [r m] eqn:Hrun. intros Hh.
  unfold runQRepFlow in Hrun.
  apply bind_inv in Hrun as [([k fr] & m1 & Hsetup & Hrun) | (h' & Hsetup & ->)].
  2:{ injection Hh as <- <-. by left. }
  right. exists k, fr, m1. split; [done|].
  apply bind_inv in Hrun as [(sig & ? & [= <- <-] & Hrun) | (? & [=] & _)].
  simpl in Hrun.
  assert (Hfin : ∀ m2, finishCycle FSH w m2 = (r, m) → finishCycle FSH w m2 = (inr h, m')).
  { intros m2 Hf. destruct (finishCycle_spec _ _ _ Hf) as [Hr _].
    rewrite Hr in Hh. injection Hh as <- <-. by rewrite Hf, Hr. }
  case_bool_decide as Hsig.
  - right. split; [done|].
    apply bind_inv in Hrun as [([] & m2 & Hrep & Hrun) | (h' & Hrep & ->)].
    + right. exists m2. auto.
    + left. by injection Hh as <- <-.
  - left. split; [by destruct (decide (activeSignal m1 = PauseSignal))|].
    apply bind_inv in Hrun as [([] & m2 & [= <-] & Hrun) | (? & [=] & _)]. auto.
Qed.

(** The anatomy of a cycle that continues as new: it was skipped by a pause
    signal, or it was an initial copy, or it replicated and advanced the
    state. *)
Lemma cycle_continues (cfg : QRepConfig) (st : option QRepFlowState) c s m' :
  QRepFlowWorkflow FSH w cfg st = (ContinueAsNew c s, m') →
  let st0 := default newQRepFlowState st in
  let resync := NeedsResync st0 && DstTableFullResync cfg in
  let cfgS := if resync
              then with_DestinationTableIdentifier
                     (shadow (DestinationTableIdentifier cfg)) cfg
              else cfg in
  let fr := fullRefreshInEffect w cfg in
  let found := partitionsFound w in
  let run := OriginalRunID w in
  c = config m' ∧ s = state m' ∧
  ∃ evs1 evs2 mid evs3,
    trace m' = evs1 ++ (if resync then [createShadow cfg] else []) ++ evs2 ++ mid ++ evs3
    ∧ Forall isAuxiliary evs1 ∧ Forall isAuxiliary evs2 ∧ Forall isAuxiliary evs3
    ∧ ((mid = [] ∧ sameProgress st0 s ∧ c = cfgS)
       ∨ (InitialCopyOnly cfg = true ∧ sameProgress st0 s ∧ c = cfgS
          ∧ ∃ started tail,
              mid = GetQRepPartitions cfgS (LastPartition st0) run :: started ++ tail
              ∧ Forall (startsChild cfgS run) started
              ∧ (found = [] → started = [])
              ∧ Forall isClosing tail)
       ∨ (InitialCopyOnly cfg = false
          ∧ ∃ started,
              mid = GetQRepPartitions cfgS (LastPartition st0) run :: started ++
                    ConsolidateQRepPartitions cfgS run :: CleanupQRepFlow cfgS ::
                    (if resync
                     then [fetchSchema cfgS (DestinationTableIdentifier cfgS);
                           renameShadow cfgS]
                     else [])
              ∧ Forall (startsChild cfgS run) started
              ∧ (found = [] → started = [])
              ∧ LastPartition s =
                  (if bool_decide (0 < len found) && negb fr
                   then last found else LastPartition st0)
              ∧ NumPartitionsProcessed s =
                  uint64 (NumPartitionsProcessed st0 + uint64 (len found))
              ∧ NeedsResync s = false
              ∧ c = (if resync
                     then with_DestinationTableIdentifier
                            (TrimSuffix (DestinationTableIdentifier cfgS) "_peerdb_resync")
                            cfgS
                     else cfg))).
Proof.
  intros Hrun st0 resync cfgS fr found run.
  apply QRepFlowWorkflow_inv in Hrun
    as [Hsetup | (k & fr' & m1 & Hsetup & Hrest)];
    apply setupCycle_spec in Hsetup
      as (Hno & Hprog & evs1 & created & evs2 & Htr & Hok1 & Hok2 & _ & Hval);
    simpl in Htr, Hprog, Hval; fold st0 resync in Hval, Hprog.
  { exfalso. by eapply Hno. }
  destruct (Hval _ _ eq_refl) as (_ & -> & Hcfg1 & ->). fold fr cfgS in Hcfg1 |- *.
  clear Hval Hno.
  assert (NeedsResync (state m1) && DstTableFullResync (config m1) = resync) as Hres1.
  { destruct Hprog as (_ & _ & ->). rewrite Hcfg1. unfold cfgS, resync.
    destruct (NeedsResync st0); [|done].
    by destruct (DstTableFullResync cfg) eqn:Hdst; simpl; rewrite ?Hdst. }
  assert (InitialCopyOnly (config m1) = InitialCopyOnly cfg) as Hico1.
  { rewrite Hcfg1. unfold cfgS. by destruct resync. }
  destruct Hrest as [[_ Hfin] | [_ [Hrep | (m2 & Hrep & Hfin)]]].
  - (* skipped by a pause signal *)
    apply finishCycle_spec in Hfin as [[= -> ->] (Hc & Hp & evs3 & Htr3 & Hok3)].
    split; [done|]. split; [done|]. exists evs1, evs2, [], evs3.
    split; [by rewrite Htr3, Htr, <- !app_assoc|]. do 3 (split; [done|]).
    left. split; [done|]. split; [by eapply sameProgress_trans|]. congruence.
  - (* an initial copy *)
    apply replicateCycle_spec in Hrep
      as (started & tail & Htr2 & Hst & Hnil & Hcl & _ & _ & _ & Hcont).
    destruct (Hcont _ _ eq_refl) as (Hico & -> & Hc & -> & Hs).
    split; [done|]. split; [done|]. eexists evs1, evs2, (_ :: started ++ tail), [].
    split; [by rewrite Htr2, Htr, app_nil_r, <- !app_assoc|].
    do 2 (split; [done|]). split; [constructor|].
    right. left. rewrite <- Hico1. split; [done|].
    split. { rewrite Hs. eapply sameProgress_trans; [exact Hprog|]. done. }
    split; [done|]. exists started, tail. rewrite <- Hcfg1.
    destruct Hprog as (-> & _ & _). done.
  - (* a replication *)
    apply replicateCycle_spec in Hrep
      as (started & tail & Htr2 & Hst & Hnil & _ & _ & _ & Hok & _).
    destruct (Hok eq_refl) as (Hico & Hs2 & Hc2 & ->). clear Hok.
    apply finishCycle_spec in Hfin as [[= -> ->] (Hc & Hp & evs3 & Htr3 & Hok3)].
    split; [done|]. split; [done|].
    rewrite Hres1 in Hc2, Htr2. rewrite Hcfg1 in Hc2, Htr2, Hst.
    destruct Hprog as (Hlast & Hnum & Hneeds). rewrite Hlast in Htr2.
    eexists evs1, evs2, (_ :: started ++ _), evs3.
    split; [by rewrite Htr3, Htr2, Htr, <- !app_assoc|]. do 3 (split; [done|]).
    right. right. rewrite <- Hico1. split; [done|]. exists started.
    split; [done|]. split; [done|]. split; [done|].
    destruct Hp as (Hl3 & Hn3 & Hr3). rewrite Hl3, Hn3, Hr3, Hs2. simpl.
    rewrite Hlast, Hnum. do 3 (split; [done|]).
    rewrite Hc, Hc2. unfold cfgS. by destruct resync.
Qed.

End cycle.

(** ** Reading the trace of a cycle *)

Lemma auxiliary_no_discovery (evs : list Event) :
  Forall isAuxiliary evs → discoveryRan evs = false.
Proof.
  induction 1 as [|e evs He _ IH]; [done|]. simpl. rewrite IH.
  by destruct e.
Qed.

Lemma discoveryRan_app (evs1 evs2 : list Event) :
  discoveryRan (evs1 ++ evs2) = discoveryRan evs1 || discoveryRan evs2.
Proof. apply existsb_app. Qed.

Lemma created_no_discovery (b : bool) (c : QRepConfig) :
  discoveryRan (if b then [createShadow c] else []) = false.
Proof. by destruct b. Qed.

(** ** The cursor and the counter after a cycle *)

(** C2, as the code has it.  After a cycle that completes without error,
    [state.LastPartition] is the last element of the partition list the
    cycle discovered, when the cycle is not an initial copy, full-refresh
    mode is not in effect and the list is not empty.  It is unchanged when
    the list is empty, when full-refresh mode is in effect (it is not reset
    to the sentinel), when the cycle is an initial copy, and when the cycle
    was skipped by a pause signal. *)
Theorem LastPartition_after_cycle (FSH : CDCFlowSignal → CDCFlowSignal → CDCFlowSignal)
    (w : World) (cfg : QRepConfig) (st : option QRepFlowState) c s m' :
  QRepFlowWorkflow FSH w cfg st = (ContinueAsNew c s, m') →
  (discoveryRan (trace m') = true → InitialCopyOnly cfg = false →
   fullRefreshInEffect w cfg = false → partitionsFound w ≠ [] →
   LastPartition s = last (partitionsFound w))
  ∧ (partitionsFound w = [] →
     LastPartition s = LastPartition (default newQRepFlowState st))
  ∧ (fullRefreshInEffect w cfg = true →
     LastPartition s = LastPartition (default newQRepFlowState st))
  ∧ (InitialCopyOnly cfg = true →
     LastPartition s = LastPartition (default newQRepFlowState st))
  ∧ (discoveryRan (trace m') = false →
     LastPartition s = LastPartition (default newQRepFlowState st)).
Proof.
  intros Hrun.
  destruct (cycle_continues FSH w cfg st c s m' Hrun)
    as (_ & _ & evs1 & evs2 & mid & evs3 & Htr & Hok1 & Hok2 & Hok3 & Hcases).
  assert (discoveryRan (trace m') = discoveryRan mid) as Hran.
  { rewrite Htr, !discoveryRan_app, created_no_discovery,
      (auxiliary_no_discovery evs1), (auxiliary_no_discovery evs2),
      (auxiliary_no_discovery evs3) by done.
    by rewrite orb_false_r. }
  rewrite Hran.
  destruct Hcases as [(-> & (Hl & _) & _) | [(Hico & (Hl & _) & _) |
    (Hico & started & -> & _ & _ & Hl & _)]].
  - by repeat split.
  - repeat split; try done. congruence.
  - rewrite Hl. split; [intros _ _ -> Hne|]; [|split; [intros ->|split; [intros ->|]]].
    + rewrite bool_decide_eq_true_2; [done|].
      destruct (partitionsFound w); [done | unfold len; simpl; lia].
    + done.
    + by rewrite andb_false_r.
    + split; [congruence | done].
Qed.

Lemma LastPartition_after_cycle_witness :
  QRepFlowWorkflow scenario.FlowSignalHandler scenario.quiet
    (scenario.mirror QREP_WRITE_MODE_APPEND false false)
    (Some (scenario.running scenario.p0 false))
    = (ContinueAsNew (config scenario.appendRun.2) (state scenario.appendRun.2),
       scenario.appendRun.2)
  ∧ LastPartition (state scenario.appendRun.2) = Some scenario.p5.
Proof.
  assert (QRepFlowWorkflow scenario.FlowSignalHandler scenario.quiet
    (scenario.mirror QREP_WRITE_MODE_APPEND false false)
    (Some (scenario.running scenario.p0 false))
            = (ContinueAsNew (config scenario.appendRun.2) (state scenario.appendRun.2),
               scenario.appendRun.2)) as Hrun
    by (vm_compute; reflexivity).
  split; [exact Hrun|].
  destruct (LastPartition_after_cycle _ _ _ _ _ _ _ Hrun) as [Hlast _].
  apply Hlast; [vm_compute; reflexivity | reflexivity | reflexivity | discriminate].
Defined.

(** C2, as the spec words it, fails on the code.  In OVERWRITE mode with
    the full-refresh setting on, a cycle entered with the cursor [p5] leaves
    [p5], not the sentinel; and an initial copy that discovers
    [p1 .. p5] leaves the cursor it was entered with, [p0], not [p5]. *)
Lemma LastPartition_after_cycle_counterexample :
  (fullRefreshInEffect (scenario.world [scenario.p1; scenario.p2] true [SelFuture None])
                       (scenario.mirror QREP_WRITE_MODE_OVERWRITE false false) = true
   ∧ scenario.fullRefreshRun.1
       = ContinueAsNew (config scenario.fullRefreshRun.2) (state scenario.fullRefreshRun.2)
   ∧ LastPartition (state scenario.fullRefreshRun.2) = Some scenario.p5
   ∧ LastPartition (state scenario.fullRefreshRun.2) ≠ Some InitialLastPartition)
  ∧ (scenario.initialCopyRun.1
       = ContinueAsNew (config scenario.initialCopyRun.2) (state scenario.initialCopyRun.2)
     ∧ discoveryRan (trace scenario.initialCopyRun.2) = true
     ∧ partitionsFound scenario.quiet = scenario.five
     ∧ LastPartition (state scenario.initialCopyRun.2) = Some scenario.p0
     ∧ LastPartition (state scenario.initialCopyRun.2) ≠ last scenario.five).
Proof. vm_compute. repeat split; discriminate. Qed.

(** C4, as the code has it.  A cycle that completes successfully, was not
    skipped by a pause signal and is not an initial copy adds the number of
    partitions it discovered to [state.NumPartitionsProcessed], once, in
    [uint64] arithmetic (so exactly that number when the sum is below 2^64).
    An initial copy leaves the counter as it was. *)
Theorem NumPartitionsProcessed_after_cycle
    (FSH : CDCFlowSignal → CDCFlowSignal → CDCFlowSignal)
    (w : World) (cfg : QRepConfig) (st : option QRepFlowState) c s m' :
  QRepFlowWorkflow FSH w cfg st = (ContinueAsNew c s, m') →
  discoveryRan (trace m') = true →
  (InitialCopyOnly cfg = false →
     NumPartitionsProcessed s
       = uint64 (NumPartitionsProcessed (default newQRepFlowState st)
                 + uint64 (len (partitionsFound w)))
     ∧ (0 ≤ NumPartitionsProcessed (default newQRepFlowState st) →
        NumPartitionsProcessed (default newQRepFlowState st)
          + len (partitionsFound w) < 2 ^ 64 →
        NumPartitionsProcessed s
          = NumPartitionsProcessed (default newQRepFlowState st)
            + len (partitionsFound w)))
  ∧ (InitialCopyOnly cfg = true →
     NumPartitionsProcessed s = NumPartitionsProcessed (default newQRepFlowState st)).
Proof.
  intros Hrun Hran.
  destruct (cycle_continues FSH w cfg st c s m' Hrun)
    as (_ & _ & evs1 & evs2 & mid & evs3 & Htr & Hok1 & Hok2 & Hok3 & Hcases).
  assert (discoveryRan mid = true) as Hmid.
  { rewrite Htr, !discoveryRan_app, created_no_discovery,
      (auxiliary_no_discovery evs1), (auxiliary_no_discovery evs2),
      (auxiliary_no_discovery evs3) in Hran by done.
    by rewrite orb_false_r in Hran. }
  destruct Hcases as [(-> & _) | [(Hico & (_ & Hn & _) & _) |
    (Hico & started & _ & _ & _ & _ & Hn & _)]]; [done| |].
  - split; [congruence | done].
  - split; [|congruence]. intros _. split; [done|]. intros Hpos Hlt. rewrite Hn.
    pose proof (len_nonneg (partitionsFound w)).
    rewrite (uint64_small (len _)) by lia. apply uint64_small. lia.
Qed.

Lemma NumPartitionsProcessed_after_cycle_witness :
  QRepFlowWorkflow scenario.FlowSignalHandler scenario.quiet
    (scenario.mirror QREP_WRITE_MODE_APPEND false false)
    (Some (scenario.running scenario.p0 false))
    = (ContinueAsNew (config scenario.appendRun.2) (state scenario.appendRun.2),
       scenario.appendRun.2)
  ∧ discoveryRan (trace scenario.appendRun.2) = true
  ∧ NumPartitionsProcessed (state scenario.appendRun.2) = 7 + 5.
Proof.
  assert (QRepFlowWorkflow scenario.FlowSignalHandler scenario.quiet
    (scenario.mirror QREP_WRITE_MODE_APPEND false false)
    (Some (scenario.running scenario.p0 false))
            = (ContinueAsNew (config scenario.appendRun.2) (state scenario.appendRun.2),
               scenario.appendRun.2)) as Hrun
    by (vm_compute; reflexivity).
  assert (discoveryRan (trace scenario.appendRun.2) = true) as Hran
    by (vm_compute; reflexivity).
  split; [exact Hrun|]. split; [exact Hran|].
  destruct (NumPartitionsProcessed_after_cycle _ _ _ _ _ _ _ Hrun Hran) as [Hadd _].
  destruct (Hadd eq_refl) as [_ Hexact].
  apply Hexact; vm_compute; [discriminate | reflexivity].
Defined.

(** C4, as the spec words it, fails on the code for an initial copy: the
    cycle completes, discovers five partitions, and leaves the counter at
    7. *)
Lemma NumPartitionsProcessed_after_cycle_counterexample :
  InitialCopyOnly (scenario.mirror QREP_WRITE_MODE_APPEND true false) = true
  ∧ scenario.initialCopyRun.1
      = ContinueAsNew (config scenario.initialCopyRun.2) (state scenario.initialCopyRun.2)
  ∧ discoveryRan (trace scenario.initialCopyRun.2) = true
  ∧ len (partitionsFound scenario.quiet) = 5
  ∧ NumPartitionsProcessed (scenario.running scenario.p0 false) = 7
  ∧ NumPartitionsProcessed (state scenario.initialCopyRun.2) = 7
  ∧ NumPartitionsProcessed (state scenario.initialCopyRun.2) ≠ 7 + 5.
Proof. vm_compute. repeat split; discriminate. Qed.

(** ** Resync: the shadow table and its name *)

Lemma string_app_cons (a : Ascii.ascii) (s t : string) :
  String a s +:+ t = String a (s +:+ t).
Proof. done. Qed.

Lemma string_length_app (s t : string) :
  String.length (s +:+ t) = (String.length s + String.length t)%nat.
Proof.
  induction s as [|a s IH]; [done|].
  rewrite string_app_cons. simpl. by rewrite IH.
Qed.

Lemma substring_whole (t : string) : String.substring 0 (String.length t) t = t.
Proof. induction t as [|a t IH]; simpl; [done | by rewrite IH]. Qed.

Lemma substring_app_prefix (s t : string) :
  String.substring 0 (String.length s) (s +:+ t) = s.
Proof.
  induction s as [|a s IH].
  - by destruct t.
  - rewrite string_app_cons. simpl. by rewrite IH.
Qed.

Lemma substring_app_suffix (s t : string) :
  String.substring (String.length s) (String.length t) (s +:+ t) = t.
Proof.
  induction s as [|a s IH]; [apply substring_whole|].
  rewrite string_app_cons. exact IH.
Qed.

(** Appending a suffix and trimming it is the identity. *)
Lemma TrimSuffix_app (t suffix : string) : TrimSuffix (t +:+ suffix) suffix = t.
Proof.
  unfold TrimSuffix, HasSuffix. rewrite string_length_app.
  replace (String.length t + String.length suffix - String.length suffix)%nat
    with (String.length t) by lia.
  rewrite substring_app_suffix, substring_app_prefix.
  rewrite !bool_decide_eq_true_2; [done | done | lia].
Qed.

Lemma with_DestinationTableIdentifier_same (c : QRepConfig) :
  with_DestinationTableIdentifier (DestinationTableIdentifier c) c = c.
Proof. by destruct c. Qed.

Lemma with_DestinationTableIdentifier_twice (t1 t2 : string) (c : QRepConfig) :
  with_DestinationTableIdentifier t2 (with_DestinationTableIdentifier t1 c)
  = with_DestinationTableIdentifier t2 c.
Proof. done. Qed.

Lemma auxiliary_noDDL (evs : list Event) : Forall isAuxiliary evs → Forall noDDL evs.
Proof. intros Hall. eapply Forall_impl; [exact Hall|]. by intros []. Qed.

Lemma startsChild_noDDL (c : QRepConfig) (run : string) (evs : list Event) :
  Forall (startsChild c run) evs → Forall noDDL evs.
Proof.
  intros Hall. eapply Forall_impl; [exact Hall|]. by intros e (wid & b & ->).
Qed.

(** C9.  In a successful cycle that is not an initial copy and was not
    skipped by a pause signal, the rename step sets [state.NeedsResync] to
    false; when [config.DstTableFullResync] is false this happens although
    no shadow table was created and no rename performed, and the
    configuration is left as it was. *)
Theorem NeedsResync_cleared (FSH : CDCFlowSignal → CDCFlowSignal → CDCFlowSignal)
    (w : World) (cfg : QRepConfig) (st : option QRepFlowState) c s m' :
  QRepFlowWorkflow FSH w cfg st = (ContinueAsNew c s, m') →
  discoveryRan (trace m') = true →
  InitialCopyOnly cfg = false →
  NeedsResync s = false
  ∧ (DstTableFullResync cfg = false →
     Forall (λ e, isCreateTables e = false ∧ isRenameTables e = false) (trace m')
     ∧ c = cfg).
Proof.
  intros Hrun Hran Hico.
  destruct (cycle_continues FSH w cfg st c s m' Hrun)
    as (_ & _ & evs1 & evs2 & mid & evs3 & Htr & Hok1 & Hok2 & Hok3 & Hcases).
  assert (discoveryRan mid = true) as Hmid.
  { rewrite Htr, !discoveryRan_app, created_no_discovery,
      (auxiliary_no_discovery evs1), (auxiliary_no_discovery evs2),
      (auxiliary_no_discovery evs3) in Hran by done.
    by rewrite orb_false_r in Hran. }
  destruct Hcases as [(-> & _) | [(Hico' & _) |
    (_ & started & -> & Hst & _ & _ & _ & Hneeds & Hc)]]; [done | congruence |].
  split; [done|]. intros Hdst. rewrite Hdst, andb_false_r in Htr, Hc, Hst.
  split; [|done]. rewrite Htr. simpl.
  apply Forall_app; split; [by apply auxiliary_noDDL|].
  apply Forall_app; split; [by apply auxiliary_noDDL|].
  constructor; [done|].
  apply Forall_app; split; [|by apply auxiliary_noDDL].
  apply Forall_app; split; [by eapply startsChild_noDDL|].
  by repeat constructor.
Qed.

Lemma NeedsResync_cleared_witness :
  QRepFlowWorkflow scenario.FlowSignalHandler scenario.quiet
    (scenario.mirror QREP_WRITE_MODE_APPEND false false) None
    = (ContinueAsNew (config scenario.plainRun.2) (state scenario.plainRun.2),
       scenario.plainRun.2)
  ∧ discoveryRan (trace scenario.plainRun.2) = true
  ∧ InitialCopyOnly (scenario.mirror QREP_WRITE_MODE_APPEND false false) = false
  ∧ NeedsResync newQRepFlowState = true
  ∧ NeedsResync (state scenario.plainRun.2) = false.
Proof.
  assert (QRepFlowWorkflow scenario.FlowSignalHandler scenario.quiet
    (scenario.mirror QREP_WRITE_MODE_APPEND false false) None
            = (ContinueAsNew (config scenario.plainRun.2) (state scenario.plainRun.2),
               scenario.plainRun.2)) as Hrun
    by (vm_compute; reflexivity).
  assert (discoveryRan (trace scenario.plainRun.2) = true) as Hran
    by (vm_compute; reflexivity).
  split; [exact Hrun|]. split; [exact Hran|]. split; [reflexivity|].
  split; [reflexivity|].
  exact (proj1 (NeedsResync_cleared _ _ _ _ _ _ _ Hrun Hran eq_refl)).
Defined.

Lemma childBatches_app (evs1 evs2 : list Event) :
  childBatches (evs1 ++ evs2) = childBatches evs1 ++ childBatches evs2.
Proof. apply omap_app. Qed.

Lemma auxiliary_no_children (evs : list Event) :
  Forall isAuxiliary evs → childBatches evs = [].
Proof.
  induction 1 as [|e evs He _ IH]; [done|].
  unfold childBatches in *. by destruct e.
Qed.

Lemma closing_no_children (evs : list Event) :
  Forall isClosing evs → childBatches evs = [].
Proof.
  induction 1 as [|e evs He _ IH]; [done|].
  unfold childBatches in *. by destruct e.
Qed.

(** A resync cycle that replicates.  If at cycle start [state.NeedsResync]
    and [config.DstTableFullResync] both hold and the destination table is
    [t], then a successful cycle that is not an initial copy and was not
    skipped by a pause signal first creates the shadow table
    [t_peerdb_resync] from [t], replicates with the configuration pointing
    at the shadow, and later renames the shadow to [t]; at cycle end
    [state.NeedsResync] is false and the configuration is the original one,
    so its identifier is [t]. *)
Lemma resync_round_trip (FSH : CDCFlowSignal → CDCFlowSignal → CDCFlowSignal)
    (w : World) (cfg : QRepConfig) (st : option QRepFlowState) (t : string) c s m' :
  QRepFlowWorkflow FSH w cfg st = (ContinueAsNew c s, m') →
  NeedsResync (default newQRepFlowState st) = true →
  DstTableFullResync cfg = true →
  DestinationTableIdentifier cfg = t →
  InitialCopyOnly cfg = false →
  discoveryRan (trace m') = true →
  (∃ before during after,
     trace m' =
       before ++
       CreateTablesFromExisting
         {| ctfe_FlowJobName := FlowJobName cfg;
            ctfe_PeerName := DestinationName cfg;
            NewToExistingTableMapping := {[ t +:+ "_peerdb_resync" := t ]} |} ::
       during ++
       RenameTables
         {| rti_FlowJobName := FlowJobName cfg;
            rti_PeerName := DestinationName cfg;
            RenameTableOptions :=
              [ {| CurrentName := t +:+ "_peerdb_resync"; NewName := t |} ] |} ::
       after
     ∧ childBatches during = childBatches (trace m')
     ∧ ∀ wid c' b run, ChildQRepPartitionWorkflow wid c' b run ∈ during →
         DestinationTableIdentifier c' = t +:+ "_peerdb_resync")
  ∧ NeedsResync s = false
  ∧ DestinationTableIdentifier c = t
  ∧ c = cfg.
Proof.
  intros Hrun Hneeds Hdst Ht Hico Hran.
  destruct (cycle_continues FSH w cfg st c s m' Hrun)
    as (_ & _ & evs1 & evs2 & mid & evs3 & Htr & Hok1 & Hok2 & Hok3 & Hcases).
  assert (discoveryRan mid = true) as Hmid.
  { rewrite Htr, !discoveryRan_app, created_no_discovery,
      (auxiliary_no_discovery evs1), (auxiliary_no_discovery evs2),
      (auxiliary_no_discovery evs3) in Hran by done.
    by rewrite orb_false_r in Hran. }
  assert (NeedsResync (default newQRepFlowState st) && DstTableFullResync cfg = true)
    as Hres by (by rewrite Hneeds, Hdst).
  rewrite Hres in Htr, Hcases. clear Hran.
  destruct Hcases as [(-> & _) | [(Hico' & _) |
    (_ & started & -> & Hst & _ & _ & _ & Hcleared & Hc)]]; [done | congruence |].
  clear Hmid. unfold shadow in *. rewrite Ht in *.
  simpl in Hc. rewrite TrimSuffix_app in Hc.
  assert (c = cfg) as ->.
  { rewrite Hc, with_DestinationTableIdentifier_twice, <- Ht.
    apply with_DestinationTableIdentifier_same. }
  split; [|by split; [|split]].
  exists evs1, (evs2 ++ GetQRepPartitions
                   (with_DestinationTableIdentifier (t +:+ "_peerdb_resync") cfg)
                   (LastPartition (default newQRepFlowState st)) (OriginalRunID w)
                 :: started ++
                 [ConsolidateQRepPartitions
                    (with_DestinationTableIdentifier (t +:+ "_peerdb_resync") cfg)
                    (OriginalRunID w);
                  CleanupQRepFlow
                    (with_DestinationTableIdentifier (t +:+ "_peerdb_resync") cfg);
                  fetchSchema
                    (with_DestinationTableIdentifier (t +:+ "_peerdb_resync") cfg)
                    (t +:+ "_peerdb_resync")]), evs3.
  split; [|split].
  - rewrite Htr. unfold createShadow, renameShadow. simpl.
    rewrite TrimSuffix_app, Ht. by repeat (rewrite <- app_assoc; simpl).
  - rewrite Htr, !childBatches_app, !(auxiliary_no_children _ Hok1),
      !(auxiliary_no_children _ Hok2), !(auxiliary_no_children _ Hok3).
    change (childBatches [createShadow cfg]) with (@nil QRepPartitionBatch).
    simpl. rewrite !childBatches_app. simpl. by rewrite !app_nil_r.
  - intros wid c' b run [Hin | Hin]%elem_of_app.
    { apply (proj1 (Forall_forall _ _) Hok2) in Hin. done. }
    apply elem_of_cons in Hin as [Heq | [Hin | Hin]%elem_of_app]; [done | |].
    + apply (proj1 (Forall_forall _ _) Hst) in Hin as (wid' & b' & [= _ -> _ _]).
      done.
    + repeat (apply elem_of_cons in Hin as [Heq | Hin]; [done|]).
      by apply elem_of_nil in Hin.
Qed.

(** The name of a shadow table is not the name of its table. *)
Lemma shadow_ne (t : string) : t +:+ "_peerdb_resync" ≠ t.
Proof.
  intros Heq. apply (f_equal String.length) in Heq.
  rewrite string_length_app in Heq. simpl in Heq. lia.
Qed.

(** C5, where the code leaves the round trip.  The spec has a resync cycle
    create the shadow table [t_peerdb_resync], replicate into it and rename
    it back to [t].  The code creates the shadow table before the wait for
    new rows and renames it only in a cycle that replicates.  So when the
    cycle is skipped by a pause signal (discovery does not run), it still
    completes without error, it has created [t_peerdb_resync] from [t] and
    renamed nothing, and it continues as new with [state.NeedsResync] true
    and the configuration pointing at [t_peerdb_resync].  The next cycle
    that replicates starts from that configuration: it creates
    [t_peerdb_resync_peerdb_resync] from [t_peerdb_resync], replicates into
    it and renames it to [t_peerdb_resync]; it ends with
    [state.NeedsResync] false and the identifier [t_peerdb_resync], not
    [t].  The first cycle renames nothing, the partition workflows of the
    second write to [t_peerdb_resync_peerdb_resync], and the configuration
    handed on does not name [t]. *)
Theorem resync_after_pause (FSH : CDCFlowSignal → CDCFlowSignal → CDCFlowSignal)
    (w1 w2 : World) (cfg : QRepConfig) (st : option QRepFlowState) (t : string)
    c1 s1 m1 c2 s2 m2 :
  NeedsResync (default newQRepFlowState st) = true →
  DstTableFullResync cfg = true →
  DestinationTableIdentifier cfg = t →
  InitialCopyOnly cfg = false →
  QRepFlowWorkflow FSH w1 cfg st = (ContinueAsNew c1 s1, m1) →
  discoveryRan (trace m1) = false →
  QRepFlowWorkflow FSH w2 c1 (Some s1) = (ContinueAsNew c2 s2, m2) →
  discoveryRan (trace m2) = true →
  ((∃ before after,
      trace m1 =
        before ++
        CreateTablesFromExisting
          {| ctfe_FlowJobName := FlowJobName cfg;
             ctfe_PeerName := DestinationName cfg;
             NewToExistingTableMapping := {[ t +:+ "_peerdb_resync" := t ]} |} ::
        after
      ∧ Forall isAuxiliary before ∧ Forall isAuxiliary after)
   ∧ Forall (λ e, isRenameTables e = false) (trace m1)
   ∧ NeedsResync s1 = true
   ∧ c1 = with_DestinationTableIdentifier (t +:+ "_peerdb_resync") cfg
   ∧ DestinationTableIdentifier c1 = t +:+ "_peerdb_resync")
  ∧ ((∃ before during after,
        trace m2 =
          before ++
          CreateTablesFromExisting
            {| ctfe_FlowJobName := FlowJobName cfg;
               ctfe_PeerName := DestinationName cfg;
               NewToExistingTableMapping :=
                 {[ (t +:+ "_peerdb_resync") +:+ "_peerdb_resync"
                    := t +:+ "_peerdb_resync" ]} |} ::
          during ++
          RenameTables
            {| rti_FlowJobName := FlowJobName cfg;
               rti_PeerName := DestinationName cfg;
               RenameTableOptions :=
                 [ {| CurrentName := (t +:+ "_peerdb_resync") +:+ "_peerdb_resync";
                      NewName := t +:+ "_peerdb_resync" |} ] |} ::
          after
        ∧ childBatches during = childBatches (trace m2)
        ∧ ∀ wid c' b run, ChildQRepPartitionWorkflow wid c' b run ∈ during →
            DestinationTableIdentifier c'
            = (t +:+ "_peerdb_resync") +:+ "_peerdb_resync")
     ∧ NeedsResync s2 = false
     ∧ DestinationTableIdentifier c2 = t +:+ "_peerdb_resync"
     ∧ DestinationTableIdentifier c2 ≠ t).
Proof.
  intros Hneeds Hdst Ht Hico Hrun1 Hskip Hrun2 Hran.
  destruct (cycle_continues FSH w1 cfg st c1 s1 m1 Hrun1)
    as (_ & _ & evs1 & evs2 & mid & evs3 & Htr & Hok1 & Hok2 & Hok3 & Hcases).
  assert (NeedsResync (default newQRepFlowState st) && DstTableFullResync cfg = true)
    as Hres by (by rewrite Hneeds, Hdst).
  rewrite Hres in Htr, Hcases.
  assert (discoveryRan mid = false) as Hmid.
  { rewrite Htr, !discoveryRan_app in Hskip.
    by destruct (discoveryRan mid); [rewrite !orb_true_r in Hskip|]. }
  destruct Hcases as [(-> & Hprog & Hc1) | [(Hico' & _) | (_ & started & -> & _)]];
    [| congruence | done].
  unfold shadow in Hc1. rewrite Ht in Hc1.
  destruct Hprog as (_ & _ & Hn1). rewrite Hneeds in Hn1.
  assert (Forall isAuxiliary (evs2 ++ evs3)) as Hok23 by (by apply Forall_app).
  assert (first_cycle :
    (∃ before after,
      trace m1 =
        before ++
        CreateTablesFromExisting
          {| ctfe_FlowJobName := FlowJobName cfg;
             ctfe_PeerName := DestinationName cfg;
             NewToExistingTableMapping := {[ t +:+ "_peerdb_resync" := t ]} |} ::
        after
      ∧ Forall isAuxiliary before ∧ Forall isAuxiliary after)
   ∧ Forall (λ e, isRenameTables e = false) (trace m1)
   ∧ NeedsResync s1 = true
   ∧ c1 = with_DestinationTableIdentifier (t +:+ "_peerdb_resync") cfg
   ∧ DestinationTableIdentifier c1 = t +:+ "_peerdb_resync").
  { split; [|split; [|split; [done|split; [done|by rewrite Hc1]]]].
    - exists evs1, (evs2 ++ evs3). split; [|done].
      rewrite Htr. unfold createShadow, shadow. rewrite Ht. done.
    - rewrite Htr. simpl.
      apply Forall_app; split.
      { eapply Forall_impl; [exact Hok1|]. by intros []. }
      constructor; [done|]. eapply Forall_impl; [exact Hok23|]. by intros []. }
  split; [exact first_cycle|].
  assert (DstTableFullResync c1 = true) as Hdst1 by (by rewrite Hc1).
  assert (InitialCopyOnly c1 = false) as Hico1 by (by rewrite Hc1).
  assert (DestinationTableIdentifier c1 = t +:+ "_peerdb_resync") as Ht1
    by (by rewrite Hc1).
  destruct (resync_round_trip FSH w2 c1 (Some s1) (t +:+ "_peerdb_resync") c2 s2 m2
              Hrun2 Hn1 Hdst1 Ht1 Hico1 Hran)
    as ((before & during & after & Htr2 & Hch & Hin) & Hn2 & Hc2 & _).
  split; [|split; [done|split; [done|]]].
  - exists before, during, after. split; [|done].
    rewrite Htr2. by rewrite Hc1.
  - rewrite Hc2. apply shadow_ne.
Qed.

(** C5 at the failing input: a resync of table [t] from the state of a first
    invocation, a pause signal during the wait for new rows, and the cycle
    after the resume. *)
Lemma resync_after_pause_witness :
  QRepFlowWorkflow scenario.FlowSignalHandler
    (scenario.world scenario.five false [SelSignal PauseSignal])
    (scenario.mirror QREP_WRITE_MODE_APPEND false true) None
  = (ContinueAsNew (config scenario.pausedResyncRun.2) (state scenario.pausedResyncRun.2),
     scenario.pausedResyncRun.2)
  ∧ discoveryRan (trace scenario.pausedResyncRun.2) = false
  ∧ QRepFlowWorkflow scenario.FlowSignalHandler scenario.resuming
      (config scenario.pausedResyncRun.2) (Some (state scenario.pausedResyncRun.2))
    = (ContinueAsNew (config scenario.resumedResyncRun.2) (state scenario.resumedResyncRun.2),
       scenario.resumedResyncRun.2)
  ∧ discoveryRan (trace scenario.resumedResyncRun.2) = true
  ∧ NeedsResync (state scenario.pausedResyncRun.2) = true
  ∧ DestinationTableIdentifier (config scenario.pausedResyncRun.2) = "t_peerdb_resync"
  ∧ NeedsResync (state scenario.resumedResyncRun.2) = false
  ∧ DestinationTableIdentifier (config scenario.resumedResyncRun.2) = "t_peerdb_resync"
  ∧ DestinationTableIdentifier (config scenario.resumedResyncRun.2) ≠ "t".
Proof.
  assert (QRepFlowWorkflow scenario.FlowSignalHandler
            (scenario.world scenario.five false [SelSignal PauseSignal])
            (scenario.mirror QREP_WRITE_MODE_APPEND false true) None
          = (ContinueAsNew (config scenario.pausedResyncRun.2)
               (state scenario.pausedResyncRun.2),
             scenario.pausedResyncRun.2)) as Hrun1
    by (vm_compute; reflexivity).
  assert (discoveryRan (trace scenario.pausedResyncRun.2) = false) as Hskip
    by (vm_compute; reflexivity).
  assert (QRepFlowWorkflow scenario.FlowSignalHandler scenario.resuming
            (config scenario.pausedResyncRun.2) (Some (state scenario.pausedResyncRun.2))
          = (ContinueAsNew (config scenario.resumedResyncRun.2)
               (state scenario.resumedResyncRun.2),
             scenario.resumedResyncRun.2)) as Hrun2
    by (vm_compute; reflexivity).
  assert (discoveryRan (trace scenario.resumedResyncRun.2) = true) as Hran
    by (vm_compute; reflexivity).
  split; [exact Hrun1|]. split; [exact Hskip|]. split; [exact Hrun2|].
  split; [exact Hran|].
  pose proof (resync_after_pause scenario.FlowSignalHandler
                (scenario.world scenario.five false [SelSignal PauseSignal])
                scenario.resuming
                (scenario.mirror QREP_WRITE_MODE_APPEND false true) None "t" _ _ _ _ _ _
                eq_refl eq_refl eq_refl eq_refl Hrun1 Hskip Hrun2 Hran)
    as [(_ & _ & Hn1 & _ & Ht1) (_ & Hn2 & Ht2 & Hne)].
  exact (conj Hn1 (conj Ht1 (conj Hn2 (conj Ht2 Hne)))).
Defined.

(** ** Empty discovery *)

Lemma closing_no_discovery (evs : list Event) :
  Forall isClosing evs → discoveryRan evs = false.
Proof.
  induction 1 as [|e evs He _ IH]; [done|]. simpl. rewrite IH. by destruct e.
Qed.

Lemma created_no_children (created : list Event) (b : bool) (c : QRepConfig) :
  created = [] ∨ (b = true ∧ created = [createShadow c]) → childBatches created = [].
Proof. by intros [-> | [_ ->]]. Qed.

Lemma created_no_discovery' (created : list Event) (b : bool) (c : QRepConfig) :
  created = [] ∨ (b = true ∧ created = [createShadow c]) → discoveryRan created = false.
Proof. by intros [-> | [_ ->]]. Qed.

(** A trace with one discovery is cut at it in one way only. *)
Lemma split_at_discovery (pre post history rest : list Event) (e get : Event) :
  pre ++ e :: post = history ++ get :: rest →
  discoveryRan pre = false → discoveryRan post = false → isDiscovery get = true →
  history = pre ∧ get = e ∧ rest = post.
Proof.
  revert history. induction pre as [|a pre IH]; intros [|x history]; simpl.
  - by intros [= -> ->].
  - intros [= -> ->] _ Hpost Hget.
    rewrite discoveryRan_app in Hpost. simpl in Hpost. rewrite Hget in Hpost.
    by rewrite orb_true_r in Hpost.
  - intros [= -> _] Hpre _ Hget. by rewrite Hget in Hpre.
  - intros [= -> Heq] [_ Hpre]%orb_false_elim Hpost Hget.
    by destruct (IH _ Heq Hpre Hpost Hget) as (-> & -> & ->).
Qed.

(** C6.  If partition discovery returns an empty partition list, then in
    that cycle no child partition workflow is started, and the consolidation
    step still runs: [ConsolidateQRepPartitions] is the next call, and
    [CleanupQRepFlow] follows it when it succeeds.  This holds however the
    cycle ends. *)
Theorem empty_discovery (FSH : CDCFlowSignal → CDCFlowSignal → CDCFlowSignal)
    (w : World) (cfg : QRepConfig) (st : option QRepFlowState) h m'
    (history rest : list Event) (get : Event) :
  QRepFlowWorkflow FSH w cfg st = (h, m') →
  trace m' = history ++ get :: rest →
  isDiscovery get = true →
  answer w history get = None →
  partitionsFound w = [] →
  childBatches (trace m') = []
  ∧ ∃ c run rest',
      rest = ConsolidateQRepPartitions c run :: rest'
      ∧ (answer w (history ++ [get]) (ConsolidateQRepPartitions c run) = None →
         ∃ rest'', rest' = CleanupQRepFlow c :: rest'').
Proof.
  intros Hrun Htrace Hget Hgot Hempty.
  assert (Hnever : discoveryRan (trace m') = false → False).
  { rewrite Htrace, discoveryRan_app. simpl. rewrite Hget, orb_true_r. done. }
  apply QRepFlowWorkflow_inv in Hrun
    as [Hsetup | (k & fr & m1 & Hsetup & Hrest)];
    apply setupCycle_spec in Hsetup
      as (_ & _ & evs1 & created & evs2 & Htr & Hok1 & Hok2 & Hcreated & _);
    simpl in Htr.
  { exfalso. apply Hnever.
    by rewrite Htr, !discoveryRan_app, (created_no_discovery' _ _ _ Hcreated),
         (auxiliary_no_discovery evs1), (auxiliary_no_discovery evs2). }
  assert (discoveryRan (trace m1) = false) as Hpre.
  { by rewrite Htr, !discoveryRan_app, (created_no_discovery' _ _ _ Hcreated),
         (auxiliary_no_discovery evs1), (auxiliary_no_discovery evs2). }
  assert (childBatches (trace m1) = []) as Hnochild.
  { by rewrite Htr, !childBatches_app, (created_no_children _ _ _ Hcreated),
         (auxiliary_no_children evs1), (auxiliary_no_children evs2). }
  clear Htr Hok1 Hok2 Hcreated evs1 evs2 created.
  destruct Hrest as [[_ Hfin] | [_ [Hrep | (m2 & Hrep & Hfin)]]].
  - apply finishCycle_spec in Hfin as [_ (_ & _ & evs3 & Htr3 & Hok3)].
    exfalso. apply Hnever.
    by rewrite Htr3, discoveryRan_app, Hpre, (auxiliary_no_discovery evs3).
  - apply replicateCycle_spec in Hrep
      as (started & tail & Htr2 & _ & Hnil & Hcl & _ & Hcons & _).
    rewrite (Hnil Hempty) in Htr2. simpl in Htr2. rewrite Htr2 in Htrace.
    apply split_at_discovery in Htrace as (-> & -> & ->);
      [|done|by apply closing_no_discovery|done].
    split.
    { rewrite Htr2, childBatches_app, Hnochild.
      exact (closing_no_children tail Hcl). }
    destruct (Hcons Hgot Hempty) as (tl & -> & Hcleanup). eauto.
  - apply replicateCycle_spec in Hrep
      as (started & tail & Htr2 & _ & Hnil & Hcl & _ & Hcons & _).
    apply finishCycle_spec in Hfin as [_ (_ & _ & evs3 & Htr3 & Hok3)].
    rewrite (Hnil Hempty) in Htr2. simpl in Htr2.
    rewrite Htr3, Htr2, <- app_assoc in Htrace. simpl in Htrace.
    apply split_at_discovery in Htrace as (-> & -> & ->); [|done| |done].
    2:{ by rewrite discoveryRan_app, (closing_no_discovery tail),
             (auxiliary_no_discovery evs3). }
    split.
    { rewrite Htr3, Htr2, !childBatches_app, Hnochild,
        (auxiliary_no_children evs3), app_nil_r by done.
      exact (closing_no_children tail Hcl). }
    destruct (Hcons Hgot Hempty) as (tl & -> & Hcleanup).
    eexists _, _, _. split; [done|]. intros Hok.
    destruct (Hcleanup Hok) as [tl' ->]. eauto.
Qed.

Lemma empty_discovery_witness :
  QRepFlowWorkflow scenario.FlowSignalHandler
    (scenario.world [] false [SelFuture None])
    (scenario.mirror QREP_WRITE_MODE_APPEND false false)
    (Some (scenario.running scenario.p0 false))
    = (scenario.emptyRun.1, scenario.emptyRun.2)
  ∧ childBatches (trace scenario.emptyRun.2) = []
  ∧ ∃ c run rest',
      drop 5 (trace scenario.emptyRun.2) = ConsolidateQRepPartitions c run :: rest'
      ∧ ∃ rest'', rest' = CleanupQRepFlow c :: rest''.
Proof.
  assert (QRepFlowWorkflow scenario.FlowSignalHandler
    (scenario.world [] false [SelFuture None])
    (scenario.mirror QREP_WRITE_MODE_APPEND false false)
    (Some (scenario.running scenario.p0 false))
          = (scenario.emptyRun.1, scenario.emptyRun.2)) as Hrun
    by (vm_compute; reflexivity).
  split; [exact Hrun|].
  destruct (empty_discovery _ _ _ _ _ _
              (take 4 (trace scenario.emptyRun.2))
              (drop 5 (trace scenario.emptyRun.2))
              (GetQRepPartitions (scenario.mirror QREP_WRITE_MODE_APPEND false false)
                 (Some scenario.p0) "run")
              Hrun)
    as (Hnone & c & run & rest' & Hrest & Hcleanup);
    [vm_compute; reflexivity | reflexivity | reflexivity | reflexivity |].
  split; [exact Hnone|]. exists c, run, rest'. split; [exact Hrest|].
  apply Hcleanup. reflexivity.
Defined.

(** ** The cursor of discovery under full refresh *)

Lemma discoveryCursors_app (evs1 evs2 : list Event) :
  discoveryCursors (evs1 ++ evs2) = discoveryCursors evs1 ++ discoveryCursors evs2.
Proof. apply omap_app. Qed.

Lemma no_discovery_no_cursor (evs : list Event) :
  discoveryRan evs = false → discoveryCursors evs = [].
Proof.
  induction evs as [|e evs IH]; [done|]. simpl.
  intros [He Hevs]%orb_false_elim. unfold discoveryCursors in *.
  destruct e; try done; by apply IH.
Qed.

Lemma startsChild_no_discovery (c : QRepConfig) (run : string) (evs : list Event) :
  Forall (startsChild c run) evs → discoveryRan evs = false.
Proof.
  induction 1 as [|e evs (wid & b & ->) _ IH]; [done|]. simpl. by rewrite IH.
Qed.

(** Whatever the write mode and the setting oracle, the cursor passed to
    [GetQRepPartitions] is [state.LastPartition] as the cycle found it. *)
Lemma discovery_cursor (FSH : CDCFlowSignal → CDCFlowSignal → CDCFlowSignal)
    (w : World) (cfg : QRepConfig) (st : option QRepFlowState) h m' :
  QRepFlowWorkflow FSH w cfg st = (h, m') →
  discoveryCursors (trace m') = [] ∨
  discoveryCursors (trace m') = [LastPartition (default newQRepFlowState st)].
Proof.
  intros Hrun.
  apply QRepFlowWorkflow_inv in Hrun
    as [Hsetup | (k & fr & m1 & Hsetup & Hrest)];
    apply setupCycle_spec in Hsetup
      as (_ & (Hlast & _) & evs1 & created & evs2 & Htr & Hok1 & Hok2 & Hcreated & _);
    simpl in Htr, Hlast.
  { left. apply no_discovery_no_cursor.
    by rewrite Htr, !discoveryRan_app, (created_no_discovery' _ _ _ Hcreated),
         (auxiliary_no_discovery evs1), (auxiliary_no_discovery evs2). }
  assert (discoveryRan (trace m1) = false) as Hpre.
  { by rewrite Htr, !discoveryRan_app, (created_no_discovery' _ _ _ Hcreated),
         (auxiliary_no_discovery evs1), (auxiliary_no_discovery evs2). }
  clear Htr Hok1 Hok2 Hcreated evs1 evs2 created.
  destruct Hrest as [[_ Hfin] | [_ [Hrep | (m2 & Hrep & Hfin)]]].
  - apply finishCycle_spec in Hfin as [_ (_ & _ & evs3 & Htr3 & Hok3)].
    left. apply no_discovery_no_cursor.
    by rewrite Htr3, discoveryRan_app, Hpre, (auxiliary_no_discovery evs3).
  - apply replicateCycle_spec in Hrep
      as (started & tail & Htr2 & Hst & _ & Hcl & _).
    right. rewrite Htr2, discoveryCursors_app, (no_discovery_no_cursor _ Hpre). simpl.
    change (discoveryCursors (?e :: ?l)) with (LastPartition (state m1) :: discoveryCursors l).
    rewrite Hlast, discoveryCursors_app, !no_discovery_no_cursor; [done | |].
    + by apply closing_no_discovery.
    + by eapply startsChild_no_discovery.
  - apply replicateCycle_spec in Hrep
      as (started & tail & Htr2 & Hst & _ & Hcl & _).
    apply finishCycle_spec in Hfin as [_ (_ & _ & evs3 & Htr3 & Hok3)].
    right. rewrite Htr3, Htr2, !discoveryCursors_app, (no_discovery_no_cursor _ Hpre).
    simpl.
    change (discoveryCursors (?e :: ?l)) with (LastPartition (state m1) :: discoveryCursors l).
    rewrite Hlast, discoveryCursors_app, !no_discovery_no_cursor; [done | | |].
    + by apply auxiliary_no_discovery.
    + by apply closing_no_discovery.
    + by eapply startsChild_no_discovery.
Qed.

(** C3 on the code.  In OVERWRITE mode with the full-refresh setting on, a
    cycle entered with the cursor [p5] waits for new rows from the sentinel,
    yet passes [p5] to [GetQRepPartitions]: the rewound cursor does not
    reach partition discovery. *)
Theorem full_refresh_discovery_cursor :
  fullRefreshInEffect (scenario.world [scenario.p1; scenario.p2] true [SelFuture None])
                      (scenario.mirror QREP_WRITE_MODE_OVERWRITE false false) = true
  ∧ LastPartition (scenario.running scenario.p5 false) = Some scenario.p5
  ∧ waitCursors (trace scenario.fullRefreshRun.2) = [Some InitialLastPartition]
  ∧ discoveryCursors (trace scenario.fullRefreshRun.2) = [Some scenario.p5]
  ∧ Some scenario.p5 ≠ Some InitialLastPartition.
Proof. vm_compute. repeat split; discriminate. Qed.

(** ** The wait for new rows *)

(** C7.  One iteration of [QRepWaitForNewRowsWorkflow], for a configuration
    with a write mode and a [uint32] wait.  It returns success without
    sleeping if and only if [QRepHasNewRows] returns true and full-refresh
    mode is not in effect.  Otherwise (the activity having returned) it
    sleeps [WaitBetweenBatchesSeconds] seconds, 5 when that is not positive,
    and when the sleep is over returns success if full-refresh mode is in
    effect, and else continues as new with the same arguments. *)
Theorem QRepWaitForNewRowsWorkflow_iteration (w : World) (cfg : QRepConfig)
    (lastPartition : option QRepPartition) (wm : QRepWriteMode) :
  WriteMode cfg = Some wm →
  0 ≤ WaitBetweenBatchesSeconds cfg < 2 ^ 32 →
  ((QRepWaitForNewRowsWorkflow w cfg lastPartition).1 = WaitReturnedNil
   ∧ Forall (λ e, isSleep e = false) (QRepWaitForNewRowsWorkflow w cfg lastPartition).2
   ↔ answer w [] (QRepHasNewRows cfg lastPartition) = None
     ∧ hasNewRowsFound w = true
     ∧ fullRefreshInEffect w cfg = false)
  ∧ (answer w [] (QRepHasNewRows cfg lastPartition) = None →
     ¬ (hasNewRowsFound w = true ∧ fullRefreshInEffect w cfg = false) →
     ∃ history,
       (QRepWaitForNewRowsWorkflow w cfg lastPartition).2
         = history ++
           [Sleep ((if bool_decide (0 < WaitBetweenBatchesSeconds cfg)
                    then WaitBetweenBatchesSeconds cfg else 5) * Second)]
       ∧ Forall (λ e, isSleep e = false) history
       ∧ match answer w history
                 (Sleep ((if bool_decide (0 < WaitBetweenBatchesSeconds cfg)
                          then WaitBetweenBatchesSeconds cfg else 5) * Second)) with
         | Some sleepErr =>
             (QRepWaitForNewRowsWorkflow w cfg lastPartition).1 = WaitErrored sleepErr
         | None =>
             (QRepWaitForNewRowsWorkflow w cfg lastPartition).1
               = if fullRefreshInEffect w cfg
                 then WaitReturnedNil
                 else WaitContinueAsNew cfg lastPartition
         end).
Proof.
  intros Hwm Hrange.
  assert (int64 (WaitBetweenBatchesSeconds cfg * Second)
          = WaitBetweenBatchesSeconds cfg * Second) as Hdur.
  { apply int64_small. unfold Second. lia. }
  unfold QRepWaitForNewRowsWorkflow, fullRefreshInEffect. rewrite Hwm, Hdur.
  replace (if bool_decide (0 < WaitBetweenBatchesSeconds cfg)
           then WaitBetweenBatchesSeconds cfg * Second else 5 * Second)
    with ((if bool_decide (0 < WaitBetweenBatchesSeconds cfg)
           then WaitBetweenBatchesSeconds cfg else 5) * Second)
    by (by destruct (bool_decide (0 < WaitBetweenBatchesSeconds cfg))).
  destruct (answer w [] (QRepHasNewRows cfg lastPartition)) as [err|] eqn:Hcheck.
  { simpl. split; [|done]. split; [by intros [? _] | by intros [? _]]. }
  destruct (hasNewRowsFound w) eqn:Hrows,
           (bool_decide (WriteType wm = QREP_WRITE_MODE_OVERWRITE)) eqn:Hover,
           (fullRefreshMode w) eqn:Hfr; simpl.
  all: try (split; [split; [by intros _ | intros _; split; [done|]; by repeat constructor]|];
            intros _ Hnot; by destruct Hnot).
  all: destruct (answer w _ (Sleep _)) as [sleepErr|] eqn:Hsleep; simpl.
  all: split;
    [ split;
      [ intros [Hnil Hnosleep];
        first [ discriminate Hnil
              | exfalso;
                repeat (apply Forall_cons in Hnosleep as [? Hnosleep]; try done) ]
      | by intros (_ & ? & ?) ]
    | intros _ _;
      first [ eexists [_; _]; split; [reflexivity|]
            | eexists [_]; split; [reflexivity|] ];
      split; [by repeat constructor|];
      first [ rewrite Hsleep | simpl in Hsleep; rewrite Hsleep ]; done ].
Qed.

Lemma QRepWaitForNewRowsWorkflow_iteration_witness :
  WriteMode (scenario.mirror QREP_WRITE_MODE_APPEND false false)
    = Some {| WriteType := QREP_WRITE_MODE_APPEND; UpsertKeyColumns := [] |}
  ∧ 0 ≤ WaitBetweenBatchesSeconds (scenario.mirror QREP_WRITE_MODE_APPEND false false)
      < 2 ^ 32
  ∧ ∃ history,
      (QRepWaitForNewRowsWorkflow scenario.idle
         (scenario.mirror QREP_WRITE_MODE_APPEND false false) (Some scenario.p5)).2
        = history ++ [Sleep (5 * Second)]
      ∧ Forall (λ e, isSleep e = false) history
      ∧ (QRepWaitForNewRowsWorkflow scenario.idle
           (scenario.mirror QREP_WRITE_MODE_APPEND false false) (Some scenario.p5)).1
          = WaitContinueAsNew (scenario.mirror QREP_WRITE_MODE_APPEND false false)
              (Some scenario.p5).
Proof.
  split; [reflexivity|]. split; [simpl; lia|].
  destruct (QRepWaitForNewRowsWorkflow_iteration scenario.idle
              (scenario.mirror QREP_WRITE_MODE_APPEND false false) (Some scenario.p5)
              {| WriteType := QREP_WRITE_MODE_APPEND; UpsertKeyColumns := [] |}
              eq_refl ltac:(simpl; lia)) as [_ Hsleep].
  destruct (Hsleep eq_refl ltac:(by intros [? _])) as (history & Htr & Hno & Hres).
  exists history. split; [exact Htr|]. split; [exact Hno|]. exact Hres.
Defined.

(** ** The dynamic setting lookup *)

Import strconv peerdbenv.

Example ParseBool_TRUE : ParseBool "TRUE" = inl true.
Proof. reflexivity. Qed.

Example ParseBool_yes : fails (ParseBool "yes").
Proof. exact I. Qed.

Example ParseUint_max : ParseUint "18446744073709551615" = inl (2 ^ 64 - 1).
Proof. reflexivity. Qed.

Example ParseUint_range : ParseUint "18446744073709551616"
                          = inr (NumError "ParseUint" "18446744073709551616" ErrRange).
Proof. reflexivity. Qed.

Example ParseInt_min : ParseInt "-9223372036854775808" = inl (- 2 ^ 63).
Proof. reflexivity. Qed.

Example ParseInt_sign_only : ParseInt "+" = inr (NumError "ParseInt" "+" ErrSyntax).
Proof. reflexivity. Qed.

Example dynamicConfUnsigned_wraps :
  dynamicConfUnsigned 32
    (scenario.settings (Row {| pgtype.String := "4294967297"; pgtype.Valid := true |}
                            {| pgtype.String := "0"; pgtype.Valid := true |}) None)
    "PEERDB_SLOT_LAG_MB_ALERT_THRESHOLD" = inl 1.
Proof. reflexivity. Qed.

Lemma fails_inr {A} (r : A + error) : fails r ↔ ∃ err, r = inr err.
Proof. destruct r; simpl; split; try done; [by intros [? ?] | eauto]. Qed.

(** C8, as the code has it.  The lookup returns the value of the catalog row
    when there is a row with a non-NULL value; with a row whose value is
    NULL, the environment variable when it is set and else the default
    value of that row; without a row, the environment variable when it is
    set.  It fails when the catalog connection or the query fails, and when
    there is no row and the variable is unset: no default is invented.  A
    typed setting fails exactly when the lookup fails or the string it
    resolved does not parse as the type asked for. *)
Theorem dynamic_setting_resolution (ctx : Context) (key : string) :
  (poolError ctx = None →
   (∀ value default_value, QueryRow ctx key = Row value default_value →
      pgtype.Valid value = true →
      dynLookup ctx key = inl (pgtype.String value))
   ∧ (∀ value default_value val, QueryRow ctx key = Row value default_value →
      pgtype.Valid value = false → LookupEnv ctx key = Some val →
      dynLookup ctx key = inl val)
   ∧ (∀ value default_value, QueryRow ctx key = Row value default_value →
      pgtype.Valid value = false → LookupEnv ctx key = None →
      dynLookup ctx key = inl (pgtype.String default_value))
   ∧ (∀ val, QueryRow ctx key = ErrNoRows → LookupEnv ctx key = Some val →
      dynLookup ctx key = inl val))
  ∧ (fails (dynLookup ctx key) ↔
       (∃ err, poolError ctx = Some err)
       ∨ (∃ err, QueryRow ctx key = QueryError err)
       ∨ (QueryRow ctx key = ErrNoRows ∧ LookupEnv ctx key = None))
  ∧ (fails (dynamicConfBool ctx key) ↔
       fails (dynLookup ctx key)
       ∨ ∃ value, dynLookup ctx key = inl value ∧ fails (ParseBool value))
  ∧ (∀ bits, fails (dynamicConfUnsigned bits ctx key) ↔
       fails (dynLookup ctx key)
       ∨ ∃ value, dynLookup ctx key = inl value ∧ fails (ParseUint value))
  ∧ (∀ bits, fails (dynamicConfSigned bits ctx key) ↔
       fails (dynLookup ctx key)
       ∨ ∃ value, dynLookup ctx key = inl value ∧ fails (ParseInt value)).
Proof.
  split; [|split; [|split; [|split]]].
  - intros Hpool. unfold dynLookup. rewrite Hpool. repeat split.
    + by intros value d -> ->.
    + by intros value d val -> -> ->.
    + by intros value d -> -> ->.
    + by intros val -> ->.
  - unfold dynLookup.
    destruct (poolError ctx) as [err|]; [simpl; split; eauto|].
    destruct (QueryRow ctx key) as [|err|value d]; simpl.
    + destruct (LookupEnv ctx key); simpl; split; try done; eauto.
      * by intros [[? ?] | [[? ?] | [_ ?]]].
    + split; [eauto | done].
    + destruct (pgtype.Valid value), (LookupEnv ctx key); simpl; split; try done.
      all: by intros [[? ?] | [[? ?] | [? _]]].
  - unfold dynamicConfBool. destruct (dynLookup ctx key) as [value|err]; simpl.
    + destruct (ParseBool value) eqn:Hp; simpl; split; try done.
      * intros [[] | (v & [= <-] & Hf)]. by rewrite Hp in Hf.
      * intros _. right. exists value. by rewrite Hp.
    + split; [by left | done].
  - intros bits. unfold dynamicConfUnsigned.
    destruct (dynLookup ctx key) as [value|err]; simpl.
    + destruct (ParseUint value) eqn:Hp; simpl; split; try done.
      * intros [[] | (v & [= <-] & Hf)]. by rewrite Hp in Hf.
      * intros _. right. exists value. by rewrite Hp.
    + split; [by left | done].
  - intros bits. unfold dynamicConfSigned.
    destruct (dynLookup ctx key) as [value|err]; simpl.
    + destruct (ParseInt value) eqn:Hp; simpl; split; try done.
      * intros [[] | (v & [= <-] & Hf)]. by rewrite Hp in Hf.
      * intros _. right. exists value. by rewrite Hp.
    + split; [by left | done].
Qed.

(** C8, as the spec words it, fails on the code: with no catalog row and the
    environment variable unset, nothing is resolved (there is no default to
    fall back to) and the typed setting fails, although no value failed to
    parse. *)
Lemma dynamic_setting_resolution_counterexample :
  poolError (scenario.settings ErrNoRows None) = None
  ∧ QueryRow (scenario.settings ErrNoRows None)
      "PEERDB_BIGQUERY_ENABLE_SYNCED_AT_PARTITIONING_BY_DAYS" = ErrNoRows
  ∧ LookupEnv (scenario.settings ErrNoRows None)
      "PEERDB_BIGQUERY_ENABLE_SYNCED_AT_PARTITIONING_BY_DAYS" = None
  ∧ fails (PeerDBBigQueryEnableSyncedAtPartitioning (scenario.settings ErrNoRows None))
  ∧ ¬ ∃ value,
        dynLookup (scenario.settings ErrNoRows None)
          "PEERDB_BIGQUERY_ENABLE_SYNCED_AT_PARTITIONING_BY_DAYS" = inl value.
Proof. repeat split. by intros [value ?]. Qed.

Lemma dynamic_setting_resolution_witness :
  poolError (scenario.settings (Row {| pgtype.String := "true"; pgtype.Valid := false |}
                                    {| pgtype.String := "false"; pgtype.Valid := true |})
                               None) = None
  ∧ dynLookup (scenario.settings (Row {| pgtype.String := "true"; pgtype.Valid := false |}
                                      {| pgtype.String := "false"; pgtype.Valid := true |})
                                 None)
      "PEERDB_BIGQUERY_ENABLE_SYNCED_AT_PARTITIONING_BY_DAYS" = inl "false".
Proof.
  split; [reflexivity|].
  exact (proj1 (proj2 (proj2
           (proj1 (dynamic_setting_resolution
                     (scenario.settings
                        (Row {| pgtype.String := "true"; pgtype.Valid := false |}
                             {| pgtype.String := "false"; pgtype.Valid := true |})
                        None)
                     "PEERDB_BIGQUERY_ENABLE_SYNCED_AT_PARTITIONING_BY_DAYS")
                  eq_refl)))
           _ _ eq_refl eq_refl eq_refl).
Defined.

(** ** Serialising a record *)

Section toMap_facts.
Context (Format : string → Z → string).
Context (FormatSinceZero : string → Z → string).
Context (DecimalString : Z * Z → string).
Context (ParseHstore : string → string + error).
Context (Unmarshal : string → gmap string items.any + error).
Context (opts : items.ToJSONOptions).

#[local] Abbreviation put := (items.put Format FormatSinceZero DecimalString ParseHstore Unmarshal opts).
#[local] Abbreviation toMapLoop :=
  (items.toMapLoop Format FormatSinceZero DecimalString ParseHstore Unmarshal opts).



Lemma toMapLoop_cons col qv rest jsonStruct :
  toMapLoop ((col, qv) :: rest) jsonStruct
  = match put jsonStruct col qv with
    | inl jsonStruct' => toMapLoop rest jsonStruct'
    | inr err => inr err
    end.
Proof. reflexivity. Qed.




End toMap_facts.


Lemma nullableFloat64_nil (f : spec_float) :
  items.IsNaN f || items.IsInf f = true → items.nullableFloat64 f = items.nil.
Proof. unfold items.nullableFloat64. by intros ->. Qed.

Lemma nullableFloat32_nil (f : spec_float) :
  items.IsNaN f || items.IsInf f = true → items.nullableFloat32 f = items.nil.
Proof. unfold items.nullableFloat32. by intros ->. Qed.

Section toMap_success.
Context (Format : string → Z → string).
Context (FormatSinceZero : string → Z → string).
Context (DecimalString : Z * Z → string).
Context (ParseHstore : string → string + error).
Context (Unmarshal : string → gmap string items.any + error).
Context (opts : items.ToJSONOptions).

#[local] Abbreviation put := (items.put Format FormatSinceZero DecimalString ParseHstore Unmarshal opts).
#[local] Abbreviation toMapLoop :=
  (items.toMapLoop Format FormatSinceZero DecimalString ParseHstore Unmarshal opts).




End toMap_success.




(** * Further properties *)

(** ** The columns of a record *)

Lemma Len_insert (r : items.RecordItems) (col : string) (val : option items.QValue) :
  items.Len (items.AddColumn r col val)
  = items.Len r + match items.ColToVal r !! col with Some _ => 0 | None => 1 end.
Proof.
  unfold items.Len, items.AddColumn. simpl.
  destruct (items.ColToVal r !! col) as [old|] eqn:Hcol.
  - rewrite map_size_insert_Some by done. lia.
  - rewrite map_size_insert_None by done. lia.
Qed.

(** X1.  A column written by [AddColumn] is read back by
    [GetValueByColName] and [GetColumnValue], a nil value included; the
    other columns read as before; a second write to the column replaces the
    first; the record grows by one column exactly when the column is new. *)
Theorem AddColumn_round_trip (r : items.RecordItems) (col : string)
    (val : option items.QValue) :
  items.GetValueByColName (items.AddColumn r col val) col = inl val
  ∧ items.GetColumnValue (items.AddColumn r col val) col = val
  ∧ (∀ c, c ≠ col →
       items.GetValueByColName (items.AddColumn r col val) c = items.GetValueByColName r c
       ∧ items.GetColumnValue (items.AddColumn r col val) c = items.GetColumnValue r c)
  ∧ (∀ val', items.AddColumn (items.AddColumn r col val') col val = items.AddColumn r col val)
  ∧ items.Len (items.AddColumn r col val)
    = items.Len r + match items.ColToVal r !! col with Some _ => 0 | None => 1 end.
Proof.
  unfold items.GetValueByColName, items.GetColumnValue, items.AddColumn. simpl.
  rewrite lookup_insert_eq. split; [done|]. split; [done|].
  split; [|split].
  - intros c Hc. by rewrite lookup_insert_ne.
  - intros val'. by rewrite insert_insert_eq.
  - apply Len_insert.
Qed.

(** X2.  A missing column and a column that holds nil.  For a column the
    record does not have, [GetColumnValue] returns nil without an error,
    while [GetValueByColName] and [GetBytesByColName] return the error
    [column name <c> not found].  For a column stored with a nil value,
    [GetValueByColName] returns nil and no error, which [GetColumnValue]
    does not tell from a missing column, and [GetBytesByColName] panics. *)
Theorem missing_and_nil_columns (Value : items.QValue → items.any)
    (Sprint : items.any → string) (r : items.RecordItems) (colName : string) :
  (items.ColToVal r !! colName = None →
     items.GetColumnValue r colName = None
     ∧ items.GetValueByColName r colName
       = inr (errorString ("column name " +:+ colName +:+ " not found"))
     ∧ items.GetBytesByColName Value Sprint r colName
       = items.Returned (inr (errorString ("column name " +:+ colName +:+ " not found"))))
  ∧ (items.ColToVal r !! colName = Some None →
     items.GetColumnValue r colName = None
     ∧ items.GetValueByColName r colName = inl None
     ∧ items.GetBytesByColName Value Sprint r colName = items.Panics)
  ∧ (∀ val, items.ColToVal r !! colName = Some (Some val) →
     items.GetColumnValue r colName = Some val
     ∧ items.GetValueByColName r colName = inl (Some val)
     ∧ items.GetBytesByColName Value Sprint r colName
       = items.Returned (inl (Sprint (Value val)))).
Proof.
  unfold items.GetBytesByColName, items.GetValueByColName, items.GetColumnValue.
  split; [|split]; [intros -> | intros -> | intros val ->]; done.
Qed.

(** X2 at concrete inputs, where its hypotheses hold. *)
Lemma missing_and_nil_columns_witness :
  items.ColToVal (items.AddColumn (items.NewRecordItems 1) "id" None) !! "id" = Some None
  ∧ items.GetBytesByColName scenario.Value scenario.Sprint
      (items.AddColumn (items.NewRecordItems 1) "id" None) "id" = items.Panics.
Proof.
  assert (items.ColToVal (items.AddColumn (items.NewRecordItems 1) "id" None) !! "id"
          = Some None) as Hnil by reflexivity.
  split; [exact Hnil|].
  exact (proj2 (proj2 (proj1 (proj2
           (missing_and_nil_columns scenario.Value scenario.Sprint
              (items.AddColumn (items.NewRecordItems 1) "id" None) "id")) Hnil))).
Defined.

Lemma filter_ext_elem_of {A} (P Q : A → Prop) `{!∀ x, Decision (P x), !∀ x, Decision (Q x)}
    (l : list A) :
  (∀ x, x ∈ l → (P x ↔ Q x)) → filter P l = filter Q l.
Proof.
  induction l as [|a l IH]; intros Hl; [done|].
  rewrite !filter_cons, IH by (intros x Hx; apply Hl; by right).
  apply decide_ext, Hl. by left.
Qed.

Lemma filter_none {A} (P : A → Prop) `{!∀ x, Decision (P x)} (l : list A) :
  (∀ x, x ∈ l → ¬ P x) → filter P l = [].
Proof.
  induction l as [|a l IH]; intros Hl; [done|].
  rewrite filter_cons_False by (apply Hl; by left).
  apply IH. intros x Hx. apply Hl. by right.
Qed.

(** The loop of [UpdateIfNotExists], over entries with distinct columns. *)
Lemma updateLoop_spec (entries : list (string * option items.QValue)) :
  NoDup entries.*1 →
  ∀ cols updatedCols,
    items.updateLoop entries cols updatedCols
    = (cols ∪ list_to_map entries,
       updatedCols ++ filter (λ c, cols !! c = None) entries.*1).
Proof.
  induction entries as [|[col val] rest IH]; intros Hnodup cols updatedCols; simpl.
  - by rewrite (right_id_L ∅ (∪)), app_nil_r.
  - apply NoDup_cons in Hnodup as [Hcol Hrest].
    destruct (cols !! col) as [old|] eqn:Hlook.
    + rewrite IH by done. f_equal.
      * apply map_eq. intros c. rewrite !lookup_union.
        destruct (decide (c = col)) as [->|Hc].
        -- rewrite Hlook, lookup_insert_eq. by destruct (list_to_map rest !! col).
        -- by rewrite lookup_insert_ne.
      * rewrite filter_cons_False; [done|]. by rewrite Hlook.
    + rewrite IH by done. f_equal.
      * rewrite <- insert_union_l. by rewrite insert_union_r.
      * rewrite filter_cons_True by done. rewrite <- app_assoc. simpl. do 2 f_equal.
        apply filter_ext_elem_of. intros c Hc.
        rewrite lookup_insert_ne; [done|]. by intros ->.
Qed.

Lemma updateLoop_size (entries : list (string * option items.QValue)) :
  ∀ cols updatedCols,
    (size (items.updateLoop entries cols updatedCols).1 + length updatedCols
     = size cols + length (items.updateLoop entries cols updatedCols).2)%nat.
Proof.
  induction entries as [|[col val] rest IH]; intros cols updatedCols; simpl; [done|].
  destruct (cols !! col) as [old|] eqn:Hlook; [apply IH|].
  specialize (IH (<[col:=val]> cols) (updatedCols ++ [col])).
  rewrite map_size_insert_None, length_app in IH by done. simpl in IH. lia.
Qed.

(** X3.  [UpdateIfNotExists] leaves the union of the two records, in
    which a column of the receiver keeps the value it had; the columns it
    returns are those of the input the receiver did not have, each once, in
    the order the range met them; the record grows by their number; a
    second call with the same input changes nothing and returns no
    column. *)
Theorem UpdateIfNotExists_spec (r input : items.RecordItems)
    (entries : list (string * option items.QValue)) :
  items.ranges input entries →
  items.ColToVal (items.UpdateIfNotExists r entries).1
  = items.ColToVal r ∪ items.ColToVal input
  ∧ (items.UpdateIfNotExists r entries).2
    = filter (λ c, items.ColToVal r !! c = None) entries.*1
  ∧ (∀ c, c ∈ (items.UpdateIfNotExists r entries).2 ↔
          is_Some (items.ColToVal input !! c) ∧ items.ColToVal r !! c = None)
  ∧ NoDup (items.UpdateIfNotExists r entries).2
  ∧ (∀ c val, items.ColToVal r !! c = Some val →
       items.ColToVal (items.UpdateIfNotExists r entries).1 !! c = Some val)
  ∧ items.Len (items.UpdateIfNotExists r entries).1
    = items.Len r + len (items.UpdateIfNotExists r entries).2
  ∧ items.UpdateIfNotExists (items.UpdateIfNotExists r entries).1 entries
    = ((items.UpdateIfNotExists r entries).1, []).
Proof.
  unfold items.ranges. intros Hperm.
  assert (NoDup entries.*1) as Hnodup.
  { rewrite Hperm. apply NoDup_fst_map_to_list. }
  assert (list_to_map entries = items.ColToVal input) as Hmap.
  { rewrite <- (list_to_map_to_list (items.ColToVal input)).
    apply list_to_map_proper; [done|]. by rewrite Hperm. }
  assert (∀ c, c ∈ entries.*1 ↔ is_Some (items.ColToVal input !! c)) as Hdom.
  { intros c. rewrite <- Hmap, <- elem_of_dom, dom_list_to_map_L.
    by rewrite elem_of_list_to_set. }
  pose proof (updateLoop_size entries (items.ColToVal r) []) as Hsize.
  unfold items.UpdateIfNotExists.
  rewrite updateLoop_spec in Hsize |- * by done. simpl in Hsize |- *.
  rewrite Hmap in Hsize |- *.
  split; [done|]. split; [done|].
  split. { intros c. rewrite list_elem_of_filter, Hdom. tauto. }
  split. { by apply NoDup_filter. }
  split. { intros c val Hc. by apply lookup_union_Some_l. }
  split.
  - unfold items.Len, len. simpl. lia.
  - rewrite updateLoop_spec by done. simpl. rewrite Hmap. f_equal.
    + f_equal. by rewrite <- (assoc_L (∪)), (idemp_L (∪)).
    + apply filter_none. intros c [val Hc]%Hdom.
      rewrite lookup_union. destruct (items.ColToVal r !! c); by rewrite ?Hc.
Qed.

(** X3 at concrete inputs, where its hypotheses hold. *)
Lemma UpdateIfNotExists_spec_witness :
  items.ranges (items.AddColumn (items.NewRecordItems 1) "b" None) [("b", None)]
  ∧ (items.UpdateIfNotExists (items.AddColumn (items.NewRecordItems 1) "a" None)
       [("b", None)]).2 = ["b"].
Proof.
  assert (items.ranges (items.AddColumn (items.NewRecordItems 1) "b" None) [("b", None)])
    as Hr.
  { unfold items.ranges, items.AddColumn, items.NewRecordItems. simpl.
    by rewrite insert_empty, map_to_list_singleton. }
  split; [exact Hr|].
  exact (proj1 (proj2 (UpdateIfNotExists_spec
                         (items.AddColumn (items.NewRecordItems 1) "a" None)
                         (items.AddColumn (items.NewRecordItems 1) "b" None)
                         [("b", None)] Hr))).
Defined.

(** X4.  [DeleteColName] removes the column: it then reads as missing,
    and the other columns read as before; the record shrinks by one exactly
    when it had the column, and deleting a column it does not have changes
    nothing; deleting a column just added to a record that did not have it
    gives the record back. *)
Theorem DeleteColName_spec (r : items.RecordItems) (colName : string) :
  items.GetColumnValue (items.DeleteColName r colName) colName = None
  ∧ items.GetValueByColName (items.DeleteColName r colName) colName
    = inr (errorString ("column name " +:+ colName +:+ " not found"))
  ∧ (∀ c, c ≠ colName →
       items.GetValueByColName (items.DeleteColName r colName) c
       = items.GetValueByColName r c)
  ∧ items.Len (items.DeleteColName r colName)
    = items.Len r - match items.ColToVal r !! colName with Some _ => 1 | None => 0 end
  ∧ (items.ColToVal r !! colName = None →
       items.DeleteColName r colName = r
       ∧ ∀ val, items.DeleteColName (items.AddColumn r colName val) colName = r).
Proof.
  unfold items.GetValueByColName, items.GetColumnValue, items.DeleteColName, items.Len.
  simpl. rewrite lookup_delete_eq. split; [done|]. split; [done|].
  split; [|split].
  - intros c Hc. by rewrite lookup_delete_ne.
  - destruct (items.ColToVal r !! colName) as [old|] eqn:Hcol.
    + rewrite map_size_delete_Some by done.
      assert (size (items.ColToVal r) ≠ 0%nat); [|lia].
      intros Hz%map_size_empty_inv. by rewrite Hz in Hcol.
    + rewrite map_size_delete_None by done. lia.
  - intros Hcol. destruct r as [cols]. simpl in *.
    split; [by rewrite delete_id|].
    intros val. unfold items.AddColumn. simpl.
    by rewrite delete_insert_eq, delete_id.
Qed.

(** ** The order of the range in [toMap] *)

Section toMap_order.
Context (Format : string → Z → string).
Context (FormatSinceZero : string → Z → string).
Context (DecimalString : Z * Z → string).
Context (ParseHstore : string → string + error).
Context (Unmarshal : string → gmap string items.any + error).
Context (opts : items.ToJSONOptions).

#[local] Abbreviation put :=
  (items.put Format FormatSinceZero DecimalString ParseHstore Unmarshal opts).
#[local] Abbreviation toMapLoop :=
  (items.toMapLoop Format FormatSinceZero DecimalString ParseHstore Unmarshal opts).

(** For a column that is not unnested, the loop body writes one value under
    the column, or fails, whatever the map holds. *)
Lemma put_keeps (col : string) (qv : option items.QValue) :
  items.keeps_column opts col qv →
  (∃ v, ∀ jsonStruct, put jsonStruct col qv = inl (<[col := v]> jsonStruct))
  ∨ (items.HStoreAsJSON opts = true ∧ ∃ err, ∀ jsonStruct, put jsonStruct col qv = inr err).
Proof.
  intros Hkeep.
  destruct qv as [[]|]; simpl; try (left; eexists; intros; reflexivity).
  - destruct (bool_decide (items.maxStringLen < items.strlen Val));
      left; eexists; intros; reflexivity.
  - destruct (bool_decide (items.maxStringLen < items.strlen Val));
      [left; eexists; intros; reflexivity|].
    rewrite bool_decide_false by by eapply Hkeep.
    left; eexists; intros; reflexivity.
  - destruct (items.HStoreAsJSON opts); simpl; [|left; eexists; intros; reflexivity].
    destruct (ParseHstore Val) as [jsonVal|err]; [|right; eauto].
    destruct (bool_decide (items.maxStringLen < items.strlen jsonVal));
      left; eexists; intros; reflexivity.
Qed.

Lemma toMapLoop_perm (entries1 entries2 : list (string * option items.QValue)) :
  entries1 ≡ₚ entries2 →
  NoDup entries1.*1 →
  Forall (λ e, items.keeps_column opts e.1 e.2) entries1 →
  ∀ jsonStruct m,
    toMapLoop entries1 jsonStruct = inl m ↔ toMapLoop entries2 jsonStruct = inl m.
Proof.
  induction 1 as [|[col qv] l1 l2 Hperm IH|[col1 qv1] [col2 qv2] l|l1 l2 l3 H12 IH12 H23 IH23];
    intros Hnodup Hkeep jsonStruct m.
  - done.
  - simpl. apply NoDup_cons in Hnodup as [_ Hnodup].
    apply Forall_cons in Hkeep as [_ Hkeep].
    destruct (put jsonStruct col qv); [by apply IH | done].
  - simpl in Hnodup. apply NoDup_cons in Hnodup as [Hne _].
    apply not_elem_of_cons in Hne as [Hne _].
    apply Forall_cons in Hkeep as [Hk2 [Hk1 _]%Forall_cons]. simpl in Hk1, Hk2.
    rewrite !toMapLoop_cons.
    destruct (put_keeps _ _ Hk1) as [[v1 H1] | [_ [err1 H1]]],
             (put_keeps _ _ Hk2) as [[v2 H2] | [_ [err2 H2]]];
      rewrite ?H1, ?H2; try done.
    + rewrite toMapLoop_cons, H1. rewrite toMapLoop_cons, H2.
      by rewrite insert_insert_ne.
    + by rewrite toMapLoop_cons, H2.
    + by rewrite toMapLoop_cons, H1.
  - rewrite IH12 by done. apply IH23.
    + by rewrite <- H12.
    + by rewrite <- H12.
Qed.

Lemma toMapLoop_dom (entries : list (string * option items.QValue)) :
  Forall (λ e, items.keeps_column opts e.1 e.2) entries →
  ∀ jsonStruct m,
    toMapLoop entries jsonStruct = inl m →
    dom m = dom jsonStruct ∪ list_to_set entries.*1.
Proof.
  induction 1 as [|[col qv] rest Hk _ IH]; intros jsonStruct m; simpl.
  - intros [= <-]. set_solver.
  - change (items.put _ _ _ _ _ _ _ _ _) with (put jsonStruct col qv).
    destruct (put_keeps _ _ Hk) as [[v Hv] | [_ [err Herr]]];
      rewrite ?Hv, ?Herr; [|done].
    intros Hm. rewrite (IH _ _ Hm), dom_insert_L. set_solver.
Qed.

Lemma toMapLoop_total (entries : list (string * option items.QValue)) :
  items.HStoreAsJSON opts = false →
  Forall (λ e, items.keeps_column opts e.1 e.2) entries →
  ∀ jsonStruct, ∃ m, toMapLoop entries jsonStruct = inl m.
Proof.
  intros Hhs. induction 1 as [|[col qv] rest Hk _ IH]; intros jsonStruct; simpl.
  - eauto.
  - change (items.put _ _ _ _ _ _ _ _ _) with (put jsonStruct col qv).
    destruct (put_keeps _ _ Hk) as [[v Hv] | [Htrue _]]; [|congruence].
    rewrite Hv. apply IH.
Qed.

Lemma nullable_jsonSafe (floatArr : list spec_float) :
  forallb items.jsonSafe (items.nullableFloat64 <$> floatArr) = true
  ∧ forallb items.jsonSafe (items.nullableFloat32 <$> floatArr) = true.
Proof.
  induction floatArr as [|f rest [IH1 IH2]]; [done|].
  rewrite !fmap_cons. cbn [forallb]. rewrite IH1, IH2, !andb_true_r.
  unfold items.nullableFloat64, items.nullableFloat32.
  by destruct (items.IsNaN f || items.IsInf f) eqn:Hf; simpl; rewrite ?Hf.
Qed.

(** What the loop body writes for a value of a kind it converts is safe. *)
Lemma put_jsonSafe (jsonStruct : gmap string items.any) (col : string)
    (qv : option items.QValue) jsonStruct' :
  items.keeps_column opts col qv →
  (∀ val, qv = Some val → items.converted val = true) →
  put jsonStruct col qv = inl jsonStruct' →
  ∃ v, jsonStruct' = <[col := v]> jsonStruct ∧ items.jsonSafe v = true.
Proof.
  intros Hkeep Hconv.
  assert (∀ v, items.jsonSafe v = true →
               inl (<[col := v]> jsonStruct) = inl (B := error) jsonStruct' →
               ∃ v, jsonStruct' = <[col := v]> jsonStruct ∧ items.jsonSafe v = true) as Hins.
  { intros v Hv [= <-]. eauto. }
  destruct qv as [[]|]; simpl; try (by apply Hins).
  - destruct (bool_decide (items.maxStringLen < items.strlen Val)); by apply Hins.
  - destruct (bool_decide (items.maxStringLen < items.strlen Val)); [by apply Hins|].
    rewrite bool_decide_false by by eapply Hkeep. by apply Hins.
  - destruct (negb (items.HStoreAsJSON opts)); [by apply Hins|].
    destruct (ParseHstore Val); [|done].
    destruct (bool_decide (items.maxStringLen < items.strlen s)); by apply Hins.
  - apply Hins. simpl. clear. induction Val as [|d rest IH]; [done|].
    rewrite fmap_cons. simpl. exact IH.
  - apply Hins. unfold items.nullableFloat64.
    by destruct (items.IsNaN Val || items.IsInf Val) eqn:Hf; simpl; rewrite ?Hf.
  - apply Hins. unfold items.nullableFloat32.
    by destruct (items.IsNaN Val || items.IsInf Val) eqn:Hf; simpl; rewrite ?Hf.
  - apply Hins. apply nullable_jsonSafe.
  - apply Hins. apply nullable_jsonSafe.
  - by specialize (Hconv _ eq_refl).
Qed.

Lemma toMapLoop_jsonSafe (entries : list (string * option items.QValue)) :
  Forall (λ e, items.keeps_column opts e.1 e.2) entries →
  Forall (λ e, ∀ val, e.2 = Some val → items.converted val = true) entries →
  ∀ jsonStruct m,
    map_Forall (λ _ v, items.jsonSafe v = true) jsonStruct →
    toMapLoop entries jsonStruct = inl m →
    map_Forall (λ _ v, items.jsonSafe v = true) m.
Proof.
  induction 1 as [|[col qv] rest Hk _ IH]; intros Hconv jsonStruct m Hsafe; simpl.
  - by intros [= <-].
  - apply Forall_cons in Hconv as [Hc Hconv]. simpl in Hc, Hk.
    change (items.put _ _ _ _ _ _ _ _ _) with (put jsonStruct col qv).
    destruct (put jsonStruct col qv) as [jsonStruct'|] eqn:Hput; [|done].
    apply put_jsonSafe in Hput as (v & -> & Hv); [|done..].
    apply IH; [done|]. by apply map_Forall_insert_2.
Qed.

End toMap_order.

Lemma ranges_facts (opts : items.ToJSONOptions) (r : items.RecordItems)
    (entries : list (string * option items.QValue)) :
  items.ranges r entries →
  (∀ c s, items.ColToVal r !! c = Some (Some (items.QValueJSON s)) →
          c ∉ items.UnnestColumns opts) →
  NoDup entries.*1
  ∧ Forall (λ e, items.keeps_column opts e.1 e.2) entries
  ∧ list_to_set entries.*1 = dom (items.ColToVal r)
  ∧ ∀ c qv, (c, qv) ∈ entries ↔ items.ColToVal r !! c = Some qv.
Proof.
  unfold items.ranges. intros Hperm Hunnest.
  assert (∀ c qv, (c, qv) ∈ entries ↔ items.ColToVal r !! c = Some qv) as Hin.
  { intros c qv. by rewrite Hperm, elem_of_map_to_list. }
  split; [rewrite Hperm; apply NoDup_fst_map_to_list|].
  split; [|split; [|done]].
  - apply Forall_forall. intros [c q] Hcq s Hq. simpl in Hq. subst q.
    eapply Hunnest. by apply Hin.
  - apply set_eq. intros c. rewrite elem_of_list_to_set, elem_of_dom, list_elem_of_fmap.
    split.
    + intros ([c' q] & -> & Hcq). exists q. by apply Hin.
    + intros [q Hq]. exists (c, q). split; [done|]. by apply Hin.
Qed.

(** X5.  Go ranges over a map in an unspecified order.  When no JSON
    column of the record is unnested, the order does not matter to
    [toMap]: for two orders of the range it fails for both or returns the
    same map for both.  The map it returns has exactly the columns of the
    record as keys, and with [HStoreAsJSON] off it does not fail. *)
Theorem toMap_order_independent
    (Format FormatSinceZero : string → Z → string) (DecimalString : Z * Z → string)
    (ParseHstore : string → string + error)
    (Unmarshal : string → gmap string items.any + error)
    (opts : items.ToJSONOptions) (r : items.RecordItems)
    (entries1 entries2 : list (string * option items.QValue)) :
  items.ranges r entries1 → items.ranges r entries2 →
  (∀ c s, items.ColToVal r !! c = Some (Some (items.QValueJSON s)) →
          c ∉ items.UnnestColumns opts) →
  (∀ m, items.toMap Format FormatSinceZero DecimalString ParseHstore Unmarshal entries1 opts
        = inl m
        ↔ items.toMap Format FormatSinceZero DecimalString ParseHstore Unmarshal entries2 opts
          = inl m)
  ∧ (∀ m, items.toMap Format FormatSinceZero DecimalString ParseHstore Unmarshal entries1 opts
          = inl m →
          dom m = dom (items.ColToVal r))
  ∧ (items.HStoreAsJSON opts = false →
     ∃ m, items.toMap Format FormatSinceZero DecimalString ParseHstore Unmarshal entries1 opts
          = inl m).
Proof.
  intros Hr1 Hr2 Hunnest.
  destruct (ranges_facts opts r entries1 Hr1 Hunnest) as (Hnodup & Hkeep & Hdom & _).
  unfold items.toMap. split; [|split].
  - intros m. apply toMapLoop_perm; [|done..].
    unfold items.ranges in *. by rewrite Hr1, Hr2.
  - intros m Hm. apply toMapLoop_dom in Hm; [|done]. rewrite Hm, Hdom. set_solver.
  - intros Hhs. by apply toMapLoop_total.
Qed.

(** X5 at concrete inputs, where its hypotheses hold. *)
Lemma toMap_order_independent_witness :
  items.ranges scenario.row scenario.idFirst
  ∧ items.ranges scenario.row scenario.priceFirst
  ∧ ∀ m,
      items.toMap scenario.Format scenario.Format scenario.DecimalString
        scenario.ParseHstore scenario.Unmarshal scenario.idFirst scenario.options = inl m
      ↔ items.toMap scenario.Format scenario.Format scenario.DecimalString
          scenario.ParseHstore scenario.Unmarshal scenario.priceFirst scenario.options
        = inl m.
Proof.
  assert (items.ranges scenario.row scenario.idFirst) as Hid.
  { unfold items.ranges, scenario.row, scenario.idFirst, items.AddColumn,
      items.NewRecordItems. simpl.
    rewrite map_to_list_insert by reflexivity.
    by rewrite insert_empty, map_to_list_singleton. }
  assert (items.ranges scenario.row scenario.priceFirst) as Hprice.
  { unfold items.ranges in *. rewrite <- Hid. apply perm_swap. }
  split; [exact Hid|]. split; [exact Hprice|].
  exact (proj1 (toMap_order_independent scenario.Format scenario.Format
                  scenario.DecimalString scenario.ParseHstore scenario.Unmarshal
                  scenario.options scenario.row scenario.idFirst scenario.priceFirst
                  Hid Hprice (λ c s _, not_elem_of_empty (C := gset string) c))).
Defined.

(** X6.  [encoding/json] refuses NaN and the infinities.  When every
    column of the record holds nil or a value of a kind [toMap] converts
    itself, and no JSON column is unnested, no value of the map [toMap]
    returns holds a float that is NaN or infinite, float arrays
    included. *)
Theorem toMap_jsonSafe
    (Format FormatSinceZero : string → Z → string) (DecimalString : Z * Z → string)
    (ParseHstore : string → string + error)
    (Unmarshal : string → gmap string items.any + error)
    (opts : items.ToJSONOptions) (r : items.RecordItems)
    (entries : list (string * option items.QValue)) (m : gmap string items.any) :
  items.ranges r entries →
  (∀ c s, items.ColToVal r !! c = Some (Some (items.QValueJSON s)) →
          c ∉ items.UnnestColumns opts) →
  (∀ c qv, items.ColToVal r !! c = Some (Some qv) → items.converted qv = true) →
  items.toMap Format FormatSinceZero DecimalString ParseHstore Unmarshal entries opts = inl m →
  ∀ c v, m !! c = Some v → items.jsonSafe v = true.
Proof.
  intros Hr Hunnest Hconv Hm.
  destruct (ranges_facts opts r entries Hr Hunnest) as (_ & Hkeep & _ & Hin).
  unfold items.toMap in Hm. eapply toMapLoop_jsonSafe in Hm; [exact Hm|done| |done].
  apply Forall_forall. intros [c q] Hcq val Hq. simpl in Hq. subst q.
  eapply Hconv. by apply Hin.
Qed.

(** X6 at concrete inputs, where its hypotheses hold. *)
Lemma toMap_jsonSafe_witness :
  items.ranges scenario.row scenario.idFirst
  ∧ items.toMap scenario.Format scenario.Format scenario.DecimalString
      scenario.ParseHstore scenario.Unmarshal scenario.idFirst scenario.options
    = inl (<["price" := items.nil]> (<["id" := items.aString "7"]> ∅))
  ∧ ∀ c v,
      (<["price" := items.nil]> (<["id" := items.aString "7"]> ∅) : gmap string items.any)
        !! c = Some v →
      items.jsonSafe v = true.
Proof.
  assert (items.ranges scenario.row scenario.idFirst) as Hid.
  { unfold items.ranges, scenario.row, scenario.idFirst, items.AddColumn,
      items.NewRecordItems. simpl.
    rewrite map_to_list_insert by reflexivity.
    by rewrite insert_empty, map_to_list_singleton. }
  assert (items.toMap scenario.Format scenario.Format scenario.DecimalString
            scenario.ParseHstore scenario.Unmarshal scenario.idFirst scenario.options
          = inl (<["price" := items.nil]> (<["id" := items.aString "7"]> ∅))) as Hm
    by (vm_compute; reflexivity).
  assert (∀ c qv, items.ColToVal scenario.row !! c = Some (Some qv) →
                  items.converted qv = true) as Hconv.
  { intros c qv. unfold scenario.row, items.AddColumn, items.NewRecordItems. simpl.
    intros [[_ Hv]|[_ [[_ Hv]|[_ Hv]]%lookup_insert_Some]]%lookup_insert_Some.
    - by injection Hv as <-.
    - by injection Hv as <-.
    - by rewrite lookup_empty in Hv. }
  split; [exact Hid|]. split; [exact Hm|].
  exact (toMap_jsonSafe scenario.Format scenario.Format scenario.DecimalString
           scenario.ParseHstore scenario.Unmarshal scenario.options scenario.row
           scenario.idFirst _ Hid (λ c s _, not_elem_of_empty (C := gset string) c)
           Hconv Hm).
Defined.

(** ** Unsigned settings *)

Lemma digit_bounds (c : Ascii.ascii) (d : Z) : digit c = Some d → 0 ≤ d ≤ 9.
Proof. unfold digit. case_bool_decide; [|done]. intros [= <-]. lia. Qed.

Lemma decimal_ge (s : string) : ∀ n m, 0 ≤ n → decimal s n = Some m → n ≤ m.
Proof.
  induction s as [|c rest IH]; intros n m Hn; simpl; [intros [= <-]; lia|].
  destruct (digit c) as [d|] eqn:Hd; [|done].
  apply digit_bounds in Hd. intros Hm%IH; lia.
Qed.

(** The loop of [ParseUint] computes the decimal value of the string, and
    its two range tests refuse exactly the values that do not fit 64 bits. *)
Lemma parseUintLoop_decimal (s : string) :
  ∀ n m, 0 ≤ n < 2 ^ 64 →
    parseUintLoop s n = inl m ↔ decimal s n = Some m ∧ m < 2 ^ 64.
Proof.
  assert (2 ^ 64 ÷ 10 + 1 = 1844674407370955162) as Hcut by reflexivity.
  assert (2 ^ 64 = 18446744073709551616) as Hmax by reflexivity.
  induction s as [|c rest IH]; intros n m Hn; simpl.
  - split; [intros [= <-]; split; [done | lia] | by intros [[= <-] _]].
  - destruct (digit c) as [d|] eqn:Hd; [|split; [done | by intros [? _]]].
    apply digit_bounds in Hd. rewrite Hcut.
    case_bool_decide as H1.
    { split; [done|]. intros [Hm%decimal_ge ?]; lia. }
    case_bool_decide as H2.
    { split; [done|]. intros [Hm%decimal_ge ?]; lia. }
    apply IH. lia.
Qed.

Lemma ParseUint_decimal (s : string) (n : Z) :
  ParseUint s = inl n ↔ s ≠ "" ∧ decimal s 0 = Some n ∧ n < 2 ^ 64.
Proof.
  unfold ParseUint. case_bool_decide as Hs.
  - split; [done | by intros [? _]].
  - pose proof (parseUintLoop_decimal s 0 n ltac:(lia)) as Hloop.
    destruct (parseUintLoop s 0) as [m|err].
    + split.
      * intros [= ->]. split; [done|]. by apply Hloop.
      * intros (_ & Hd). f_equal. apply Hloop in Hd. by injection Hd.
    + split; [done|]. intros (_ & Hd). by apply Hloop in Hd.
Qed.

Lemma dynamicConfUnsigned_decimal (bits : Z) (ctx : Context) (key : string) (r : Z) :
  dynamicConfUnsigned bits ctx key = inl r ↔
  ∃ value n, dynLookup ctx key = inl value
           ∧ value ≠ "" ∧ decimal value 0 = Some n ∧ n < 2 ^ 64
           ∧ r = n mod 2 ^ bits.
Proof.
  unfold dynamicConfUnsigned, toUnsigned.
  destruct (dynLookup ctx key) as [value|err]; [|split; [done | by intros (? & ? & ? & _)]].
  destruct (ParseUint value) as [n|err] eqn:Hp.
  - apply ParseUint_decimal in Hp as (Hne & Hd & Hn). split.
    + intros [= <-]. by exists value, n.
    + intros (v & n' & [= <-] & _ & Hd' & _ & ->). congruence.
  - split; [done|]. intros (v & n & [= <-] & Hne & Hd & Hn & _).
    assert (ParseUint value = inl n) as Hp' by by apply ParseUint_decimal.
    congruence.
Qed.

(** X7.  The two alert thresholds are read as [uint32] from a 64-bit
    parse.  Each succeeds exactly when the setting resolves to a non-empty
    string of decimal digits (no sign, no space) whose value is below 2^64,
    and then returns that value modulo 2^32: a setting of 2^32 or more is
    not refused, it wraps, and a multiple of 2^32 reads as 0, which disables
    the alert. *)
Theorem alert_thresholds_wrap (ctx : Context) (r : Z) :
  (PeerDBSlotLagMBAlertThreshold ctx = inl r ↔
   ∃ value n, dynLookup ctx "PEERDB_SLOT_LAG_MB_ALERT_THRESHOLD" = inl value
            ∧ value ≠ "" ∧ decimal value 0 = Some n ∧ n < 2 ^ 64
            ∧ r = n mod 2 ^ 32)
  ∧ (PeerDBOpenConnectionsAlertThreshold ctx = inl r ↔
     ∃ value n, dynLookup ctx "PEERDB_PGPEER_OPEN_CONNECTIONS_ALERT_THRESHOLD" = inl value
              ∧ value ≠ "" ∧ decimal value 0 = Some n ∧ n < 2 ^ 64
              ∧ r = n mod 2 ^ 32)
  ∧ (∀ value n, decimal value 0 = Some n → 0 ≤ n ∧ (n mod 2 ^ 32 = n ↔ n < 2 ^ 32)).
Proof.
  split; [apply dynamicConfUnsigned_decimal|]. split; [apply dynamicConfUnsigned_decimal|].
  intros value n Hn%decimal_ge; [|lia]. split; [done|]. split.
  - intros <-. apply Z.mod_pos_bound. lia.
  - intros Hlt. apply Z.mod_small. lia.
Qed.

Lemma dynamicConfUnsigned_range (ctx : Context) (key : string) (why : Z) :
  dynamicConfUnsigned 32 ctx key = inl why → 0 ≤ why < 2 ^ 32.
Proof.
  intros (value & n & _ & _ & _ & _ & ->)%dynamicConfUnsigned_decimal.
  apply Z.mod_pos_bound. lia.
Qed.

(** X8.  [PeerDBAlertingGapMinutesAsDuration] passes an error of the
    lookup on unchanged.  Otherwise it multiplies the minutes by
    [time.Minute] in [int64]: the duration is the setting in minutes exactly
    when the setting is at most 153722867 (about 292 years); above, the
    product overflows and the duration is another value.  A setting of 0
    gives the duration 0. *)
Theorem alerting_gap_duration (ctx : Context) :
  (∀ err, dynamicConfUnsigned 32 ctx "PEERDB_ALERTING_GAP_MINUTES" = inr err →
          PeerDBAlertingGapMinutesAsDuration ctx = inr err)
  ∧ (∀ why, dynamicConfUnsigned 32 ctx "PEERDB_ALERTING_GAP_MINUTES" = inl why →
       ∃ d, PeerDBAlertingGapMinutesAsDuration ctx = inl d
          ∧ - 2 ^ 63 ≤ d < 2 ^ 63
          ∧ (d = why * Minute ↔ why ≤ 153722867)
          ∧ (why = 0 → d = 0)).
Proof.
  unfold PeerDBAlertingGapMinutesAsDuration. split; [by intros err ->|].
  intros why Hwhy. rewrite Hwhy. apply dynamicConfUnsigned_range in Hwhy.
  eexists. split; [done|].
  rewrite (int64_small why) by lia.
  assert (2 ^ 63 = 9223372036854775808) as H63 by reflexivity.
  assert (2 ^ 64 = 18446744073709551616) as H64 by reflexivity.
  assert (Minute = 60000000000) as HM by reflexivity.
  unfold int64. rewrite H63, H64, HM.
  pose proof (Z.mod_pos_bound (why * 60000000000 + 9223372036854775808)
                18446744073709551616 ltac:(lia)) as Hb.
  split; [lia|]. split; [split|].
  - intros Heq.
    destruct (Z.le_gt_cases why 153722867) as [|Hgt]; [done|].
    lia.
  - intros Hle. rewrite Z.mod_small; lia.
  - intros ->. reflexivity.
Qed.

(** X8 at concrete inputs, where its hypotheses hold. *)
Lemma alerting_gap_duration_witness :
  dynamicConfUnsigned 32
    (scenario.settings (Row {| pgtype.String := "15"; pgtype.Valid := true |}
                            {| pgtype.String := "0"; pgtype.Valid := true |}) None)
    "PEERDB_ALERTING_GAP_MINUTES" = inl 15
  ∧ ∃ d, PeerDBAlertingGapMinutesAsDuration
           (scenario.settings (Row {| pgtype.String := "15"; pgtype.Valid := true |}
                                   {| pgtype.String := "0"; pgtype.Valid := true |}) None)
         = inl d
       ∧ - 2 ^ 63 ≤ d < 2 ^ 63
       ∧ (d = 15 * Minute ↔ 15 ≤ 153722867)
       ∧ (15 = 0 → d = 0).
Proof.
  assert (dynamicConfUnsigned 32
            (scenario.settings (Row {| pgtype.String := "15"; pgtype.Valid := true |}
                                    {| pgtype.String := "0"; pgtype.Valid := true |}) None)
            "PEERDB_ALERTING_GAP_MINUTES" = inl 15) as Hwhy by reflexivity.
  split; [exact Hwhy|].
  exact (proj2 (alerting_gap_duration _) 15 Hwhy).
Defined.

(** ** Dropping a stage *)

Section dropStage_facts.
Import connclickhouse.
Context (s3 : S3).

Lemma deleted_app (calls1 calls2 : list Call) :
  deleted (calls1 ++ calls2) = deleted calls1 ++ deleted calls2.
Proof. apply omap_app. Qed.

Lemma listings_app (calls1 calls2 : list Call) :
  listings (calls1 ++ calls2) = listings calls1 ++ listings calls2.
Proof. apply omap_app. Qed.

(** The inner loop asks for the deletion of the keys of the page in order,
    and stops at the first deletion that fails. *)
Lemma deleteObjects_spec (bucket : string) (contents : list string) :
  ∀ calls r calls',
    deleteObjects s3 bucket contents calls = (r, calls') →
    ∃ keys, calls' = calls ++ (DeleteObject bucket <$> keys)
          ∧ keys `prefix_of` contents
          ∧ (r = None → keys = contents)
          ∧ (∀ err, r = Some err →
               ∃ e key, err = Errorf "failed to delete objects from bucket: " e
                      ∧ last keys = Some key).
Proof.
  induction contents as [|key rest IH]; intros calls r calls'; simpl.
  - intros [= <- <-]. exists []. rewrite app_nil_r. by repeat split.
  - destruct (deleteError s3 calls key) as [e|] eqn:He.
    + intros [= <- <-]. exists [key]. split; [done|].
      split; [by exists rest|]. split; [done|].
      intros err [= <-]. by exists e, key.
    + intros (keys & -> & Hpre & Hok & Herr)%IH. exists (key :: keys).
      rewrite <- app_assoc. split; [done|].
      split; [by apply prefix_cons|]. split; [by intros ->%Hok|].
      intros err (e & k & -> & Hlast)%Herr. exists e, k. split; [done|].
      destruct keys; [done|]. done.
Qed.

Lemma deleted_DeleteObject (bucket : string) (keys : list string) :
  deleted (DeleteObject bucket <$> keys) = keys
  ∧ listings (DeleteObject bucket <$> keys) = [].
Proof.
  induction keys as [|key rest [IH1 IH2]]; [done|].
  split; [simpl; f_equal; exact IH1 | exact IH2].
Qed.

Lemma within_DeleteObject (bucket prefix : string) (keys : list string) :
  Forall (within bucket prefix) (DeleteObject bucket <$> keys).
Proof. apply Forall_fmap, Forall_forall. by intros key _. Qed.

(** The outer loop, page by page. *)
Lemma dropPages_spec (bucket prefix : string) (pages : list (list string + error)) :
  ∀ calls r calls',
    dropPages s3 bucket prefix pages calls = (r, calls') →
    ∃ new, calls' = calls ++ new
         ∧ Forall (within bucket prefix) new
         ∧ deleted new `prefix_of` served pages
         ∧ (r = None →
              deleted new = served pages
              ∧ listings new = replicate (length pages) (bucket, prefix)
              ∧ ∃ contents, pages = inl <$> contents)
         ∧ (∀ err, r = Some err →
              ∃ c, last new = Some c
                 ∧ ((∃ e, err = Errorf "failed to list objects from bucket: " e
                        ∧ c = ListObjectsV2 bucket prefix)
                    ∨ (∃ e key, err = Errorf "failed to delete objects from bucket: " e
                              ∧ c = DeleteObject bucket key))).
Proof.
  induction pages as [|[contents|e] rest IH]; intros calls r calls'; simpl.
  - intros [= <- <-]. exists []. rewrite app_nil_r.
    split; [done|]. split; [constructor|]. split; [done|].
    split; [|done]. intros _. split; [done|]. split; [done|]. by exists [].
  - destruct (deleteObjects s3 bucket contents _) as [[err|] calls1] eqn:Hdel;
      apply deleteObjects_spec in Hdel as (keys & -> & Hpre & Hok & Herr).
    + intros [= <- <-]. exists (ListObjectsV2 bucket prefix :: (DeleteObject bucket <$> keys)).
      rewrite <- app_assoc. split; [done|].
      split; [constructor; [done | apply within_DeleteObject]|].
      split.
      { unfold deleted at 1. simpl. fold (deleted (DeleteObject bucket <$> keys)).
        rewrite (proj1 (deleted_DeleteObject _ _)). by apply prefix_app_r. }
      split; [done|]. intros err' [= <-].
      destruct (Herr _ eq_refl) as (e & key & -> & Hlast).
      exists (DeleteObject bucket key). split.
      * destruct keys as [|k keys]; [done|]. rewrite fmap_cons.
        change (last (?a :: ?b :: ?l)) with (last (b :: l)).
        rewrite <- fmap_cons, fmap_last, Hlast. done.
      * right. by exists e, key.
    + rewrite (Hok eq_refl).
      intros (new & -> & Hwithin & Hdel & Hnone & Hsome)%IH.
      exists (ListObjectsV2 bucket prefix :: (DeleteObject bucket <$> contents) ++ new).
      rewrite <- !app_assoc. split; [done|].
      split.
      { constructor; [done|]. apply Forall_app. split; [apply within_DeleteObject | done]. }
      assert (deleted (ListObjectsV2 bucket prefix :: (DeleteObject bucket <$> contents) ++ new)
              = contents ++ deleted new) as Hd.
      { change (deleted (?c :: ?l)) with (deleted l).
        by rewrite deleted_app, (proj1 (deleted_DeleteObject _ _)). }
      assert (listings (ListObjectsV2 bucket prefix :: (DeleteObject bucket <$> contents) ++ new)
              = (bucket, prefix) :: listings new) as Hl.
      { change (listings (?c :: ?l)) with ((bucket, prefix) :: listings l).
        by rewrite listings_app, (proj2 (deleted_DeleteObject _ _)). }
      rewrite Hd, Hl.
      split; [by apply prefix_app|]. split.
      * intros (-> & -> & contents' & ->)%Hnone. split; [done|]. split; [done|].
        by exists (contents :: contents').
      * intros err (c & Hlast & Hc)%Hsome. exists c. split; [|done].
        rewrite app_comm_cons, last_app, Hlast. done.
  - intros [= <- <-]. exists [ListObjectsV2 bucket prefix]. split; [done|].
    split; [by repeat constructor|]. split; [done|]. split; [done|].
    intros err [= <-]. eexists. split; [done|]. left. by exists e.
Qed.

End dropStage_facts.

Lemma served_all (contents : list (list string)) :
  connclickhouse.served (inl <$> contents) = concat contents.
Proof. induction contents as [|c rest IH]; [done|]. simpl. f_equal. exact IH. Qed.

(** X9.  When [dropStage] returns nil: for a staging path that does not
    start with [s3://] it has made no call; for an S3 path every page of
    the listing was served, the listing was asked for once per page, for the
    bucket of the path and the prefix [<prefix>/<job>], and the deletion of
    every key listed was asked for exactly once, in the order of the
    listing, in that bucket, and of nothing else. *)
Theorem dropStage_success (s3 : connclickhouse.S3) (stagingPath job : string)
    (calls : list connclickhouse.Call) :
  connclickhouse.dropStage s3 stagingPath job = (None, calls) →
  (String.prefix "s3://" stagingPath = false → calls = [])
  ∧ (String.prefix "s3://" stagingPath = true →
     ∃ s3o contents,
       connclickhouse.NewS3BucketAndPrefix s3 stagingPath = inl s3o
       ∧ connclickhouse.firstPage s3 :: connclickhouse.nextPages s3 = inl <$> contents
       ∧ connclickhouse.deleted calls = concat contents
       ∧ connclickhouse.listings calls
         = replicate (length contents)
             (connclickhouse.Bucket s3o, connclickhouse.Prefix s3o +:+ "/" +:+ job)
       ∧ Forall (connclickhouse.within (connclickhouse.Bucket s3o)
                   (connclickhouse.Prefix s3o +:+ "/" +:+ job)) calls).
Proof.
  unfold connclickhouse.dropStage. destruct (String.prefix "s3://" stagingPath).
  2:{ intros [= <-]. by split. }
  intros Hrun. split; [done|]. intros _.
  destruct (connclickhouse.NewS3BucketAndPrefix s3 stagingPath) as [s3o|e]; [|done].
  destruct (connclickhouse.clientError s3); [done|].
  apply dropPages_spec in Hrun as (new & -> & Hwithin & _ & Hnone & _).
  destruct (Hnone eq_refl) as (Hdel & Hlist & contents & Hpages).
  exists s3o, contents. simpl. split; [done|]. split; [done|].
  rewrite Hdel, Hlist, Hpages, served_all, length_fmap. done.
Qed.

(** X9 at concrete inputs, where its hypotheses hold. *)
Lemma dropStage_success_witness :
  connclickhouse.dropStage (scenario.bucket None) "s3://bucket/stage" "mirror"
  = (None,
     [connclickhouse.ListObjectsV2 "bucket" "stage/mirror";
      connclickhouse.DeleteObject "bucket" "stage/mirror/a";
      connclickhouse.DeleteObject "bucket" "stage/mirror/b";
      connclickhouse.ListObjectsV2 "bucket" "stage/mirror";
      connclickhouse.DeleteObject "bucket" "stage/mirror/c"])
  ∧ ∃ s3o contents,
      connclickhouse.NewS3BucketAndPrefix (scenario.bucket None) "s3://bucket/stage"
      = inl s3o
      ∧ connclickhouse.firstPage (scenario.bucket None)
        :: connclickhouse.nextPages (scenario.bucket None) = inl <$> contents
      ∧ connclickhouse.deleted
          [connclickhouse.ListObjectsV2 "bucket" "stage/mirror";
           connclickhouse.DeleteObject "bucket" "stage/mirror/a";
           connclickhouse.DeleteObject "bucket" "stage/mirror/b";
           connclickhouse.ListObjectsV2 "bucket" "stage/mirror";
           connclickhouse.DeleteObject "bucket" "stage/mirror/c"]
        = concat contents
      ∧ connclickhouse.listings
          [connclickhouse.ListObjectsV2 "bucket" "stage/mirror";
           connclickhouse.DeleteObject "bucket" "stage/mirror/a";
           connclickhouse.DeleteObject "bucket" "stage/mirror/b";
           connclickhouse.ListObjectsV2 "bucket" "stage/mirror";
           connclickhouse.DeleteObject "bucket" "stage/mirror/c"]
        = replicate (length contents)
            (connclickhouse.Bucket s3o, connclickhouse.Prefix s3o +:+ "/" +:+ "mirror")
      ∧ Forall (connclickhouse.within (connclickhouse.Bucket s3o)
                  (connclickhouse.Prefix s3o +:+ "/" +:+ "mirror"))
          [connclickhouse.ListObjectsV2 "bucket" "stage/mirror";
           connclickhouse.DeleteObject "bucket" "stage/mirror/a";
           connclickhouse.DeleteObject "bucket" "stage/mirror/b";
           connclickhouse.ListObjectsV2 "bucket" "stage/mirror";
           connclickhouse.DeleteObject "bucket" "stage/mirror/c"].
Proof.
  assert (connclickhouse.dropStage (scenario.bucket None) "s3://bucket/stage" "mirror"
          = (None,
             [connclickhouse.ListObjectsV2 "bucket" "stage/mirror";
              connclickhouse.DeleteObject "bucket" "stage/mirror/a";
              connclickhouse.DeleteObject "bucket" "stage/mirror/b";
              connclickhouse.ListObjectsV2 "bucket" "stage/mirror";
              connclickhouse.DeleteObject "bucket" "stage/mirror/c"])) as Hrun
    by (vm_compute; reflexivity).
  split; [exact Hrun|].
  exact (proj2 (dropStage_success _ _ _ _ Hrun) eq_refl).
Defined.



(** ** Triples *)

Section hoare_rules.
Context {A B : Type}.
Implicit Types (P : Mach → Prop) (Q : halt → Mach → Prop).

Lemma hoare_ret P (a : A) (R : A → Mach → Prop) Q :
  (∀ m, P m → R a m) → hoare P (mret a) R Q.
Proof. intros HR m r m1 HP [= <- <-]. by apply HR. Qed.

Lemma hoare_stop P (h : halt) (R : A → Mach → Prop) Q :
  (∀ m, P m → Q h m) → hoare P (stop h) R Q.
Proof. intros HQ m r m1 HP [= <- <-]. by apply HQ. Qed.

Lemma hoare_bind P (c : W A) (f : A → W B) (R : A → Mach → Prop)
    (R' : B → Mach → Prop) Q :
  hoare P c R Q → (∀ a, hoare (R a) (f a) R' Q) → hoare P (c ≫= f) R' Q.
Proof.
  intros Hc Hf m r m' HP [(a & m1 & H1 & H2) | (h & H1 & ->)]%bind_inv.
  - specialize (Hc _ _ _ HP H1). simpl in Hc. by eapply Hf.
  - by specialize (Hc _ _ _ HP H1).
Qed.

Lemma hoare_weaken P P' (c : W A) (R R' : A → Mach → Prop) Q Q' :
  hoare P' c R' Q' →
  (∀ m, P m → P' m) → (∀ a m, R' a m → R a m) → (∀ h m, Q' h m → Q h m) →
  hoare P c R Q.
Proof.
  intros Hc HP HR HQ m r m1 Hm Hrun. specialize (Hc _ _ _ (HP _ Hm) Hrun).
  destruct r; auto.
Qed.

Lemma hoare_assume P (φ : Prop) (c : W A) (R : A → Mach → Prop) Q :
  (∀ m, P m → φ) → (φ → hoare P c R Q) → hoare P c R Q.
Proof. intros Hφ Hc m r m1 HP. by apply Hc; [eapply Hφ|]. Qed.

Lemma hoare_wrapErr P (pre : string) (c : W A) (R : A → Mach → Prop) Q :
  hoare P c R (λ h m, Q (wrapHalt pre h) m) → hoare P (wrapErr pre c) R Q.
Proof.
  intros Hc m r m1 HP. unfold wrapErr.
  destruct (c m) as [[a|h] m2] eqn:Hrun; specialize (Hc _ _ _ HP Hrun); simpl in Hc.
  - by intros [= <- <-].
  - destruct h; by intros [= <- <-].
Qed.

Lemma hoare_if P (b : bool) (c1 c2 : W A) (R : A → Mach → Prop) Q :
  hoare P c1 R Q → hoare P c2 R Q → hoare P (if b then c1 else c2) R Q.
Proof. by destruct b. Qed.

(** Reading the store: the value read is that of a store that satisfies the
    precondition. *)
Lemma hoare_get_config P (f : QRepConfig → W A) (R : A → Mach → Prop) Q :
  (∀ m0, P m0 → hoare (λ m, P m ∧ m = m0) (f (config m0)) R Q) →
  hoare P (get_config ≫= f) R Q.
Proof. intros Hf m r m1 HP Hrun. by eapply (Hf m HP m). Qed.

Lemma hoare_get_state P (f : QRepFlowState → W A) (R : A → Mach → Prop) Q :
  (∀ m0, P m0 → hoare (λ m, P m ∧ m = m0) (f (state m0)) R Q) →
  hoare P (get_state ≫= f) R Q.
Proof. intros Hf m r m1 HP Hrun. by eapply (Hf m HP m). Qed.

Lemma hoare_get_activeSignal P (f : CDCFlowSignal → W A) (R : A → Mach → Prop) Q :
  (∀ m0, P m0 → hoare (λ m, P m ∧ m = m0) (f (activeSignal m0)) R Q) →
  hoare P (get_activeSignal ≫= f) R Q.
Proof. intros Hf m r m1 HP Hrun. by eapply (Hf m HP m). Qed.

Lemma hoare_get_trace P (f : list Event → W A) (R : A → Mach → Prop) Q :
  (∀ m0, P m0 → hoare (λ m, P m ∧ m = m0) (f (trace m0)) R Q) →
  hoare P (get_trace ≫= f) R Q.
Proof. intros Hf m r m1 HP Hrun. by eapply (Hf m HP m). Qed.

End hoare_rules.

Lemma hoare_record (P : Mach → Prop) (e : Event) (R : unit → Mach → Prop)
    (Q : halt → Mach → Prop) :
  (∀ m, P m → R () (with_trace (trace m ++ [e]) m)) → hoare P (record e) R Q.
Proof. intros HR m r m1 HP [= <- <-]. by apply HR. Qed.

Lemma hoare_set_state (P : Mach → Prop) (f : QRepFlowState → QRepFlowState)
    (R : unit → Mach → Prop) (Q : halt → Mach → Prop) :
  (∀ m, P m → R () (with_state (f (state m)) m)) → hoare P (set_state f) R Q.
Proof. intros HR m r m1 HP [= <- <-]. by apply HR. Qed.

Lemma hoare_set_config (P : Mach → Prop) (f : QRepConfig → QRepConfig)
    (R : unit → Mach → Prop) (Q : halt → Mach → Prop) :
  (∀ m, P m → R () (with_config (f (config m)) m)) → hoare P (set_config f) R Q.
Proof. intros HR m r m1 HP [= <- <-]. by apply HR. Qed.

Lemma hoare_set_activeSignal (P : Mach → Prop) (sig : CDCFlowSignal)
    (R : unit → Mach → Prop) (Q : halt → Mach → Prop) :
  (∀ m, P m → R () (with_activeSignal sig m)) → hoare P (set_activeSignal sig) R Q.
Proof. intros HR m r m1 HP [= <- <-]. by apply HR. Qed.

Lemma hoare_executeActivity (w : World) (P : Mach → Prop) (e : Event)
    (R : unit → Mach → Prop) (Q : halt → Mach → Prop) :
  (∀ m, P m → answer w (trace m) e = None → R () (with_trace (trace m ++ [e]) m)) →
  (∀ m err, P m → answer w (trace m) e = Some err →
            Q (Errored err) (with_trace (trace m ++ [e]) m)) →
  hoare P (executeActivity w e) R Q.
Proof.
  intros HR HQ m r m1 HP. unfold executeActivity. simpl.
  destruct (answer w (trace m) e) eqn:Ha; intros [= <- <-]; auto.
Qed.

(** The same, for an assertion kept from one step to the next. *)
Lemma hoare_get_config' {A} (P : Mach → Prop) (f : QRepConfig → W A)
    (R : A → Mach → Prop) Q :
  (∀ m0, P m0 → hoare P (f (config m0)) R Q) → hoare P (get_config ≫= f) R Q.
Proof.
  intros Hf. apply hoare_get_config. intros m0 Hm0.
  eapply hoare_weaken; [by apply Hf | by intros m [? _] | done | done].
Qed.

Lemma hoare_get_state' {A} (P : Mach → Prop) (f : QRepFlowState → W A)
    (R : A → Mach → Prop) Q :
  (∀ m0, P m0 → hoare P (f (state m0)) R Q) → hoare P (get_state ≫= f) R Q.
Proof.
  intros Hf. apply hoare_get_state. intros m0 Hm0.
  eapply hoare_weaken; [by apply Hf | by intros m [? _] | done | done].
Qed.

Lemma hoare_get_activeSignal' {A} (P : Mach → Prop) (f : CDCFlowSignal → W A)
    (R : A → Mach → Prop) Q :
  (∀ m0, P m0 → hoare P (f (activeSignal m0)) R Q) → hoare P (get_activeSignal ≫= f) R Q.
Proof.
  intros Hf. apply hoare_get_activeSignal. intros m0 Hm0.
  eapply hoare_weaken; [by apply Hf | by intros m [? _] | done | done].
Qed.

Lemma hoare_get_trace' {A} (P : Mach → Prop) (f : list Event → W A)
    (R : A → Mach → Prop) Q :
  (∀ m0, P m0 → hoare P (f (trace m0)) R Q) → hoare P (get_trace ≫= f) R Q.
Proof.
  intros Hf. apply hoare_get_trace. intros m0 Hm0.
  eapply hoare_weaken; [by apply Hf | by intros m [? _] | done | done].
Qed.

Lemma hoare_stop_bind {A B} (P : Mach → Prop) (h : halt) (f : A → W B)
    (R : B → Mach → Prop) Q :
  (∀ m, P m → Q h m) → hoare P (stop h ≫= f) R Q.
Proof. intros HQ m r m1 HP [= <- <-]. by apply HQ. Qed.

Lemma hoare_ret_bind {A B} (P : Mach → Prop) (a : A) (f : A → W B)
    (R : B → Mach → Prop) Q :
  hoare P (f a) R Q → hoare P (mret a ≫= f) R Q.
Proof. intros Hf m r m1 HP Hrun. by eapply Hf. Qed.

(** One step of a proof that a computation keeps the assertion [P]. *)
Ltac hstep :=
  lazymatch goal with
  | |- hoare _ (mret _) _ _ => apply hoare_ret
  | |- hoare _ (stop _) _ _ => apply hoare_stop
  | |- hoare _ (mbind _ get_config) _ _ => apply hoare_get_config'; intros ? ?
  | |- hoare _ (mbind _ get_state) _ _ => apply hoare_get_state'; intros ? ?
  | |- hoare _ (mbind _ get_activeSignal) _ _ => apply hoare_get_activeSignal'; intros ? ?
  | |- hoare _ (mbind _ get_trace) _ _ => apply hoare_get_trace'; intros ? ?
  | |- hoare _ (mbind _ (stop _)) _ _ => apply hoare_stop_bind
  | |- hoare _ (mbind _ (mret _)) _ _ => apply hoare_ret_bind
  | |- hoare _ (mbind _ (match WriteMode ?c with _ => _ end)) _ _ =>
      destruct (WriteMode c) eqn:?
  | |- hoare ?P (mbind _ _) _ _ => apply (hoare_bind P _ _ (λ _, P)); [|intros ?]
  | |- hoare _ (wrapErr _ _) _ _ => apply hoare_wrapErr
  | |- hoare _ (if _ then _ else _) _ _ => apply hoare_if
  | |- hoare _ (record _) _ _ => apply hoare_record
  | |- hoare _ (set_state _) _ _ => apply hoare_set_state
  | |- hoare _ (set_config _) _ _ => apply hoare_set_config
  | |- hoare _ (set_activeSignal _) _ _ => apply hoare_set_activeSignal
  | |- hoare _ (executeActivity _ _) _ _ => apply hoare_executeActivity
  end.

(** The loops of the orchestrator keep an assertion that the steps they
    make keep. *)
Section hoare_loops.
Context (FSH : CDCFlowSignal → CDCFlowSignal → CDCFlowSignal) (w : World).
Context (P : Mach → Prop) (Q : halt → Mach → Prop).

Lemma hoare_pauseLoop (receives : list RecvResult) :
  (∀ m sig, P m → P (with_activeSignal sig m)) →
  (∀ m, P m → Q Stuck m) → (∀ m err, P m → Q (Errored err) m) →
  hoare P (pauseLoop FSH receives) (λ _, P) Q.
Proof.
  intros Hsig Hstuck Herr.
  induction receives as [|[val|[err|]] rest IH]; simpl; repeat (hstep; auto).
Qed.

Lemma hoare_waitSelectLoop (selects : list SelectEvent) :
  (∀ m sig, P m → P (with_activeSignal sig m)) →
  (∀ m, P m → Q Stuck m) → (∀ m err, P m → Q (Errored err) m) →
  hoare P (waitSelectLoop FSH selects) (λ _, P) Q.
Proof.
  intros Hsig Hstuck Herr.
  induction selects as [|[val|[err|]|err] rest IH]; simpl; repeat (hstep; auto).
Qed.

Lemma hoare_flushSignals (pending : list CDCFlowSignal) :
  (∀ m sig, P m → P (with_activeSignal sig m)) →
  hoare P (flushSignals FSH pending) (λ _, P) Q.
Proof.
  intros Hsig. induction pending as [|val rest IH]; simpl; repeat (hstep; auto).
Qed.

Lemma hoare_startBatches (slices : list (list QRepPartition)) (i : Z) :
  (∀ m e, P m → isChildPartition e = true → P (with_trace (trace m ++ [e]) m)) →
  hoare P (startBatches w i slices) (λ _, P) Q.
Proof.
  intros Hchild. revert i.
  induction slices as [|parts rest IH]; intros i; simpl; [by hstep|].
  unfold startChildWorkflow, getPartitionWorkflowID.
  repeat (hstep; auto).
Qed.

Lemma hoare_waitFutures (futures : list (option error)) :
  (∀ m err, P m → Q (Errored err) m) →
  hoare P (waitFutures futures) (λ _, P) Q.
Proof.
  intros Herr. induction futures as [|[err|] rest IH]; simpl; [by hstep | | done].
  hstep. auto.
Qed.

(** With at least one worker the fan-out neither panics nor gets stuck. *)
Lemma hoare_processPartitions (k : Z) (partitions : list QRepPartition) :
  (∀ m e, P m → isChildPartition e = true → P (with_trace (trace m ++ [e]) m)) →
  (∀ m err, P m → Q (Errored err) m) →
  (1 ≤ k ∨ ∀ m, P m → Q Panicked m ∧ Q Stuck m) →
  hoare P (processPartitions w k partitions) (λ _, P) Q.
Proof.
  intros Hchild Herr Hk. unfold processPartitions.
  case_bool_decide as Hlen; [by hstep|].
  assert (1 ≤ len partitions) as Hlen'.
  { pose proof (len_nonneg partitions). lia. }
  assert (hoare P (match batchLoop (length partitions) partitions
                           (DivCeil (len partitions) k) 0 [] with
                   | inl batches =>
                       partitionWorkflows ← startBatches w 0 batches;
                       waitFutures partitionWorkflows
                   | inr h => stop h
                   end) (λ _, P) Q) as Hloop.
  { destruct Hk as [Hk|Hk].
    - pose proof (DivCeil_pos _ _ Hlen' Hk) as Hc.
      destruct (batchLoop_chunks partitions _ Hc (length partitions) 0 [])
        as (slices & -> & _); [lia | unfold len; lia |].
      hstep; [by apply hoare_startBatches | by apply hoare_waitFutures].
    - destruct (batchLoop _ _ _ _ _) as [batches|h] eqn:Hloop.
      + hstep; [by apply hoare_startBatches | by apply hoare_waitFutures].
      + hstep. intros m Hm.
        assert (h = Panicked ∨ h = Stuck) as [-> | ->]; [|by apply Hk..].
        clear -Hloop. revert Hloop. generalize (@nil (list QRepPartition)) at 1.
        generalize 0 at 1. generalize (length partitions).
        intros fuel. induction fuel as [|fuel IH]; intros i acc; simpl;
          case_bool_decide; try done.
        * intros [= <-]. by right.
        * destruct (slice partitions i _); [apply IH | intros [= <-]; by left]. }
  destruct Hk as [Hk|Hk].
  - pose proof (DivCeil_pos _ _ Hlen' Hk) as Hc.
    rewrite !bool_decide_eq_false_2; [done | | lia | lia].
    pose proof (Z.quot_pos (len partitions) (DivCeil (len partitions) k)). lia.
  - repeat case_bool_decide; try done; hstep; intros; by apply Hk.
Qed.

End hoare_loops.

(** A proof that the orchestrator keeps an assertion, step by step. *)
Ltac hsteps :=
  repeat first
    [ hstep
    | apply hoare_pauseLoop
    | apply hoare_waitSelectLoop
    | apply hoare_flushSignals
    | apply hoare_startBatches
    | apply hoare_waitFutures
    | apply hoare_processPartitions
    | lazymatch goal with
      | |- hoare _ (match WriteMode ?c with _ => _ end) _ _ => destruct (WriteMode c) eqn:?
      end ].

Ltac hunfold :=
  do 2 unfold setupCycle, replicateCycle, finishCycle, setWorkflowQueries, updateStatus,
    setupWatermarkTableOnDestination, setupTableSchema, SetupMetadataTables,
    handleTableCreationForResync, handleTableRenameForResync, waitForNewRows,
    getPartitions, consolidatePartitions.

(** ** Status reports *)

Section no_sync.
Context (FSH : CDCFlowSignal → CDCFlowSignal → CDCFlowSignal) (w : World).
Hypothesis Hroot : IsRootWorkflow w = false.

Let P (m : Mach) : Prop := Forall (λ e, isSync e = false) (trace m).
Let Q (h : halt) (m : Mach) : Prop := P m.

Lemma no_sync_record (e : Event) (m : Mach) :
  isSync e = false → P m → P (with_trace (trace m ++ [e]) m).
Proof. intros He Hm. apply Forall_app. split; [done | by constructor]. Qed.

Lemma no_sync_setupCycle : hoare P (setupCycle FSH w) (λ _, P) Q.
Proof.
  hunfold. rewrite Hroot. hsteps.
  all: try done.
  all: try (intros; by apply no_sync_record).
Qed.

Lemma no_sync_replicateCycle (k : Z) (fr : bool) :
  hoare P (replicateCycle w k fr) (λ _, P) Q.
Proof.
  hunfold. rewrite Hroot. hsteps.
  all: try done.
  all: try (intros; by apply no_sync_record).
  - intros m e Hm He. apply no_sync_record; [by destruct e | done].
  - by right.
Qed.

Lemma no_sync_finishCycle : hoare P (finishCycle FSH w) (λ _, P) Q.
Proof.
  hunfold. rewrite Hroot. hsteps.
  all: try done.
Qed.

Lemma no_sync_runQRepFlow : hoare P (runQRepFlow FSH w) (λ _, P) Q.
Proof.
  unfold runQRepFlow. hstep; [apply no_sync_setupCycle|].
  hstep. hstep; [|apply no_sync_finishCycle].
  hstep; [apply no_sync_replicateCycle | by hstep].
Qed.

End no_sync.

(** X11.  The status is mirrored to the catalog only by a root workflow:
    a run with a parent workflow (a clone started by the snapshot flow, for
    one) makes no call to [syncStatusToCatalog], however it ends. *)
Theorem child_never_syncs_status (FSH : CDCFlowSignal → CDCFlowSignal → CDCFlowSignal)
    (w : World) (cfg : QRepConfig) (st : option QRepFlowState) h m' :
  IsRootWorkflow w = false →
  QRepFlowWorkflow FSH w cfg st = (h, m') →
  Forall (λ e, isSync e = false) (trace m').
Proof.
  intros Hroot. unfold QRepFlowWorkflow.
  destruct (runQRepFlow FSH w (enter cfg st)) as [r m] eqn:Hrun.
  pose proof (no_sync_runQRepFlow FSH w Hroot (enter cfg st) r m) as Hinv.
  specialize (Hinv ltac:(constructor) Hrun).
  destruct r; intros [= <- <-]; exact Hinv.
Qed.

(** X11 at concrete inputs, where its hypotheses hold. *)
Lemma child_never_syncs_status_witness :
  IsRootWorkflow scenario.clone = false
  ∧ QRepFlowWorkflow scenario.FlowSignalHandler scenario.clone
      (scenario.mirror QREP_WRITE_MODE_APPEND true false) None
    = (scenario.cloneRun.1, scenario.cloneRun.2)
  ∧ Forall (λ e, isSync e = false) (trace scenario.cloneRun.2).
Proof.
  assert (IsRootWorkflow scenario.clone = false) as Hroot by reflexivity.
  assert (QRepFlowWorkflow scenario.FlowSignalHandler scenario.clone
            (scenario.mirror QREP_WRITE_MODE_APPEND true false) None
          = (scenario.cloneRun.1, scenario.cloneRun.2)) as Hrun
    by (vm_compute; reflexivity).
  split; [exact Hroot|]. split; [exact Hrun|].
  exact (child_never_syncs_status _ _ _ _ _ _ Hroot Hrun).
Defined.

(** ** Panics *)

Section no_panic.
Context (FSH : CDCFlowSignal → CDCFlowSignal → CDCFlowSignal) (w : World).
Context (wm : QRepWriteMode).

Let P (m : Mach) : Prop := WriteMode (config m) = Some wm.
Let Q (h : halt) (m : Mach) : Prop := h ≠ Panicked.

Lemma no_panic_setupCycle :
  hoare P (setupCycle FSH w) (λ locals m, P m ∧ 1 ≤ locals.1) Q.
Proof.
  hunfold. hsteps.
  all: try done.
  all: try (unfold P in *; congruence).
  all: intros m Hm; split; [done|]; simpl; case_bool_decide; lia.
Qed.

Lemma no_panic_replicateCycle (k : Z) (fr : bool) :
  1 ≤ k → hoare P (replicateCycle w k fr) (λ _, P) Q.
Proof.
  intros Hk. hunfold. hsteps.
  all: try done.
  by left.
Qed.

Lemma no_panic_finishCycle : hoare P (finishCycle FSH w) (λ _ _, False) Q.
Proof. hunfold. hsteps. all: done. Qed.

Lemma no_panic_runQRepFlow : hoare P (runQRepFlow FSH w) (λ _ _, False) Q.
Proof.
  unfold runQRepFlow.
  eapply hoare_bind; [apply no_panic_setupCycle|]. intros [k fr]. simpl.
  apply hoare_assume with (φ := 1 ≤ k); [by intros m [_ ?]|]. intros Hk.
  eapply hoare_weaken with (P' := P) (R' := λ _ _, False) (Q' := Q);
    [|by intros m [? _] | done | done].
  hstep. hstep; [|apply no_panic_finishCycle].
  hstep; [by apply no_panic_replicateCycle | by hstep].
Qed.

End no_panic.

(** Without a write mode the set-up never returns: it stops the workflow,
    by a panic when it gets as far as reading the write mode. *)
Section no_write_mode.
Context (FSH : CDCFlowSignal → CDCFlowSignal → CDCFlowSignal) (w : World).

Let P (m : Mach) : Prop :=
  WriteMode (config m) = None ∧ Forall (λ e, isDiscovery e = false) (trace m).
Let Q (h : halt) (m : Mach) : Prop :=
  (∀ c s, h ≠ ContinueAsNew c s) ∧ Forall (λ e, isDiscovery e = false) (trace m).

Lemma no_write_mode_record (e : Event) (m : Mach) :
  isDiscovery e = false → P m → P (with_trace (trace m ++ [e]) m).
Proof.
  intros He [Hwm Hm]. split; [done|]. apply Forall_app. split; [done | by constructor].
Qed.

Lemma no_write_mode_setupCycle :
  hoare P (setupCycle FSH w) (λ _ _, False) Q.
Proof.
  hunfold. hsteps.
  all: try done.
  all: try (intros; by apply no_write_mode_record).
  all: try (intros m [? ?]; by split).
  all: try (intros m err [? ?]; by split).
  all: try (intros m err [? ?] _; split; [done|]; apply Forall_app; split;
            [done | by constructor]).
  all: unfold P in *; intuition congruence.
Qed.

Lemma no_write_mode_runQRepFlow : hoare P (runQRepFlow FSH w) (λ _ _, False) Q.
Proof.
  unfold runQRepFlow.
  eapply hoare_bind; [apply no_write_mode_setupCycle|]. by intros a m r m1 [].
Qed.

End no_write_mode.

(** X12.  A configuration with a write mode never makes the workflow
    panic: whatever [MaxParallelWorkers] is, the fan-out divides by a number
    of workers that is at least 1 and slices within bounds.  A
    configuration without one never gets to partition discovery and never
    continues as new. *)
Theorem QRepFlowWorkflow_panics (FSH : CDCFlowSignal → CDCFlowSignal → CDCFlowSignal)
    (w : World) (cfg : QRepConfig) (st : option QRepFlowState) h m' :
  QRepFlowWorkflow FSH w cfg st = (h, m') →
  (WriteMode cfg ≠ None → h ≠ Panicked)
  ∧ (WriteMode cfg = None →
     (∀ c s, h ≠ ContinueAsNew c s) ∧ discoveryRan (trace m') = false).
Proof.
  unfold QRepFlowWorkflow.
  destruct (runQRepFlow FSH w (enter cfg st)) as [r m] eqn:Hrun. intros Hh. split.
  - destruct (WriteMode cfg) as [wm|] eqn:Hwm; [intros _|done].
    pose proof (no_panic_runQRepFlow FSH w wm (enter cfg st) r m Hwm Hrun) as Hinv.
    destruct r; [done|]. injection Hh as <- <-. exact Hinv.
  - intros Hwm.
    pose proof (no_write_mode_runQRepFlow FSH w (enter cfg st) r m) as Hinv.
    specialize (Hinv (conj Hwm (Forall_nil_2 _)) Hrun).
    destruct r as [a|h']; [done|]. injection Hh as <- <-.
    destruct Hinv as [Hno Hdisc]. split; [done|].
    apply not_true_is_false. intros (e & He & Hd)%existsb_exists.
    apply list_elem_of_In in He.
    rewrite Forall_forall in Hdisc. specialize (Hdisc e He). congruence.
Qed.

(** X12 at concrete inputs, where its hypotheses hold. *)
Lemma QRepFlowWorkflow_panics_witness :
  QRepFlowWorkflow scenario.FlowSignalHandler scenario.quiet
    (scenario.mirror QREP_WRITE_MODE_APPEND false false)
    (Some (scenario.running scenario.p0 false))
  = (scenario.appendRun.1, scenario.appendRun.2)
  ∧ (WriteMode (scenario.mirror QREP_WRITE_MODE_APPEND false false) ≠ None →
     scenario.appendRun.1 ≠ Panicked).
Proof.
  assert (QRepFlowWorkflow scenario.FlowSignalHandler scenario.quiet
            (scenario.mirror QREP_WRITE_MODE_APPEND false false)
            (Some (scenario.running scenario.p0 false))
          = (scenario.appendRun.1, scenario.appendRun.2)) as Hrun
    by (vm_compute; reflexivity).
  split; [exact Hrun|].
  exact (proj1 (QRepFlowWorkflow_panics _ _ _ _ _ _ Hrun)).
Defined.

(** ** Progress and failure *)

Section keeps_progress.
Context (FSH : CDCFlowSignal → CDCFlowSignal → CDCFlowSignal) (w : World).
Context (st0 : QRepFlowState).

Let P (m : Mach) : Prop := sameProgress st0 (state m).
Let Q (h : halt) (m : Mach) : Prop :=
  (∀ c s, h ≠ ContinueAsNew c s) → sameProgress st0 (state m).

Lemma keeps_progress_setupCycle : hoare P (setupCycle FSH w) (λ _, P) Q.
Proof.
  hunfold. hsteps.
  all: try done.
  all: try (by intros m Hm _).
  all: try (by intros m err Hm _).
  all: try (by intros m err Hm _ _).
Qed.

Lemma keeps_progress_rename :
  hoare P (handleTableRenameForResync w) (λ _ _, True) Q.
Proof.
  do 2 unfold handleTableRenameForResync, setupTableSchema. hsteps.
  all: try done.
  all: try (by intros m err Hm _ _).
Qed.

Lemma keeps_progress_replicateCycle (k : Z) (fr : bool) :
  hoare P (replicateCycle w k fr) (λ _ _, True) Q.
Proof.
  unfold replicateCycle, getPartitions, consolidatePartitions, updateStatus.
  repeat first
    [ lazymatch goal with
      | |- hoare ?P' (mbind ?f (handleTableRenameForResync _)) _ _ =>
          apply (hoare_bind P' _ f (λ _ _, True)); [apply keeps_progress_rename|intros ?]
      end
    | hstep
    | apply hoare_processPartitions ].
  all: try done.
  all: try (by intros m Hm _).
  all: try (by intros m err Hm _).
  all: try (by intros m err Hm _ _).
  right. intros m Hm. by split; intros _.
Qed.

Lemma keeps_progress_finishCycle :
  hoare (λ _, True) (finishCycle FSH w) (λ _ _, False) Q.
Proof.
  hunfold. hsteps.
  all: try done.
  all: intros m Hm Hno; exfalso; by eapply Hno.
Qed.

Lemma keeps_progress_runQRepFlow : hoare P (runQRepFlow FSH w) (λ _ _, False) Q.
Proof.
  unfold runQRepFlow. hstep; [apply keeps_progress_setupCycle|].
  hstep.
  apply (hoare_bind P _ _ (λ _ _, True)); [|intros ?; apply keeps_progress_finishCycle].
  hstep; [apply keeps_progress_replicateCycle | by hstep].
Qed.

End keeps_progress.

(** X13.  The progress of a mirror is committed at the end of a cycle
    only: when the workflow ends in any other way than by continuing as new
    (an error, a panic, a return after completion), the state it leaves has
    the [LastPartition], [NumPartitionsProcessed] and [NeedsResync] it was
    entered with, whatever had been replicated by then. *)
Theorem failure_keeps_progress (FSH : CDCFlowSignal → CDCFlowSignal → CDCFlowSignal)
    (w : World) (cfg : QRepConfig) (st : option QRepFlowState) h m' :
  QRepFlowWorkflow FSH w cfg st = (h, m') →
  (∀ c s, h ≠ ContinueAsNew c s) →
  LastPartition (state m') = LastPartition (default newQRepFlowState st)
  ∧ NumPartitionsProcessed (state m') = NumPartitionsProcessed (default newQRepFlowState st)
  ∧ NeedsResync (state m') = NeedsResync (default newQRepFlowState st).
Proof.
  unfold QRepFlowWorkflow.
  destruct (runQRepFlow FSH w (enter cfg st)) as [r m] eqn:Hrun. intros Hh Hno.
  pose proof (keeps_progress_runQRepFlow FSH w (default newQRepFlowState st)
                (enter cfg st) r m (sameProgress_refl _) Hrun) as Hinv.
  destruct r; [done|]. injection Hh as <- <-. by apply Hinv.
Qed.

(** X13 at concrete inputs, where its hypotheses hold. *)
Lemma failure_keeps_progress_witness :
  QRepFlowWorkflow scenario.FlowSignalHandler scenario.failing
    (scenario.mirror QREP_WRITE_MODE_APPEND false false)
    (Some (scenario.running scenario.p0 false))
  = (Errored (Errorf "failed to consolidate partitions: " (errorString "disk full")),
     scenario.failedRun.2)
  ∧ LastPartition (state scenario.failedRun.2) = Some scenario.p0
  ∧ NumPartitionsProcessed (state scenario.failedRun.2) = 7
  ∧ NeedsResync (state scenario.failedRun.2) = false.
Proof.
  assert (QRepFlowWorkflow scenario.FlowSignalHandler scenario.failing
            (scenario.mirror QREP_WRITE_MODE_APPEND false false)
            (Some (scenario.running scenario.p0 false))
          = (Errored (Errorf "failed to consolidate partitions: "
                        (errorString "disk full")),
             scenario.failedRun.2)) as Hrun
    by (vm_compute; reflexivity).
  split; [exact Hrun|].
  exact (failure_keeps_progress _ _ _ _ _ _ Hrun
           (λ c s (H : Errored _ = ContinueAsNew c s),
              eq_ind (Errored (Errorf "failed to consolidate partitions: "
                                 (errorString "disk full")))
                (λ h, match h with Errored _ => True | _ => False end) I _ H)).
Defined.

(** ** The outcome of a fan-out *)

Lemma childBatches_started (c : QRepConfig) (run : string) (started : list Event)
    (batches : list QRepPartitionBatch) :
  Forall2 (λ e b, ∃ wid, e = ChildQRepPartitionWorkflow wid c b run) started batches →
  childBatches started = batches ∧ Forall (λ e, isChildPartition e = true) started.
Proof.
  induction 1 as [|e b es bs [wid ->] _ [IH1 IH2]]; [done|].
  split; [simpl; by rewrite IH1 | by constructor].
Qed.

(** The first loop hands the second the outcome of each child, as the
    runtime answers it when the child is started. *)
Lemma startBatches_outcomes (w : World) (slices : list (list QRepPartition)) :
  ∀ (i : Z) (m : Mach),
    ∃ started,
      startBatches w i slices m
      = (inl (outcomes w (trace m) started), with_trace (trace m ++ started) m)
      ∧ Forall2 (λ e b, ∃ wid, e = ChildQRepPartitionWorkflow wid (config m) b (OriginalRunID w))
                started (numbered i slices).
Proof.
  induction slices as [|parts rest IH]; intros i m.
  - exists []. simpl. rewrite app_nil_r, with_trace_trace. by split; [|constructor].
  - simpl. unfold startChildWorkflow, getPartitionWorkflowID. wsimpl.
    match goal with |- context [startBatches w (i + 1) rest ?m'] =>
      destruct (IH (i + 1) m') as (started & -> & Hall) end.
    wsimpl. eexists (_ :: started). split.
    + rewrite <- app_assoc. reflexivity.
    + constructor; [eauto | exact Hall].
Qed.

Lemma waitFutures_firstError (futures : list (option error)) (m : Mach) :
  waitFutures futures m
  = (match firstError futures with
     | None => inl ()
     | Some err => inr (Errored (Errorf "failed to wait for child workflow: " err))
     end, m).
Proof. induction futures as [|[err|] rest IH]; simpl; done. Qed.

(** A run of [processPartitions] with at least one worker. *)
Lemma processPartitions_run (w : World) (k : Z) (partitions : list QRepPartition)
    (m : Mach) :
  1 ≤ k →
  ∃ started slices,
    processPartitions w k partitions m
    = (match firstError (outcomes w (trace m) started) with
       | None => inl ()
       | Some err => inr (Errored (Errorf "failed to wait for child workflow: " err))
       end, with_trace (trace m ++ started) m)
    ∧ Forall2 (λ e b, ∃ wid, e = ChildQRepPartitionWorkflow wid (config m) b (OriginalRunID w))
              started (numbered 0 slices)
    ∧ concat slices = partitions
    ∧ len slices ≤ k
    ∧ len slices ≤ len partitions
    ∧ Forall (λ parts, parts ≠ []) slices.
Proof.
  intros Hk. unfold processPartitions. case_bool_decide as Hlen.
  { apply len_nil_iff in Hlen as ->. exists [], []. simpl.
    rewrite app_nil_r, with_trace_trace. unfold len. simpl.
    repeat split; [constructor | lia | lia | constructor]. }
  assert (1 ≤ len partitions) as Hlen'.
  { pose proof (len_nonneg partitions). lia. }
  pose proof (DivCeil_pos _ _ Hlen' Hk) as Hc.
  pose proof (DivCeil_bounds (len partitions) k ltac:(lia) Hk) as HcK.
  set (chunkSize := DivCeil (len partitions) k) in *.
  destruct (batchLoop_chunks partitions chunkSize Hc (length partitions) 0 [])
    as (slices & Hloop & Hcat & Hcount & Hnth); [lia | unfold len; lia |].
  rewrite Z.sub_0_r in Hcount. simpl in Hloop, Hcat.
  rewrite !bool_decide_eq_false_2; [| | lia | lia].
  2:{ pose proof (Z.quot_pos (len partitions) chunkSize). lia. }
  rewrite Hloop.
  destruct (startBatches_outcomes w slices 0 m) as (started & Hstart & Hall).
  wsimpl. rewrite Hstart, waitFutures_firstError.
  exists started, slices. split; [done|]. split; [done|]. split; [done|].
  pose proof (DivCeil_bounds (len partitions) chunkSize ltac:(lia) Hc) as Hb.
  split; [nia|]. split; [nia|].
  apply Forall_lookup. intros j parts Hj. by destruct (Hnth j parts Hj).
Qed.

Lemma outcomes_length (w : World) (started : list Event) :
  ∀ history, length (outcomes w history started) = length started.
Proof.
  induction started as [|e rest IH]; intros history; simpl; [done | by rewrite IH].
Qed.

Lemma outcomes_lookup (w : World) (started : list Event) :
  ∀ history (i : nat) e,
    started !! i = Some e →
    outcomes w history started !! i = Some (answer w (history ++ take i started) e).
Proof.
  induction started as [|e0 rest IH]; intros history i e; [done|].
  destruct i as [|i]; simpl.
  - intros [= <-]. by rewrite app_nil_r.
  - intros Hi. rewrite (IH _ _ _ Hi). by rewrite <- app_assoc.
Qed.

Lemma firstError_None (futures : list (option error)) :
  firstError futures = None ↔ Forall (λ f, f = None) futures.
Proof.
  induction futures as [|[err|] rest IH]; simpl.
  - split; [constructor | done].
  - split; [done | by intros [[=] _]%Forall_cons].
  - rewrite IH. split; [by constructor | by intros [_ ?]%Forall_cons].
Qed.

Lemma firstError_Some (futures : list (option error)) (err : error) :
  firstError futures = Some err ↔
  ∃ i : nat, futures !! i = Some (Some err) ∧ ∀ j : nat, (j < i)%nat → futures !! j = Some None.
Proof.
  induction futures as [|[e|] rest IH]; simpl.
  - split; [done | by intros (i & ? & _)].
  - split.
    + intros [= ->]. exists 0%nat. split; [done|]. intros j Hj. lia.
    + intros ([|i] & Hi & Hlt); [by injection Hi as -> |].
      specialize (Hlt 0%nat ltac:(lia)). done.
  - rewrite IH. split.
    + intros (i & Hi & Hlt). exists (S i). split; [done|].
      intros [|j] Hj; [done|]. apply Hlt. lia.
    + intros ([|i] & Hi & Hlt); [done|]. exists i. split; [done|].
      intros j Hj. apply (Hlt (S j)). lia.
Qed.

(** X14.  The fan-out starts every child before it waits for any: with
    at least one worker, [processPartitions] hands every partition to a
    child, in order, whether children fail or not.  It returns nil exactly
    when no child fails.  Otherwise it returns the error of the first child
    that failed in the order of the batches, wrapped as
    [failed to wait for child workflow]; the outcome of a child is what the
    runtime answers when that child is started. *)
Theorem processPartitions_outcome (w : World) (k : Z) (partitions : list QRepPartition)
    (m : Mach) :
  1 ≤ k →
  ∃ started r,
    processPartitions w k partitions m = (r, with_trace (trace m ++ started) m)
    ∧ Forall (λ e, isChildPartition e = true) started
    ∧ concat (Partitions <$> childBatches started) = partitions
    ∧ (r = inl () ↔
       ∀ (i : nat) e, started !! i = Some e → answer w (trace m ++ take i started) e = None)
    ∧ (∀ h, r = inr h →
       ∃ (i : nat) e err,
         started !! i = Some e
         ∧ answer w (trace m ++ take i started) e = Some err
         ∧ h = Errored (Errorf "failed to wait for child workflow: " err)
         ∧ ∀ (j : nat) e', (j < i)%nat → started !! j = Some e' →
             answer w (trace m ++ take j started) e' = None).
Proof.
  intros Hk.
  destruct (processPartitions_run w k partitions m Hk)
    as (started & slices & Hrun & Hall & Hcat & _).
  destruct (childBatches_started _ _ _ _ Hall) as [Hbatches Hchild].
  eexists started, _. split; [exact Hrun|]. split; [done|].
  split; [by rewrite Hbatches, numbered_Partitions|].
  destruct (firstError (outcomes w (trace m) started)) as [err|] eqn:Hfirst.
  - apply firstError_Some in Hfirst as (i & Hi & Hlt).
    assert (is_Some (started !! i)) as [e He].
    { apply lookup_lt_is_Some. apply lookup_lt_Some in Hi.
      by rewrite outcomes_length in Hi. }
    rewrite (outcomes_lookup _ _ _ _ _ He) in Hi. injection Hi as Hi.
    split.
    + split; [done|]. intros Hnone. specialize (Hnone i e He). congruence.
    + intros h [= <-]. exists i, e, err. split; [done|]. split; [done|]. split; [done|].
      intros j e' Hj He'. specialize (Hlt j Hj).
      rewrite (outcomes_lookup _ _ _ _ _ He') in Hlt. by injection Hlt.
  - apply firstError_None in Hfirst. split; [|done]. split; [|done].
    intros _ i e He. rewrite Forall_lookup in Hfirst.
    by apply (Hfirst i), outcomes_lookup.
Qed.

(** X14 at concrete inputs, where its hypotheses hold. *)
Lemma processPartitions_outcome_witness :
  1 ≤ 2
  ∧ ∃ started r,
      processPartitions scenario.quiet 2 scenario.five scenario.appendStore
      = (r, with_trace (trace scenario.appendStore ++ started) scenario.appendStore)
      ∧ Forall (λ e, isChildPartition e = true) started
      ∧ concat (Partitions <$> childBatches started) = scenario.five.
Proof.
  assert (1 ≤ 2) as Hk by lia.
  split; [exact Hk|].
  destruct (processPartitions_outcome scenario.quiet 2 scenario.five scenario.appendStore Hk)
    as (started & r & Hrun & Hst & Hcat & _).
  exists started, r. exact (conj Hrun (conj Hst Hcat)).
Defined.

(** ** Every partition once *)

Lemma childBatches_snoc (tr : list Event) (e : Event) :
  isChildPartition e = false → childBatches (tr ++ [e]) = childBatches tr.
Proof.
  intros He. rewrite childBatches_app. destruct e; try done; by rewrite app_nil_r.
Qed.

Lemma discoveryRan_snoc (tr : list Event) (e : Event) :
  isDiscovery e = false → discoveryRan (tr ++ [e]) = discoveryRan tr.
Proof. intros He. rewrite discoveryRan_app. simpl. by rewrite He, ?orb_false_r. Qed.

Lemma numbered_BatchId (slices : list (list QRepPartition)) (j : nat) b :
  numbered 0 slices !! j = Some b → BatchId b = int32 (Z.of_nat j + 1).
Proof. intros (parts & _ & ->)%numbered_lookup. simpl. by rewrite Z.add_0_l. Qed.

Lemma numbered_nonempty (slices : list (list QRepPartition)) (i : Z) :
  Forall (λ parts, parts ≠ []) slices →
  Forall (λ b, Partitions b ≠ []) (numbered i slices).
Proof.
  intros Hne. revert i. induction Hne as [|parts rest Hp _ IH]; intros i; simpl;
    constructor; auto.
Qed.

Section replicates.
Context (FSH : CDCFlowSignal → CDCFlowSignal → CDCFlowSignal) (w : World) (K : Z).

(** The batches a cycle has fanned out: they hold the partitions
    discovered, in order, none is empty, there are at most [K] of them, and
    they are numbered from 1. *)
Let fanned (tr : list Event) : Prop :=
  concat (Partitions <$> childBatches tr) = partitionsFound w
  ∧ len (childBatches tr) ≤ K
  ∧ Forall (λ b, Partitions b ≠ []) (childBatches tr)
  ∧ ∀ (j : nat) b, childBatches tr !! j = Some b → BatchId b = int32 (Z.of_nat j + 1).

Let P0 (m : Mach) : Prop :=
  childBatches (trace m) = [] ∧ discoveryRan (trace m) = false ∧ workers (config m) = K.
Let P1 (m : Mach) : Prop :=
  childBatches (trace m) = [] ∧ workers (config m) = K.
Let G1 (m : Mach) : Prop := fanned (trace m).
Let G (m : Mach) : Prop := discoveryRan (trace m) = true → fanned (trace m).
Let Q (h : halt) (m : Mach) : Prop := (∃ c s, h = ContinueAsNew c s) → G m.

Lemma P0_record (e : Event) (m : Mach) :
  isChildPartition e = false → isDiscovery e = false →
  P0 m → P0 (with_trace (trace m ++ [e]) m).
Proof.
  intros He1 He2 (H1 & H2 & H3). split; [|split; [|done]]; simpl.
  - by rewrite childBatches_snoc.
  - by rewrite discoveryRan_snoc.
Qed.

Lemma G1_record (e : Event) (m : Mach) :
  isChildPartition e = false → G1 m → G1 (with_trace (trace m ++ [e]) m).
Proof. intros He. unfold G1, fanned. simpl. by rewrite childBatches_snoc. Qed.

Lemma G_record (e : Event) (m : Mach) :
  isChildPartition e = false → isDiscovery e = false →
  G m → G (with_trace (trace m ++ [e]) m).
Proof.
  intros He1 He2. unfold G, fanned. simpl.
  by rewrite childBatches_snoc, discoveryRan_snoc.
Qed.

Lemma replicates_setupCycle :
  hoare P0 (setupCycle FSH w) (λ locals m, P0 m ∧ locals.1 = K) Q.
Proof.
  hunfold. hsteps.
  all: try done.
  all: try (intros; by apply P0_record).
  all: try (by intros m err Hm [c [s ?]]).
  all: try (by intros m err Hm _ [c [s ?]]).
  all: try (by intros m Hm [c [s ?]]).
  intros m Hm. split; [done|]. simpl.
  match goal with H : P0 ?m0 |- context [MaxParallelWorkers (config ?m0)] =>
    destruct H as (_ & _ & <-) end. done.
Qed.

Lemma replicates_processPartitions (partitions : list QRepPartition) :
  partitions = partitionsFound w → 1 ≤ K →
  hoare P1 (processPartitions w K partitions) (λ _, G1) Q.
Proof.
  intros -> HK m r m1 [Hnone Hw] Hrun.
  destruct (processPartitions_run w K (partitionsFound w) m HK)
    as (started & slices & Hrun' & Hall & Hcat & Hlen & _ & Hne).
  rewrite Hrun in Hrun'.
  destruct (childBatches_started _ _ _ _ Hall) as [Hbatches _].
  destruct (firstError _); injection Hrun' as -> ->; [by intros (c & s & [=])|].
  unfold G1, fanned. simpl. rewrite childBatches_app, Hnone, Hbatches. simpl.
  rewrite numbered_Partitions.
  split; [done|]. split.
  { unfold len in *. by rewrite numbered_length. }
  split; [by apply numbered_nonempty|]. apply numbered_BatchId.
Qed.

Lemma replicates_replicateCycle (fr : bool) :
  1 ≤ K → hoare P0 (replicateCycle w K fr) (λ _, G) Q.
Proof.
  intros HK. unfold replicateCycle.
  hstep.
  apply (hoare_bind _ _ _ (λ parts m, P1 m ∧ parts = partitionsFound w)).
  { unfold getPartitions. hstep. hstep.
    apply (hoare_bind _ _ _ (λ _, P1)); [|intros ?; by hstep].
    hstep. hstep.
    - intros m (H1 & H2 & H3) _. split; [|done]. simpl. by rewrite childBatches_snoc.
    - by intros m err Hm _ [c [s ?]]. }
  intros parts.
  apply hoare_assume with (φ := parts = partitionsFound w); [by intros m [_ ?]|].
  intros ->.
  apply (hoare_bind _ _ _ (λ _, G1)).
  { eapply hoare_weaken; [by apply replicates_processPartitions| |done|done].
    by intros m [? _]. }
  intros _.
  eapply hoare_weaken with (P' := G1) (R' := λ _, G1) (Q' := λ h m, G1 m);
    [|done|by intros a m ? ?| by intros h m ? ? ?].
  do 2 unfold consolidatePartitions, updateStatus, handleTableRenameForResync,
    setupTableSchema.
  hsteps.
  all: try done.
  all: try (intros; by apply G1_record).
Qed.

Lemma replicates_finishCycle : hoare G (finishCycle FSH w) (λ _ _, False) Q.
Proof.
  hunfold. hsteps.
  all: try done.
  all: try (intros; by apply G_record).
  all: by intros m Hm _.
Qed.

Lemma replicates_runQRepFlow : 1 ≤ K → hoare P0 (runQRepFlow FSH w) (λ _ _, False) Q.
Proof.
  intros HK. unfold runQRepFlow.
  eapply hoare_bind; [apply replicates_setupCycle|]. intros [k fr]. simpl.
  apply hoare_assume with (φ := k = K); [by intros m [_ ?]|]. intros ->.
  eapply hoare_weaken with (P' := P0) (R' := λ _ _, False) (Q' := Q);
    [|by intros m [? _] | done | done].
  hstep.
  apply (hoare_bind _ _ _ (λ _, G)); [|intros ?; apply replicates_finishCycle].
  hstep; [by apply replicates_replicateCycle|].
  hstep. intros m (H1 & H2 & _) Hd. congruence.
Qed.

End replicates.

Lemma workers_pos (c : QRepConfig) : 1 ≤ workers c.
Proof. unfold workers. case_bool_decide; lia. Qed.

(** X15.  In a cycle that runs partition discovery and continues as new,
    every partition discovered is handed to exactly one child partition
    workflow, in the order of discovery: the batches of the children
    started, put end to end, are the list discovered.  No batch is empty,
    there are at most [MaxParallelWorkers] children (16 when the
    configuration says 0), and the i-th child from 0 carries [BatchId]
    [int32(i+1)]. *)
Theorem cycle_replicates_each_partition_once
    (FSH : CDCFlowSignal → CDCFlowSignal → CDCFlowSignal)
    (w : World) (cfg : QRepConfig) (st : option QRepFlowState) c s m' :
  QRepFlowWorkflow FSH w cfg st = (ContinueAsNew c s, m') →
  discoveryRan (trace m') = true →
  concat (Partitions <$> childBatches (trace m')) = partitionsFound w
  ∧ len (childBatches (trace m')) ≤ workers cfg
  ∧ Forall (λ b, Partitions b ≠ []) (childBatches (trace m'))
  ∧ ∀ (j : nat) b, childBatches (trace m') !! j = Some b →
      BatchId b = int32 (Z.of_nat j + 1).
Proof.
  unfold QRepFlowWorkflow.
  destruct (runQRepFlow FSH w (enter cfg st)) as [r m] eqn:Hrun. intros Hh Hran.
  pose proof (replicates_runQRepFlow FSH w (workers cfg) (workers_pos cfg)
                (enter cfg st) r m) as Hinv.
  specialize (Hinv ltac:(done) Hrun).
  destruct r; [done|]. injection Hh as -> <-. apply Hinv; eauto.
Qed.

(** X15 at concrete inputs, where its hypotheses hold. *)
Lemma cycle_replicates_each_partition_once_witness :
  QRepFlowWorkflow scenario.FlowSignalHandler scenario.quiet
    (scenario.mirror QREP_WRITE_MODE_APPEND false false)
    (Some (scenario.running scenario.p0 false))
  = (ContinueAsNew (config scenario.appendRun.2) (state scenario.appendRun.2),
     scenario.appendRun.2)
  ∧ discoveryRan (trace scenario.appendRun.2) = true
  ∧ concat (Partitions <$> childBatches (trace scenario.appendRun.2))
    = partitionsFound scenario.quiet.
Proof.
  assert (QRepFlowWorkflow scenario.FlowSignalHandler scenario.quiet
            (scenario.mirror QREP_WRITE_MODE_APPEND false false)
            (Some (scenario.running scenario.p0 false))
          = (ContinueAsNew (config scenario.appendRun.2) (state scenario.appendRun.2),
             scenario.appendRun.2)) as Hrun
    by (vm_compute; reflexivity).
  assert (discoveryRan (trace scenario.appendRun.2) = true) as Hran
    by (vm_compute; reflexivity).
  split; [exact Hrun|]. split; [exact Hran|].
  exact (proj1 (cycle_replicates_each_partition_once _ _ _ _ _ _ _ Hrun Hran)).
Defined.

(** ** An initial copy *)

(** The pause loop ends normally only with an active signal that is not
    Pause. *)
Lemma hoare_pauseLoop_resumed (FSH : CDCFlowSignal → CDCFlowSignal → CDCFlowSignal)
    (P : Mach → Prop) (Q : halt → Mach → Prop) (receives : list RecvResult) :
  (∀ m sig, P m → P (with_activeSignal sig m)) →
  (∀ m, P m → Q Stuck m) → (∀ m err, P m → Q (Errored err) m) →
  hoare P (pauseLoop FSH receives) (λ _ m, P m ∧ activeSignal m ≠ PauseSignal) Q.
Proof.
  intros Hsig Hstuck Herr m r m1 HP Hrun.
  pose proof (hoare_pauseLoop FSH P Q receives Hsig Hstuck Herr m r m1 HP Hrun) as Hinv.
  destruct r as [[]|h]; [|done]. split; [done|]. by eapply pauseLoop_resumed.
Qed.

Section initial_copy.
Context (FSH : CDCFlowSignal → CDCFlowSignal → CDCFlowSignal) (w : World).

Let P' (m : Mach) : Prop :=
  InitialCopyOnly (config m) = true ∧ Forall (λ e, isWait e = false) (trace m).
Let P (m : Mach) : Prop := P' m ∧ activeSignal m ≠ PauseSignal.
Let Q (h : halt) (m : Mach) : Prop := True.

Lemma initial_copy_record (e : Event) (m : Mach) :
  isWait e = false → P m → P (with_trace (trace m ++ [e]) m).
Proof.
  intros He [[Hico Hm] Hsig]. split; [|done]. split; [done|].
  apply Forall_app. split; [done | by constructor].
Qed.

Lemma initial_copy_record' (e : Event) (m : Mach) :
  isWait e = false → P' m → P' (with_trace (trace m ++ [e]) m).
Proof.
  intros He [Hico Hm]. split; [done|].
  apply Forall_app. split; [done | by constructor].
Qed.

Lemma initial_copy_pause_gate :
  hoare P (set_activeSignal PauseSignal;; updateStatus w STATUS_PAUSED;;
           pauseLoop FSH (pauseReceives w);; updateStatus w STATUS_RUNNING)
        (λ _, P) Q.
Proof.
  apply (hoare_bind _ _ _ (λ _, P')); [hstep; by intros m [? _]|]. intros _.
  apply (hoare_bind _ _ _ (λ _, P')).
  { unfold updateStatus. hsteps; try done. intros; by apply initial_copy_record'. }
  intros _.
  apply (hoare_bind _ _ _ (λ _, P)); [by apply hoare_pauseLoop_resumed|]. intros _.
  unfold updateStatus. hsteps; try done. intros; by apply initial_copy_record.
Qed.

Lemma initial_copy_setupCycle : hoare P (setupCycle FSH w) (λ _, P) Q.
Proof.
  unfold setupCycle.
  do 2 unfold setWorkflowQueries, setupWatermarkTableOnDestination, setupTableSchema,
    SetupMetadataTables, handleTableCreationForResync.
  repeat first
    [ apply initial_copy_pause_gate
    | lazymatch goal with
      | H : P ?m0 |- hoare _ (mbind _ (if negb (InitialCopyOnly (config ?m0)) && _
                                     then _ else _)) _ _ =>
          rewrite (proj1 (proj1 H)); simpl
      end
    | hstep ].
  all: try done.
  all: try (intros; by apply initial_copy_record).
Qed.

End initial_copy.

Lemma initial_copy_continues (FSH : CDCFlowSignal → CDCFlowSignal → CDCFlowSignal)
  (w : World) (cfg : QRepConfig) (st : option QRepFlowState) c s m' :
  InitialCopyOnly cfg = true →
  QRepFlowWorkflow FSH w cfg st = (ContinueAsNew c s, m') →
  CurrentFlowStatus s = STATUS_COMPLETED
  ∧ discoveryRan (trace m') = true
  ∧ Forall (λ e, isWait e = false) (trace m').
Proof.
  intros Hico Hrun.
  apply QRepFlowWorkflow_inv in Hrun as [Hsetup | (k & fr & m1 & Hsetup & Hrest)].
  { apply setupCycle_spec in Hsetup as (Hno & _). exfalso. by eapply Hno. }
  pose proof (initial_copy_setupCycle FSH w (enter cfg st) _ _
                ltac:(by repeat split) Hsetup) as [[Hico1 Hwait1] Hsig1].
  simpl in Hico1, Hwait1, Hsig1.
  destruct Hrest as [[? _] | [_ [Hrep | (m2 & Hrep & _)]]]; [done| |].
  2:{ apply replicateCycle_spec in Hrep as (? & ? & _ & _ & _ & _ & _ & _ & Hok & _).
      destruct (Hok eq_refl) as [? _]. congruence. }
  apply replicateCycle_spec in Hrep
    as (started & tail & Htr & Hst & _ & Hcl & _ & _ & _ & Hcont).
  destruct (Hcont _ _ eq_refl) as (_ & _ & _ & -> & ->). simpl.
  split; [done|]. rewrite Htr. split.
  { rewrite discoveryRan_app. simpl. by rewrite orb_true_r. }
  apply Forall_app. split; [done|]. constructor; [done|].
  apply Forall_app. split.
  - eapply Forall_impl; [exact Hst|]. by intros e (wid & b & ->).
  - eapply Forall_impl; [exact Hcl|]. by intros [].
Qed.

(** X16.  An initial copy runs one cycle.  With [InitialCopyOnly] set, a
    run that continues as new has not waited for new rows and was not
    skipped by a pause: it ran partition discovery, and it continues with
    the status COMPLETED and with the [LastPartition],
    [NumPartitionsProcessed] and [NeedsResync] it was entered with.  The
    configuration it continues with is the one it replicated with: when the
    state needed a resync and the configuration asks for a full resync, it
    names the shadow table, which is never renamed back.  The next run,
    entered with that state, returns nil once the two query handlers are
    set, and does nothing else. *)
Theorem initial_copy_lifecycle (FSH : CDCFlowSignal → CDCFlowSignal → CDCFlowSignal)
    (w : World) (cfg : QRepConfig) (st : option QRepFlowState) c s m' :
  InitialCopyOnly cfg = true →
  QRepFlowWorkflow FSH w cfg st = (ContinueAsNew c s, m') →
  CurrentFlowStatus s = STATUS_COMPLETED
  ∧ discoveryRan (trace m') = true
  ∧ Forall (λ e, isWait e = false) (trace m')
  ∧ LastPartition s = LastPartition (default newQRepFlowState st)
  ∧ NumPartitionsProcessed s = NumPartitionsProcessed (default newQRepFlowState st)
  ∧ NeedsResync s = NeedsResync (default newQRepFlowState st)
  ∧ c = (if NeedsResync (default newQRepFlowState st) && DstTableFullResync cfg
         then with_DestinationTableIdentifier (shadow (DestinationTableIdentifier cfg)) cfg
         else cfg)
  ∧ ∀ FSH' w',
      answer w' [] (SetQueryHandler QRepFlowStateQuery) = None →
      answer w' [SetQueryHandler QRepFlowStateQuery] (SetQueryHandler FlowStatusQuery) = None →
      QRepFlowWorkflow FSH' w' c (Some s)
      = (ReturnedNil,
         {| config := c; state := s; activeSignal := NoopSignal;
            trace := [SetQueryHandler QRepFlowStateQuery; SetQueryHandler FlowStatusQuery] |}).
Proof.
  intros Hico Hrun.
  destruct (initial_copy_continues FSH w cfg st c s m' Hico Hrun) as (Hstatus & Hran & Hwait).
  destruct (cycle_continues FSH w cfg st c s m' Hrun)
    as (_ & _ & evs1 & evs2 & mid & evs3 & Htr & Hok1 & Hok2 & Hok3 & Hcases).
  assert (sameProgress (default newQRepFlowState st) s
          ∧ c = (if NeedsResync (default newQRepFlowState st) && DstTableFullResync cfg
                 then with_DestinationTableIdentifier
                        (shadow (DestinationTableIdentifier cfg)) cfg
                 else cfg)) as [(Hl & Hn & Hr) Hc].
  { destruct Hcases as [(_ & ? & ?) | [(_ & ? & ? & _) | (? & _)]]; [done | done | congruence]. }
  do 3 (split; [done|]). do 4 (split; [done|]).
  intros FSH' w' Hq1 Hq2.
  unfold QRepFlowWorkflow, runQRepFlow, setupCycle, setWorkflowQueries, wrapErr,
    executeActivity, enter.
  wsimpl. rewrite Hq1. simpl. rewrite Hq2. wsimpl.
  by rewrite Hstatus.
Qed.

(** X16 at concrete inputs, where its hypotheses hold. *)
Lemma initial_copy_lifecycle_witness :
  InitialCopyOnly (scenario.mirror QREP_WRITE_MODE_APPEND true false) = true
  ∧ QRepFlowWorkflow scenario.FlowSignalHandler scenario.quiet
      (scenario.mirror QREP_WRITE_MODE_APPEND true false)
      (Some (scenario.running scenario.p0 false))
    = (ContinueAsNew (config scenario.initialCopyRun.2) (state scenario.initialCopyRun.2),
       scenario.initialCopyRun.2)
  ∧ CurrentFlowStatus (state scenario.initialCopyRun.2) = STATUS_COMPLETED.
Proof.
  assert (InitialCopyOnly (scenario.mirror QREP_WRITE_MODE_APPEND true false) = true)
    as Hico by reflexivity.
  assert (QRepFlowWorkflow scenario.FlowSignalHandler scenario.quiet
            (scenario.mirror QREP_WRITE_MODE_APPEND true false)
            (Some (scenario.running scenario.p0 false))
          = (ContinueAsNew (config scenario.initialCopyRun.2)
               (state scenario.initialCopyRun.2),
             scenario.initialCopyRun.2)) as Hrun
    by (vm_compute; reflexivity).
  split; [exact Hico|]. split; [exact Hrun|].
  exact (proj1 (initial_copy_lifecycle _ _ _ _ _ _ _ Hico Hrun)).
Defined.

(** ** The cursor of the wait *)

Section wait_cursor.
Context (FSH : CDCFlowSignal → CDCFlowSignal → CDCFlowSignal) (w : World).
Context (cfg : QRepConfig) (st0 : QRepFlowState).

Let okw (e : Event) : Prop :=
  ∀ c lastPartition, e = ChildQRepWaitForNewRowsWorkflow c lastPartition →
    InitialCopyOnly cfg = false
    ∧ lastPartition = waitCursor w cfg st0
    ∧ lastPartition ≠ None.
Let P2 (m : Mach) : Prop := Forall okw (trace m).
Let P (m : Mach) : Prop :=
  P2 m
  ∧ LastPartition (state m) = LastPartition st0
  ∧ InitialCopyOnly (config m) = InitialCopyOnly cfg
  ∧ WriteMode (config m) = WriteMode cfg.
Let Q (h : halt) (m : Mach) : Prop := P2 m.

Lemma wait_cursor_record (e : Event) (m : Mach) :
  isWait e = false → P m → P (with_trace (trace m ++ [e]) m).
Proof.
  intros He (Hm & ?). split; [|done].
  apply Forall_app. split; [done|]. constructor; [|done].
  intros c lp ->. done.
Qed.

Lemma wait_cursor_record2 (e : Event) (m : Mach) :
  isWait e = false → P2 m → P2 (with_trace (trace m ++ [e]) m).
Proof.
  intros He Hm.
  apply Forall_app. split; [done|]. constructor; [|done].
  intros c lp ->. done.
Qed.

Lemma wait_cursor_setupCycle : hoare P (setupCycle FSH w) (λ _, P) Q.
Proof.
  unfold setupCycle.
  do 2 unfold setWorkflowQueries, setupWatermarkTableOnDestination, setupTableSchema,
    SetupMetadataTables, handleTableCreationForResync, updateStatus.
  repeat first
    [ lazymatch goal with
      | |- hoare ?P0 (mbind ?f (if bool_decide (WriteType ?wm = QREP_WRITE_MODE_OVERWRITE)
                                then _ else _)) _ _ =>
          apply (hoare_bind P0 _ f
                   (λ fr m, P0 m ∧ fr = bool_decide (WriteType wm = QREP_WRITE_MODE_OVERWRITE)
                                         && fullRefreshMode w));
          [ case_bool_decide
          | intros fr;
            apply hoare_assume
              with (φ := fr = bool_decide (WriteType wm = QREP_WRITE_MODE_OVERWRITE)
                              && fullRefreshMode w);
            [ by intros ? [_ ?]
            | intros ->;
              eapply hoare_weaken with (P' := P0) (R' := λ _, P) (Q' := Q);
              [ | by intros ? [? _] | done | done ] ] ]
      | |- hoare _ (mbind _ (if negb (InitialCopyOnly ?c) && bool_decide ?φ
                             then _ else _)) _ _ =>
          destruct (InitialCopyOnly c) eqn:?; cbn [negb andb];
          [|destruct (decide φ);
            [rewrite (bool_decide_eq_true_2 φ) by done
            |rewrite (bool_decide_eq_false_2 φ) by done]]
      end
    | hstep
    | apply hoare_pauseLoop ].
  all: try done.
  all: try (intros; by apply wait_cursor_record).
  all: try (by intros m [? _]).
  all: try (by intros m err [? _]).
  all: try (by intros m err [? _] _).
  all: try (intros m err Hm _; by apply wait_cursor_record).
  assert (InitialCopyOnly cfg = false
          ∧ (if bool_decide (WriteType q = QREP_WRITE_MODE_OVERWRITE) && fullRefreshMode w
             then Some InitialLastPartition else LastPartition (state m2))
            = waitCursor w cfg st0) as [Hico Hlp].
  { destruct H2 as (_ & _ & Hi & Hw), H1 as (_ & Hl & _).
    split; [congruence|]. unfold waitCursor, fullRefreshInEffect.
    by rewrite <- Hw, Heqo, Hl. }
  unfold waitForNewRows. hstep. hstep; [|apply hoare_waitSelectLoop].
  - hstep. intros m (Hm & ?). split; [|done].
    apply Forall_app. split; [done|]. constructor; [|done].
    intros c lp [= _ <-]. by rewrite <- Hlp.
  - by intros m sig.
  - by intros m [? _].
  - by intros m err [? _].
Qed.

Lemma wait_cursor_replicateCycle (k : Z) (fr : bool) :
  hoare P2 (replicateCycle w k fr) (λ _, P2) Q.
Proof.
  hunfold. hsteps.
  all: try done.
  all: try (intros; by apply wait_cursor_record2).
  - intros m e Hm He. apply wait_cursor_record2; [by destruct e | done].
  - by right.
Qed.

Lemma wait_cursor_finishCycle : hoare P2 (finishCycle FSH w) (λ _ _, False) Q.
Proof.
  hunfold. hsteps.
  all: try done.
  all: try (intros; by apply wait_cursor_record2).
Qed.

Lemma wait_cursor_runQRepFlow : hoare P (runQRepFlow FSH w) (λ _ _, False) Q.
Proof.
  unfold runQRepFlow. hstep; [apply wait_cursor_setupCycle|].
  eapply hoare_weaken with (P' := P2) (R' := λ _ _, False) (Q' := Q);
    [|by intros m [? _] | done | done].
  hstep. hstep; [|apply wait_cursor_finishCycle].
  hstep; [apply wait_cursor_replicateCycle | by hstep].
Qed.

End wait_cursor.

(** X17.  The two cursors of a cycle.  Whenever the workflow starts
    [QRepWaitForNewRowsWorkflow], the cycle is not an initial copy and the
    cursor it passes is not nil: it is the sentinel when full-refresh mode is
    in effect, and [state.LastPartition] as the cycle found it otherwise.
    Whenever it calls [GetQRepPartitions], the cursor it passes is
    [state.LastPartition] as the cycle found it, in every mode.  This holds
    however the run ends. *)
Theorem cycle_cursors (FSH : CDCFlowSignal → CDCFlowSignal → CDCFlowSignal)
    (w : World) (cfg : QRepConfig) (st : option QRepFlowState) h m' :
  QRepFlowWorkflow FSH w cfg st = (h, m') →
  (∀ lastPartition, lastPartition ∈ waitCursors (trace m') →
     InitialCopyOnly cfg = false
     ∧ lastPartition = waitCursor w cfg (default newQRepFlowState st)
     ∧ lastPartition ≠ None)
  ∧ (∀ last, last ∈ discoveryCursors (trace m') →
       last = LastPartition (default newQRepFlowState st)).
Proof.
  intros Hrun. split.
  - revert Hrun. unfold QRepFlowWorkflow.
    destruct (runQRepFlow FSH w (enter cfg st)) as [r m] eqn:Hrun. intros Hh.
    pose proof (wait_cursor_runQRepFlow FSH w cfg (default newQRepFlowState st)
                  (enter cfg st) r m) as Hinv.
    specialize (Hinv ltac:(by repeat split) Hrun).
    destruct r; [done|]. injection Hh as <- <-.
    intros lp (e & He & Hlp)%list_elem_of_omap.
    rewrite Forall_forall in Hinv. specialize (Hinv e He).
    destruct e; try done. injection Hlp as ->. by eapply Hinv.
  - destruct (discovery_cursor FSH w cfg st h m' Hrun) as [-> | ->].
    + by intros last ?%elem_of_nil.
    + by intros last ->%list_elem_of_singleton.
Qed.

(** X17 at concrete inputs, where its hypotheses hold. *)
Lemma cycle_cursors_witness :
  QRepFlowWorkflow scenario.FlowSignalHandler scenario.quiet
    (scenario.mirror QREP_WRITE_MODE_APPEND false false)
    (Some (scenario.running scenario.p0 false))
  = (scenario.appendRun.1, scenario.appendRun.2)
  ∧ ∀ last, last ∈ discoveryCursors (trace scenario.appendRun.2) →
            last = Some scenario.p0.
Proof.
  assert (QRepFlowWorkflow scenario.FlowSignalHandler scenario.quiet
            (scenario.mirror QREP_WRITE_MODE_APPEND false false)
            (Some (scenario.running scenario.p0 false))
          = (scenario.appendRun.1, scenario.appendRun.2)) as Hrun
    by (vm_compute; reflexivity).
  split; [exact Hrun|].
  exact (proj2 (cycle_cursors _ _ _ _ _ _ Hrun)).
Defined.

(** ** The pause gate *)

Lemma hoare_false {A} (c : W A) (R : A → Mach → Prop) (Q : halt → Mach → Prop) :
  hoare (λ _, False) c R Q.
Proof. by intros m r m1 []. Qed.

Lemma staysPaused_nil (FSH : CDCFlowSignal → CDCFlowSignal → CDCFlowSignal) :
  staysPaused FSH [].
Proof. intros k. by rewrite take_nil. Qed.

Lemma staysPaused_cons (FSH : CDCFlowSignal → CDCFlowSignal → CDCFlowSignal)
    (val : CDCFlowSignal) (vals : list CDCFlowSignal) :
  staysPaused FSH (val :: vals) → FSH PauseSignal val = PauseSignal ∧ staysPaused FSH vals.
Proof.
  intros Hst. assert (FSH PauseSignal val = PauseSignal) as Hval by exact (Hst 1%nat).
  split; [done|]. intros k. specialize (Hst (S k)). simpl in Hst. by rewrite Hval in Hst.
Qed.

Section pause_loop.
Context (FSH : CDCFlowSignal → CDCFlowSignal → CDCFlowSignal).

(** While the signals received leave the pause signal active and the
    context is not done, the loop goes on: it changes nothing. *)
Lemma pauseLoop_paused (pre rest : list RecvResult) (m : Mach) :
  activeSignal m = PauseSignal → alive pre → staysPaused FSH (received pre) →
  pauseLoop FSH (pre ++ rest) m = pauseLoop FSH rest m.
Proof.
  intros Hsig. induction pre as [|recv pre IH]; [done|].
  intros [Hrecv Hpre]%Forall_cons Hst.
  assert (m = with_activeSignal PauseSignal m) as Hm by (destruct m; simpl in *; by subst).
  destruct recv as [val|[err|]]; simpl in *.
  - apply staysPaused_cons in Hst as [Hval Hst].
    wsimpl. rewrite Hsig, bool_decide_eq_true_2 by done. rewrite Hval, <- Hm.
    by apply IH.
  - by destruct (Hrecv err).
  - wsimpl. rewrite Hsig, bool_decide_eq_true_2 by done. by apply IH.
Qed.

Lemma pauseLoop_blocked (receives : list RecvResult) (m : Mach) :
  activeSignal m = PauseSignal → alive receives → staysPaused FSH (received receives) →
  pauseLoop FSH receives m = (inr Stuck, m).
Proof.
  intros Hsig Halive Hst.
  rewrite <- (app_nil_r receives), (pauseLoop_paused _ [] m Hsig Halive Hst).
  simpl. wsimpl. by rewrite Hsig, bool_decide_eq_true_2.
Qed.

Lemma pauseLoop_cancelled (pre post : list RecvResult) (err : error) (m : Mach) :
  activeSignal m = PauseSignal → alive pre → staysPaused FSH (received pre) →
  pauseLoop FSH (pre ++ TimedOut (Some err) :: post) m = (inr (Errored err), m).
Proof.
  intros Hsig Halive Hst. rewrite (pauseLoop_paused _ _ m Hsig Halive Hst).
  simpl. wsimpl. by rewrite Hsig, bool_decide_eq_true_2.
Qed.

Lemma pauseLoop_resumes (pre post : list RecvResult) (val : CDCFlowSignal) (m : Mach) :
  activeSignal m = PauseSignal → alive pre → staysPaused FSH (received pre) →
  FSH PauseSignal val ≠ PauseSignal →
  pauseLoop FSH (pre ++ Received val :: post) m
  = (inl (), with_activeSignal (FSH PauseSignal val) m).
Proof.
  intros Hsig Halive Hst Hval. rewrite (pauseLoop_paused _ _ m Hsig Halive Hst).
  simpl. wsimpl. rewrite Hsig, bool_decide_eq_true_2 by done.
  destruct post as [|recv post]; simpl; wsimpl; by rewrite bool_decide_eq_false_2.
Qed.

End pause_loop.

Section paused_entry.
Context (FSH : CDCFlowSignal → CDCFlowSignal → CDCFlowSignal) (w : World).
Hypothesis Hq1 : answer w [] (SetQueryHandler QRepFlowStateQuery) = None.
Hypothesis Hq2 :
  answer w [SetQueryHandler QRepFlowStateQuery] (SetQueryHandler FlowStatusQuery) = None.

Let paused (s : QRepFlowState) : Prop :=
  CurrentFlowStatus s = STATUS_PAUSING ∨ CurrentFlowStatus s = STATUS_PAUSED.
Let gate : list Event :=
  [SetQueryHandler QRepFlowStateQuery; SetQueryHandler FlowStatusQuery] ++
  (if IsRootWorkflow w then [syncStatusToCatalog STATUS_PAUSED] else []).
Let resumed : list Event :=
  gate ++ (if IsRootWorkflow w then [syncStatusToCatalog STATUS_RUNNING] else []).

Let A0 (m : Mach) : Prop := trace m = [] ∧ paused (state m).
Let A1 (m : Mach) : Prop :=
  trace m = [SetQueryHandler QRepFlowStateQuery; SetQueryHandler FlowStatusQuery]
  ∧ paused (state m).
(* blocked on the signal channel *)
Let A2 (m : Mach) : Prop :=
  trace m = gate ∧ CurrentFlowStatus (state m) = STATUS_PAUSED
  ∧ activeSignal m = PauseSignal.
(* the cycle has started *)
Let A3 (m : Mach) : Prop := ∃ rest, trace m = resumed ++ rest.
Let A4 (m : Mach) : Prop := ∃ rest, rest ≠ [] ∧ trace m = resumed ++ rest.

Lemma A3_record (e : Event) (m : Mach) : A3 m → A3 (with_trace (trace m ++ [e]) m).
Proof. intros [rest Hm]. exists (rest ++ [e]). simpl. by rewrite Hm, <- app_assoc. Qed.

Lemma A3_A4_record (e : Event) (m : Mach) : A3 m → A4 (with_trace (trace m ++ [e]) m).
Proof.
  intros [rest Hm]. exists (rest ++ [e]). split; [by destruct rest|].
  simpl. by rewrite Hm, <- app_assoc.
Qed.

Lemma A4_record (e : Event) (m : Mach) : A4 m → A4 (with_trace (trace m ++ [e]) m).
Proof. intros (rest & _ & Hm). apply A3_A4_record. by exists rest. Qed.

Lemma paused_entry_queries (Q : halt → Mach → Prop) :
  hoare A0 (setWorkflowQueries w) (λ _, A1) Q.
Proof.
  unfold setWorkflowQueries.
  apply (hoare_bind _ _ _ (λ _ m, trace m = [SetQueryHandler QRepFlowStateQuery]
                                  ∧ paused (state m))).
  - hstep. hstep.
    + intros m [Hm ?] _. simpl. by rewrite Hm.
    + intros m err [Hm ?]. rewrite Hm. congruence.
  - intros _. hstep. hstep.
    + intros m [Hm ?] _. split; [|done]. simpl. by rewrite Hm.
    + intros m err [Hm ?]. rewrite Hm. congruence.
Qed.

(** The gate, given what the pause loop does from a paused store and what
    follows it. *)
Lemma paused_entry_gate (RL Rg : Mach → Prop) (Q : halt → Mach → Prop) :
  hoare A2 (pauseLoop FSH (pauseReceives w)) (λ _, RL) Q →
  hoare RL (updateStatus w STATUS_RUNNING) (λ _, Rg) Q →
  hoare A1 (set_activeSignal PauseSignal;; updateStatus w STATUS_PAUSED;;
            pauseLoop FSH (pauseReceives w);; updateStatus w STATUS_RUNNING)
        (λ _, Rg) Q.
Proof.
  intros Hloop Hrunning.
  apply (hoare_bind _ _ _ (λ _ m, A1 m ∧ activeSignal m = PauseSignal));
    [hstep; by intros m ?|]. intros _.
  apply (hoare_bind _ _ _ (λ _, A2)).
  { unfold updateStatus. apply (hoare_bind _ _ _ (λ _ m,
      trace m = [SetQueryHandler QRepFlowStateQuery; SetQueryHandler FlowStatusQuery]
      ∧ CurrentFlowStatus (state m) = STATUS_PAUSED ∧ activeSignal m = PauseSignal)).
    - hstep. intros m [Ha Hsig]. destruct Ha as [Htr Hpa]. by repeat split.
    - intros _. unfold A2, gate. destruct (IsRootWorkflow w); hstep.
      + intros m (Hm & ? & ?). simpl. by rewrite Hm.
      + intros m (Hm & ? & ?). by rewrite app_nil_r. }
  intros _. eapply hoare_bind; [exact Hloop|]. intros ?. exact Hrunning.
Qed.

(** No signal resumes the mirror and the context is never done. *)
Section blocked.
Hypothesis Halive : alive (pauseReceives w).
Hypothesis Hstays : staysPaused FSH (received (pauseReceives w)).

Let Q (h : halt) (m : Mach) : Prop :=
  h = Stuck ∧ trace m = gate ∧ CurrentFlowStatus (state m) = STATUS_PAUSED.

Lemma blocked_runQRepFlow : hoare A0 (runQRepFlow FSH w) (λ _ _, False) Q.
Proof.
  unfold runQRepFlow.
  apply (hoare_bind _ _ _ (λ _ _, False)); [|intros ?; apply hoare_false].
  unfold setupCycle.
  eapply hoare_bind; [apply paused_entry_queries|]. intros ?.
  apply hoare_get_state. intros m0 [Htr0 Hp0].
  rewrite bool_decide_eq_false_2 by (intros Hc; destruct Hp0; congruence).
  rewrite bool_decide_eq_true_2 by done.
  apply (hoare_bind _ _ _ (λ _ _, False)); [|intros ?; apply hoare_false].
  eapply hoare_weaken with (P' := A1) (R' := λ _ _, False) (Q' := Q);
    [|by intros m [? _] | done | done].
  apply (paused_entry_gate (λ _, False)); [|apply hoare_false].
  intros m r m1 (Htr & Hst & Hsig) Hrun.
  rewrite (pauseLoop_blocked FSH _ m Hsig Halive Hstays) in Hrun.
  injection Hrun as <- <-. done.
Qed.

End blocked.

(** The context is done while the mirror is paused. *)
Section cancelled.
Context (pre post : list RecvResult) (err : error).
Hypothesis Hreceives : pauseReceives w = pre ++ TimedOut (Some err) :: post.
Hypothesis Halive : alive pre.
Hypothesis Hstays : staysPaused FSH (received pre).

Let Q (h : halt) (m : Mach) : Prop :=
  h = Errored err ∧ trace m = gate ∧ CurrentFlowStatus (state m) = STATUS_PAUSED.

Lemma cancelled_runQRepFlow : hoare A0 (runQRepFlow FSH w) (λ _ _, False) Q.
Proof.
  unfold runQRepFlow.
  apply (hoare_bind _ _ _ (λ _ _, False)); [|intros ?; apply hoare_false].
  unfold setupCycle.
  eapply hoare_bind; [apply paused_entry_queries|]. intros ?.
  apply hoare_get_state. intros m0 [Htr0 Hp0].
  rewrite bool_decide_eq_false_2 by (intros Hc; destruct Hp0; congruence).
  rewrite bool_decide_eq_true_2 by done.
  apply (hoare_bind _ _ _ (λ _ _, False)); [|intros ?; apply hoare_false].
  eapply hoare_weaken with (P' := A1) (R' := λ _ _, False) (Q' := Q);
    [|by intros m [? _] | done | done].
  apply (paused_entry_gate (λ _, False)); [|apply hoare_false].
  intros m r m1 (Htr & Hst & Hsig) Hrun.
  rewrite Hreceives, (pauseLoop_cancelled FSH _ _ _ m Hsig Halive Hstays) in Hrun.
  injection Hrun as <- <-. done.
Qed.

End cancelled.

(** A signal resumes the mirror. *)
Section resumes.
Context (pre post : list RecvResult) (val : CDCFlowSignal).
Hypothesis Hreceives : pauseReceives w = pre ++ Received val :: post.
Hypothesis Halive : alive pre.
Hypothesis Hstays : staysPaused FSH (received pre).
Hypothesis Hval : FSH PauseSignal val ≠ PauseSignal.

Lemma resumes_setupCycle : hoare A0 (setupCycle FSH w) (λ _, A4) (λ _, A4).
Proof.
  unfold setupCycle.
  eapply hoare_bind; [apply paused_entry_queries|]. intros ?.
  apply hoare_get_state. intros m0 [Htr0 Hp0].
  rewrite bool_decide_eq_false_2 by (intros Hc; destruct Hp0; congruence).
  rewrite bool_decide_eq_true_2 by done.
  apply (hoare_bind _ _ _ (λ _, A3)).
  { eapply hoare_weaken with (P' := A1) (R' := λ _, A3) (Q' := λ _, A4);
      [|by intros m [? _] | done | done].
    apply (paused_entry_gate (λ m, trace m = gate)).
    - intros m r m1 (Htr & Hst & Hsig) Hrun.
      rewrite Hreceives, (pauseLoop_resumes FSH _ _ _ m Hsig Halive Hstays Hval) in Hrun.
      by injection Hrun as <- <-.
    - unfold updateStatus.
      apply (hoare_bind _ _ _ (λ _ m, trace m = gate)); [hstep; by intros m ?|].
      intros _. unfold A3, resumed. destruct (IsRootWorkflow w); hstep.
      + intros m Hm. exists []. simpl. by rewrite Hm, ?app_nil_r.
      + intros m Hm. exists []. by rewrite ?app_nil_r. }
  intros _. hstep.
  apply (hoare_bind _ _ _ (λ _, A3)).
  { do 2 unfold setupWatermarkTableOnDestination, setupTableSchema. hsteps.
    all: try done.
    all: try (intros; by apply A3_record).
    all: try (intros; by apply A3_A4_record). }
  intros _.
  apply (hoare_bind _ _ _ (λ _, A4)).
  { unfold SetupMetadataTables. repeat hstep; intros; by apply A3_A4_record. }
  intros _.
  do 2 unfold handleTableCreationForResync, waitForNewRows.
  hsteps.
  all: try done.
  all: try (intros; by apply A4_record).
Qed.

Lemma resumes_replicateCycle (k : Z) (fr : bool) :
  hoare A4 (replicateCycle w k fr) (λ _, A4) (λ _, A4).
Proof.
  hunfold. hsteps.
  all: try done.
  all: try (intros; by apply A4_record).
  by right.
Qed.

Lemma resumes_finishCycle : hoare A4 (finishCycle FSH w) (λ _ _, False) (λ _, A4).
Proof.
  hunfold. hsteps.
  all: try done.
  all: try (intros; by apply A4_record).
Qed.

Lemma resumes_runQRepFlow : hoare A0 (runQRepFlow FSH w) (λ _ _, False) (λ _, A4).
Proof.
  unfold runQRepFlow. eapply hoare_bind; [apply resumes_setupCycle|]. intros locals.
  hstep. hstep; [|apply resumes_finishCycle].
  hstep; [apply resumes_replicateCycle | by hstep].
Qed.

End resumes.

End paused_entry.

(** X18.  A run entered with the status PAUSING or PAUSED, once its two
    query handlers are set, reports the status PAUSED (when it is a root
    workflow) and then receives from the signal channel; what the channel
    delivers decides, and nothing else is called meanwhile.  As long as the
    signals received leave the pause signal active and the context is not
    done, the workflow stays in the loop: if that never changes it stays
    blocked there, with the status PAUSED.  If the context is done first,
    the workflow returns the error of the context, as it is, with the
    status PAUSED.  At the first signal that the handler turns into another
    signal than the pause signal, the workflow leaves the loop: the next
    thing it does is to report the status RUNNING (when it is a root
    workflow), and the cycle starts, with at least one more call. *)
Theorem pause_gate (FSH : CDCFlowSignal → CDCFlowSignal → CDCFlowSignal)
    (w : World) (cfg : QRepConfig) (st : QRepFlowState) h m' :
  CurrentFlowStatus st = STATUS_PAUSING ∨ CurrentFlowStatus st = STATUS_PAUSED →
  answer w [] (SetQueryHandler QRepFlowStateQuery) = None →
  answer w [SetQueryHandler QRepFlowStateQuery] (SetQueryHandler FlowStatusQuery) = None →
  QRepFlowWorkflow FSH w cfg (Some st) = (h, m') →
  let gate :=
    [SetQueryHandler QRepFlowStateQuery; SetQueryHandler FlowStatusQuery] ++
    (if IsRootWorkflow w then [syncStatusToCatalog STATUS_PAUSED] else []) in
  (alive (pauseReceives w) → staysPaused FSH (received (pauseReceives w)) →
   h = Stuck ∧ trace m' = gate ∧ CurrentFlowStatus (state m') = STATUS_PAUSED)
  ∧ (∀ pre err post,
       pauseReceives w = pre ++ TimedOut (Some err) :: post →
       alive pre → staysPaused FSH (received pre) →
       h = Errored err ∧ trace m' = gate ∧ CurrentFlowStatus (state m') = STATUS_PAUSED)
  ∧ (∀ pre val post,
       pauseReceives w = pre ++ Received val :: post →
       alive pre → staysPaused FSH (received pre) →
       FSH PauseSignal val ≠ PauseSignal →
       ∃ rest,
         rest ≠ []
         ∧ trace m'
           = gate ++
             (if IsRootWorkflow w then [syncStatusToCatalog STATUS_RUNNING] else []) ++
             rest).
Proof.
  intros Hp Hq1 Hq2. unfold QRepFlowWorkflow.
  destruct (runQRepFlow FSH w (enter cfg (Some st))) as [r m] eqn:Hrun. intros Hh.
  cbv zeta.
  assert (trace (enter cfg (Some st)) = [] ∧
          (CurrentFlowStatus (state (enter cfg (Some st))) = STATUS_PAUSING
           ∨ CurrentFlowStatus (state (enter cfg (Some st))) = STATUS_PAUSED)) as H0
    by (by split).
  split; [|split].
  - intros Halive Hstays.
    pose proof (blocked_runQRepFlow FSH w Hq1 Hq2 Halive Hstays _ r m H0 Hrun) as Hinv.
    destruct r; [done|]. by injection Hh as <- <-.
  - intros pre err post Hrecv Halive Hstays.
    pose proof (cancelled_runQRepFlow FSH w Hq1 Hq2 pre post err Hrecv Halive Hstays
                  _ r m H0 Hrun) as Hinv.
    destruct r; [done|]. by injection Hh as <- <-.
  - intros pre val post Hrecv Halive Hstays Hval.
    pose proof (resumes_runQRepFlow FSH w Hq1 Hq2 pre post val Hrecv Halive Hstays Hval
                  _ r m H0 Hrun) as Hinv.
    destruct r; [done|]. injection Hh as <- <-.
    destruct Hinv as (rest & Hne & Htr). exists rest. split; [done|].
    rewrite Htr. by rewrite <- !app_assoc.
Qed.

(** X18 at concrete inputs, where its hypotheses hold. *)
Lemma pause_gate_witness :
  (CurrentFlowStatus scenario.paused = STATUS_PAUSING
   ∨ CurrentFlowStatus scenario.paused = STATUS_PAUSED)
  ∧ QRepFlowWorkflow scenario.FlowSignalHandler scenario.resuming
      (scenario.mirror QREP_WRITE_MODE_APPEND false false) (Some scenario.paused)
    = (scenario.resumedRun.1, scenario.resumedRun.2)
  ∧ pauseReceives scenario.resuming = [] ++ Received NoopSignal :: []
  ∧ scenario.FlowSignalHandler PauseSignal NoopSignal ≠ PauseSignal
  ∧ ∃ rest,
      rest ≠ []
      ∧ trace scenario.resumedRun.2
        = ([SetQueryHandler QRepFlowStateQuery; SetQueryHandler FlowStatusQuery] ++
           (if IsRootWorkflow scenario.resuming
            then [syncStatusToCatalog STATUS_PAUSED] else [])) ++
          (if IsRootWorkflow scenario.resuming
           then [syncStatusToCatalog STATUS_RUNNING] else []) ++
          rest.
Proof.
  assert (CurrentFlowStatus scenario.paused = STATUS_PAUSING
          ∨ CurrentFlowStatus scenario.paused = STATUS_PAUSED) as Hp
    by (right; reflexivity).
  assert (QRepFlowWorkflow scenario.FlowSignalHandler scenario.resuming
            (scenario.mirror QREP_WRITE_MODE_APPEND false false) (Some scenario.paused)
          = (scenario.resumedRun.1, scenario.resumedRun.2)) as Hrun
    by (vm_compute; reflexivity).
  assert (answer scenario.resuming [] (SetQueryHandler QRepFlowStateQuery) = None)
    as Hq1 by reflexivity.
  assert (answer scenario.resuming [SetQueryHandler QRepFlowStateQuery]
            (SetQueryHandler FlowStatusQuery) = None) as Hq2 by reflexivity.
  assert (pauseReceives scenario.resuming = [] ++ Received NoopSignal :: []) as Hrecv
    by reflexivity.
  assert (scenario.FlowSignalHandler PauseSignal NoopSignal ≠ PauseSignal) as Hval
    by discriminate.
  split; [exact Hp|]. split; [exact Hrun|]. split; [exact Hrecv|]. split; [exact Hval|].
  exact (proj2 (proj2 (pause_gate _ _ _ _ _ _ Hp Hq1 Hq2 Hrun)) [] NoopSignal []
           Hrecv (Forall_nil_2 _) (staysPaused_nil _) Hval).
Defined.

(** ** The status a cycle hands over *)

Section handed_status.
Context (FSH : CDCFlowSignal → CDCFlowSignal → CDCFlowSignal) (w : World).

Let NP (m : Mach) : Prop :=
  CurrentFlowStatus (state m) ≠ STATUS_PAUSED
  ∧ CurrentFlowStatus (state m) ≠ STATUS_PAUSING.
Let good (m : Mach) : Prop :=
  (CurrentFlowStatus (state m) = STATUS_PAUSED ↔ activeSignal m = PauseSignal)
  ∧ CurrentFlowStatus (state m) ≠ STATUS_PAUSING.
Let Q (h : halt) (m : Mach) : Prop := ∀ c s, h = ContinueAsNew c s → good m.

Lemma handed_status_setupCycle : hoare (λ _, True) (setupCycle FSH w) (λ _, NP) Q.
Proof.
  unfold setupCycle.
  apply (hoare_bind _ _ _ (λ _ _, True)).
  { unfold setWorkflowQueries. hsteps; done. }
  intros _. apply hoare_get_state. intros m0 _.
  case_bool_decide as Hdone; [by hstep|].
  apply (hoare_bind _ _ _ (λ _, NP)).
  { case_bool_decide as Hp.
    - eapply hoare_weaken with (P' := λ _, True) (R' := λ _, NP) (Q' := Q);
        [|done..].
      unfold updateStatus.
      apply (hoare_bind _ _ _ (λ _ _, True)); [hsteps; done|]. intros _.
      apply (hoare_bind _ _ _ (λ _ _, True)); [hsteps; done|]. intros _.
      apply (hoare_bind _ _ _ (λ _ _, True)); [hsteps; done|]. intros _.
      apply (hoare_bind _ _ _ (λ _, NP)); [hstep; by intros m _|]. intros _.
      hsteps; done.
    - hstep. intros m [_ ->]. split; intros ?; apply Hp; auto. }
  intros _.
  do 2 unfold setupWatermarkTableOnDestination, setupTableSchema, SetupMetadataTables,
    handleTableCreationForResync, waitForNewRows.
  hsteps.
  all: try done.
Qed.

Lemma handed_status_replicateCycle (k : Z) (fr : bool) :
  hoare (λ m, NP m ∧ activeSignal m ≠ PauseSignal) (replicateCycle w k fr) (λ _, NP) Q.
Proof.
  hunfold. hsteps.
  all: try done.
  all: try (by intros m [? ?]).
  all: try (by intros m err [? ?]).
  - right. intros m _. by split; intros c s [=].
  - intros m [[Hp1 Hp2] Hp3] c s _. by split; [split; intros ?|].
Qed.

Lemma handed_status_finishCycle : hoare NP (finishCycle FSH w) (λ _ _, False) Q.
Proof.
  unfold finishCycle.
  apply (hoare_bind _ _ _ (λ _, NP)); [hsteps; done|]. intros _.
  apply hoare_get_activeSignal. intros m0 Hm0.
  apply (hoare_bind _ _ _ (λ _, good)).
  { case_bool_decide as Hsig.
    - unfold updateStatus.
      apply (hoare_bind _ _ _ (λ _, good)).
      + hstep. intros m [_ ->]. by split.
      + intros _. hsteps; done.
    - hstep. intros m [[Hp1 Hp2] ->]. by split. }
  intros _. hsteps. by intros m Hm c s _.
Qed.

Lemma handed_status_runQRepFlow :
  hoare (λ _, True) (runQRepFlow FSH w) (λ _ _, False) Q.
Proof.
  unfold runQRepFlow. eapply hoare_bind; [apply handed_status_setupCycle|]. intros locals.
  apply hoare_get_activeSignal. intros m0 Hm0.
  eapply hoare_bind; [|intros ?; apply handed_status_finishCycle].
  case_bool_decide as Hsig.
  - eapply hoare_weaken; [apply handed_status_replicateCycle| |done|done].
    by intros m [? ->].
  - hstep. by intros m [? _].
Qed.

End handed_status.

Section signals.
Context (FSH : CDCFlowSignal → CDCFlowSignal → CDCFlowSignal) (w : World).

(** The flush handles every buffered signal, in order. *)
Lemma flushSignals_fold (pending : list CDCFlowSignal) (m : Mach) :
  flushSignals FSH pending m
  = (inl (), with_activeSignal (foldl FSH (activeSignal m) pending) m).
Proof.
  revert m. induction pending as [|val rest IH]; intros m; simpl.
  - by destruct m.
  - wsimpl. by rewrite IH.
Qed.

Lemma finishCycle_signal (m : Mach) r m1 :
  finishCycle FSH w m = (r, m1) →
  activeSignal m1 = foldl FSH (activeSignal m) (pendingSignals w).
Proof.
  unfold finishCycle, updateStatus. wsimpl. rewrite flushSignals_fold. wsimpl.
  case_bool_decide; destruct (IsRootWorkflow w); wsimpl; by intros [= <- <-].
Qed.

Lemma replicateCycle_signal (k : Z) (fr : bool) (sig : CDCFlowSignal) :
  hoare (λ m, activeSignal m = sig) (replicateCycle w k fr)
        (λ _ m, activeSignal m = sig) (λ _ _, True).
Proof.
  hunfold. hsteps.
  all: try done.
  by right.
Qed.

(** Without a signal, the wait for new rows leaves the active signal. *)
Lemma hoare_waitSelectLoop_noSignal (P : Mach → Prop) (Q : halt → Mach → Prop)
    (selects : list SelectEvent) :
  Forall noSignal selects →
  (∀ m, P m → Q Stuck m) → (∀ m err, P m → Q (Errored err) m) →
  hoare P (waitSelectLoop FSH selects) (λ _, P) Q.
Proof.
  intros Hno Hstuck Herr.
  destruct Hno as [|[val|[err|]|err] rest Hsel _]; simpl; try (by destruct Hsel);
    repeat (hstep; auto).
Qed.

Lemma setupCycle_signal (sig : CDCFlowSignal) :
  Forall noSignal (waitSelects w) →
  hoare (λ m, activeSignal m = sig
              ∧ CurrentFlowStatus (state m) ≠ STATUS_PAUSING
              ∧ CurrentFlowStatus (state m) ≠ STATUS_PAUSED)
        (setupCycle FSH w) (λ _ m, activeSignal m = sig) (λ _ _, True).
Proof.
  intros Hno. unfold setupCycle.
  eapply hoare_bind with (R := λ _ m, activeSignal m = sig
              ∧ CurrentFlowStatus (state m) ≠ STATUS_PAUSING
              ∧ CurrentFlowStatus (state m) ≠ STATUS_PAUSED).
  { unfold setWorkflowQueries. hsteps; done. }
  intros _. apply hoare_get_state. intros m0 (Hsig0 & Hn1 & Hn2).
  case_bool_decide as Hdone; [by hstep|].
  rewrite bool_decide_eq_false_2 by (by intros []).
  eapply hoare_weaken with (P' := λ m, activeSignal m = sig)
    (R' := λ _ m, activeSignal m = sig) (Q' := λ _ _, True);
    [|by intros m [[? _] _] | done | done].
  do 2 unfold setupWatermarkTableOnDestination, setupTableSchema, SetupMetadataTables,
    handleTableCreationForResync, waitForNewRows.
  repeat first
    [ apply hoare_waitSelectLoop_noSignal
    | hstep
    | lazymatch goal with
      | |- hoare _ (match WriteMode ?c with _ => _ end) _ _ => destruct (WriteMode c) eqn:?
      end ].
  all: try done.
Qed.

End signals.


Section continuation.
Context (FSH : CDCFlowSignal → CDCFlowSignal → CDCFlowSignal) (w : World).

(** A cycle that is not an initial copy continues as new from the flush:
    the active signal it leaves is the one the first part left, folded over
    the buffered signals, and discovery was skipped exactly when the first
    part left the pause signal. *)
Lemma continuation_signal (cfg : QRepConfig) (st : option QRepFlowState) c s m' :
  QRepFlowWorkflow FSH w cfg st = (ContinueAsNew c s, m') →
  InitialCopyOnly cfg = false →
  ∃ k fr m1,
    setupCycle FSH w (enter cfg st) = (inl (k, fr), m1)
    ∧ activeSignal m' = foldl FSH (activeSignal m1) (pendingSignals w)
    ∧ (activeSignal m1 = PauseSignal ↔ discoveryRan (trace m') = false).
Proof.
  intros Hrun Hico.
  apply QRepFlowWorkflow_inv in Hrun as [Hsetup | (k & fr & m1 & Hsetup & Hrest)].
  { apply setupCycle_spec in Hsetup as (Hno & _). exfalso. by eapply Hno. }
  exists k, fr, m1. split; [done|].
  apply setupCycle_spec in Hsetup
    as (_ & _ & evs1 & created & evs2 & Htr & Hok1 & Hok2 & Hcr & Hval).
  simpl in Htr, Hval, Hcr.
  destruct (Hval _ _ eq_refl) as (_ & _ & Hcfg1 & _).
  assert (InitialCopyOnly (config m1) = false) as Hico1.
  { rewrite Hcfg1. by destruct (_ && _). }
  assert (discoveryRan (trace m1) = false) as Hd1.
  { rewrite Htr, !discoveryRan_app, (auxiliary_no_discovery _ Hok1),
      (auxiliary_no_discovery _ Hok2), (created_no_discovery' _ _ _ Hcr). done. }
  destruct Hrest as [[Hsig Hfin] | [Hsig [Hrep | (m2 & Hrep & Hfin)]]].
  - split; [by eapply finishCycle_signal|]. split; [|done]. intros _.
    apply finishCycle_spec in Hfin as [_ (_ & _ & evs3 & -> & Hok3)].
    by rewrite discoveryRan_app, Hd1, (auxiliary_no_discovery _ Hok3).
  - apply replicateCycle_spec in Hrep as (? & ? & _ & _ & _ & _ & _ & _ & _ & Hcont).
    destruct (Hcont _ _ eq_refl) as (Hico' & _). congruence.
  - pose proof (replicateCycle_signal w k fr (activeSignal m1) m1 _ _ eq_refl Hrep) as Hs2.
    simpl in Hs2. split; [rewrite <- Hs2; by eapply finishCycle_signal|].
    apply replicateCycle_spec in Hrep as (started & tail & Htr2 & _).
    apply finishCycle_spec in Hfin as [_ (_ & _ & evs3 & -> & Hok3)].
    rewrite Htr2, !discoveryRan_app. simpl. rewrite orb_true_r. simpl.
    split; [done | discriminate].
Qed.

End continuation.

(** X19.  The status a cycle hands to the next one.  When the workflow
    continues as new, the state it passes on has the status PAUSED exactly
    when the active signal it leaves is the pause signal, and never the
    status PAUSING.  Unless the cycle is an initial copy, the active signal
    it leaves is the one the first part of the cycle left, folded with the
    signal handler over every signal buffered in the channel, in order; and
    the first part left the pause signal exactly when discovery was skipped.
    So when the cycle is entered neither paused nor pausing and no signal
    arrives during the wait for new rows, the cycle replicates, and hands on
    PAUSED exactly when the buffered signals, folded from the no-op signal,
    give the pause signal: a pause buffered during the cycle takes effect in
    the next one. *)
Theorem continuation_status (FSH : CDCFlowSignal → CDCFlowSignal → CDCFlowSignal)
    (w : World) (cfg : QRepConfig) (st : option QRepFlowState) c s m' :
  QRepFlowWorkflow FSH w cfg st = (ContinueAsNew c s, m') →
  (CurrentFlowStatus s = STATUS_PAUSED ↔ activeSignal m' = PauseSignal)
  ∧ CurrentFlowStatus s ≠ STATUS_PAUSING
  ∧ (InitialCopyOnly cfg = false →
     ∃ sig0, activeSignal m' = foldl FSH sig0 (pendingSignals w)
             ∧ (sig0 = PauseSignal ↔ discoveryRan (trace m') = false))
  ∧ (InitialCopyOnly cfg = false →
     CurrentFlowStatus (default newQRepFlowState st) ≠ STATUS_PAUSING →
     CurrentFlowStatus (default newQRepFlowState st) ≠ STATUS_PAUSED →
     Forall noSignal (waitSelects w) →
     activeSignal m' = foldl FSH NoopSignal (pendingSignals w)
     ∧ discoveryRan (trace m') = true
     ∧ (CurrentFlowStatus s = STATUS_PAUSED
        ↔ foldl FSH NoopSignal (pendingSignals w) = PauseSignal)).
Proof.
  intros Hrun.
  assert ((CurrentFlowStatus s = STATUS_PAUSED ↔ activeSignal m' = PauseSignal)
          ∧ CurrentFlowStatus s ≠ STATUS_PAUSING) as [Hst Hnp].
  { destruct (cycle_continues FSH w cfg st c s m' Hrun) as (_ & -> & _).
    unfold QRepFlowWorkflow in Hrun.
    destruct (runQRepFlow FSH w (enter cfg st)) as [r m] eqn:E.
    pose proof (handed_status_runQRepFlow FSH w (enter cfg st) r m I E) as Hinv.
    destruct r as [a|h]; [done|]. injection Hrun as -> ->.
    by apply (Hinv c (state m')). }
  split; [done|]. split; [done|]. split.
  - intros Hico.
    destruct (continuation_signal FSH w cfg st c s m' Hrun Hico)
      as (k & fr & m1 & _ & Hsig & Hd).
    by exists (activeSignal m1).
  - intros Hico Hn1 Hn2 Hno.
    destruct (continuation_signal FSH w cfg st c s m' Hrun Hico)
      as (k & fr & m1 & Hsetup & Hsig & Hd).
    pose proof (setupCycle_signal FSH w NoopSignal Hno (enter cfg st) _ _
                  (conj eq_refl (conj Hn1 Hn2)) Hsetup) as Hs1.
    simpl in Hs1. rewrite Hs1 in Hsig, Hd.
    split; [done|]. split.
    + destruct (discoveryRan (trace m')); [done|]. destruct Hd as [_ Hd].
      by specialize (Hd eq_refl).
    + by rewrite <- Hsig.
Qed.

(** X19 at concrete inputs, where its hypotheses hold. *)
Lemma continuation_status_witness :
  QRepFlowWorkflow scenario.FlowSignalHandler scenario.pausing
    (scenario.mirror QREP_WRITE_MODE_APPEND false false)
    (Some (scenario.running scenario.p0 false))
  = (ContinueAsNew (config scenario.pausingRun.2) (state scenario.pausingRun.2),
     scenario.pausingRun.2)
  ∧ activeSignal scenario.pausingRun.2 = PauseSignal
  ∧ discoveryRan (trace scenario.pausingRun.2) = true
  ∧ CurrentFlowStatus (state scenario.pausingRun.2) = STATUS_PAUSED.
Proof.
  assert (QRepFlowWorkflow scenario.FlowSignalHandler scenario.pausing
            (scenario.mirror QREP_WRITE_MODE_APPEND false false)
            (Some (scenario.running scenario.p0 false))
          = (ContinueAsNew (config scenario.pausingRun.2) (state scenario.pausingRun.2),
             scenario.pausingRun.2)) as Hrun
    by (vm_compute; reflexivity).
  assert (Forall noSignal (waitSelects scenario.pausing)) as Hno
    by (repeat constructor).
  assert (CurrentFlowStatus (default newQRepFlowState
            (Some (scenario.running scenario.p0 false))) ≠ STATUS_PAUSING) as Hn1
    by discriminate.
  assert (CurrentFlowStatus (default newQRepFlowState
            (Some (scenario.running scenario.p0 false))) ≠ STATUS_PAUSED) as Hn2
    by discriminate.
  split; [exact Hrun|].
  destruct (proj2 (proj2 (proj2 (continuation_status _ _ _ _ _ _ _ Hrun)))
              eq_refl Hn1 Hn2 Hno)
    as (Hsig & Hd & Hst).
  split; [exact Hsig|]. split; [exact Hd|]. by apply Hst.
Defined.

Import snapshotflow.

(** ** The snapshot flow *)

Lemma emits_ret P {A} (a : A) : emits P (mret a : M A).
Proof. intros tr r tr' [= <- <-]. exists []. by rewrite app_nil_r. Qed.

Lemma emits_stop P {A} h : emits P (stop h : M A).
Proof. intros tr r tr' [= <- <-]. exists []. by rewrite app_nil_r. Qed.

Lemma emits_record (P : Event → Prop) e : P e → emits P (record e).
Proof. intros He tr r tr' [= <- <-]. exists [e]. split; [done|]. by constructor. Qed.

Lemma emits_call (P : Event → Prop) w e : P e → emits P (call w e).
Proof.
  intros He tr r tr'. unfold call. destruct (answer w tr e); intros [= <- <-];
    (exists [e]; split; [done|]; by constructor).
Qed.

Lemma emits_bind P {A B} (c : M A) (f : A → M B) :
  emits P c → (∀ a, emits P (f a)) → emits P (c ≫= f).
Proof.
  intros Hc Hf tr r tr'. unfold mbind, M_bind.
  destruct (c tr) as [[a|h] tr1] eqn:E; destruct (Hc _ _ _ E) as (evs1 & -> & H1).
  - intros E2. destruct (Hf a _ _ _ E2) as (evs2 & -> & H2).
    exists (evs1 ++ evs2). split; [by rewrite app_assoc|]. by apply Forall_app.
  - intros [= <- <-]. by exists evs1.
Qed.

Lemma emits_wrapErr P {A} pre (c : M A) : emits P c → emits P (wrapErr pre c).
Proof.
  intros Hc tr r tr'. unfold wrapErr.
  destruct (c tr) as [[a|[err|]] tr1] eqn:E; destruct (Hc _ _ _ E) as (evs1 & -> & H1);
    intros [= <- <-]; by exists evs1.
Qed.

Lemma emits_defer P {A B} (d : M B) (c : M A) :
  emits P d → emits P c → emits P (defer d c).
Proof.
  intros Hd Hc tr r tr'. unfold defer.
  destruct (c tr) as [r1 tr1] eqn:E; destruct (Hc _ _ _ E) as (evs1 & -> & H1).
  destruct (d (tr ++ evs1)) as [r2 tr2] eqn:E2; destruct (Hd _ _ _ E2) as (evs2 & -> & H2).
  intros [= <- <-]. exists (evs1 ++ evs2). split; [by rewrite app_assoc|]. by apply Forall_app.
Qed.

Lemma emits_mono (P Q : Event → Prop) {A} (c : M A) :
  (∀ e, P e → Q e) → emits P c → emits Q c.
Proof.
  intros HPQ Hc tr r tr' E. destruct (Hc _ _ _ E) as (evs & -> & H).
  exists evs. split; [done|]. eapply Forall_impl; eauto.
Qed.

Ltac emits_step :=
  lazymatch goal with
  | |- emits _ (mret _) => apply emits_ret
  | |- emits _ (stop _) => apply emits_stop
  | |- emits _ (mbind _ _) => apply emits_bind; [|intros ?]
  | |- emits _ (wrapErr _ _) => apply emits_wrapErr
  | |- emits _ (defer _ _) => apply emits_defer
  | |- emits _ (record _) => apply emits_record
  | |- emits _ (call _ _) => apply emits_call
  | |- emits _ (if ?b then _ else _) => destruct b
  | |- emits _ (match ?x with _ => _ end) => destruct x
  end.

Section snapshot_facts.
Context (Replace : string → string).
Context (SchemaTable : Type).
Context (ParseSchemaTable : string → SchemaTable + error).
Context (String_ MySQL : SchemaTable → string).
Context (QuoteIdentifier : string → string).
Context (w : World).
Context (config : FlowConnectionConfigs).

#[local] Abbreviation cloneTable' :=
  (cloneTable Replace SchemaTable ParseSchemaTable String_ MySQL QuoteIdentifier w config).
#[local] Abbreviation cloneLoop' :=
  (cloneLoop Replace SchemaTable ParseSchemaTable String_ MySQL QuoteIdentifier w config).
#[local] Abbreviation cloneTables' :=
  (cloneTables Replace SchemaTable ParseSchemaTable String_ MySQL QuoteIdentifier w config).
#[local] Abbreviation cloneTablesWithSlot' :=
  (cloneTablesWithSlot Replace SchemaTable ParseSchemaTable String_ MySQL QuoteIdentifier w config).
#[local] Abbreviation SnapshotFlowWorkflow' :=
  (SnapshotFlowWorkflow Replace SchemaTable ParseSchemaTable String_ MySQL QuoteIdentifier w config).

Lemma emits_cloneTable snapshotName mapping :
  emits ofCloneTable (cloneTable' snapshotName mapping).
Proof.
  unfold cloneTable, initTableSchema, peerTypeOf.
  repeat first [emits_step | exact I].
Qed.

Lemma emits_cloneLoop snapshotName col mappings :
  emits ofCloneTable (cloneLoop' snapshotName col mappings).
Proof.
  induction mappings as [|v rest IH]; simpl; [apply emits_ret|].
  intros tr r tr'.
  destruct (cloneTable' _ _ tr) as [r1 tr1] eqn:E.
  destruct (emits_cloneTable _ _ _ _ _ E) as (evs1 & -> & H1).
  assert (∀ r tr', cloneLoop' snapshotName col rest (tr ++ evs1) = (r, tr') →
            ∃ evs, tr' = tr ++ evs ∧ Forall ofCloneTable evs) as Hrest.
  { intros r2 tr2 E2. destruct (IH _ _ _ E2) as (evs2 & -> & H2).
    exists (evs1 ++ evs2). split; [by rewrite app_assoc|]. by apply Forall_app. }
  destruct r1 as [[]|[err|]]; [by apply Hrest..|].
  intros [= <- <-]. by exists evs1.
Qed.

Lemma emits_cloneTables P st slot snap tid n :
  (∀ e, ofCloneTable e → P e) → P (NewBoundSelector n) → P Wait →
  emits P (cloneTables' st slot snap tid n).
Proof.
  intros H1 H2 H3. unfold cloneTables.
  repeat first [eapply emits_mono; [exact H1|apply emits_cloneLoop] | emits_step | done].
Qed.

End snapshot_facts.

Lemma children_app tr1 tr2 : children (tr1 ++ tr2) = children tr1 ++ children tr2.
Proof. unfold children. by rewrite omap_app. Qed.

Lemma children_none evs :
  Forall (λ e, isSpawnChild e = false) evs → children evs = [].
Proof.
  induction 1 as [|e evs He _ IH]; [done|].
  unfold children in *. by destruct e.
Qed.

Lemma string_app_nil (s : string) : s +:+ "" = s.
Proof.
  induction s as [|a s IH]; [done|].
  change (String a (s +:+ "") = String a s). by rewrite IH.
Qed.

Ltac goal_bool_decide :=
  match goal with
  | |- context [bool_decide ?P] =>
      destruct (decide P);
      [rewrite (bool_decide_eq_true_2 P) by assumption
      |rewrite (bool_decide_eq_false_2 P) by assumption]
  end.

Section clone_facts.
Context (Replace : string → string).
Context (SchemaTable : Type).
Context (ParseSchemaTable : string → SchemaTable + error).
Context (String_ MySQL : SchemaTable → string).
Context (QuoteIdentifier : string → string).
Context (w : snapshotflow.World).
Context (config : FlowConnectionConfigs).

#[local] Abbreviation cloneTable' :=
  (cloneTable Replace SchemaTable ParseSchemaTable String_ MySQL QuoteIdentifier w config).
#[local] Abbreviation cloneLoop' :=
  (cloneLoop Replace SchemaTable ParseSchemaTable String_ MySQL QuoteIdentifier w config).
#[local] Abbreviation cloneTables' :=
  (cloneTables Replace SchemaTable ParseSchemaTable String_ MySQL QuoteIdentifier w config).

#[local] Abbreviation childID := (snapshotflow.childID Replace w config).

(** [cloneTable] loads the schema at most once, never panics, and starts
    the child last, when nothing failed. *)
Lemma cloneTable_spec snapshotName mapping tr r tr' :
  cloneTable' snapshotName mapping tr = (r, tr') →
  ∃ evs, tr' = tr ++ evs
    ∧ (length (filter (λ e, isLoadTableSchema e = true) evs) ≤ 1)%nat
    ∧ match r with
      | inl _ =>
          ∃ pre c rest,
            evs = pre ++ [SpawnChild (childID mapping) c rest]
            ∧ Forall (λ e, isSpawnChild e = false) pre
            ∧ clones w config snapshotName mapping (childID mapping) c rest
      | inr h => Forall (λ e, isSpawnChild e = false) evs ∧ h ≠ snapshotflow.Panicked
      end.
Proof.
  unfold cloneTable, initTableSchema, peerTypeOf, call, snapshotflow.record, snapshotflow.stop,
    mbind, M_bind, mret, M_ret.
  change (Replace _) with (childID mapping).
  destruct (ParseSchemaTable _) as [parsed|err].
  2:{ intros [= <- <-]. exists []. rewrite app_nil_r.
      split; [done|]. split; [simpl; lia|]. by split; [constructor|]. }
  intros Hrun.
  repeat match type of Hrun with
  | context [snapshotflow.answer w ?t ?e] =>
      destruct (snapshotflow.answer w t e) eqn:?;
      cbv beta iota zeta in Hrun; cbn [fst snd] in Hrun
  | context [bool_decide (len ?x ≠ 0)] =>
      destruct (bool_decide (len x ≠ 0)) eqn:Hex;
      cbv beta iota zeta in Hrun; cbn [fst snd] in Hrun
  | context [bool_decide (?x = DBType_ELASTICSEARCH)] =>
      destruct (bool_decide (x = DBType_ELASTICSEARCH)) eqn:Hes;
      cbv beta iota zeta in Hrun; cbn [fst snd] in Hrun
  end.
  all: injection Hrun as <- <-.
  all: rewrite <- ?(assoc_L (++)).
  all: eexists; split; [reflexivity|].
  all: split; [simpl; repeat (rewrite filter_cons; simpl; case_decide; try done); simpl; lia|].
  all: try (split; [by repeat constructor|done]).
  all: rewrite ?(assoc_L (++)).
  all: eexists _, _, _; split; [reflexivity|].
  all: split; [by repeat constructor|].
  all: unfold clones; cbn [protos.FlowJobName protos.WatermarkTable
         protos.DestinationTableIdentifier protos.InitialCopyOnly
         protos.DstTableFullResync protos.WriteMode protos.MaxParallelWorkers
         NumRowsPerPartition SnapshotName WatermarkColumn ParentMirrorName Query].
  all: rewrite Hes.
  all: do 6 (split; [done|]).
  all: do 2 (split; [goal_bool_decide; lia|]).
  all: do 3 (split; [done|]).
  all: eexists _, _; split;
    [goal_bool_decide; [by rewrite string_app_nil|reflexivity]|].
  all: try done.
  all: intros Hnil; rewrite Hnil in Hex; done.
Qed.

End clone_facts.

Section snapshot_runs.
Context (Replace : string → string).
Context (SchemaTable : Type).
Context (ParseSchemaTable : string → SchemaTable + error).
Context (String_ MySQL : SchemaTable → string).
Context (QuoteIdentifier : string → string).
Context (w : snapshotflow.World).
Context (config : FlowConnectionConfigs).

#[local] Abbreviation cloneTable' :=
  (cloneTable Replace SchemaTable ParseSchemaTable String_ MySQL QuoteIdentifier w config).
#[local] Abbreviation cloneLoop' :=
  (cloneLoop Replace SchemaTable ParseSchemaTable String_ MySQL QuoteIdentifier w config).
#[local] Abbreviation cloneTables' :=
  (cloneTables Replace SchemaTable ParseSchemaTable String_ MySQL QuoteIdentifier w config).
#[local] Abbreviation childID' := (snapshotflow.childID Replace w config).

Lemma cloneTable_succeeds snapshotName mapping tr r tr' :
  (∀ tr e, snapshotflow.answer w tr e = None) →
  is_Some (match ParseSchemaTable (SourceTableIdentifier mapping) with
           | inl p => Some p | inr _ => None end) →
  cloneTable' snapshotName mapping tr = (r, tr') → r = inl ().
Proof.
  intros Hans [p Hp].
  unfold cloneTable, initTableSchema, peerTypeOf, call, snapshotflow.record, snapshotflow.stop,
    mbind, M_bind, mret, M_ret.
  destruct (ParseSchemaTable _) as [parsed|err]; [|done].
  intros Hrun.
  repeat match type of Hrun with
  | context [snapshotflow.answer w ?t ?e] =>
      rewrite (Hans t e) in Hrun;
      cbv beta iota zeta in Hrun; cbn [fst snd] in Hrun
  | context [bool_decide (len ?x ≠ 0)] =>
      destruct (bool_decide (len x ≠ 0)) eqn:Hex;
      cbv beta iota zeta in Hrun; cbn [fst snd] in Hrun
  | context [bool_decide (?x = DBType_ELASTICSEARCH)] =>
      destruct (bool_decide (x = DBType_ELASTICSEARCH)) eqn:Hes;
      cbv beta iota zeta in Hrun; cbn [fst snd] in Hrun
  end.
  all: by injection Hrun as <- <-.
Qed.

(** The loop of [cloneTables]: the children started are those of a
    sub-list of the mappings, in order. *)
Lemma cloneLoop_spec snapshotName col mappings tr r tr' :
  cloneLoop' snapshotName col mappings tr = (r, tr') →
  r = inl ()
  ∧ ∃ evs cloned,
      tr' = tr ++ evs
      ∧ Forall ofCloneTable evs
      ∧ cloned `sublist_of` mappings
      ∧ Forall2 (λ v child,
           let v' := withDefaultPartitionKey col v in
           child.1.1 = childID' v'
           ∧ clones w config snapshotName v' child.1.1 child.1.2 child.2)
          cloned (children evs)
      ∧ (length (filter (λ e, isLoadTableSchema e = true) evs) ≤ length mappings)%nat
      ∧ ((∀ tr e, snapshotflow.answer w tr e = None) →
         Forall (λ v, is_Some (match ParseSchemaTable (SourceTableIdentifier v) with
                               | inl p => Some p | inr _ => None end)) mappings →
         cloned = mappings).
Proof.
  revert tr r tr'. induction mappings as [|v rest IH]; intros tr r tr'.
  { intros [= <- <-]. split; [done|]. exists [], []. rewrite app_nil_r.
    split; [done|]. split; [done|]. split; [done|]. split; [constructor|].
    split; [simpl; lia|done]. }
  simpl.
  destruct (cloneTable' _ _ tr) as [r1 tr1] eqn:E.
  pose proof (cloneTable_spec _ _ _ _ _ _ _ _ _ _ _ _ _ E) as (evs1 & -> & Hload & Hr1).
  pose proof (emits_cloneTable _ _ _ _ _ _ _ _ _ _ _ _ _ E) as (evs1' & Heq & Hof).
  apply app_inv_head in Heq as <-.
  assert (withDefaultPartitionKey col v = withDefaultPartitionKey col v) as _ by done.
  destruct r1 as [[]|[err|]].
  - intros E2. destruct (IH _ _ _ E2) as (-> & evs2 & cloned & -> & Hof2 & Hsub & Hall & Hl2 & Htot).
    split; [done|]. exists (evs1 ++ evs2), (v :: cloned).
    split; [by rewrite app_assoc|]. split; [by apply Forall_app|].
    split; [by apply sublist_skip|].
    destruct Hr1 as (pre & c & rst & -> & Hpre & Hcl).
    split.
    { rewrite !children_app, (children_none pre) by done. simpl.
      constructor; [|done]. by split. }
    split.
    { rewrite filter_app, length_app. simpl. lia. }
    intros Hans Hparse. inversion Hparse; subst. f_equal. by apply Htot.
  - intros E2. destruct (IH _ _ _ E2) as (-> & evs2 & cloned & -> & Hof2 & Hsub & Hall & Hl2 & Htot).
    split; [done|]. exists (evs1 ++ evs2), cloned.
    split; [by rewrite app_assoc|]. split; [by apply Forall_app|].
    split; [by apply sublist_cons|].
    destruct Hr1 as [Hnone _].
    split.
    { by rewrite children_app, (children_none evs1). }
    split.
    { rewrite filter_app, length_app. simpl. lia. }
    intros Hans Hparse. inversion Hparse; subst.
    assert (SourceTableIdentifier (withDefaultPartitionKey col v) = SourceTableIdentifier v)
      as Hsrc by (unfold withDefaultPartitionKey; by case_bool_decide).
    eapply cloneTable_succeeds in E; [done|done|by rewrite Hsrc].
  - by destruct Hr1.
Qed.

Lemma cloneTables_spec st slot snapshotName tid n tr r tr' :
  cloneTables' st slot snapshotName tid n tr = (r, tr') →
  ∃ evs cloned,
    tr' = tr ++ [NewBoundSelector n] ++ evs ++ [Wait]
    ∧ Forall ofCloneTable evs
    ∧ r = match snapshotflow.answer w (tr ++ [NewBoundSelector n] ++ evs) Wait with
          | None => inl ()
          | Some err => inr (snapshotflow.Errored err)
          end
    ∧ cloned `sublist_of` TableMappings config
    ∧ Forall2 (λ v child,
         let v' := withDefaultPartitionKey (defaultPartitionCol tid) v in
         child.1.1 = childID' v'
         ∧ clones w config snapshotName v' child.1.1 child.1.2 child.2)
        cloned (children evs)
    ∧ (length (filter (λ e, isLoadTableSchema e = true) evs)
       ≤ length (TableMappings config))%nat
    ∧ ((∀ tr e, snapshotflow.answer w tr e = None) →
       Forall (λ v, is_Some (match ParseSchemaTable (SourceTableIdentifier v) with
                             | inl p => Some p | inr _ => None end))
         (TableMappings config) →
       cloned = TableMappings config).
Proof.
  unfold cloneTables, mbind, M_bind, snapshotflow.record.
  destruct (cloneLoop' _ _ _ _) as [r1 tr1] eqn:E.
  apply cloneLoop_spec in E as (-> & evs & cloned & -> & Hof & Hsub & Hall & Hl & Htot).
  unfold call. intros Hrun. exists evs, cloned.
  rewrite <- !(assoc_L (++)) in *.
  destruct (snapshotflow.answer w _ Wait); injection Hrun as <- <-; by repeat split.
Qed.

End snapshot_runs.

Section snapshot_modes.
Context (Replace : string → string).
Context (SchemaTable : Type).
Context (ParseSchemaTable : string → SchemaTable + error).
Context (String_ MySQL : SchemaTable → string).
Context (QuoteIdentifier : string → string).
Context (w : snapshotflow.World).
Context (config : FlowConnectionConfigs).

#[local] Abbreviation cloneTables' :=
  (cloneTables Replace SchemaTable ParseSchemaTable String_ MySQL QuoteIdentifier w config).
#[local] Abbreviation SnapshotFlowWorkflow' :=
  (SnapshotFlowWorkflow Replace SchemaTable ParseSchemaTable String_ MySQL QuoteIdentifier
     w config).
#[local] Abbreviation setup := (SetupReplication (setupReplicationInput config)).
#[local] Abbreviation close := (CloseSlotKeepAlive (snapshotflow.FlowJobName config)).
#[local] Abbreviation fMaintain :=
  (MaintainTx (SessionID w) (snapshotflow.SourceName config) (snapshotflow.Env config)).
#[local] Abbreviation fExportSnapshot := (WaitForExportSnapshot (SessionID w)).
#[local] Abbreviation n := (Z.max (SnapshotNumTablesInParallel config) 1).

Lemma run_no_session err :
  snapshotflow.answer w [] CreateSession = Some err →
  SnapshotFlowWorkflow' []
  = (inr (snapshotflow.Errored (Errorf "failed to create session: " err)), [CreateSession]).
Proof.
  intros Hs. unfold SnapshotFlowWorkflow, mbind, M_bind, snapshotflow.wrapErr at 1, call at 1.
  by rewrite Hs.
Qed.

Lemma run_setup_only :
  snapshotflow.answer w [] CreateSession = None →
  DoInitialSnapshot config = false →
  SnapshotFlowWorkflow' []
  = match snapshotflow.answer w [CreateSession] setup with
    | Some err =>
        (inr (snapshotflow.Errored
                (Errorf "failed to setup replication: "
                   (Errorf "failed to setup replication on source peer: " err))),
         [CreateSession; setup; CompleteSession])
    | None =>
        (match snapshotflow.answer w [CreateSession; setup] close with
         | Some err =>
             inr (snapshotflow.Errored
                    (Errorf "failed to close slot keep alive: "
                       (Errorf "failed to close slot keep alive for peer flow: " err)))
         | None => inl ()
         end,
         [CreateSession; setup; close; CompleteSession])
    end.
Proof.
  intros Hs Hdo.
  unfold SnapshotFlowWorkflow, mbind, M_bind, snapshotflow.wrapErr at 1, call at 1.
  rewrite Hs, Hdo. cbn [negb app].
  unfold defer, setupReplication, closeSlotKeepAlive, snapshotflow.wrapErr, call, mbind, M_bind,
    snapshotflow.record.
  unfold mret, M_ret.
  destruct (snapshotflow.answer w [CreateSession] setup); [done|].
  cbv beta iota zeta. cbn [app].
  by destruct (snapshotflow.answer w [CreateSession; setup] close).
Qed.

Lemma run_slot_mode :
  snapshotflow.answer w [] CreateSession = None →
  DoInitialSnapshot config = true →
  InitialSnapshotOnly config = false →
  SnapshotFlowWorkflow' []
  = match snapshotflow.answer w [CreateSession] setup with
    | Some err =>
        (inr (snapshotflow.Errored
                (Errorf "failed to clone slots and create replication slot: "
                   (Errorf "failed to setup replication: "
                      (Errorf "failed to setup replication on source peer: " err)))),
         [CreateSession; setup; CompleteSession])
    | None =>
        let run :=
          cloneTables' SNAPSHOT_TYPE_SLOT (SlotName (slotInfo w))
            (sro_SnapshotName (slotInfo w)) (SupportsTidScans (slotInfo w)) n
            [CreateSession; setup] in
        (match run.1 with
         | inr (snapshotflow.Errored err) =>
             inr (snapshotflow.Errored
                    (Errorf "failed to clone slots and create replication slot: "
                       (Errorf "failed to clone tables: " err)))
         | r => r
         end,
         run.2 ++ [close; CompleteSession])
    end.
Proof.
  intros Hs Hdo Honly.
  unfold SnapshotFlowWorkflow, mbind, M_bind, snapshotflow.wrapErr at 1, call at 1.
  rewrite Hs, Hdo, Honly. cbn [negb app].
  unfold cloneTablesWithSlot, defer, setupReplication, closeSlotKeepAlive, mbind, M_bind,
    snapshotflow.record, snapshotflow.wrapErr, call, mret, M_ret.
  destruct (snapshotflow.answer w [CreateSession] setup); [done|].
  cbv beta iota zeta. cbn [app].
  destruct (cloneTables' _ _ _ _ _ _) as [r1 tr1]. cbn [fst snd].
  destruct r1 as [[]|[err|]]; cbn [fst snd];
    destruct (snapshotflow.answer w tr1 close); cbn [fst snd];
    by rewrite <- ?(assoc_L (++)).
Qed.

Lemma run_tx_mode :
  snapshotflow.answer w [] CreateSession = None →
  DoInitialSnapshot config = true →
  InitialSnapshotOnly config = true →
  SnapshotFlowWorkflow' []
  = match selected w with
    | SelMaintainTx =>
        (match snapshotflow.answer w [CreateSession] fMaintain with
         | Some sessionError => inr (snapshotflow.Errored sessionError)
         | None => inr snapshotflow.Panicked
         end,
         [CreateSession; fMaintain; fExportSnapshot; CompleteSession])
    | SelDone ctxErr =>
        (inr (snapshotflow.Errored ctxErr),
         [CreateSession; fMaintain; fExportSnapshot; CompleteSession])
    | SelExportSnapshot =>
        match snapshotflow.answer w [CreateSession; fMaintain] fExportSnapshot with
        | Some sessionError =>
            (inr (snapshotflow.Errored sessionError),
             [CreateSession; fMaintain; fExportSnapshot; CompleteSession])
        | None =>
            let run :=
              cloneTables' SNAPSHOT_TYPE_TX "" (tss_SnapshotName (txnSnapshotState w))
                (SupportsTIDScans (txnSnapshotState w)) n
                [CreateSession; fMaintain; fExportSnapshot] in
            (match run.1 with
             | inr (snapshotflow.Errored err) =>
                 inr (snapshotflow.Errored (Errorf "failed to clone tables: " err))
             | r => r
             end,
             run.2 ++ [CompleteSession])
        end
    end.
Proof.
  intros Hs Hdo Honly.
  unfold SnapshotFlowWorkflow, mbind, M_bind, snapshotflow.wrapErr at 1, call at 1.
  rewrite Hs, Hdo, Honly. cbn [negb app].
  unfold defer, snapshotflow.record, snapshotflow.stop. cbn [app].
  destruct (selected w).
  - by destruct (snapshotflow.answer w [CreateSession] fMaintain).
  - destruct (snapshotflow.answer w [CreateSession; fMaintain] fExportSnapshot); [done|].
    unfold snapshotflow.wrapErr.
    destruct (cloneTables' _ _ _ _ _ _) as [r1 tr1]. cbn [fst snd].
    by destruct r1 as [[]|[err|]].
  - done.
Qed.

End snapshot_modes.

Lemma ofCloneTable_not_session (e : snapshotflow.Event) :
  ofCloneTable e → isSession e = false.
Proof. by destruct e. Qed.

Lemma ofCloneTable_not_slot (e : snapshotflow.Event) :
  ofCloneTable e → isSetupReplication e = false ∧ isCloseSlotKeepAlive e = false.
Proof. by destruct e. Qed.

(** X20.  Whatever the mode and whatever fails, a session that was created
    is completed, once, as the last thing the workflow does; when the
    session cannot be created the workflow does nothing else and returns
    that error, wrapped. *)
Theorem session_always_completed (Replace : string → string) (SchemaTable : Type)
    (ParseSchemaTable : string → SchemaTable + error) (String_ MySQL : SchemaTable → string)
    (QuoteIdentifier : string → string) (w : snapshotflow.World)
    (config : FlowConnectionConfigs) r tr :
  SnapshotFlowWorkflow Replace SchemaTable ParseSchemaTable String_ MySQL QuoteIdentifier
    w config [] = (r, tr) →
  match snapshotflow.answer w [] CreateSession with
  | Some err =>
      r = inr (snapshotflow.Errored (Errorf "failed to create session: " err))
      ∧ tr = [CreateSession]
  | None =>
      ∃ mid, tr = [CreateSession] ++ mid ++ [CompleteSession]
             ∧ Forall (λ e, isSession e = false) mid
  end.
Proof.
  intros Hrun.
  destruct (snapshotflow.answer w [] CreateSession) as [err|] eqn:Hs.
  { rewrite (run_no_session _ _ _ _ _ _ _ _ _ Hs) in Hrun. by injection Hrun as <- <-. }
  destruct (DoInitialSnapshot config) eqn:Hdo.
  2:{ rewrite (run_setup_only _ _ _ _ _ _ _ _ Hs Hdo) in Hrun.
      destruct (snapshotflow.answer w [CreateSession] _); injection Hrun as <- <-.
      - eexists [_]. split; [reflexivity|]. by repeat constructor.
      - eexists [_; _]. split; [reflexivity|]. by repeat constructor. }
  destruct (InitialSnapshotOnly config) eqn:Honly.
  - rewrite (run_tx_mode _ _ _ _ _ _ _ _ Hs Hdo Honly) in Hrun.
    destruct (selected w).
    + injection Hrun as <- <-. eexists [_; _]. split; [reflexivity|]. by repeat constructor.
    + destruct (snapshotflow.answer w _ (WaitForExportSnapshot _)).
      { injection Hrun as <- <-. eexists [_; _]. split; [reflexivity|]. by repeat constructor. }
      cbv zeta in Hrun. destruct (cloneTables _ _ _ _ _ _ _ _ _ _ _ _ _ _) as [r1 tr1] eqn:E.
      injection Hrun as <- <-.
      apply cloneTables_spec in E as (evs & cloned & -> & Hof & _).
      eexists ([_; _] ++ [_] ++ evs ++ [Wait]). split.
      { cbn [fst snd app]. rewrite <- ?(assoc_L (++)). cbn [app]. by rewrite <- ?(assoc_L (++)). }
      repeat (first [apply Forall_app; split | apply Forall_cons; split | apply Forall_nil_2]);
        try done.
      eapply Forall_impl; [exact Hof|]. apply ofCloneTable_not_session.
    + injection Hrun as <- <-. eexists [_; _]. split; [reflexivity|]. by repeat constructor.
  - rewrite (run_slot_mode _ _ _ _ _ _ _ _ Hs Hdo Honly) in Hrun.
    destruct (snapshotflow.answer w [CreateSession] _).
    { injection Hrun as <- <-. eexists [_]. split; [reflexivity|]. by repeat constructor. }
    cbv zeta in Hrun. destruct (cloneTables _ _ _ _ _ _ _ _ _ _ _ _ _ _) as [r1 tr1] eqn:E.
    injection Hrun as <- <-.
    apply cloneTables_spec in E as (evs & cloned & -> & Hof & _).
    eexists ([_] ++ [_] ++ evs ++ [Wait; _]). split.
    { cbn [fst snd app]. rewrite <- ?(assoc_L (++)). cbn [app]. by rewrite <- ?(assoc_L (++)). }
    repeat (first [apply Forall_app; split | apply Forall_cons; split | apply Forall_nil_2]);
      try done.
    eapply Forall_impl; [exact Hof|]. apply ofCloneTable_not_session.
Qed.

(** X20 at concrete inputs, where its hypotheses hold. *)
Lemma session_always_completed_witness :
  SnapshotFlowWorkflow scenario.ReplaceIllegalCharactersWithUnderscores string
    scenario.ParseSchemaTable id id scenario.QuoteIdentifier scenario.snapshotWorld
    (scenario.snapshotConfig true false) []
  = ((scenario.snapshotRun true false).1, (scenario.snapshotRun true false).2)
  ∧ ∃ mid,
      (scenario.snapshotRun true false).2 = [CreateSession] ++ mid ++ [CompleteSession]
      ∧ Forall (λ e, isSession e = false) mid.
Proof.
  assert (SnapshotFlowWorkflow scenario.ReplaceIllegalCharactersWithUnderscores string
            scenario.ParseSchemaTable id id scenario.QuoteIdentifier
            scenario.snapshotWorld (scenario.snapshotConfig true false) []
          = ((scenario.snapshotRun true false).1, (scenario.snapshotRun true false).2))
    as Hrun by (vm_compute; reflexivity).
  split; [exact Hrun|].
  exact (session_always_completed _ _ _ _ _ _ _ _ _ _ Hrun).
Defined.

(** X21.  Outside the transaction mode, replication is set up first.  When
    that fails nothing else is called and the keep-alive of the slot is not
    closed; when it succeeds the keep-alive is closed exactly once, as the
    last call before the session is completed, whatever happened in
    between.  Without an initial snapshot a failure to close it fails the
    workflow; with one, the outcome is that of the wait for the clones
    alone: tables that could not be started and a failure to close the
    keep-alive do not show in it. *)
Theorem slot_keep_alive (Replace : string → string) (SchemaTable : Type)
    (ParseSchemaTable : string → SchemaTable + error) (String_ MySQL : SchemaTable → string)
    (QuoteIdentifier : string → string) (w : snapshotflow.World)
    (config : FlowConnectionConfigs) r tr :
  snapshotflow.answer w [] CreateSession = None →
  DoInitialSnapshot config && InitialSnapshotOnly config = false →
  SnapshotFlowWorkflow Replace SchemaTable ParseSchemaTable String_ MySQL QuoteIdentifier
    w config [] = (r, tr) →
  let setup := SetupReplication (setupReplicationInput config) in
  let close := CloseSlotKeepAlive (snapshotflow.FlowJobName config) in
  let n := Z.max (SnapshotNumTablesInParallel config) 1 in
  match snapshotflow.answer w [CreateSession] setup with
  | Some err =>
      tr = [CreateSession; setup; CompleteSession]
      ∧ r = inr (snapshotflow.Errored
                   (let err' :=
                      Errorf "failed to setup replication: "
                        (Errorf "failed to setup replication on source peer: " err) in
                    if DoInitialSnapshot config
                    then Errorf "failed to clone slots and create replication slot: " err'
                    else err'))
  | None =>
      ∃ mid,
        tr = [CreateSession; setup] ++ mid ++ [close; CompleteSession]
        ∧ Forall (λ e, isSetupReplication e = false ∧ isCloseSlotKeepAlive e = false) mid
        ∧ if DoInitialSnapshot config then
            ∃ evs,
              mid = [NewBoundSelector n] ++ evs ++ [Wait]
              ∧ Forall ofCloneTable evs
              ∧ r = match snapshotflow.answer w
                            ([CreateSession; setup; NewBoundSelector n] ++ evs) Wait with
                    | None => inl ()
                    | Some err =>
                        inr (snapshotflow.Errored
                               (Errorf "failed to clone slots and create replication slot: "
                                  (Errorf "failed to clone tables: " err)))
                    end
          else
            mid = []
            ∧ r = match snapshotflow.answer w [CreateSession; setup] close with
                  | None => inl ()
                  | Some err =>
                      inr (snapshotflow.Errored
                             (Errorf "failed to close slot keep alive: "
                                (Errorf "failed to close slot keep alive for peer flow: "
                                   err)))
                  end
  end.
Proof.
  intros Hs Hmode Hrun. cbv zeta.
  destruct (DoInitialSnapshot config) eqn:Hdo.
  2:{ rewrite (run_setup_only _ _ _ _ _ _ _ _ Hs Hdo) in Hrun.
      destruct (snapshotflow.answer w [CreateSession] _); injection Hrun as <- <-; [done|].
      exists []. by repeat split. }
  simpl in Hmode.
  rewrite (run_slot_mode _ _ _ _ _ _ _ _ Hs Hdo Hmode) in Hrun.
  destruct (snapshotflow.answer w [CreateSession] _); [by injection Hrun as <- <-|].
  cbv zeta in Hrun. destruct (cloneTables _ _ _ _ _ _ _ _ _ _ _ _ _ _) as [r1 tr1] eqn:E.
  injection Hrun as <- <-.
  apply cloneTables_spec in E as (evs & cloned & -> & Hof & -> & _).
  eexists ([_] ++ evs ++ [Wait]). split.
  { cbn [fst snd app]. rewrite <- ?(assoc_L (++)). cbn [app]. by rewrite <- ?(assoc_L (++)). }
  split.
  { repeat (first [apply Forall_app; split | apply Forall_cons; split | apply Forall_nil_2]);
      try done.
    eapply Forall_impl; [exact Hof|]. apply ofCloneTable_not_slot. }
  exists evs. split; [done|]. split; [done|].
  cbn [fst app]. by destruct (snapshotflow.answer w _ Wait).
Qed.

(** X21 at concrete inputs, where its hypotheses hold. *)
Lemma slot_keep_alive_witness :
  snapshotflow.answer scenario.snapshotWorld [] CreateSession = None
  ∧ DoInitialSnapshot (scenario.snapshotConfig false false)
    && InitialSnapshotOnly (scenario.snapshotConfig false false) = false
  ∧ SnapshotFlowWorkflow scenario.ReplaceIllegalCharactersWithUnderscores string
      scenario.ParseSchemaTable id id scenario.QuoteIdentifier scenario.snapshotWorld
      (scenario.snapshotConfig false false) []
    = ((scenario.snapshotRun false false).1, (scenario.snapshotRun false false).2)
  ∧ ∃ mid,
      (scenario.snapshotRun false false).2
      = [CreateSession;
         SetupReplication (setupReplicationInput (scenario.snapshotConfig false false))]
        ++ mid
        ++ [CloseSlotKeepAlive
              (snapshotflow.FlowJobName (scenario.snapshotConfig false false));
            CompleteSession]
      ∧ Forall (λ e, isSetupReplication e = false ∧ isCloseSlotKeepAlive e = false) mid
      ∧ mid = []
      ∧ (scenario.snapshotRun false false).1 = inl ().
Proof.
  assert (snapshotflow.answer scenario.snapshotWorld [] CreateSession = None) as Hs
    by reflexivity.
  assert (DoInitialSnapshot (scenario.snapshotConfig false false)
          && InitialSnapshotOnly (scenario.snapshotConfig false false) = false) as Hmode
    by reflexivity.
  assert (SnapshotFlowWorkflow scenario.ReplaceIllegalCharactersWithUnderscores string
            scenario.ParseSchemaTable id id scenario.QuoteIdentifier
            scenario.snapshotWorld (scenario.snapshotConfig false false) []
          = ((scenario.snapshotRun false false).1, (scenario.snapshotRun false false).2))
    as Hrun by (vm_compute; reflexivity).
  split; [exact Hs|]. split; [exact Hmode|]. split; [exact Hrun|].
  exact (slot_keep_alive _ _ _ _ _ _ _ _ _ _ Hs Hmode Hrun).
Defined.

(** X22.  The transaction mode (an initial snapshot and nothing after it):
    both activities are started, and what the selector delivers decides.
    A cancelled context or a failed activity ends the workflow with that
    error, not wrapped; [MaintainTx] ending without an error makes the
    workflow panic, since no snapshot was exported; only the export of the
    snapshot without an error lets the tables be cloned, and the outcome is
    then that of the wait for the clones.  Replication is never set up and
    no keep-alive is closed in this mode. *)
Theorem tx_mode_run (Replace : string → string) (SchemaTable : Type)
    (ParseSchemaTable : string → SchemaTable + error) (String_ MySQL : SchemaTable → string)
    (QuoteIdentifier : string → string) (w : snapshotflow.World)
    (config : FlowConnectionConfigs) r tr :
  snapshotflow.answer w [] CreateSession = None →
  DoInitialSnapshot config = true →
  InitialSnapshotOnly config = true →
  SnapshotFlowWorkflow Replace SchemaTable ParseSchemaTable String_ MySQL QuoteIdentifier
    w config [] = (r, tr) →
  let fMaintain :=
    MaintainTx (SessionID w) (snapshotflow.SourceName config) (snapshotflow.Env config) in
  let fExportSnapshot := WaitForExportSnapshot (SessionID w) in
  let n := Z.max (SnapshotNumTablesInParallel config) 1 in
  let started := [CreateSession; fMaintain; fExportSnapshot] in
  match selected w with
  | SelDone ctxErr =>
      tr = started ++ [CompleteSession] ∧ r = inr (snapshotflow.Errored ctxErr)
  | SelMaintainTx =>
      tr = started ++ [CompleteSession]
      ∧ r = match snapshotflow.answer w [CreateSession] fMaintain with
            | Some sessionError => inr (snapshotflow.Errored sessionError)
            | None => inr snapshotflow.Panicked
            end
  | SelExportSnapshot =>
      match snapshotflow.answer w [CreateSession; fMaintain] fExportSnapshot with
      | Some sessionError =>
          tr = started ++ [CompleteSession]
          ∧ r = inr (snapshotflow.Errored sessionError)
      | None =>
          ∃ evs,
            tr = started ++ [NewBoundSelector n] ++ evs ++ [Wait; CompleteSession]
            ∧ Forall ofCloneTable evs
            ∧ r = match snapshotflow.answer w
                          (started ++ [NewBoundSelector n] ++ evs) Wait with
                  | None => inl ()
                  | Some err =>
                      inr (snapshotflow.Errored (Errorf "failed to clone tables: " err))
                  end
      end
  end.
Proof.
  intros Hs Hdo Honly Hrun. cbv zeta.
  rewrite (run_tx_mode _ _ _ _ _ _ _ _ Hs Hdo Honly) in Hrun.
  destruct (selected w); [by injection Hrun as <- <-| |by injection Hrun as <- <-].
  destruct (snapshotflow.answer w _ (WaitForExportSnapshot _)); [by injection Hrun as <- <-|].
  cbv zeta in Hrun. destruct (cloneTables _ _ _ _ _ _ _ _ _ _ _ _ _ _) as [r1 tr1] eqn:E.
  injection Hrun as <- <-.
  apply cloneTables_spec in E as (evs & cloned & -> & Hof & -> & _).
  exists evs. split.
  { cbn [fst snd app]. rewrite <- ?(assoc_L (++)). cbn [app]. by rewrite <- ?(assoc_L (++)). }
  split; [done|]. cbn [fst app]. by destruct (snapshotflow.answer w _ Wait).
Qed.

(** X22 at concrete inputs, where its hypotheses hold. *)
Lemma tx_mode_run_witness :
  snapshotflow.answer scenario.snapshotWorld [] CreateSession = None
  ∧ DoInitialSnapshot (scenario.snapshotConfig true true) = true
  ∧ InitialSnapshotOnly (scenario.snapshotConfig true true) = true
  ∧ SnapshotFlowWorkflow scenario.ReplaceIllegalCharactersWithUnderscores string
      scenario.ParseSchemaTable id id scenario.QuoteIdentifier scenario.snapshotWorld
      (scenario.snapshotConfig true true) []
    = ((scenario.snapshotRun true true).1, (scenario.snapshotRun true true).2)
  ∧ ∃ evs,
      (scenario.snapshotRun true true).2
      = [CreateSession;
         MaintainTx (SessionID scenario.snapshotWorld)
           (snapshotflow.SourceName (scenario.snapshotConfig true true))
           (snapshotflow.Env (scenario.snapshotConfig true true));
         WaitForExportSnapshot (SessionID scenario.snapshotWorld)]
        ++ [NewBoundSelector
              (Z.max (SnapshotNumTablesInParallel (scenario.snapshotConfig true true)) 1)]
        ++ evs ++ [Wait; CompleteSession]
      ∧ Forall ofCloneTable evs
      ∧ (scenario.snapshotRun true true).1 = inl ().
Proof.
  assert (snapshotflow.answer scenario.snapshotWorld [] CreateSession = None) as Hs
    by reflexivity.
  assert (DoInitialSnapshot (scenario.snapshotConfig true true) = true) as Hdo
    by reflexivity.
  assert (InitialSnapshotOnly (scenario.snapshotConfig true true) = true) as Honly
    by reflexivity.
  assert (SnapshotFlowWorkflow scenario.ReplaceIllegalCharactersWithUnderscores string
            scenario.ParseSchemaTable id id scenario.QuoteIdentifier
            scenario.snapshotWorld (scenario.snapshotConfig true true) []
          = ((scenario.snapshotRun true true).1, (scenario.snapshotRun true true).2))
    as Hrun by (vm_compute; reflexivity).
  split; [exact Hs|]. split; [exact Hdo|]. split; [exact Honly|]. split; [exact Hrun|].
  exact (tx_mode_run _ _ _ _ _ _ _ _ _ _ Hs Hdo Honly Hrun).
Defined.

Section snapshot_frame.
Context (Replace : string → string).
Context (SchemaTable : Type).
Context (ParseSchemaTable : string → SchemaTable + error).
Context (String_ MySQL : SchemaTable → string).
Context (QuoteIdentifier : string → string).
Context (w : snapshotflow.World).
Context (config : FlowConnectionConfigs).

#[local] Abbreviation cloneTable' :=
  (cloneTable Replace SchemaTable ParseSchemaTable String_ MySQL QuoteIdentifier w config).
#[local] Abbreviation cloneLoop' :=
  (cloneLoop Replace SchemaTable ParseSchemaTable String_ MySQL QuoteIdentifier w config).
#[local] Abbreviation cloneTables' :=
  (cloneTables Replace SchemaTable ParseSchemaTable String_ MySQL QuoteIdentifier w config).
#[local] Abbreviation SnapshotFlowWorkflow' :=
  (SnapshotFlowWorkflow Replace SchemaTable ParseSchemaTable String_ MySQL QuoteIdentifier
     w config).

Lemma SnapshotFlowWorkflow_frame r tr :
  SnapshotFlowWorkflow' [] = (r, tr) →
  if reachesCloneTables w config then
    ∃ st slot pre r1 tr1 post,
      cloneTables' st slot (snapshotNameOf w config) (supportsTIDScansOf w config)
        (Z.max (SnapshotNumTablesInParallel config) 1) pre = (r1, tr1)
      ∧ tr = tr1 ++ post
      ∧ Forall apart pre ∧ Forall apart post
      ∧ (r1 = inl () → r = inl ())
  else Forall apart tr.
Proof.
  intros Hrun. unfold reachesCloneTables, snapshotNameOf, supportsTIDScansOf.
  destruct (snapshotflow.answer w [] CreateSession) as [err|] eqn:Hs.
  { rewrite (run_no_session _ _ _ _ _ _ _ _ _ Hs) in Hrun. injection Hrun as <- <-.
    rewrite andb_false_r. by repeat constructor. }
  destruct (DoInitialSnapshot config) eqn:Hdo.
  2:{ rewrite (run_setup_only _ _ _ _ _ _ _ _ Hs Hdo) in Hrun. cbn [andb].
      destruct (snapshotflow.answer w [CreateSession] _); injection Hrun as <- <-;
        by repeat constructor. }
  cbn [andb].
  destruct (InitialSnapshotOnly config) eqn:Honly.
  - rewrite (run_tx_mode _ _ _ _ _ _ _ _ Hs Hdo Honly) in Hrun.
    destruct (selected w);
      [injection Hrun as <- <-; by repeat constructor| |
       injection Hrun as <- <-; by repeat constructor].
    destruct (snapshotflow.answer w _ (WaitForExportSnapshot _));
      [injection Hrun as <- <-; by repeat constructor|].
    cbv zeta in Hrun.
    destruct (cloneTables _ _ _ _ _ _ _ _ _ _ _ _ _ _) as [r1 tr1] eqn:E.
    injection Hrun as <- <-. cbn [fst snd].
    eexists _, _, _, r1, tr1, _. split; [exact E|]. split; [done|].
    split; [by repeat constructor|]. split; [by repeat constructor|]. by intros ->.
  - rewrite (run_slot_mode _ _ _ _ _ _ _ _ Hs Hdo Honly) in Hrun.
    destruct (snapshotflow.answer w [CreateSession] _);
      [injection Hrun as <- <-; by repeat constructor|].
    cbv zeta in Hrun.
    destruct (cloneTables _ _ _ _ _ _ _ _ _ _ _ _ _ _) as [r1 tr1] eqn:E.
    injection Hrun as <- <-. cbn [fst snd].
    eexists _, _, _, r1, tr1, _. split; [exact E|]. split; [done|].
    split; [by repeat constructor|]. split; [by repeat constructor|]. by intros ->.
Qed.

Lemma cloneTable_no_schema snapshotName mapping tr r tr' :
  Exclude mapping = [] →
  peerType w (snapshotflow.DestinationName config) ≠ DBType_ELASTICSEARCH →
  cloneTable' snapshotName mapping tr = (r, tr') →
  ∃ evs, tr' = tr ++ evs ∧ Forall (λ e, isLoadTableSchema e = false) evs.
Proof.
  intros Hex Hes.
  unfold cloneTable, initTableSchema, peerTypeOf, call, snapshotflow.record, snapshotflow.stop,
    mbind, M_bind, mret, M_ret.
  destruct (ParseSchemaTable _) as [parsed|err].
  2:{ intros [= <- <-]. exists []. by rewrite app_nil_r. }
  rewrite Hex. rewrite (bool_decide_eq_false_2 (len [] ≠ 0)) by (by intros []).
  cbv beta iota zeta. cbn [fst snd]. intros Hrun.
  repeat match type of Hrun with
  | context [snapshotflow.answer w ?t ?e] =>
      destruct (snapshotflow.answer w t e) eqn:?;
      cbv beta iota zeta in Hrun; cbn [fst snd] in Hrun
  | context [bool_decide (?x = DBType_ELASTICSEARCH)] =>
      rewrite (bool_decide_eq_false_2 (x = DBType_ELASTICSEARCH)) in Hrun by done;
      cbv beta iota zeta in Hrun; cbn [fst snd] in Hrun
  end.
  all: injection Hrun as <- <-.
  all: rewrite <- ?(assoc_L (++)).
  all: eexists; split; [reflexivity|]; by repeat constructor.
Qed.

Lemma cloneLoop_no_schema snapshotName col mappings tr r tr' :
  Forall (λ v, Exclude v = []) mappings →
  peerType w (snapshotflow.DestinationName config) ≠ DBType_ELASTICSEARCH →
  cloneLoop' snapshotName col mappings tr = (r, tr') →
  ∃ evs, tr' = tr ++ evs ∧ Forall (λ e, isLoadTableSchema e = false) evs.
Proof.
  intros Hex Hes. revert tr r tr'.
  induction Hex as [|v rest Hv _ IH]; intros tr r tr'.
  { intros [= <- <-]. exists []. by rewrite app_nil_r. }
  simpl. destruct (cloneTable' _ _ tr) as [r1 tr1] eqn:E.
  apply cloneTable_no_schema in E as (evs1 & -> & H1); [|
    unfold withDefaultPartitionKey; by case_bool_decide | done].
  assert (∀ r tr', cloneLoop' snapshotName col rest (tr ++ evs1) = (r, tr') →
            ∃ evs, tr' = tr ++ evs ∧ Forall (λ e, isLoadTableSchema e = false) evs) as Hrest.
  { intros r2 tr2 E2. destruct (IH _ _ _ E2) as (evs2 & -> & H2).
    exists (evs1 ++ evs2). split; [by rewrite app_assoc|]. by apply Forall_app. }
  destruct r1 as [[]|[err|]]; [by apply Hrest..|].
  intros [= <- <-]. by exists evs1.
Qed.

End snapshot_frame.

Lemma filter_none_length {A} (P : A → Prop) `{!∀ x, Decision (P x)} (l : list A) :
  Forall (λ x, ¬ P x) l → length (filter P l) = 0%nat.
Proof.
  induction 1 as [|x l Hx _ IH]; [done|]. by rewrite filter_cons_False.
Qed.

(** X23.  The children of the snapshot flow.  They copy tables of the
    configuration, each at most once and in the order of the
    configuration; a table whose child cannot be started is left out
    without failing the workflow.  Every child is an initial copy without
    resync, reads the snapshot of the mode, has a write mode (upsert on the
    primary key for Elasticsearch, append otherwise), at least one worker
    and a positive partition size, and is partitioned by ctid when the
    mapping names no partition key and the source supports TID scans.  So
    the QRep workflow of a child never panics, and when it continues as new
    it does so completed, with its configuration unchanged.  When every
    call succeeds and every table name parses, all tables are cloned and
    the workflow returns nil. *)
Theorem snapshot_children (Replace : string → string) (SchemaTable : Type)
    (ParseSchemaTable : string → SchemaTable + error) (String_ MySQL : SchemaTable → string)
    (QuoteIdentifier : string → string) (w : snapshotflow.World)
    (config : FlowConnectionConfigs) r tr :
  SnapshotFlowWorkflow Replace SchemaTable ParseSchemaTable String_ MySQL QuoteIdentifier
    w config [] = (r, tr) →
  ∃ cloned,
    cloned `sublist_of` TableMappings config
    ∧ Forall2 (λ v child,
         let v' :=
           withDefaultPartitionKey (defaultPartitionCol (supportsTIDScansOf w config)) v in
         child.1.1 = childID Replace w config v
         ∧ clones w config (snapshotNameOf w config) v' child.1.1 child.1.2 child.2)
        cloned (children tr)
    ∧ (reachesCloneTables w config = false → cloned = [])
    ∧ Forall (λ child,
         ∀ FSH w' st h m',
           QRepFlowWorkflow FSH w' child.1.2 st = (h, m') →
           h ≠ temporal.Panicked
           ∧ ∀ c s, h = ContinueAsNew c s →
               c = child.1.2 ∧ CurrentFlowStatus s = STATUS_COMPLETED)
        (children tr)
    ∧ ((∀ tr e, snapshotflow.answer w tr e = None) →
       Forall (λ v, is_Some (match ParseSchemaTable (SourceTableIdentifier v) with
                             | inl p => Some p | inr _ => None end))
         (TableMappings config) →
       reachesCloneTables w config = true →
       cloned = TableMappings config ∧ r = inl ()).
Proof.
  intros Hrun.
  assert (∃ cloned,
    cloned `sublist_of` TableMappings config
    ∧ Forall2 (λ v child,
         let v' :=
           withDefaultPartitionKey (defaultPartitionCol (supportsTIDScansOf w config)) v in
         child.1.1 = childID Replace w config v
         ∧ clones w config (snapshotNameOf w config) v' child.1.1 child.1.2 child.2)
        cloned (children tr)
    ∧ (reachesCloneTables w config = false → cloned = [])
    ∧ ((∀ tr e, snapshotflow.answer w tr e = None) →
       Forall (λ v, is_Some (match ParseSchemaTable (SourceTableIdentifier v) with
                             | inl p => Some p | inr _ => None end))
         (TableMappings config) →
       reachesCloneTables w config = true →
       cloned = TableMappings config ∧ r = inl ())) as (cloned & Hsub & Hall & Hnone & Htot).
  { apply SnapshotFlowWorkflow_frame in Hrun.
    destruct (reachesCloneTables w config).
    2:{ exists []. split; [apply sublist_nil_l|]. split.
        - rewrite children_none; [constructor|].
          eapply Forall_impl; [exact Hrun|]. by intros e [].
        - by split. }
    destruct Hrun as (st & slot & pre & r1 & tr1 & post & E & -> & Hpre & Hpost & Hr).
    apply cloneTables_spec in E as (evs & cloned & -> & Hof & Hr1 & Hsub & Hall & _ & Htot).
    exists cloned. split; [done|]. split.
    { rewrite !children_app.
      rewrite (children_none pre), (children_none post)
        by (eapply Forall_impl; [eassumption|]; by intros e []).
      cbn [children omap app]. rewrite app_nil_r.
      change (omap _ evs) with (children evs). rewrite app_nil_r.
      eapply Forall2_impl; [exact Hall|]. intros v child [Hid Hcl]. split; [|done].
      rewrite Hid. unfold childID, withDefaultPartitionKey. by case_bool_decide. }
    split; [done|]. intros Hans Hparse _.
    split; [by apply Htot|]. apply Hr. by rewrite Hr1, Hans. }
  exists cloned. do 3 (split; [done|]). split; [|done].
  apply Forall2_Forall_r with (Q := λ child, ∃ v wid snap,
    clones w config snap v wid child.1.2 child.2) in Hall.
  2:{ apply Forall_forall. intros v _ child [_ Hcl]. by eexists _, _, _. }
  eapply Forall_impl; [exact Hall|].
  intros child (v & wid & snap & Hcl) FSH w' st h m' Hq.
  destruct Hcl as (_ & _ & _ & Hico & Hfull & Hwm & _).
  split.
  - unfold QRepFlowWorkflow in Hq.
    destruct (runQRepFlow FSH w' (enter child.1.2 st)) as [r0 m0] eqn:Hrun0.
    pose proof (no_panic_runQRepFlow FSH w' _ (enter child.1.2 st) r0 m0 Hwm Hrun0) as Hinv.
    destruct r0; [done|]. injection Hq as <- <-. exact Hinv.
  - intros c s ->.
    destruct (initial_copy_continues FSH w' _ st c s m' Hico Hq) as (Hstatus & _).
    split; [|done].
    destruct (cycle_continues FSH w' _ st c s m' Hq)
      as (_ & _ & evs1 & evs2 & mid & evs3 & Htr & Hok1 & Hok2 & Hok3 & Hcases).
    destruct Hcases as [(_ & _ & Hc) | [(_ & _ & Hc & _) | (Hno & _)]]; [| |congruence].
    + rewrite Hc, Hfull. by rewrite andb_false_r.
    + rewrite Hc, Hfull. by rewrite andb_false_r.
Qed.

(** X23 at concrete inputs, where its hypotheses hold. *)
Lemma snapshot_children_witness :
  SnapshotFlowWorkflow scenario.ReplaceIllegalCharactersWithUnderscores string
    scenario.ParseSchemaTable id id scenario.QuoteIdentifier scenario.snapshotWorld
    (scenario.snapshotConfig true false) []
  = ((scenario.snapshotRun true false).1, (scenario.snapshotRun true false).2)
  ∧ ∃ cloned,
      cloned `sublist_of` TableMappings (scenario.snapshotConfig true false)
      ∧ Forall (λ child,
           ∀ FSH w' st h m',
             QRepFlowWorkflow FSH w' child.1.2 st = (h, m') →
             h ≠ temporal.Panicked
             ∧ ∀ c s, h = ContinueAsNew c s →
                 c = child.1.2 ∧ CurrentFlowStatus s = STATUS_COMPLETED)
          (children (scenario.snapshotRun true false).2).
Proof.
  assert (SnapshotFlowWorkflow scenario.ReplaceIllegalCharactersWithUnderscores string
            scenario.ParseSchemaTable id id scenario.QuoteIdentifier
            scenario.snapshotWorld (scenario.snapshotConfig true false) []
          = ((scenario.snapshotRun true false).1, (scenario.snapshotRun true false).2))
    as Hrun by (vm_compute; reflexivity).
  split; [exact Hrun|].
  destruct (snapshot_children _ _ _ _ _ _ _ _ _ _ Hrun)
    as (cloned & Hsub & _ & _ & Hall & _).
  exists cloned. exact (conj Hsub Hall).
Defined.

(** X24.  The schema of a table is loaded at most once for each table of
    the configuration, although both the exclusion of columns and the
    upsert into Elasticsearch need it; and it is not loaded at all when no
    mapping excludes a column and the destination is not Elasticsearch. *)
Theorem schema_loaded_at_most_once (Replace : string → string) (SchemaTable : Type)
    (ParseSchemaTable : string → SchemaTable + error) (String_ MySQL : SchemaTable → string)
    (QuoteIdentifier : string → string) (w : snapshotflow.World)
    (config : FlowConnectionConfigs) r tr :
  SnapshotFlowWorkflow Replace SchemaTable ParseSchemaTable String_ MySQL QuoteIdentifier
    w config [] = (r, tr) →
  (length (filter (λ e, isLoadTableSchema e = true) tr) ≤ length (TableMappings config))%nat
  ∧ (Forall (λ v, Exclude v = []) (TableMappings config) →
     peerType w (snapshotflow.DestinationName config) ≠ DBType_ELASTICSEARCH →
     Forall (λ e, isLoadTableSchema e = false) tr).
Proof.
  intros Hrun. apply SnapshotFlowWorkflow_frame in Hrun.
  assert (∀ l, Forall apart l → Forall (λ e, isLoadTableSchema e = false) l) as Hap.
  { intros l Hl. eapply Forall_impl; [exact Hl|]. by intros e []. }
  assert (∀ l, Forall (λ e, isLoadTableSchema e = false) l →
               length (filter (λ e, isLoadTableSchema e = true) l) = 0%nat) as Hzero.
  { intros l Hl. apply filter_none_length. eapply Forall_impl; [exact Hl|].
    intros e He. by rewrite He. }
  destruct (reachesCloneTables w config).
  2:{ split; [|by intros; apply Hap]. rewrite Hzero by by apply Hap. lia. }
  destruct Hrun as (st & slot & pre & r1 & tr1 & post & E & -> & Hpre & Hpost & Hr).
  split.
  - apply cloneTables_spec in E as (evs & cloned & -> & Hof & _ & _ & _ & Hl & _).
    rewrite !filter_app, !length_app.
    rewrite (Hzero pre), (Hzero post) by by apply Hap. simpl. lia.
  - intros Hex Hes. apply Forall_app. split; [|by apply Hap].
    unfold cloneTables, mbind, M_bind, snapshotflow.record in E.
    destruct (cloneLoop _ _ _ _ _ _ _ _ _ _ _ _) as [r2 tr2] eqn:E2.
    pose proof (cloneLoop_spec _ _ _ _ _ _ _ _ _ _ _ _ _ _ E2) as [-> _].
    apply cloneLoop_no_schema in E2 as (evs & -> & Hevs); [|done..].
    assert (tr1 = ((pre ++ [NewBoundSelector (Z.max (SnapshotNumTablesInParallel config) 1)])
                   ++ evs) ++ [Wait]) as ->.
    { unfold call in E. destruct (snapshotflow.answer w _ Wait); by injection E as <- <-. }
    repeat (first [apply Forall_app; split | apply Forall_cons; split | apply Forall_nil_2]);
      try done.
    by apply Hap.
Qed.

(** X24 at concrete inputs, where its hypotheses hold. *)
Lemma schema_loaded_at_most_once_witness :
  SnapshotFlowWorkflow scenario.ReplaceIllegalCharactersWithUnderscores string
    scenario.ParseSchemaTable id id scenario.QuoteIdentifier scenario.snapshotWorld
    (scenario.snapshotConfig true false) []
  = ((scenario.snapshotRun true false).1, (scenario.snapshotRun true false).2)
  ∧ (length (filter (λ e, isLoadTableSchema e = true) (scenario.snapshotRun true false).2)
     ≤ length (TableMappings (scenario.snapshotConfig true false)))%nat.
Proof.
  assert (SnapshotFlowWorkflow scenario.ReplaceIllegalCharactersWithUnderscores string
            scenario.ParseSchemaTable id id scenario.QuoteIdentifier
            scenario.snapshotWorld (scenario.snapshotConfig true false) []
          = ((scenario.snapshotRun true false).1, (scenario.snapshotRun true false).2))
    as Hrun by (vm_compute; reflexivity).
  split; [exact Hrun|].
  exact (proj1 (schema_loaded_at_most_once _ _ _ _ _ _ _ _ _ _ Hrun)).
Defined.
